(** * DAGflowtoCode: node-graph editor core

    A shallow embedding of the scene/graph model of the editor
    (Node.cpp, Connection.cpp, GroupNode.cpp, NodeScene.cpp,
    UndoCommands.cpp) together with the properties its specification
    states about port geometry, grouping, undo/redo and serialization.

    Conventions.
    - [qreal] (a C++ double) is idealised as an exact rational [Q]; every
      arithmetic statement below is a statement about the exact formulas
      the code evaluates, not about their rounding.
    - [int] is [Z]; no computation modelled here comes near the 32-bit range.
    - Objects live in a heap: a [Node*] is an address into [heap_nodes],
      a [Connection*] an address into [heap_conns].  Operations on an
      address outside the heap do nothing, which is also how the null
      guards of the source ([if (conn->getFromNode()) ...]) read here. *)

From Stdlib Require Import ZArith QArith Lqa Lia String.
From stdpp Require Import gmap list strings pretty.

Set Warnings "-clear-no-such-hyp".

Abbreviation NodePtr := nat (only parsing).
Abbreviation ConnPtr := nat (only parsing).

(** ** Qt helpers: qMax, qMin, qBound, QPointF *)

Definition Qltb (a b : Q) : bool := negb (Qle_bool b a).

(** [qMax(a, b)] is [(a < b) ? b : a], [qMin(a, b)] is [(a < b) ? a : b]. *)
Definition qMaxZ (a b : Z) : Z := if (a <? b)%Z then b else a.
Definition qMaxQ (a b : Q) : Q := if Qltb a b then b else a.
Definition qMinQ (a b : Q) : Q := if Qltb a b then a else b.

(** [qBound(min, val, max)] is [qMax(min, qMin(max, val))]. *)
Definition qBound (lo v hi : Q) : Q := qMaxQ lo (qMinQ hi v).

Record QPointF : Type := mkPoint { px : Q; py : Q }.

Definition pt_add (a b : QPointF) : QPointF :=
  mkPoint (px a + px b)%Q (py a + py b)%Q.
Definition pt_sub (a b : QPointF) : QPointF :=
  mkPoint (px a - px b)%Q (py a - py b)%Q.
Definition pt_div (a : QPointF) (d : Q) : QPointF :=
  mkPoint (px a / d)%Q (py a / d)%Q.
Definition pt_zero : QPointF := mkPoint 0 0.

(** Coordinate-wise rational equality of points. *)
Definition pt_eq (a b : QPointF) : Prop :=
  (px a == px b)%Q /\ (py a == py b)%Q.

(** ** The data model (Node.h, Connection.h, GroupNode.h) *)

(** [Connection::LineType] is stored and serialised as its integer value. *)
Definition Bezier : Z := 0.
Definition Straight : Z := 1.
Definition Orthogonal : Z := 2.

Record Connection : Type := mkConnection {
  m_fromNode : NodePtr;
  m_toNode : NodePtr;
  m_fromPortIndex : Z;
  m_toPortIndex : Z;
  m_lineType : Z
}.

Record PortMapping : Type := mkPortMapping {
  pm_internalNode : NodePtr;
  pm_internalPortIndex : Z;
  pm_isInput : bool;
  pm_portLabel : string
}.

Record ExternalConnection : Type := mkExternalConnection {
  externalNode : NodePtr;
  externalPortIndex : Z;
  internalNode : NodePtr;
  internalPortIndex : Z;
  isInput : bool;
  originalConnection : option ConnPtr   (* [None] is the null pointer *)
}.

(** The members a [GroupNode] adds to [Node].  [m_originalPositions] is a
    [QMap<Node*, QPointF>]: an association list kept sorted by key, which
    is the order a QMap is iterated in. *)
Record GroupData : Type := mkGroupData {
  m_internalNodes : list NodePtr;
  m_internalConnections : list ConnPtr;
  m_externalConnections : list ExternalConnection;
  m_inputPortMappings : list PortMapping;
  m_outputPortMappings : list PortMapping;
  m_originalPositions : list (NodePtr * QPointF);
  m_groupLevel : Z
}.

(** A [Node] object; [m_group] is [Some] exactly for instances of the
    subclass [GroupNode] (what [dynamic_cast<GroupNode*>] tests).
    [m_pos] is [QGraphicsItem::pos()]; nodes are top-level items, so it is
    also [scenePos()].  A [QColor] is kept as its [name()]. *)
Record Node : Type := mkNode {
  m_type : string;
  m_name : string;
  m_parameters : list string;
  m_pos : QPointF;
  m_connections : list ConnPtr;
  m_customColor : string;
  m_useCustomColor : bool;
  m_displayTypeName : string;
  m_inputPortCount : Z;
  m_outputPortCount : Z;
  m_width : Q;
  m_height : Q;
  m_group : option GroupData
}.

Definition DEFAULT_WIDTH : Q := 120.
Definition DEFAULT_HEIGHT : Q := 70.
Definition MIN_WIDTH : Q := 80.
Definition MIN_HEIGHT : Q := 50.
Definition MAX_WIDTH : Q := 300.
Definition MAX_HEIGHT : Q := 200.

(** *** Field updates *)

Definition set_pos (p : QPointF) (n : Node) : Node :=
  mkNode (m_type n) (m_name n) (m_parameters n) p (m_connections n)
    (m_customColor n) (m_useCustomColor n) (m_displayTypeName n)
    (m_inputPortCount n) (m_outputPortCount n) (m_width n) (m_height n)
    (m_group n).

Definition set_name (s : string) (n : Node) : Node :=
  mkNode (m_type n) s (m_parameters n) (m_pos n) (m_connections n)
    (m_customColor n) (m_useCustomColor n) (m_displayTypeName n)
    (m_inputPortCount n) (m_outputPortCount n) (m_width n) (m_height n)
    (m_group n).

Definition set_parameters (ps : list string) (n : Node) : Node :=
  mkNode (m_type n) (m_name n) ps (m_pos n) (m_connections n)
    (m_customColor n) (m_useCustomColor n) (m_displayTypeName n)
    (m_inputPortCount n) (m_outputPortCount n) (m_width n) (m_height n)
    (m_group n).

Definition set_connections (cs : list ConnPtr) (n : Node) : Node :=
  mkNode (m_type n) (m_name n) (m_parameters n) (m_pos n) cs
    (m_customColor n) (m_useCustomColor n) (m_displayTypeName n)
    (m_inputPortCount n) (m_outputPortCount n) (m_width n) (m_height n)
    (m_group n).

Definition set_group (g : option GroupData) (n : Node) : Node :=
  mkNode (m_type n) (m_name n) (m_parameters n) (m_pos n) (m_connections n)
    (m_customColor n) (m_useCustomColor n) (m_displayTypeName n)
    (m_inputPortCount n) (m_outputPortCount n) (m_width n) (m_height n) g.

(** ** Node.cpp *)

(** [Node::setCustomColor] *)
Definition setCustomColor (color : string) (n : Node) : Node :=
  mkNode (m_type n) (m_name n) (m_parameters n) (m_pos n) (m_connections n)
    color true (m_displayTypeName n)
    (m_inputPortCount n) (m_outputPortCount n) (m_width n) (m_height n)
    (m_group n).

(** [Node::setDisplayTypeName] *)
Definition setDisplayTypeName (name : string) (n : Node) : Node :=
  mkNode (m_type n) (m_name n) (m_parameters n) (m_pos n) (m_connections n)
    (m_customColor n) (m_useCustomColor n) name
    (m_inputPortCount n) (m_outputPortCount n) (m_width n) (m_height n)
    (m_group n).

(** [Node::setInputPortCount]: the stored count only changes when it
    differs from the clamped argument. *)
Definition setInputPortCount (count : Z) (n : Node) : Node :=
  let newCount := qMaxZ 0 count in
  if (m_inputPortCount n =? newCount)%Z then n
  else mkNode (m_type n) (m_name n) (m_parameters n) (m_pos n)
         (m_connections n) (m_customColor n) (m_useCustomColor n)
         (m_displayTypeName n) newCount (m_outputPortCount n)
         (m_width n) (m_height n) (m_group n).

(** [Node::setOutputPortCount] *)
Definition setOutputPortCount (count : Z) (n : Node) : Node :=
  let newCount := qMaxZ 0 count in
  if (m_outputPortCount n =? newCount)%Z then n
  else mkNode (m_type n) (m_name n) (m_parameters n) (m_pos n)
         (m_connections n) (m_customColor n) (m_useCustomColor n)
         (m_displayTypeName n) (m_inputPortCount n) newCount
         (m_width n) (m_height n) (m_group n).

(** [Node::addConnection] and [Node::removeConnection]
    ([QList::append], [QList::removeAll]). *)
Definition removeAll (x : nat) (l : list nat) : list nat :=
  filter (fun y => y <> x) l.

Definition addConnection (c : ConnPtr) (n : Node) : Node :=
  set_connections (m_connections n ++ [c]) n.

Definition removeConnection (c : ConnPtr) (n : Node) : Node :=
  set_connections (removeAll c (m_connections n)) n.

(** [calculatePortYOffset] (static helper of Node.cpp). *)
Definition calculatePortYOffset (portIndex totalPorts : Z) (nodeHeight : Q) : Q :=
  if (totalPorts <=? 0)%Z then 0%Q
  else if (totalPorts =? 1)%Z then 0%Q
  else
    let usableHeight := (nodeHeight * 0.8)%Q in
    let startY := (- usableHeight / 2)%Q in
    let spacing := (usableHeight / inject_Z (totalPorts - 1))%Q in
    (startY + inject_Z portIndex * spacing)%Q.

(** [Node::getInputPortPos(int)] *)
Definition getInputPortPos (n : Node) (portIndex : Z) : QPointF :=
  if (m_inputPortCount n <=? 0)%Z then
    pt_add (m_pos n) (mkPoint (- m_width n / 2)%Q 0)
  else
    let portIndex :=
      if ((portIndex <? 0) || (m_inputPortCount n <=? portIndex))%Z
      then 0%Z else portIndex in
    let yOffset := calculatePortYOffset portIndex (m_inputPortCount n) (m_height n) in
    pt_add (m_pos n) (mkPoint (- m_width n / 2)%Q yOffset).

(** [Node::getOutputPortPos(int)] *)
Definition getOutputPortPos (n : Node) (portIndex : Z) : QPointF :=
  if (m_outputPortCount n <=? 0)%Z then
    pt_add (m_pos n) (mkPoint (m_width n / 2)%Q 0)
  else
    let portIndex :=
      if ((portIndex <? 0) || (m_outputPortCount n <=? portIndex))%Z
      then 0%Z else portIndex in
    let yOffset := calculatePortYOffset portIndex (m_outputPortCount n) (m_height n) in
    pt_add (m_pos n) (mkPoint (m_width n / 2)%Q yOffset).

(** [Node::setSize] *)
Definition setSize (width height : Q) (n : Node) : Node :=
  mkNode (m_type n) (m_name n) (m_parameters n) (m_pos n) (m_connections n)
    (m_customColor n) (m_useCustomColor n) (m_displayTypeName n)
    (m_inputPortCount n) (m_outputPortCount n)
    (qBound MIN_WIDTH width MAX_WIDTH) (qBound MIN_HEIGHT height MAX_HEIGHT)
    (m_group n).

(** ** QJsonValue / QJsonObject

    A JSON number is a double.  An object is a list of key/value pairs in
    which a key occurs at most once ([obj_set] replaces); reading an absent
    key gives the undefined value, which every accessor below turns into
    its default, as [QJsonValue::toString], [toInt], [toBool], [toDouble],
    [toArray] and [toObject] do. *)

#[warnings="-register-all"] Inductive Json : Type :=
| JUndefined
| JNull
| JBool (b : bool)
| JDouble (q : Q)
| JString (s : string)
| JArray (l : list Json)
| JObject (o : list (string * Json)).

Abbreviation JsonObject := (list (string * Json)) (only parsing).

Fixpoint obj_get (k : string) (o : list (string * Json)) : Json :=
  match o with
  | [] => JUndefined
  | (k', v) :: o' => if String.eqb k k' then v else obj_get k o'
  end.

Fixpoint obj_set (k : string) (v : Json) (o : list (string * Json))
  : list (string * Json) :=
  match o with
  | [] => [(k, v)]
  | (k', v') :: o' =>
      if String.eqb k k' then (k, v) :: o' else (k', v') :: obj_set k v o'
  end.

Definition obj_contains (k : string) (o : list (string * Json)) : bool :=
  match obj_get k o with JUndefined => false | _ => true end.

Definition toString (v : Json) : string :=
  match v with JString s => s | _ => "" end.

Definition toDouble (v : Json) : Q :=
  match v with JDouble q => q | _ => 0%Q end.

(** [toInt(d)]: the number when it is whole, else the default.  Numbers
    are taken within the range of [int], as every document the program
    writes has them; outside it Qt gives the default. *)
Definition toInt (v : Json) (d : Z) : Z :=
  match v with
  | JDouble q => if Pos.eqb (Qden (Qred q)) 1 then Qnum (Qred q) else d
  | _ => d
  end.

Definition toBool (v : Json) (d : bool) : bool :=
  match v with JBool b => b | _ => d end.

Definition toArray (v : Json) : list Json :=
  match v with JArray l => l | _ => [] end.

Definition toObject (v : Json) : list (string * Json) :=
  match v with JObject o => o | _ => [] end.

Definition isObject (v : Json) : bool :=
  match v with JObject _ => true | _ => false end.

Definition JInt (z : Z) : Json := JDouble (inject_Z z).

(** [QString::number(reinterpret_cast<quintptr>(p))] *)
Definition ptr_number (p : nat) : string := pretty p.

(** ** NodeTemplate and NodeLibrary (the fields a [Node] reads) *)

Record NodeTemplate : Type := mkNodeTemplate {
  t_typeId : string;
  t_displayName : string;
  t_color : string;
  t_inputPortCount : Z;
  t_outputPortCount : Z
}.

(** [NodeTemplate::NodeTemplate()] *)
Definition default_template : NodeTemplate :=
  mkNodeTemplate "" "" "#a0a0a4" 1 1.

(** [NodeTemplate::isValid] *)
Definition isValid (t : NodeTemplate) : bool :=
  negb (String.eqb (t_typeId t) "") && negb (String.eqb (t_displayName t) "").

(** ** The program state

    The two heaps, the allocator, the lists a [NodeScene] owns, the
    template table of the [NodeLibrary] singleton and the two function-local
    [static int] counters ([nodeCount] of [NodeScene::createNode],
    [pasteCount] of [PasteCommand::redo]).  The Qt item registry
    ([addItem]/[removeItem]) mirrors the two lists and is not kept; a
    connection's painter path is recomputed from the port positions on
    demand ([updatePath]) and is not kept either. *)

Record State : Type := mkState {
  heap_nodes : gmap nat Node;
  heap_conns : gmap nat Connection;
  next_addr : nat;
  s_nodes : list NodePtr;
  s_connections : list ConnPtr;
  m_templates : gmap string NodeTemplate;
  nodeCount : Z;
  pasteCount : Z
}.

Definition with_heap_nodes (h : gmap nat Node) (st : State) : State :=
  mkState h (heap_conns st) (next_addr st) (s_nodes st) (s_connections st)
    (m_templates st) (nodeCount st) (pasteCount st).

Definition with_s_nodes (l : list NodePtr) (st : State) : State :=
  mkState (heap_nodes st) (heap_conns st) (next_addr st) l (s_connections st)
    (m_templates st) (nodeCount st) (pasteCount st).

Definition with_s_connections (l : list ConnPtr) (st : State) : State :=
  mkState (heap_nodes st) (heap_conns st) (next_addr st) (s_nodes st) l
    (m_templates st) (nodeCount st) (pasteCount st).

(** Apply a member function to the object at an address. *)
Definition on_node (p : NodePtr) (f : Node -> Node) (st : State) : State :=
  with_heap_nodes (alter f p (heap_nodes st)) st.

(** [new Node(...)] / [new GroupNode(...)]: the object is placed at the next
    free address. *)
Definition alloc_node (n : Node) (st : State) : NodePtr * State :=
  (next_addr st,
   mkState (<[next_addr st := n]> (heap_nodes st)) (heap_conns st)
     (S (next_addr st)) (s_nodes st) (s_connections st)
     (m_templates st) (nodeCount st) (pasteCount st)).

Definition alloc_conn (c : Connection) (st : State) : ConnPtr * State :=
  (next_addr st,
   mkState (heap_nodes st) (<[next_addr st := c]> (heap_conns st))
     (S (next_addr st)) (s_nodes st) (s_connections st)
     (m_templates st) (nodeCount st) (pasteCount st)).

(** Reading through a pointer; an address outside the heap reads as the
    default-constructed value. *)
Definition node_pos (st : State) (p : NodePtr) : QPointF :=
  from_option m_pos pt_zero (heap_nodes st !! p).
Definition node_name (st : State) (p : NodePtr) : string :=
  from_option m_name "" (heap_nodes st !! p).
Definition node_connections (st : State) (p : NodePtr) : list ConnPtr :=
  from_option m_connections [] (heap_nodes st !! p).
Definition getInputPortCount (st : State) (p : NodePtr) : Z :=
  from_option m_inputPortCount 0%Z (heap_nodes st !! p).
Definition getOutputPortCount (st : State) (p : NodePtr) : Z :=
  from_option m_outputPortCount 0%Z (heap_nodes st !! p).

(** [NodeLibrary::getTemplate] *)
Definition getTemplate (st : State) (typeId : string) : NodeTemplate :=
  default default_template (m_templates st !! typeId).

(** [Node::Node(type, name, position)] *)
Definition Node_ctor (st : State) (type name : string) (position : QPointF) : Node :=
  let tmpl := getTemplate st type in
  if isValid tmpl then
    mkNode type name [] position [] (t_color tmpl) true (t_displayName tmpl)
      (t_inputPortCount tmpl) (t_outputPortCount tmpl)
      DEFAULT_WIDTH DEFAULT_HEIGHT None
  else
    mkNode type name [] position [] "#a0a0a4" false "" 1 1
      DEFAULT_WIDTH DEFAULT_HEIGHT None.

(** [GroupNode::GroupNode(name, position)] *)
Definition GroupNode_ctor (st : State) (name : string) (position : QPointF) : Node :=
  set_group (Some (mkGroupData [] [] [] [] [] [] 1))
    (setDisplayTypeName "组合节点"
       (setCustomColor "#6495ed" (Node_ctor st "group" name position))).

(** [Connection::Connection(fromNode, fromPortIndex, toNode, toPortIndex)]
    with [initConnection]: the new object registers itself with both
    endpoints. *)
Definition Connection_ctor (fromNode : NodePtr) (fromPortIndex : Z)
    (toNode : NodePtr) (toPortIndex : Z) (st : State) : ConnPtr * State :=
  let '(c, st) :=
    alloc_conn (mkConnection fromNode toNode fromPortIndex toPortIndex Bezier) st in
  (c, on_node toNode (addConnection c) (on_node fromNode (addConnection c) st)).

(** [Connection::setLineType] *)
Definition setLineType (type : Z) (c : ConnPtr) (st : State) : State :=
  mkState (heap_nodes st)
    (alter (fun r => mkConnection (m_fromNode r) (m_toNode r)
                       (m_fromPortIndex r) (m_toPortIndex r) type)
       c (heap_conns st))
    (next_addr st) (s_nodes st) (s_connections st)
    (m_templates st) (nodeCount st) (pasteCount st).

(** ** NodeScene.cpp: the primitives the commands use *)

(** [QString("节点%1").arg(nodeCount++)] *)
Definition node_name_of_count (k : Z) : string := "节点" +:+ pretty k.

(** [NodeScene::createNode] *)
Definition createNode (type : string) (position : QPointF) (st : State)
  : NodePtr * State :=
  let name := node_name_of_count (nodeCount st) in
  let st := mkState (heap_nodes st) (heap_conns st) (next_addr st)
              (s_nodes st) (s_connections st) (m_templates st)
              (nodeCount st + 1)%Z (pasteCount st) in
  let '(node, st) := alloc_node (Node_ctor st type name position) st in
  (node, with_s_nodes (s_nodes st ++ [node]) st).

(** [NodeScene::removeNodeFromScene] *)
Definition removeNodeFromScene (node : NodePtr) (st : State) : State :=
  with_s_nodes (removeAll node (s_nodes st)) st.

(** [NodeScene::restoreNodeToScene] *)
Definition restoreNodeToScene (node : NodePtr) (st : State) : State :=
  with_s_nodes (s_nodes st ++ [node]) st.

(** [NodeScene::createConnection] *)
Definition createConnection (fromNode : NodePtr) (fromPort : Z)
    (toNode : NodePtr) (toPort : Z) (st : State) : ConnPtr * State :=
  let '(connection, st) := Connection_ctor fromNode fromPort toNode toPort st in
  (connection, with_s_connections (s_connections st ++ [connection]) st).

(** [conn->getFromNode()], [conn->getToNode()]: the endpoints of the
    connection object at an address, if there is one. *)
Definition getFromNode (st : State) (conn : ConnPtr) : option NodePtr :=
  m_fromNode <$> heap_conns st !! conn.
Definition getToNode (st : State) (conn : ConnPtr) : option NodePtr :=
  m_toNode <$> heap_conns st !! conn.

Definition on_node_opt (p : option NodePtr) (f : Node -> Node) (st : State) : State :=
  match p with Some p => on_node p f st | None => st end.

(** [NodeScene::removeConnectionFromScene] *)
Definition removeConnectionFromScene (conn : ConnPtr) (st : State) : State :=
  let st := on_node_opt (getFromNode st conn) (removeConnection conn) st in
  let st := on_node_opt (getToNode st conn) (removeConnection conn) st in
  with_s_connections (removeAll conn (s_connections st)) st.

(** [NodeScene::restoreConnectionToScene] *)
Definition restoreConnectionToScene (conn : ConnPtr) (st : State) : State :=
  let st := on_node_opt (getFromNode st conn) (addConnection conn) st in
  let st := on_node_opt (getToNode st conn) (addConnection conn) st in
  with_s_connections (s_connections st ++ [conn]) st.

(** A [for (x : xs) op(x);] loop. *)
Definition for_each {A} (op : A -> State -> State) (xs : list A) (st : State) : State :=
  foldl (fun st x => op x st) st xs.

(** [NodeScene::validateFlow] *)
Definition validateFlow (st : State) : bool :=
  forallb (fun conn =>
             match getFromNode st conn, getToNode st conn with
             | Some f, Some t =>
                 bool_decide (f ∈ s_nodes st) && bool_decide (t ∈ s_nodes st)
             | _, _ => false
             end) (s_connections st).

(** ** Serialisation of single objects *)

(** [Node::toJson] (not virtual: a [GroupNode] reached through a [Node*]
    is written by this function as well). *)
Definition Node_toJson (p : NodePtr) (n : Node) : list (string * Json) :=
  let json := [] in
  let json := obj_set "id" (JString (ptr_number p)) json in
  let json := obj_set "type" (JString (m_type n)) json in
  let json := obj_set "name" (JString (m_name n)) json in
  let json := obj_set "x" (JDouble (px (m_pos n))) json in
  let json := obj_set "y" (JDouble (py (m_pos n))) json in
  let json := obj_set "parameters" (JArray (JString <$> m_parameters n)) json in
  let json := if m_useCustomColor n
              then obj_set "customColor" (JString (m_customColor n)) json
              else json in
  let json := if negb (String.eqb (m_displayTypeName n) "")
              then obj_set "displayTypeName" (JString (m_displayTypeName n)) json
              else json in
  let json := obj_set "inputPortCount" (JInt (m_inputPortCount n)) json in
  let json := obj_set "outputPortCount" (JInt (m_outputPortCount n)) json in
  let json := obj_set "width" (JDouble (m_width n)) json in
  let json := obj_set "height" (JDouble (m_height n)) json in
  json.

Definition node_toJson (st : State) (p : NodePtr) : list (string * Json) :=
  from_option (Node_toJson p) [] (heap_nodes st !! p).

(** [Node::fromJson]: builds the object; the caller places it.  The
    colour is kept as the string read, which is its [name()] for every
    document the program writes (Qt re-reads the string through [QColor],
    so a name in upper case comes back in lower case). *)
Definition Node_fromJson (st : State) (json : list (string * Json)) : Node :=
  let type := toString (obj_get "type" json) in
  let name := toString (obj_get "name" json) in
  let '(x, y) :=
    if obj_contains "position" json && isObject (obj_get "position" json) then
      let posObj := toObject (obj_get "position" json) in
      (toDouble (obj_get "x" posObj), toDouble (obj_get "y" posObj))
    else (toDouble (obj_get "x" json), toDouble (obj_get "y" json)) in
  let node := Node_ctor st type name (mkPoint x y) in
  let node := set_parameters (toString <$> toArray (obj_get "parameters" json)) node in
  let node := if obj_contains "customColor" json
              then setCustomColor (toString (obj_get "customColor" json)) node
              else node in
  let node := if obj_contains "displayTypeName" json
              then setDisplayTypeName (toString (obj_get "displayTypeName" json)) node
              else node in
  let node := if obj_contains "inputPortCount" json
              then setInputPortCount (toInt (obj_get "inputPortCount" json) 0) node
              else node in
  let node := if obj_contains "outputPortCount" json
              then setOutputPortCount (toInt (obj_get "outputPortCount" json) 0) node
              else node in
  let node := if obj_contains "width" json && obj_contains "height" json
              then setSize (toDouble (obj_get "width" json))
                     (toDouble (obj_get "height" json)) node
              else node in
  node.

(** [Connection::toJson] *)
Definition Connection_toJson (c : Connection) : list (string * Json) :=
  let json := [] in
  let json := obj_set "fromNode" (JString (ptr_number (m_fromNode c))) json in
  let json := obj_set "toNode" (JString (ptr_number (m_toNode c))) json in
  let json := obj_set "fromPortIndex" (JInt (m_fromPortIndex c)) json in
  let json := obj_set "toPortIndex" (JInt (m_toPortIndex c)) json in
  let json := obj_set "lineType" (JInt (m_lineType c)) json in
  json.

Definition conn_toJson (st : State) (c : ConnPtr) : list (string * Json) :=
  from_option Connection_toJson [] (heap_conns st !! c).

(** ** GroupNode.cpp *)

(** [GroupNode::setGroupLevel] *)
Definition setGroupLevel (level : Z) (n : Node) : Node :=
  let level := if (level <? 1)%Z then 1%Z else level in
  let level := if (99 <? level)%Z then 99%Z else level in
  match m_group n with
  | Some gd =>
      set_group (Some (mkGroupData (m_internalNodes gd) (m_internalConnections gd)
                         (m_externalConnections gd) (m_inputPortMappings gd)
                         (m_outputPortMappings gd) (m_originalPositions gd) level)) n
  | None => n
  end.

(** [setInternalNodes], [setInternalConnections], [setExternalConnections],
    [setOriginalPositions], in the order [GroupNodesCommand::redo] calls
    them. *)
Definition setGroupContents (nodes : list NodePtr) (conns : list ConnPtr)
    (exts : list ExternalConnection) (positions : list (NodePtr * QPointF))
    (n : Node) : Node :=
  match m_group n with
  | Some gd =>
      set_group (Some (mkGroupData nodes conns exts (m_inputPortMappings gd)
                         (m_outputPortMappings gd) positions (m_groupLevel gd))) n
  | None => n
  end.

(** The keys of [connectedPorts]: the string
    [QString("%1_%2_in").arg(quintptr(node)).arg(port)] (or [..._out])
    determines and is determined by the triple (node, port, direction);
    the triple stands for it, with [true] for [_in]. *)
Abbreviation PortKey := (nat * Z * bool)%type (only parsing).

Definition label_of (st : State) (node : NodePtr) (port : Z) : string :=
  node_name st node +:+ "[" +:+ pretty port +:+ "]".

(** First loop: both ends of every internal connection are connected. *)
Definition mark_internal (st : State) (connectedPorts : gset PortKey)
    (conn : ConnPtr) : gset PortKey :=
  match heap_conns st !! conn with
  | Some c =>
      {[ (m_toNode c, m_toPortIndex c, true) ]} ∪
      ({[ (m_fromNode c, m_fromPortIndex c, false) ]} ∪ connectedPorts)
  | None => connectedPorts
  end.

(** Second loop: every external descriptor appends one mapping to its list
    and marks its internal port. *)
Definition map_external (st : State)
    (acc : list PortMapping * list PortMapping * gset PortKey)
    (extConn : ExternalConnection)
  : list PortMapping * list PortMapping * gset PortKey :=
  let '(inputs, outputs, connectedPorts) := acc in
  let mapping :=
    mkPortMapping (internalNode extConn) (internalPortIndex extConn)
      (isInput extConn)
      (label_of st (internalNode extConn) (internalPortIndex extConn)) in
  if isInput extConn then
    (inputs ++ [mapping], outputs,
     {[ (internalNode extConn, internalPortIndex extConn, true) ]} ∪ connectedPorts)
  else
    (inputs, outputs ++ [mapping],
     {[ (internalNode extConn, internalPortIndex extConn, false) ]} ∪ connectedPorts).

(** Third loop, inner part: the ports of one direction of one node that
    are not in [connectedPorts]. *)
Definition map_dangling (st : State) (connectedPorts : gset PortKey)
    (node : NodePtr) (input : bool) (mappings : list PortMapping) (i : Z)
  : list PortMapping :=
  if bool_decide ((node, i, input) ∈ connectedPorts) then mappings
  else mappings ++ [mkPortMapping node i input (label_of st node i)].

Definition map_node (st : State) (connectedPorts : gset PortKey)
    (acc : list PortMapping * list PortMapping) (node : NodePtr)
  : list PortMapping * list PortMapping :=
  let '(inputs, outputs) := acc in
  (foldl (map_dangling st connectedPorts node true) inputs
     (seqZ 0 (getInputPortCount st node)),
   foldl (map_dangling st connectedPorts node false) outputs
     (seqZ 0 (getOutputPortCount st node))).

(** The two mapping lists [calculatePortMappings] builds. *)
Definition portMappings (st : State) (gd : GroupData)
  : list PortMapping * list PortMapping :=
  let connectedPorts := foldl (mark_internal st) ∅ (m_internalConnections gd) in
  let '(inputs, outputs, connectedPorts) :=
    foldl (map_external st) ([], [], connectedPorts) (m_externalConnections gd) in
  foldl (map_node st connectedPorts) (inputs, outputs) (m_internalNodes gd).

(** [GroupNode::calculatePortMappings], as a function on the group object. *)
Definition GroupNode_calculatePortMappings (st : State) (n : Node) : Node :=
  match m_group n with
  | None => n
  | Some gd =>
      let '(inputs, outputs) := portMappings st gd in
      let n := set_group
                 (Some (mkGroupData (m_internalNodes gd) (m_internalConnections gd)
                          (m_externalConnections gd) inputs outputs
                          (m_originalPositions gd) (m_groupLevel gd))) n in
      let inputCount := qMaxZ 1 (Z.of_nat (length inputs)) in
      let outputCount := qMaxZ 1 (Z.of_nat (length outputs)) in
      let n := setInputPortCount inputCount n in
      let n := setOutputPortCount outputCount n in
      let maxPorts := qMaxZ inputCount outputCount in
      let minHeight := inject_Z (50 + maxPorts * 20) in
      let currentHeight := m_height n in
      let n := if Qltb currentHeight minHeight
               then setSize (m_width n) minHeight n else n in
      let minWidth := 150%Q in
      let n := if Qltb (m_width n) minWidth
               then setSize minWidth (m_height n) n else n in
      n
  end.

Definition calculatePortMappings (group : NodePtr) (st : State) : State :=
  on_node group (GroupNode_calculatePortMappings st) st.

(** ** QMap<Node*, QPointF> *)

Fixpoint qmap_insert (k : NodePtr) (v : QPointF) (m : list (NodePtr * QPointF))
  : list (NodePtr * QPointF) :=
  match m with
  | [] => [(k, v)]
  | (k', v') :: m' =>
      if (k <? k')%nat then (k, v) :: m
      else if (k =? k')%nat then (k, v) :: m'
      else (k', v') :: qmap_insert k v m'
  end.

Fixpoint qmap_find (k : NodePtr) (m : list (NodePtr * QPointF)) : option QPointF :=
  match m with
  | [] => None
  | (k', v') :: m' => if (k =? k')%nat then Some v' else qmap_find k m'
  end.

(** The non-const [operator[]]: a missing key is first inserted with a
    default-constructed value.  Returns the value and the map afterwards. *)
Definition qmap_index (k : NodePtr) (m : list (NodePtr * QPointF))
  : QPointF * list (NodePtr * QPointF) :=
  match qmap_find k m with
  | Some v => (v, m)
  | None => (pt_zero, qmap_insert k pt_zero m)
  end.

(** [QPointF c(0,0); for (...) c += p; c /= n;] *)
Definition centroid (ps : list QPointF) : QPointF :=
  pt_div (foldl pt_add pt_zero ps) (inject_Z (Z.of_nat (length ps))).

(** ** UndoCommands.cpp *)

(** The command objects, each with the members its class declares. *)
Inductive Command : Type :=
| AddNodeCommand (m_type : string) (m_pos : QPointF)
    (m_node : option NodePtr) (m_ownsNode : bool)
| DeleteCommand (m_nodeData m_connectionData : list (list (string * Json)))
    (m_deletedNodes : list NodePtr) (m_deletedConnections : list ConnPtr)
    (m_ownsItems : bool)
| MoveNodeCommand (m_node : NodePtr) (m_oldPos m_newPos : QPointF)
| MoveNodesCommand (m_nodes : list NodePtr)
    (m_oldPositions m_newPositions : list QPointF)
| AddConnectionCommand (m_fromNode m_toNode : NodePtr) (m_fromPort m_toPort : Z)
    (m_connection : option ConnPtr) (m_ownsConnection : bool)
| PasteCommand (m_clipboardData : list (string * Json)) (m_offset : QPointF)
    (m_pastedNodes : list NodePtr) (m_pastedConnections : list ConnPtr)
    (m_ownsItems : bool)
| GroupNodesCommand (m_nodes : list NodePtr)
    (m_internalConnections : list ConnPtr)
    (m_externalConnections : list ExternalConnection)
    (m_externalConnectionPtrs : list ConnPtr)
    (m_originalPositions : list (NodePtr * QPointF))
    (m_groupNode : option NodePtr)
    (m_newExternalConnections : list ConnPtr)
    (m_firstRedo : bool)
| UngroupNodesCommand (m_groupNode : NodePtr)
    (m_internalNodes : list NodePtr)
    (m_internalConnections : list ConnPtr)
    (m_externalConnections : list ExternalConnection)
    (m_groupExternalConnections : list ConnPtr)
    (m_originalPositions : list (NodePtr * QPointF))
    (m_firstRedo : bool).

(** [QUndoCommand::id]: only [MoveNodeCommand] overrides the default -1. *)
Definition id (c : Command) : Z :=
  match c with MoveNodeCommand _ _ _ => 1%Z | _ => (-1)%Z end.

(** *** Constructors *)

Definition new_AddNodeCommand (type : string) (pos : QPointF) : Command :=
  AddNodeCommand type pos None false.

Definition connData (st : State) (conn : ConnPtr) : list (string * Json) :=
  match heap_conns st !! conn with
  | Some c =>
      let d := [] in
      let d := obj_set "fromNodePtr" (JString (ptr_number (m_fromNode c))) d in
      let d := obj_set "toNodePtr" (JString (ptr_number (m_toNode c))) d in
      let d := obj_set "fromPort" (JInt (m_fromPortIndex c)) d in
      let d := obj_set "toPort" (JInt (m_toPortIndex c)) d in
      let d := obj_set "lineType" (JInt (m_lineType c)) d in
      d
  | None => []
  end.

Definition new_DeleteCommand (st : State) (nodes : list NodePtr)
    (connections : list ConnPtr) : Command :=
  DeleteCommand (node_toJson st <$> nodes) (connData st <$> connections)
    nodes connections false.

Definition new_AddConnectionCommand (fromNode : NodePtr) (fromPort : Z)
    (toNode : NodePtr) (toPort : Z) : Command :=
  AddConnectionCommand fromNode toNode fromPort toPort None false.

Definition new_PasteCommand (clipboardData : list (string * Json))
    (offset : QPointF) : Command :=
  PasteCommand clipboardData offset [] [] false.

(** The constructor records the position of every node and the original
    connection of every external descriptor (the descriptors built by
    [groupSelected] all carry one). *)
Definition new_GroupNodesCommand (st : State) (nodes : list NodePtr)
    (internalConnections : list ConnPtr)
    (externalConnections : list ExternalConnection) : Command :=
  GroupNodesCommand nodes internalConnections externalConnections
    (omap originalConnection externalConnections)
    (foldl (fun m node => qmap_insert node (node_pos st node) m) [] nodes)
    None [] true.

Definition group_data (st : State) (p : NodePtr) : GroupData :=
  default (mkGroupData [] [] [] [] [] [] 1) (heap_nodes st !! p ≫= m_group).

Definition new_UngroupNodesCommand (st : State) (groupNode : NodePtr) : Command :=
  let gd := group_data st groupNode in
  UngroupNodesCommand groupNode (m_internalNodes gd) (m_internalConnections gd)
    (m_externalConnections gd) (node_connections st groupNode)
    (m_originalPositions gd) true.

(** *** PasteCommand::redo, first execution *)

(** One iteration of the node loop; [acc] is ([newNodeMap], [m_pastedNodes],
    state). *)
Definition paste_node (offset : QPointF)
    (acc : gmap string NodePtr * list NodePtr * State) (nodeValue : Json)
  : gmap string NodePtr * list NodePtr * State :=
  let '(newNodeMap, pastedNodes, st) := acc in
  let nodeObj := toObject nodeValue in
  let copyId := toString (obj_get "copyId" nodeObj) in
  let newNode := Node_fromJson st nodeObj in
  let newX := (toDouble (obj_get "relX" nodeObj) + px offset)%Q in
  let newY := (toDouble (obj_get "relY" nodeObj) + py offset)%Q in
  let newNode := set_pos (mkPoint newX newY) newNode in
  let newNode :=
    set_name (m_name newNode +:+ " (副本" +:+ pretty (pasteCount st) +:+ ")") newNode in
  let '(p, st) := alloc_node newNode st in
  let st := with_s_nodes (s_nodes st ++ [p]) st in
  (<[copyId := p]> newNodeMap, pastedNodes ++ [p], st).

(** One iteration of the connection loop. *)
Definition paste_connection (newNodeMap : gmap string NodePtr)
    (acc : list ConnPtr * State) (connValue : Json) : list ConnPtr * State :=
  let '(pastedConnections, st) := acc in
  let connObj := toObject connValue in
  let fromCopyId := toString (obj_get "fromCopyId" connObj) in
  let toCopyId := toString (obj_get "toCopyId" connObj) in
  match newNodeMap !! fromCopyId, newNodeMap !! toCopyId with
  | Some fromNode, Some toNode =>
      let fromPort := toInt (obj_get "fromPort" connObj) 0 in
      let toPort := toInt (obj_get "toPort" connObj) 0 in
      let '(newConn, st) := Connection_ctor fromNode fromPort toNode toPort st in
      let st := if obj_contains "lineType" connObj
                then setLineType (toInt (obj_get "lineType" connObj) 0) newConn st
                else st in
      let st := with_s_connections (s_connections st ++ [newConn]) st in
      (pastedConnections ++ [newConn], st)
  | _, _ => (pastedConnections, st)
  end.

Definition bump_pasteCount (st : State) : State :=
  mkState (heap_nodes st) (heap_conns st) (next_addr st) (s_nodes st)
    (s_connections st) (m_templates st) (nodeCount st) (pasteCount st + 1)%Z.

(** *** GroupNodesCommand::redo, first execution *)

(** The index of the first mapping with this internal node and port; 0
    when there is none. *)
Definition groupPortIndex (mappings : list PortMapping) (ext : ExternalConnection) : Z :=
  match list_find (fun pm => pm_internalNode pm = internalNode ext /\
                             pm_internalPortIndex pm = internalPortIndex ext)
          mappings with
  | Some (j, _) => Z.of_nat j
  | None => 0%Z
  end.

(** One iteration of the loop that connects the group to the outside. *)
Definition connect_group (groupNode : NodePtr)
    (inputMappings outputMappings : list PortMapping)
    (acc : list ConnPtr * State) (ext : ExternalConnection) : list ConnPtr * State :=
  let '(newExternalConnections, st) := acc in
  let '(newConn, st) :=
    if isInput ext then
      Connection_ctor (externalNode ext) (externalPortIndex ext)
        groupNode (groupPortIndex inputMappings ext) st
    else
      Connection_ctor groupNode (groupPortIndex outputMappings ext)
        (externalNode ext) (externalPortIndex ext) st in
  let st := with_s_connections (s_connections st ++ [newConn]) st in
  (newExternalConnections ++ [newConn], st).

(** [node->setPos(m_originalPositions[node] + offset); restoreNodeToScene(node);]
    with the map threaded through, since [operator[]] may grow it. *)
Definition restore_node (offset : QPointF)
    (acc : list (NodePtr * QPointF) * State) (node : NodePtr)
  : list (NodePtr * QPointF) * State :=
  let '(originalPositions, st) := acc in
  let '(v, originalPositions) := qmap_index node originalPositions in
  (originalPositions,
   restoreNodeToScene node (on_node node (set_pos (pt_add v offset)) st)).

(** [GroupNodesCommand::undo] sets [m_originalPositions[node]] itself. *)
Definition restore_node_exact
    (acc : list (NodePtr * QPointF) * State) (node : NodePtr)
  : list (NodePtr * QPointF) * State :=
  let '(originalPositions, st) := acc in
  let '(v, originalPositions) := qmap_index node originalPositions in
  (originalPositions, restoreNodeToScene node (on_node node (set_pos v) st)).

Definition restore_original (ext : ExternalConnection) (st : State) : State :=
  match originalConnection ext with
  | Some c => restoreConnectionToScene c st
  | None => st
  end.

Definition remove_original (ext : ExternalConnection) (st : State) : State :=
  match originalConnection ext with
  | Some c => removeConnectionFromScene c st
  | None => st
  end.

(** [m_nodes[i]->setPos(positions[i])] for every index of [m_nodes]. *)
Definition set_positions (nodes : list NodePtr) (positions : list QPointF)
    (st : State) : State :=
  for_each (fun np => on_node np.1 (set_pos np.2)) (zip nodes positions) st.

(** *** redo *)

Definition redo (cmd : Command) (st : State) : Command * State :=
  match cmd with
  | AddNodeCommand type pos None _ =>
      let '(node, st) := createNode type pos st in
      (AddNodeCommand type pos (Some node) false, st)
  | AddNodeCommand type pos (Some node) _ =>
      (AddNodeCommand type pos (Some node) false, restoreNodeToScene node st)
  | DeleteCommand nd cd nodes conns _ =>
      let st := for_each removeConnectionFromScene conns st in
      let st := for_each removeNodeFromScene nodes st in
      (DeleteCommand nd cd nodes conns true, st)
  | MoveNodeCommand node oldPos newPos =>
      (cmd, on_node node (set_pos newPos) st)
  | MoveNodesCommand nodes oldPositions newPositions =>
      (cmd, set_positions nodes newPositions st)
  | AddConnectionCommand f t fp tp None _ =>
      let '(c, st) := createConnection f fp t tp st in
      (AddConnectionCommand f t fp tp (Some c) false, st)
  | AddConnectionCommand f t fp tp (Some c) _ =>
      (AddConnectionCommand f t fp tp (Some c) false, restoreConnectionToScene c st)
  | PasteCommand clip offset [] pastedConns _ =>
      let '(newNodeMap, pastedNodes, st) :=
        foldl (paste_node offset) (∅, [], st) (toArray (obj_get "nodes" clip)) in
      let st := bump_pasteCount st in
      let '(pastedConns, st) :=
        foldl (paste_connection newNodeMap) (pastedConns, st)
          (toArray (obj_get "connections" clip)) in
      (PasteCommand clip offset pastedNodes pastedConns false, st)
  | PasteCommand clip offset pastedNodes pastedConns _ =>
      let st := for_each restoreNodeToScene pastedNodes st in
      let st := for_each restoreConnectionToScene pastedConns st in
      (PasteCommand clip offset pastedNodes pastedConns false, st)
  | GroupNodesCommand nodes ics exts extPtrs origPos _ newExts true =>
      let center := centroid (node_pos st <$> nodes) in
      let '(g, st) := alloc_node (GroupNode_ctor st "组合" center) st in
      let st := on_node g (setGroupContents nodes ics exts origPos) st in
      let st := calculatePortMappings g st in
      let st := for_each removeConnectionFromScene extPtrs st in
      let st := for_each removeConnectionFromScene ics st in
      let st := for_each removeNodeFromScene nodes st in
      let st := with_s_nodes (s_nodes st ++ [g]) st in
      let inputMappings := m_inputPortMappings (group_data st g) in
      let outputMappings := m_outputPortMappings (group_data st g) in
      let '(newExts, st) :=
        foldl (connect_group g inputMappings outputMappings) (newExts, st) exts in
      (GroupNodesCommand nodes ics exts extPtrs origPos (Some g) newExts false, st)
  | GroupNodesCommand nodes ics exts extPtrs origPos group newExts false =>
      let st := for_each removeConnectionFromScene extPtrs st in
      let st := for_each removeConnectionFromScene ics st in
      let st := for_each removeNodeFromScene nodes st in
      let st := match group with
                | Some g => restoreNodeToScene g st
                | None => st
                end in
      let st := for_each restoreConnectionToScene newExts st in
      (cmd, st)
  | UngroupNodesCommand g nodes ics exts groupExts origPos firstRedo =>
      let st := for_each removeConnectionFromScene groupExts st in
      let st := removeNodeFromScene g st in
      let groupPos := node_pos st g in
      let originalCenter := centroid (origPos.*2) in
      let offset := pt_sub groupPos originalCenter in
      let '(origPos, st) := foldl (restore_node offset) (origPos, st) nodes in
      let st := for_each restoreConnectionToScene ics st in
      let st := for_each restore_original exts st in
      (UngroupNodesCommand g nodes ics exts groupExts origPos firstRedo, st)
  end.

(** *** undo *)

Definition undo (cmd : Command) (st : State) : Command * State :=
  match cmd with
  | AddNodeCommand type pos (Some node) _ =>
      (AddNodeCommand type pos (Some node) true, removeNodeFromScene node st)
  | AddNodeCommand _ _ None _ => (cmd, st)
  | DeleteCommand nd cd nodes conns _ =>
      let st := for_each restoreNodeToScene nodes st in
      let st := for_each restoreConnectionToScene conns st in
      (DeleteCommand nd cd nodes conns false, st)
  | MoveNodeCommand node oldPos newPos =>
      (cmd, on_node node (set_pos oldPos) st)
  | MoveNodesCommand nodes oldPositions newPositions =>
      (cmd, set_positions nodes oldPositions st)
  | AddConnectionCommand f t fp tp (Some c) _ =>
      (AddConnectionCommand f t fp tp (Some c) true, removeConnectionFromScene c st)
  | AddConnectionCommand _ _ _ _ None _ => (cmd, st)
  | PasteCommand clip offset pastedNodes pastedConns _ =>
      let st := for_each removeConnectionFromScene pastedConns st in
      let st := for_each removeNodeFromScene pastedNodes st in
      (PasteCommand clip offset pastedNodes pastedConns true, st)
  | GroupNodesCommand nodes ics exts extPtrs origPos (Some g) newExts firstRedo =>
      let st := for_each removeConnectionFromScene newExts st in
      let st := removeNodeFromScene g st in
      let '(origPos, st) := foldl restore_node_exact (origPos, st) nodes in
      let st := for_each restoreConnectionToScene ics st in
      let st := for_each restoreConnectionToScene extPtrs st in
      (GroupNodesCommand nodes ics exts extPtrs origPos (Some g) newExts firstRedo, st)
  | GroupNodesCommand _ _ _ _ _ None _ _ => (cmd, st)
  | UngroupNodesCommand g nodes ics exts groupExts origPos firstRedo =>
      let st := for_each remove_original exts st in
      let st := for_each removeConnectionFromScene ics st in
      let st := for_each removeNodeFromScene nodes st in
      let st := restoreNodeToScene g st in
      let st := for_each restoreConnectionToScene groupExts st in
      (cmd, st)
  end.

(** [MoveNodeCommand::mergeWith]; every other class keeps
    [QUndoCommand::mergeWith], which returns false.  [None] is false,
    [Some c] is true with [c] the receiver afterwards. *)
Definition mergeWith (cmd other : Command) : option Command :=
  match cmd with
  | MoveNodeCommand node oldPos newPos =>
      if negb (id other =? id cmd)%Z then None
      else match other with
           | MoveNodeCommand node' _ newPos' =>
               if negb (node' =? node)%nat then None
               else Some (MoveNodeCommand node oldPos newPos')
           | _ => None
           end
  | _ => None
  end.

(** ** QUndoStack

    Qt's contract for the three calls the editor makes.  [push] executes
    the command, drops the undone tail, and tries to merge into the current
    command when both have the same id and that id is not -1 (no macro is
    ever open and the stack is never marked clean, so Qt's two further
    conditions are always met); otherwise it appends.  [index] counts the
    commands that are done, i.e. the entries [undo] can take back. *)

Record QUndoStack : Type := mkUndoStack {
  command_list : list Command;
  index : nat
}.

Definition push (cmd : Command) (us : QUndoStack) (st : State) : QUndoStack * State :=
  let '(cmd, st) := redo cmd st in
  let cur := if (index us =? 0)%nat then None
             else command_list us !! (index us - 1)%nat in
  let kept := take (index us) (command_list us) in
  let appended := (mkUndoStack (kept ++ [cmd]) (S (index us)), st) in
  match cur with
  | Some c =>
      if negb (id c =? -1)%Z && (id c =? id cmd)%Z then
        match mergeWith c cmd with
        | Some c' => (mkUndoStack (<[(index us - 1)%nat := c']> kept) (index us), st)
        | None => appended
        end
      else appended
  | None => appended
  end.

Definition stack_undo (us : QUndoStack) (st : State) : QUndoStack * State :=
  match index us with
  | O => (us, st)
  | S idx =>
      match command_list us !! idx with
      | Some cmd =>
          let '(cmd, st) := undo cmd st in
          (mkUndoStack (<[idx := cmd]> (command_list us)) idx, st)
      | None => (us, st)
      end
  end.

Definition stack_redo (us : QUndoStack) (st : State) : QUndoStack * State :=
  match command_list us !! index us with
  | Some cmd =>
      let '(cmd, st) := redo cmd st in
      (mkUndoStack (<[index us := cmd]> (command_list us)) (S (index us)), st)
  | None => (us, st)
  end.

(** ** NodeScene.cpp: the operations of the editor

    A [NodeScene] is the state above together with its undo stack.  The
    selection is an input of the operations that read it: a list of scene
    items, each a node or a connection. *)

Inductive Item : Type :=
| ItemNode (p : NodePtr)
| ItemConn (c : ConnPtr).

Definition as_node (it : Item) : option NodePtr :=
  match it with ItemNode p => Some p | ItemConn _ => None end.
Definition as_conn (it : Item) : option ConnPtr :=
  match it with ItemConn c => Some c | ItemNode _ => None end.

(** [dynamic_cast<GroupNode*>(item)] *)
Definition as_group (st : State) (it : Item) : option NodePtr :=
  match it with
  | ItemNode p =>
      match heap_nodes st !! p ≫= m_group with Some _ => Some p | None => None end
  | ItemConn _ => None
  end.

Record NodeScene : Type := mkScene {
  scene_state : State;
  m_undoStack : QUndoStack
}.

Definition scene_push (cmd : Command) (sc : NodeScene) : NodeScene :=
  let '(us, st) := push cmd (m_undoStack sc) (scene_state sc) in mkScene st us.

Definition scene_undo (sc : NodeScene) : NodeScene :=
  let '(us, st) := stack_undo (m_undoStack sc) (scene_state sc) in mkScene st us.

Definition scene_redo (sc : NodeScene) : NodeScene :=
  let '(us, st) := stack_redo (m_undoStack sc) (scene_state sc) in mkScene st us.

(** [NodeScene::addNode] *)
Definition addNode (type : string) (position : QPointF) (sc : NodeScene) : NodeScene :=
  scene_push (new_AddNodeCommand type position) sc.

(** [NodeScene::addConnection(Node*, int, Node*, int)] *)
Definition scene_addConnection (fromNode : NodePtr) (fromPortIndex : Z)
    (toNode : NodePtr) (toPortIndex : Z) (sc : NodeScene) : NodeScene :=
  scene_push (new_AddConnectionCommand fromNode fromPortIndex toNode toPortIndex) sc.

(** The single-node branch of [Node::mouseReleaseEvent]: the node has been
    dragged from [dragStartPos] to its current position; it is put back and
    a move command is pushed (whose [redo] moves it again). *)
Definition releaseSingleMove (node : NodePtr) (dragStartPos : QPointF)
    (sc : NodeScene) : NodeScene :=
  let newPos := node_pos (scene_state sc) node in
  let st := on_node node (set_pos dragStartPos) (scene_state sc) in
  scene_push (MoveNodeCommand node dragStartPos newPos) (mkScene st (m_undoStack sc)).

(** [NodeScene::deleteSelected] *)
Definition deleteSelected (selected : list Item) (sc : NodeScene) : NodeScene :=
  let st := scene_state sc in
  match selected with
  | [] => sc
  | _ =>
      let nodesToDelete := omap as_node selected in
      let connectionsToDelete := omap as_conn selected in
      let connectionsToDelete :=
        foldl (fun acc node =>
                 foldl (fun acc conn =>
                          if bool_decide (conn ∈ acc) then acc else acc ++ [conn])
                   acc (node_connections st node))
          connectionsToDelete nodesToDelete in
      match nodesToDelete, connectionsToDelete with
      | [], [] => sc
      | _, _ => scene_push (new_DeleteCommand st nodesToDelete connectionsToDelete) sc
      end
  end.

(** [NodeScene::canGroup], [NodeScene::canUngroup] *)
Definition canGroup (selected : list Item) : bool :=
  (2 <=? length (omap as_node selected))%nat.

Definition canUngroup (st : State) (selected : list Item) : bool :=
  match omap (as_group st) selected with [] => false | _ => true end.

(** The classification loop of [groupSelected]; [acc] is
    ([internalConnections], [externalConnections]). *)
Definition classify (st : State) (nodeSet : gset NodePtr)
    (acc : list ConnPtr * list ExternalConnection) (conn : ConnPtr)
  : list ConnPtr * list ExternalConnection :=
  let '(internalConnections, externalConnections) := acc in
  match heap_conns st !! conn with
  | None => acc
  | Some c =>
      let fromInGroup := bool_decide (m_fromNode c ∈ nodeSet) in
      let toInGroup := bool_decide (m_toNode c ∈ nodeSet) in
      if fromInGroup && toInGroup then
        (internalConnections ++ [conn], externalConnections)
      else if fromInGroup && negb toInGroup then
        (internalConnections,
         externalConnections ++
           [mkExternalConnection (m_toNode c) (m_toPortIndex c)
              (m_fromNode c) (m_fromPortIndex c) false (Some conn)])
      else if negb fromInGroup && toInGroup then
        (internalConnections,
         externalConnections ++
           [mkExternalConnection (m_fromNode c) (m_fromPortIndex c)
              (m_toNode c) (m_toPortIndex c) true (Some conn)])
      else acc
  end.

(** [NodeScene::groupSelected] *)
Definition groupSelected (selected : list Item) (sc : NodeScene) : bool * NodeScene :=
  if negb (canGroup selected) then (false, sc)
  else
    let st := scene_state sc in
    let nodesToGroup := omap as_node selected in
    let nodeSet : gset NodePtr := list_to_set nodesToGroup in
    if (length nodesToGroup <? 2)%nat then (false, sc)
    else
      let '(internalConnections, externalConnections) :=
        foldl (classify st nodeSet) ([], []) (s_connections st) in
      let cmd := new_GroupNodesCommand st nodesToGroup
                   internalConnections externalConnections in
      (true, scene_push cmd sc).

(** [NodeScene::ungroupSelected] *)
Definition ungroupSelected (selected : list Item) (sc : NodeScene) : bool * NodeScene :=
  let st := scene_state sc in
  if negb (canUngroup st selected) then (false, sc)
  else
    match omap (as_group st) selected with
    | [] => (false, sc)
    | groupNode :: _ =>
        (true, scene_push (new_UngroupNodesCommand st groupNode) sc)
    end.

(** ** NodeScene::getFlowData *)

Definition node_id (p : NodePtr) : string := "node_" +:+ ptr_number p.

Definition originalPosition_toJson (st : State) (entry : NodePtr * QPointF) : Json :=
  JObject (obj_set "y" (JDouble (py entry.2))
             (obj_set "x" (JDouble (px entry.2))
                (obj_set "nodeName" (JString (node_name st entry.1)) []))).

Definition flowNode (st : State) (p : NodePtr) (node : Node) : Json :=
  let nodeObj := [] in
  let nodeObj := obj_set "id" (JString (node_id p)) nodeObj in
  let nodeObj := obj_set "type" (JString (m_type node)) nodeObj in
  let nodeObj := obj_set "name" (JString (m_name node)) nodeObj in
  let nodeObj := obj_set "position"
                   (JObject [("x", JDouble (px (m_pos node)));
                             ("y", JDouble (py (m_pos node)))]) nodeObj in
  let nodeObj := obj_set "inputPortCount" (JInt (m_inputPortCount node)) nodeObj in
  let nodeObj := obj_set "outputPortCount" (JInt (m_outputPortCount node)) nodeObj in
  let nodeObj := if m_useCustomColor node
                 then obj_set "customColor" (JString (m_customColor node)) nodeObj
                 else nodeObj in
  let nodeObj := if negb (String.eqb (m_displayTypeName node) "")
                 then obj_set "displayTypeName" (JString (m_displayTypeName node)) nodeObj
                 else nodeObj in
  let nodeObj := obj_set "parameters" (JObject []) nodeObj in
  let nodeObj :=
    match m_group node with
    | Some gd =>
        let nodeObj := obj_set "isGroup" (JBool true) nodeObj in
        let nodeObj := obj_set "internalNodes"
                         (JArray ((fun q => JObject (node_toJson st q))
                                    <$> m_internalNodes gd)) nodeObj in
        let nodeObj := obj_set "internalConnections"
                         (JArray ((fun c => JObject (conn_toJson st c))
                                    <$> m_internalConnections gd)) nodeObj in
        obj_set "originalPositions"
          (JArray (originalPosition_toJson st <$> m_originalPositions gd)) nodeObj
    | None => nodeObj
    end in
  JObject nodeObj.

Definition flowConnection (c : Connection) : Json :=
  let connObj := [] in
  let connObj := obj_set "from" (JString (node_id (m_fromNode c))) connObj in
  let connObj := obj_set "fromPort" (JInt (m_fromPortIndex c)) connObj in
  let connObj := obj_set "to" (JString (node_id (m_toNode c))) connObj in
  let connObj := obj_set "toPort" (JInt (m_toPortIndex c)) connObj in
  let connObj := obj_set "lineType" (JInt (m_lineType c)) connObj in
  JObject connObj.

(** [created] is what [QDateTime::currentDateTime().toString(Qt::ISODate)]
    returns at the time of the call. *)
Definition getFlowData (created : string) (st : State) : list (string * Json) :=
  let flowData := [] in
  let flowData :=
    obj_set "metadata"
      (JObject [("title", JString "可视化节点编辑器流程图");
                ("created", JString created);
                ("version", JString "1.2")]) flowData in
  let nodesArray :=
    omap (fun p => flowNode st p <$> heap_nodes st !! p) (s_nodes st) in
  let flowData := obj_set "nodes" (JArray nodesArray) flowData in
  let connectionsArray :=
    omap (fun c => flowConnection <$> heap_conns st !! c) (s_connections st) in
  obj_set "connections" (JArray connectionsArray) flowData.

(** ** NodeScene::loadFlowData *)

(** [QGraphicsScene::clear()] deletes every item of the scene. *)
Definition clear (st : State) : State :=
  mkState (foldl (fun h p => delete p h) (heap_nodes st) (s_nodes st))
    (foldl (fun h c => delete c h) (heap_conns st) (s_connections st))
    (next_addr st) (s_nodes st) (s_connections st)
    (m_templates st) (nodeCount st) (pasteCount st).

(** Internal nodes of a group being loaded; [acc] is ([internalNodes],
    [internalNodeMap], state). *)
Definition load_internal_node
    (acc : list NodePtr * gmap string NodePtr * State) (internalValue : Json)
  : list NodePtr * gmap string NodePtr * State :=
  let '(internalNodes, internalNodeMap, st) := acc in
  let internalObj := toObject internalValue in
  let '(internalNode, st) := alloc_node (Node_fromJson st internalObj) st in
  (internalNodes ++ [internalNode],
   <[toString (obj_get "name" internalObj) := internalNode]> internalNodeMap,
   st).

Definition load_internal_connection (internalNodeMap : gmap string NodePtr)
    (acc : list ConnPtr * State) (connValue : Json) : list ConnPtr * State :=
  let '(internalConnections, st) := acc in
  let connObj := toObject connValue in
  let fromName := toString (obj_get "fromNode" connObj) in
  let toName := toString (obj_get "toNode" connObj) in
  match internalNodeMap !! fromName, internalNodeMap !! toName with
  | Some fromNode, Some toNode =>
      let fromPort := toInt (obj_get "fromPort" connObj) 0 in
      let toPort := toInt (obj_get "toPort" connObj) 0 in
      let '(conn, st) := Connection_ctor fromNode fromPort toNode toPort st in
      (internalConnections ++ [conn], st)
  | _, _ => acc
  end.

Definition load_original_position (internalNodeMap : gmap string NodePtr)
    (originalPositions : list (NodePtr * QPointF)) (posValue : Json)
  : list (NodePtr * QPointF) :=
  let posObj := toObject posValue in
  let nodeName := toString (obj_get "nodeName" posObj) in
  match internalNodeMap !! nodeName with
  | Some internalNode =>
      qmap_insert internalNode
        (mkPoint (toDouble (obj_get "x" posObj)) (toDouble (obj_get "y" posObj)))
        originalPositions
  | None => originalPositions
  end.

(** The node loop; [acc] is ([nodeMap], state). *)
Definition load_node (acc : gmap string NodePtr * State) (nodeValue : Json)
  : gmap string NodePtr * State :=
  let '(nodeMap, st) := acc in
  let nodeObj := toObject nodeValue in
  let '(node, st) :=
    if toBool (obj_get "isGroup" nodeObj) false then
      let name := toString (obj_get "name" nodeObj) in
      let posObj := toObject (obj_get "position" nodeObj) in
      let position := mkPoint (toDouble (obj_get "x" posObj))
                        (toDouble (obj_get "y" posObj)) in
      let '(groupNode, st) := alloc_node (GroupNode_ctor st name position) st in
      let '(internalNodes, internalNodeMap, st) :=
        foldl load_internal_node ([], ∅, st)
          (toArray (obj_get "internalNodes" nodeObj)) in
      let '(internalConnections, st) :=
        foldl (load_internal_connection internalNodeMap) ([], st)
          (toArray (obj_get "internalConnections" nodeObj)) in
      let originalPositions :=
        foldl (load_original_position internalNodeMap) []
          (toArray (obj_get "originalPositions" nodeObj)) in
      let st := on_node groupNode
                  (setGroupContents internalNodes internalConnections []
                     originalPositions) st in
      let st := calculatePortMappings groupNode st in
      (groupNode, st)
    else alloc_node (Node_fromJson st nodeObj) st in
  let st := with_s_nodes (s_nodes st ++ [node]) st in
  (<[toString (obj_get "id" nodeObj) := node]> nodeMap, st).

Definition load_connection (nodeMap : gmap string NodePtr) (st : State)
    (connValue : Json) : State :=
  let connObj := toObject connValue in
  let fromNodeId := if obj_contains "from" connObj
                    then toString (obj_get "from" connObj)
                    else toString (obj_get "fromNode" connObj) in
  let toNodeId := if obj_contains "to" connObj
                  then toString (obj_get "to" connObj)
                  else toString (obj_get "toNode" connObj) in
  match nodeMap !! fromNodeId, nodeMap !! toNodeId with
  | Some fromNode, Some toNode =>
      let fromPort := toInt (obj_get "fromPort" connObj) 0 in
      let toPort := toInt (obj_get "toPort" connObj) 0 in
      let '(connection, st) := Connection_ctor fromNode fromPort toNode toPort st in
      let st := if obj_contains "lineType" connObj
                then setLineType (toInt (obj_get "lineType" connObj) 0) connection st
                else st in
      with_s_connections (s_connections st ++ [connection]) st
  | _, _ => st
  end.

Definition loadFlowData (data : list (string * Json)) (st : State) : State :=
  let st := clear st in
  let st := with_s_connections [] (with_s_nodes [] st) in
  let '(nodeMap, st) :=
    foldl load_node (∅, st) (toArray (obj_get "nodes" data)) in
  foldl (load_connection nodeMap) st (toArray (obj_get "connections" data)).

(** ** MainWindow::onLoadProject

    [QJsonDocument::fromJson] gives a null document for bytes that do not
    parse, else an array or an object document; [QJsonDocument::object()]
    is the empty object unless the document is an object. *)

Inductive QJsonDocument : Type :=
| DocNull
| DocArray (l : list Json)
| DocObject (o : list (string * Json)).

Definition doc_object (doc : QJsonDocument) : list (string * Json) :=
  match doc with DocObject o => o | _ => [] end.

(** The part after the file has been opened: returns the status-bar
    message together with the new state. *)
Definition onLoadProject (doc : QJsonDocument) (st : State) : string * State :=
  ("项目加载成功", loadFlowData (doc_object doc) st).

(** ** Sequences of port-count changes *)

Inductive PortOp : Type :=
| SetInput (c : Z)
| SetOutput (c : Z).

Definition run_port_op (n : Node) (op : PortOp) : Node :=
  match op with
  | SetInput c => setInputPortCount c n
  | SetOutput c => setOutputPortCount c n
  end.

Definition run_port_ops (ops : list PortOp) (n : Node) : Node :=
  foldl run_port_op n ops.

(** A plain node as [Node::Node] builds it when the library has no template
    for its type. *)
Definition example_node : Node :=
  mkNode "custom" "n" [] (mkPoint 10 20) [] "#a0a0a4" false "" 1 1
    DEFAULT_WIDTH DEFAULT_HEIGHT None.

(** ** Statement of the port layout *)

(** The statement of the port layout for one edge of a node: [pos] is the
    position query of that edge, [count] its port count and [edge] the x
    offset of the edge from the node centre. *)
Definition port_layout (n : Node) (pos : Z -> QPointF) (count : Z) (edge : Q) : Prop :=
  ((count <= 0)%Z ->
   forall i, pos i = pt_add (m_pos n) (mkPoint edge 0)) /\
  (count = 1%Z ->
   forall i, pos i = pt_add (m_pos n) (mkPoint edge 0)) /\
  ((1 < count)%Z ->
   (forall i, (0 <= i < count)%Z ->
      pt_eq (pos i)
        (pt_add (m_pos n)
           (mkPoint edge
              (- (0.4 * m_height n)
               + inject_Z i * (0.8 * m_height n / inject_Z (count - 1)))%Q))) /\
   (py (pos (count - 1)%Z) - py (pos 0%Z) == 0.8 * m_height n)%Q /\
   (forall i, (0 <= i < count)%Z ->
      ((py (pos i) - py (m_pos n))
       + (py (pos (count - 1 - i)%Z) - py (m_pos n)) == 0)%Q)).

(** ** Example: a group with eight dangling input ports *)

Definition wide_node : Node :=
  mkNode "custom" "mux" [] (mkPoint 0 0) [] "#a0a0a4" false "" 8 1
    DEFAULT_WIDTH DEFAULT_HEIGHT None.

Definition wide_state : State :=
  mkState {[ 1%nat := wide_node ]} ∅ 2 [] [] ∅ 1 1.

Definition wide_group : Node :=
  setGroupContents [1%nat] [] [] [(1%nat, mkPoint 0 0)]
    (GroupNode_ctor wide_state "组合" (mkPoint 0 0)).

(** ** Counting mappings and descriptors *)

(** How often the port ([node], [port]) occurs in a mapping list. *)
Definition endpoint_count (node : NodePtr) (port : Z) (l : list PortMapping) : nat :=
  length (filter (fun pm => pm_internalNode pm = node /\
                            pm_internalPortIndex pm = port) l).

(** How many external descriptors of direction [input] have ([node],
    [port]) as their internal endpoint. *)
Definition descriptor_count (node : NodePtr) (port : Z) (input : bool)
    (l : list ExternalConnection) : nat :=
  length (filter (fun e => internalNode e = node /\ internalPortIndex e = port /\
                           isInput e = input) l).

(** ([node], [port]) is the source (output side) or the target (input
    side) of one of the internal connections. *)
Definition internal_endpoint (st : State) (gd : GroupData)
    (node : NodePtr) (port : Z) (input : bool) : Prop :=
  exists conn c,
    conn ∈ m_internalConnections gd /\ heap_conns st !! conn = Some c /\
    if input then m_toNode c = node /\ m_toPortIndex c = port
    else m_fromNode c = node /\ m_fromPortIndex c = port.

(** ** Example: a fan-out that crosses the group boundary

    Four nodes A, B, C, D (addresses 0 to 3) with one input and one output
    each; A.out0 feeds B.in0, C.in0 and D.in0; A and B are then grouped. *)

Definition empty_state : State := mkState ∅ ∅ 0 [] [] ∅ 1 1.
Definition empty_scene : NodeScene := mkScene empty_state (mkUndoStack [] 0).

Definition fanout_scene : NodeScene :=
  let sc := addNode "a" (mkPoint 0 0) empty_scene in
  let sc := addNode "b" (mkPoint 200 0) sc in
  let sc := addNode "c" (mkPoint 400 0) sc in
  let sc := addNode "d" (mkPoint 400 100) sc in
  let sc := scene_addConnection 0 0 1 0 sc in
  let sc := scene_addConnection 0 0 2 0 sc in
  scene_addConnection 0 0 3 0 sc.

Definition fanout_grouped : NodeScene :=
  (groupSelected [ItemNode 0; ItemNode 1] fanout_scene).2.

(** ** Runs of commands on the undo stack *)

Definition push_all (cmds : list Command) (sc : NodeScene) : NodeScene :=
  foldl (fun sc cmd => scene_push cmd sc) sc cmds.

(** The move commands on [node] with the given old and new positions. *)
Definition moves_on (node : NodePtr) (l : list (QPointF * QPointF)) : list Command :=
  (fun op => MoveNodeCommand node op.1 op.2) <$> l.

Definition is_move_on (node : NodePtr) (cmd : Command) : bool :=
  match cmd with
  | MoveNodeCommand node' _ _ => (node' =? node)%nat
  | _ => false
  end.

(** The command [undo] would take back next. *)
Definition current (us : QUndoStack) : option Command :=
  if (index us =? 0)%nat then None else command_list us !! (index us - 1)%nat.

(** State of the stack during a run of moves on [n] that started at
    depth [i]: the run is the single entry at the top. *)
Definition run_top (n : NodePtr) (o : QPointF) (i : nat) (us : QUndoStack) : Prop :=
  index us = S i /\ length (command_list us) = S i /\
  exists p, command_list us !! i = Some (MoveNodeCommand n o p).

(** ** Example: a group inside a group

    A -> B -> C (addresses 0, 1, 2; connections 3, 4); A and B are grouped
    into the group at address 5 (connected to C by the new connection 6),
    which is then grouped with C into the group at address 7. *)

Definition chain_scene : NodeScene :=
  let sc := addNode "a" (mkPoint 0 0) empty_scene in
  let sc := addNode "b" (mkPoint 200 0) sc in
  let sc := addNode "c" (mkPoint 400 0) sc in
  let sc := scene_addConnection 0 0 1 0 sc in
  scene_addConnection 1 0 2 0 sc.

Definition inner_grouped : NodeScene :=
  (groupSelected [ItemNode 0; ItemNode 1] chain_scene).2.

Definition nested_scene : NodeScene :=
  (groupSelected [ItemNode 5; ItemNode 2] inner_grouped).2.

(** The outer group is given level 3 (the level spin box of the main
    window calls [setGroupLevel]). *)
Definition nested_state : State :=
  on_node 7 (setGroupLevel 3) (scene_state nested_scene).

(** Saving the nested scene and loading the document back. *)
Definition nested_document : list (string * Json) :=
  getFlowData "2024-01-01T00:00:00" nested_state.

Definition nested_reloaded : State := loadFlowData nested_document nested_state.

(** ** Notions used to state the grouping round trip *)

(** [removeAll] for each element of [xs] in turn. *)
Definition removeAlls (xs l : list nat) : list nat :=
  foldl (fun l x => removeAll x l) l xs.

(** Everything about a node except its list of incident connections. *)
Definition attrs (st : State) (n : NodePtr) : option Node :=
  set_connections [] <$> heap_nodes st !! n.

(** [st'] differs from [st] at most in the scene's connection list and in
    the nodes' lists of incident connections. *)
Definition conn_frame (st st' : State) : Prop :=
  heap_conns st' = heap_conns st /\ next_addr st' = next_addr st /\
  s_nodes st' = s_nodes st /\ forall n, attrs st' n = attrs st n.

(** How [groupSelected] sorts a connection, given the set of nodes. *)
Definition is_internal (st : State) (nodeSet : gset NodePtr) (conn : ConnPtr) : bool :=
  match heap_conns st !! conn with
  | Some c => bool_decide (m_fromNode c ∈ nodeSet) && bool_decide (m_toNode c ∈ nodeSet)
  | None => false
  end.

Definition is_external (st : State) (nodeSet : gset NodePtr) (conn : ConnPtr) : bool :=
  match heap_conns st !! conn with
  | Some c => xorb (bool_decide (m_fromNode c ∈ nodeSet))
                (bool_decide (m_toNode c ∈ nodeSet))
  | None => false
  end.

(** The map of original positions a [GroupNodesCommand] records. *)
Definition original_positions (st : State) (nodes : list NodePtr)
  : list (NodePtr * QPointF) :=
  foldl (fun m node => qmap_insert node (node_pos st node) m) [] nodes.

(** The allocator is ahead of every address the scene lists mention. *)
Definition addresses_allocated (st : State) : Prop :=
  (forall p, p ∈ s_nodes st -> p < next_addr st)%nat /\
  (forall c, c ∈ s_connections st -> c < next_addr st)%nat.

(** ** Example: a saved group whose two nodes have the same name

    Two nodes at (0,0) and (200,100); the second is renamed to the name of
    the first (the property panel calls [setName] with any text); both are
    grouped and the scene is saved.  The document is then opened in a new
    session, where the group is ungrouped, and the ungrouping is undone and
    redone. *)

Definition twin_scene : NodeScene :=
  let sc := addNode "a" (mkPoint 0 0) empty_scene in
  let sc := addNode "b" (mkPoint 200 100) sc in
  let sc := mkScene (on_node 1 (set_name (node_name (scene_state sc) 0))
                       (scene_state sc)) (m_undoStack sc) in
  (groupSelected [ItemNode 0; ItemNode 1] sc).2.

Definition twin_document : list (string * Json) :=
  getFlowData "2024-01-01T00:00:00" (scene_state twin_scene).

Definition twin_loaded : NodeScene :=
  mkScene (loadFlowData twin_document empty_state) (mkUndoStack [] 0).

Definition twin_ungrouped : NodeScene :=
  (ungroupSelected [ItemNode 0] twin_loaded).2.

Definition twin_undone_redone : NodeScene :=
  scene_redo (scene_undo twin_ungrouped).

(** ** Notions used to state undo/redo symmetry *)

(** The entries [restoreConnectionToScene c] appends to the connection
    list of the node at [n], and [removeConnectionFromScene c] removes from
    it: one for each endpoint of [c] that is [n]. *)
Definition incident (st : State) (n : NodePtr) (c : ConnPtr) : list ConnPtr :=
  match heap_nodes st !! n with
  | Some _ =>
      (if decide (getFromNode st c = Some n) then [c] else []) ++
      (if decide (getToNode st c = Some n) then [c] else [])
  | None => []
  end.

(** The same for a loop over [cs]. *)
Definition incidents (st : State) (n : NodePtr) (cs : list ConnPtr) : list ConnPtr :=
  flat_map (incident st n) cs.

(** The components of the state that no [undo] and no [redo] after the
    first touches. *)
Definition background (st : State)
  : gmap nat Connection * nat * gmap string NodeTemplate * Z * Z :=
  (heap_conns st, next_addr st, m_templates st, nodeCount st, pasteCount st).

(** Moving several nodes: the position a list of assignments leaves a node
    with is that of its last assignment. *)
Fixpoint last_position (l : list (NodePtr * QPointF)) (n : NodePtr) : option QPointF :=
  match l with
  | [] => None
  | np :: l' =>
      match last_position l' n with
      | Some q => Some q
      | None => if decide (np.1 = n) then Some np.2 else None
      end
  end.

(** The connection object [GroupNodesCommand::redo] constructs for an
    external descriptor. *)
Definition group_connection (g : NodePtr) (ins outs : list PortMapping)
    (ext : ExternalConnection) : Connection :=
  if isInput ext then
    mkConnection (externalNode ext) g (externalPortIndex ext)
      (groupPortIndex ins ext) Bezier
  else
    mkConnection g (externalNode ext) (groupPortIndex outs ext)
      (externalPortIndex ext) Bezier.

(** [new Connection(...)] for each record in turn, without the
    registration with the endpoints. *)
Definition allocs (rs : list Connection) (st : State) : State :=
  foldl (fun st r => (alloc_conn r st).2) st rs.

(** The state of the first [redo] once the group node is constructed. *)
Definition group_allocated (nodes : list NodePtr) (ics : list ConnPtr)
    (exts : list ExternalConnection) (origPos : list (NodePtr * QPointF))
    (st : State) : State :=
  let center := centroid (node_pos st <$> nodes) in
  let '(g, st) := alloc_node (GroupNode_ctor st "组合" center) st in
  calculatePortMappings g (on_node g (setGroupContents nodes ics exts origPos) st).

(** What every [redo] of a [GroupNodesCommand] after the first does. *)
Definition regroup (nodes : list NodePtr) (ics extPtrs : list ConnPtr) (g : NodePtr)
    (st : State) : State :=
  restoreNodeToScene g
    (for_each removeNodeFromScene nodes
       (for_each removeConnectionFromScene ics
          (for_each removeConnectionFromScene extPtrs st))).

(** The node [PasteCommand::redo] constructs for an entry of the clipboard. *)
Definition pasted_node (offset : QPointF) (st : State) (nodeValue : Json) : Node :=
  let nodeObj := toObject nodeValue in
  let newNode := Node_fromJson st nodeObj in
  let newX := (toDouble (obj_get "relX" nodeObj) + px offset)%Q in
  let newY := (toDouble (obj_get "relY" nodeObj) + py offset)%Q in
  let newNode := set_pos (mkPoint newX newY) newNode in
  set_name (m_name newNode +:+ " (副本" +:+ pretty (pasteCount st) +:+ ")") newNode.

(** What the allocation of objects leaves alone. *)
Definition extends (st st' : State) : Prop :=
  s_nodes st' = s_nodes st /\ s_connections st' = s_connections st /\
  (next_addr st <= next_addr st')%nat /\
  (forall n y, y ∈ node_connections st' n -> y ∈ node_connections st n).

(** The allocation of a pasted connection, with the line type the clipboard
    entry gives it, if any. *)
Definition typed_alloc (lineType : option Z) (r : Connection) (st : State) : State :=
  let st' := (alloc_conn r st).2 in
  match lineType with
  | Some t => setLineType t (next_addr st) st'
  | None => st'
  end.

(** The line type a clipboard entry gives, if it has the key. *)
Definition pasted_lineType (connObj : list (string * Json)) : option Z :=
  if obj_contains "lineType" connObj
  then Some (toInt (obj_get "lineType" connObj) 0)
  else None.

(** The allocator is ahead of every address the scene lists and the nodes'
    connection lists mention. *)
Definition lists_allocated (st : State) : Prop :=
  addresses_allocated st /\
  (forall n y, y ∈ node_connections st n -> y < next_addr st)%nat.

(** No connection of [cs] is in the scene's list or in a node's list. *)
Definition absent (cs : list ConnPtr) (st : State) : Prop :=
  (forall y, y ∈ s_connections st -> y ∉ cs) /\
  (forall n y, y ∈ node_connections st n -> y ∉ cs).

(** The states in which the editor executes a command: what [redo] is
    about to insert into the scene is not in it yet (a first [redo]
    allocates it, a later one follows the [undo] that took it out); a
    [MoveNodesCommand] has a position of either kind for every node; a
    [GroupNodesCommand] has recorded the positions its nodes have; an
    [UngroupNodesCommand] has an original position for every internal
    node. *)
Definition executable (cmd : Command) (st : State) : Prop :=
  match cmd with
  | AddNodeCommand _ _ node _ => default (next_addr st) node ∉ s_nodes st
  | DeleteCommand _ _ _ _ _ => True
  | MoveNodeCommand _ _ _ => True
  | MoveNodesCommand nodes oldPositions newPositions =>
      (length nodes <= length oldPositions)%nat /\
      (length nodes <= length newPositions)%nat
  | AddConnectionCommand _ _ _ _ conn _ => absent [default (next_addr st) conn] st
  | PasteCommand clip _ [] pastedConns _ =>
      pastedConns = [] /\ toArray (obj_get "nodes" clip) <> [] /\ lists_allocated st
  | PasteCommand _ _ pastedNodes pastedConns _ =>
      (forall y, y ∈ s_nodes st -> y ∉ pastedNodes) /\ absent pastedConns st
  | GroupNodesCommand nodes ics _ extPtrs origPos _ newExts true =>
      newExts = [] /\ lists_allocated st /\
      (forall n, n ∈ nodes -> n < next_addr st)%nat /\
      (forall c, c ∈ extPtrs ++ ics -> c < next_addr st)%nat /\
      (forall n, n ∈ nodes -> qmap_find n origPos = Some (node_pos st n))
  | GroupNodesCommand nodes _ _ _ origPos (Some g) newExts false =>
      (g ∉ s_nodes st) /\ absent newExts st /\
      (forall n, n ∈ nodes -> qmap_find n origPos = Some (node_pos st n))
  | GroupNodesCommand _ _ _ _ _ None _ false => False
  | UngroupNodesCommand g nodes ics exts _ origPos _ =>
      (forall n, n ∈ nodes -> is_Some (qmap_find n origPos)) /\
      (g ∉ nodes) /\
      (forall y, y ∈ s_nodes st -> y ∉ nodes) /\
      absent (ics ++ omap originalConnection exts) st
  end.

(** ** CodeGenerator.cpp: dependencies and execution order

    A [QMap<QString, V>] is used in two ways: by key ([operator[]],
    [contains]) and by iteration, which visits the entries in ascending key
    order, each key once.  Where the code only uses the first, the map is a
    [gmap]; where it iterates, the function is given the sequence of entries
    in iteration order. *)

(** [dependencies[nodeId] = QStringList();] *)
Definition analyze_node (dependencies : gmap string (list string)) (nodeValue : Json)
  : gmap string (list string) :=
  <[toString (obj_get "id" (toObject nodeValue)) := []]> dependencies.

(** [dependencies[toNodeId].append(fromNodeId);] where [operator[]] starts
    a missing key with the empty list. *)
Definition analyze_connection (dependencies : gmap string (list string))
    (connValue : Json) : gmap string (list string) :=
  let conn := toObject connValue in
  let fromNodeId := toString (obj_get "from" conn) in
  let toNodeId := toString (obj_get "to" conn) in
  <[toNodeId := default [] (dependencies !! toNodeId) ++ [fromNodeId]]> dependencies.

(** [CodeGenerator::analyzeDependencies] *)
Definition analyzeDependencies (flowData : list (string * Json))
  : gmap string (list string) :=
  let dependencies := foldl analyze_node ∅ (toArray (obj_get "nodes" flowData)) in
  foldl analyze_connection dependencies (toArray (obj_get "connections" flowData)).

(** [inDegree[it.key()] = it.value().size();] for every entry. *)
Definition in_degrees (dependencies : list (string * list string)) : gmap string Z :=
  foldl (fun inDegree e => <[e.1 := Z.of_nat (length e.2)]> inDegree) ∅ dependencies.

(** The keys whose in-degree is 0, in iteration order ([inDegree] has the
    keys of [dependencies], so both maps are iterated in the same order). *)
Definition initial_queue (dependencies : list (string * list string))
    (inDegree : gmap string Z) : list string :=
  filter (fun k => default 0%Z (inDegree !! k) = 0%Z) (dependencies.*1).

(** One iteration of the inner [for] loop: [it] is [entry], [acc] is
    ([inDegree], [queue]). *)
Definition visit (current : string) (acc : gmap string Z * list string)
    (entry : string * list string) : gmap string Z * list string :=
  let '(inDegree, queue) := acc in
  if bool_decide (current ∈ entry.2) then
    let d := (default 0 (inDegree !! entry.1) - 1)%Z in
    let inDegree := <[entry.1 := d]> inDegree in
    if (d =? 0)%Z then (inDegree, queue ++ [entry.1]) else (inDegree, queue)
  else acc.

(** The [while (!queue.isEmpty())] loop, at most [fuel] iterations.
    Returns [executionOrder] and what is left of the queue. *)
Fixpoint schedule (fuel : nat) (dependencies : list (string * list string))
    (executionOrder : list string) (inDegree : gmap string Z) (queue : list string)
  : list string * list string :=
  match queue, fuel with
  | [], _ => (executionOrder, [])
  | _, O => (executionOrder, queue)
  | current :: queue, S fuel =>
      let executionOrder := executionOrder ++ [current] in
      let '(inDegree, queue) :=
        foldl (visit current) (inDegree, queue) dependencies in
      schedule fuel dependencies executionOrder inDegree queue
  end.

(** [CodeGenerator::generateExecutionOrder] on the entries of the map in
    iteration order; [None] when the loop has not ended after as many
    iterations as there are entries. *)
Definition generateExecutionOrder (dependencies : list (string * list string))
  : option (list string) :=
  let inDegree := in_degrees dependencies in
  let queue := initial_queue dependencies inDegree in
  match schedule (length dependencies) dependencies [] inDegree queue with
  | (executionOrder, []) => Some executionOrder
  | _ => None
  end.

(** The number of entries of [order] that occur in [ds]. *)
Definition hits (ds order : list string) : nat :=
  length (filter (fun c => c ∈ ds) order).

(** The loop invariant of [generateExecutionOrder]. *)
Definition sched_inv (dependencies : list (string * list string))
    (order : list string) (inDegree : gmap string Z) (queue : list string) : Prop :=
  NoDup (order ++ queue) /\
  (forall k ds, (k, ds) ∈ dependencies ->
     inDegree !! k = Some (Z.of_nat (length ds) - Z.of_nat (hits ds order))%Z) /\
  (forall k ds, (k, ds) ∈ dependencies ->
     k ∈ order ++ queue <-> hits ds order = length ds) /\
  (forall k, k ∈ order ++ queue -> k ∈ dependencies.*1) /\
  (forall i k ds, order !! i = Some k -> (k, ds) ∈ dependencies ->
     forall d, d ∈ ds -> d ∈ take i order).

(** The invariant inside the inner loop, when the entries [pre] have been
    visited and the entries [post] have not. *)
Definition visit_inv (pre post : list (string * list string))
    (order : list string) (current : string)
    (inDegree : gmap string Z) (queue : list string) : Prop :=
  let order' := order ++ [current] in
  NoDup (order' ++ queue) /\
  (forall k ds, (k, ds) ∈ pre ->
     inDegree !! k = Some (Z.of_nat (length ds) - Z.of_nat (hits ds order'))%Z) /\
  (forall k ds, (k, ds) ∈ post ->
     inDegree !! k = Some (Z.of_nat (length ds) - Z.of_nat (hits ds order))%Z) /\
  (forall k ds, (k, ds) ∈ pre ->
     k ∈ order' ++ queue <-> hits ds order' = length ds) /\
  (forall k ds, (k, ds) ∈ post ->
     k ∈ order' ++ queue <-> hits ds order = length ds) /\
  (forall k, k ∈ order' ++ queue -> k ∈ (pre ++ post).*1).

Definition diamond : list (string * list string) :=
  [("a", []); ("b", ["a"]); ("c", ["a"]); ("d", ["b"; "c"])].

Definition diamond_rank (k : string) : nat :=
  if String.eqb k "a" then 0 else if String.eqb k "d" then 2 else 1.

(** Two connections from "a" to "b", and "c" fed by "b". *)
Definition doubled : list (string * list string) :=
  [("a", []); ("b", ["a"; "a"]); ("c", ["b"])].

(** ** NodeTemplate.cpp and NodeLibrary.cpp: the template library

    [Library.NodeTemplate] has all nine members of the class;
    [template_fields] gives the ones a [Node] reads.  The table [m_templates] is a map from
    type id to template; where the code iterates over it, the function is
    given the templates in iteration order.  Signals are not modelled, and
    of the file system only the document read or written: the automatic
    [saveToFile] after a change writes [library_document] of the new table.

    A [QColor] is kept as its [name()]; [QColor_named s] stands for the
    name of the colour Qt builds from the string [s]. *)

Module Library.

Record NodeTemplate : Type := mkNodeTemplate {
  m_typeId : string;
  m_displayName : string;
  m_category : string;
  m_color : string;
  m_description : string;
  m_defaultParameters : list string;
  m_inputPortCount : Z;
  m_outputPortCount : Z;
  m_isBuiltIn : bool
}.

(** [NodeTemplate::NodeTemplate()] *)
Definition default_template : NodeTemplate :=
  mkNodeTemplate "" "" "自定义" "#a0a0a4" "" [] 1 1 false.

(** [NodeTemplate::NodeTemplate(typeId, displayName, category, color)] *)
Definition NodeTemplate_ctor (typeId displayName category color : string) : NodeTemplate :=
  mkNodeTemplate typeId displayName category color "" [] 1 1 false.

Definition setDescription (description : string) (t : NodeTemplate) : NodeTemplate :=
  mkNodeTemplate (m_typeId t) (m_displayName t) (m_category t) (m_color t)
    description (m_defaultParameters t) (m_inputPortCount t) (m_outputPortCount t)
    (m_isBuiltIn t).

Definition setInputPortCount (count : Z) (t : NodeTemplate) : NodeTemplate :=
  mkNodeTemplate (m_typeId t) (m_displayName t) (m_category t) (m_color t)
    (m_description t) (m_defaultParameters t) count (m_outputPortCount t)
    (m_isBuiltIn t).

Definition setOutputPortCount (count : Z) (t : NodeTemplate) : NodeTemplate :=
  mkNodeTemplate (m_typeId t) (m_displayName t) (m_category t) (m_color t)
    (m_description t) (m_defaultParameters t) (m_inputPortCount t) count
    (m_isBuiltIn t).

(** [NodeTemplate::isValid] *)
Definition isValid (t : NodeTemplate) : bool :=
  negb (String.eqb (m_typeId t) "") && negb (String.eqb (m_displayName t) "").

(** [QJsonValue::toString(defaultValue)] *)
Definition toStringOr (d : string) (v : Json) : string :=
  match v with JString s => s | _ => d end.

(** [NodeTemplate::toJson] *)
Definition toJson (t : NodeTemplate) : list (string * Json) :=
  let json := [] in
  let json := obj_set "typeId" (JString (m_typeId t)) json in
  let json := obj_set "displayName" (JString (m_displayName t)) json in
  let json := obj_set "category" (JString (m_category t)) json in
  let json := obj_set "color" (JString (m_color t)) json in
  let json := obj_set "description" (JString (m_description t)) json in
  let json := obj_set "inputPortCount" (JInt (m_inputPortCount t)) json in
  let json := obj_set "outputPortCount" (JInt (m_outputPortCount t)) json in
  let json := obj_set "isBuiltIn" (JBool (m_isBuiltIn t)) json in
  let paramsArray := JString <$> m_defaultParameters t in
  obj_set "defaultParameters" (JArray paramsArray) json.

Section QColor.

Variable QColor_named : string -> string.

(** [NodeTemplate::fromJson] *)
Definition fromJson (json : list (string * Json)) : NodeTemplate :=
  mkNodeTemplate
    (toString (obj_get "typeId" json))
    (toString (obj_get "displayName" json))
    (toStringOr "自定义" (obj_get "category" json))
    (QColor_named (toStringOr "#808080" (obj_get "color" json)))
    (toString (obj_get "description" json))
    (toString <$> toArray (obj_get "defaultParameters" json))
    (toInt (obj_get "inputPortCount" json) 1)
    (toInt (obj_get "outputPortCount" json) 1)
    (toBool (obj_get "isBuiltIn" json) false).

(** [m_templates.insert(tmpl.getTypeId(), tmpl)] *)
Definition insert_template (tmpl : NodeTemplate) (m_templates : gmap string NodeTemplate)
  : gmap string NodeTemplate :=
  <[m_typeId tmpl := tmpl]> m_templates.

(** [NodeLibrary::initBuiltInTemplates]; [QColor(r, g, b)] by its name. *)
Definition initBuiltInTemplates (m_templates : gmap string NodeTemplate)
  : gmap string NodeTemplate :=
  let signalSource := NodeTemplate_ctor "signal_source" "信号源" "信号处理" "#51cf66" in
  let signalSource := setDescription "生成各种类型的信号源" signalSource in
  let signalSource := setInputPortCount 0 signalSource in
  let signalSource := setOutputPortCount 1 signalSource in
  let m_templates := insert_template signalSource m_templates in
  let filter := NodeTemplate_ctor "filter" "滤波器" "信号处理" "#339af0" in
  let filter := setDescription "对信号进行滤波处理" filter in
  let filter := setInputPortCount 1 filter in
  let filter := setOutputPortCount 1 filter in
  let m_templates := insert_template filter m_templates in
  let fft := NodeTemplate_ctor "fft" "FFT变换" "信号处理" "#cc5de8" in
  let fft := setDescription "对信号进行快速傅里叶变换" fft in
  let fft := setInputPortCount 1 fft in
  let fft := setOutputPortCount 1 fft in
  let m_templates := insert_template fft m_templates in
  let modulator := NodeTemplate_ctor "modulator" "调制器" "通信" "#fcc419" in
  let modulator := setDescription "对信号进行调制" modulator in
  let modulator := setInputPortCount 1 modulator in
  let modulator := setOutputPortCount 1 modulator in
  let m_templates := insert_template modulator m_templates in
  let demodulator := NodeTemplate_ctor "demodulator" "解调器" "通信" "#ff922b" in
  let demodulator := setDescription "对信号进行解调" demodulator in
  let demodulator := setInputPortCount 1 demodulator in
  let demodulator := setOutputPortCount 1 demodulator in
  let m_templates := insert_template demodulator m_templates in
  let sink := NodeTemplate_ctor "sink" "输出" "通信" "#ff6b6b" in
  let sink := setDescription "信号输出/显示节点" sink in
  let sink := setInputPortCount 1 sink in
  let sink := setOutputPortCount 0 sink in
  insert_template sink m_templates.

(** [NodeLibrary::getTemplate] *)
Definition getTemplate (m_templates : gmap string NodeTemplate) (typeId : string)
  : NodeTemplate :=
  default default_template (m_templates !! typeId).

(** [NodeLibrary::hasTemplate] *)
Definition hasTemplate (m_templates : gmap string NodeTemplate) (typeId : string) : bool :=
  bool_decide (is_Some (m_templates !! typeId)).

(** [NodeLibrary::getTemplatesByCategory], on the templates in iteration
    order. *)
Definition getTemplatesByCategory (templates : list NodeTemplate) (category : string)
  : list NodeTemplate :=
  filter (fun tmpl => String.eqb (m_category tmpl) category = true) templates.

(** [NodeLibrary::addTemplate] *)
Definition addTemplate (tmpl : NodeTemplate) (m_templates : gmap string NodeTemplate)
  : bool * gmap string NodeTemplate :=
  if negb (isValid tmpl) || hasTemplate m_templates (m_typeId tmpl)
  then (false, m_templates)
  else (true, insert_template tmpl m_templates).

(** [NodeLibrary::updateTemplate] *)
Definition updateTemplate (tmpl : NodeTemplate) (m_templates : gmap string NodeTemplate)
  : bool * gmap string NodeTemplate :=
  if negb (isValid tmpl) || negb (hasTemplate m_templates (m_typeId tmpl))
  then (false, m_templates)
  else (true, <[m_typeId tmpl := tmpl]> m_templates).

(** [NodeLibrary::removeTemplate] *)
Definition removeTemplate (typeId : string) (m_templates : gmap string NodeTemplate)
  : bool * gmap string NodeTemplate :=
  if negb (hasTemplate m_templates typeId)
  then (false, m_templates)
  else (true, delete typeId m_templates).

(** The document [NodeLibrary::saveToFile] writes, from the templates in
    iteration order. *)
Definition library_document (templates : list NodeTemplate) : Json :=
  let root := [] in
  let root := obj_set "version" (JString "1.0") root in
  let root := obj_set "description" (JString "节点库配置文件") root in
  let templatesArray := (fun tmpl => JObject (toJson tmpl)) <$> templates in
  JObject (obj_set "templates" (JArray templatesArray) root).

(** The document [NodeLibrary::saveCustomToFile] writes. *)
Definition custom_document (templates : list NodeTemplate) : Json :=
  let root := [] in
  let root := obj_set "version" (JString "1.0") root in
  let root := obj_set "description" (JString "自定义节点库配置文件") root in
  let templatesArray :=
    (fun tmpl => JObject (toJson tmpl))
      <$> filter (fun tmpl => m_isBuiltIn tmpl = false) templates in
  JObject (obj_set "templates" (JArray templatesArray) root).

(** The body of the loop of [loadFromFile]. *)
Definition load_template (m_templates : gmap string NodeTemplate) (value : Json)
  : gmap string NodeTemplate :=
  let tmpl := fromJson (toObject value) in
  if isValid tmpl then insert_template tmpl m_templates else m_templates.

(** [NodeLibrary::loadFromFile]; [doc] is [None] when the file cannot be
    opened, and else the document [QJsonDocument::fromJson] makes of its
    contents. *)
Definition loadFromFile (doc : option Json) (m_templates : gmap string NodeTemplate)
  : bool * gmap string NodeTemplate :=
  match doc with
  | None => (false, m_templates)
  | Some doc =>
      if negb (isObject doc) then (false, m_templates)
      else
        let root := toObject doc in
        let templatesArray := toArray (obj_get "templates" root) in
        (true, foldl load_template ∅ templatesArray)
  end.

(** The body of the loop of [loadCustomFromFile]. *)
Definition load_custom_template (m_templates : gmap string NodeTemplate) (value : Json)
  : gmap string NodeTemplate :=
  let tmpl := fromJson (toObject value) in
  if isValid tmpl && negb (m_isBuiltIn tmpl) then
    if hasTemplate m_templates (m_typeId tmpl)
    then <[m_typeId tmpl := tmpl]> m_templates
    else insert_template tmpl m_templates
  else m_templates.

(** [NodeLibrary::loadCustomFromFile] *)
Definition loadCustomFromFile (doc : option Json) (m_templates : gmap string NodeTemplate)
  : bool * gmap string NodeTemplate :=
  match doc with
  | None => (false, m_templates)
  | Some doc =>
      if negb (isObject doc) then (false, m_templates)
      else
        let root := toObject doc in
        let templatesArray := toArray (obj_get "templates" root) in
        (true, foldl load_custom_template m_templates templatesArray)
  end.

(** [NodeLibrary::resetToDefaults] *)
Definition resetToDefaults (m_templates : gmap string NodeTemplate)
  : gmap string NodeTemplate :=
  initBuiltInTemplates ∅.

(** The calls that change the library. *)
Inductive Call : Type :=
| CallInit
| CallReset
| CallAdd (tmpl : NodeTemplate)
| CallUpdate (tmpl : NodeTemplate)
| CallRemove (typeId : string)
| CallLoad (doc : option Json)
| CallLoadCustom (doc : option Json).

Definition call (m_templates : gmap string NodeTemplate) (c : Call)
  : gmap string NodeTemplate :=
  match c with
  | CallInit => initBuiltInTemplates m_templates
  | CallReset => resetToDefaults m_templates
  | CallAdd tmpl => (addTemplate tmpl m_templates).2
  | CallUpdate tmpl => (updateTemplate tmpl m_templates).2
  | CallRemove typeId => (removeTemplate typeId m_templates).2
  | CallLoad doc => (loadFromFile doc m_templates).2
  | CallLoadCustom doc => (loadCustomFromFile doc m_templates).2
  end.

(** Every template of the table is valid and stored under its type id. *)
Definition well_keyed (m_templates : gmap string NodeTemplate) : Prop :=
  forall typeId tmpl, m_templates !! typeId = Some tmpl ->
    isValid tmpl = true /\ m_typeId tmpl = typeId.

End QColor.

End Library.

(** The members of a library template that a [Node] reads. *)
Definition template_fields (t : Library.NodeTemplate) : NodeTemplate :=
  mkNodeTemplate (Library.m_typeId t) (Library.m_displayName t) (Library.m_color t)
    (Library.m_inputPortCount t) (Library.m_outputPortCount t).

(** An instance of [QColor_named] for the examples: Qt reads a name
    "#rrggbb" in lower-case hexadecimal digits back unchanged; the name of
    an invalid colour is "#000000". *)
Definition is_lower_hex (a : Ascii.ascii) : bool :=
  let n := Ascii.nat_of_ascii a in
  ((48 <=? n) && (n <=? 57) || (97 <=? n) && (n <=? 102))%nat.

Definition lower_hex_named (s : string) : string :=
  match s with
  | String a digits =>
      if Ascii.eqb a (Ascii.ascii_of_nat 35) && (String.length digits =? 6)%nat
         && forallb is_lower_hex (list_ascii_of_string digits)
      then s else "#000000"
  | _ => "#000000"
  end.


(** The templates a custom file contributes for [typeId]: what
    [loadCustomFromFile] reads from the array, keeping the valid ones that
    are not built in. *)
Definition custom_candidates (QColor_named : string -> string) (values : list Json)
    (typeId : string) : list Library.NodeTemplate :=
  filter (fun tmpl => Library.isValid tmpl && negb (Library.m_isBuiltIn tmpl) = true
                      /\ Library.m_typeId tmpl = typeId)
    (Library.fromJson QColor_named ∘ toObject <$> values).

(** ** Validity of a scene *)

(** What [NodeScene::validateFlow] tests, as a proposition. *)
Definition flow_valid (st : State) : Prop :=
  forall c, c ∈ s_connections st ->
    exists conn, heap_conns st !! c = Some conn /\
      m_fromNode conn ∈ s_nodes st /\ m_toNode conn ∈ s_nodes st.

(** The invariant of the connection loop of [loadFlowData]. *)
Definition flow_allocated (st : State) : Prop :=
  flow_valid st /\ forall c, c ∈ s_connections st -> (c < next_addr st)%nat.

(** Every connection of the scene is in the connection list of both its
    endpoints, as [Connection]'s constructor arranges. *)
Definition registered (st : State) : Prop :=
  forall c conn, c ∈ s_connections st -> heap_conns st !! c = Some conn ->
    c ∈ node_connections st (m_fromNode conn) /\
    c ∈ node_connections st (m_toNode conn).

(** [registered] as a test. *)
Definition registeredb (st : State) : bool :=
  forallb (fun c => match heap_conns st !! c with
                    | Some conn =>
                        bool_decide (c ∈ node_connections st (m_fromNode conn)) &&
                        bool_decide (c ∈ node_connections st (m_toNode conn))
                    | None => true
                    end) (s_connections st).

(** ** NodeScene::onTemplateUpdated *)

(** [node->getType()] *)
Definition node_type (st : State) (p : NodePtr) : string :=
  from_option m_type "" (heap_nodes st !! p).

(** What the body of the loop does to a node of the type. *)
Definition apply_template (tmpl : NodeTemplate) (n : Node) : Node :=
  setOutputPortCount (t_outputPortCount tmpl)
    (setInputPortCount (t_inputPortCount tmpl)
       (setDisplayTypeName (t_displayName tmpl)
          (setCustomColor (t_color tmpl) n))).

(** [NodeScene::onTemplateUpdated] *)
Definition onTemplateUpdated (typeId : string) (st : State) : State :=
  let tmpl := getTemplate st typeId in
  if negb (isValid tmpl) then st
  else
    for_each (fun node st =>
                if String.eqb (node_type st node) typeId
                then on_node node (apply_template tmpl) st
                else st)
      (s_nodes st) st.

(** ** NodeScene::copySelected, paste, cutSelected, canPaste

    [m_clipboard] is passed in and returned. *)

(** [QString("copy_node_%1").arg(nodeIndex)] *)
Definition copy_id (nodeIndex : nat) : string := "copy_node_" +:+ pretty nodeIndex.

(** The first loop: [acc] is ([selectedNodes], [nodeIdMap], [nodeIndex]). *)
Definition collect_selected (acc : list NodePtr * gmap nat string * nat) (item : Item)
  : list NodePtr * gmap nat string * nat :=
  let '(selectedNodes, nodeIdMap, nodeIndex) := acc in
  match as_node item with
  | Some node => (selectedNodes ++ [node], <[node := copy_id nodeIndex]> nodeIdMap,
                  S nodeIndex)
  | None => acc
  end.

(** The clipboard entry of a node; [nodeIdMap[node]] reads as the empty
    string for a key the map lacks. *)
Definition copy_node (st : State) (center : QPointF) (nodeIdMap : gmap nat string)
    (node : NodePtr) : Json :=
  let nodeObj := node_toJson st node in
  let nodeObj := obj_set "copyId" (JString (default "" (nodeIdMap !! node))) nodeObj in
  let nodeObj := obj_set "relX" (JDouble (px (node_pos st node) - px center)) nodeObj in
  let nodeObj := obj_set "relY" (JDouble (py (node_pos st node) - py center)) nodeObj in
  JObject nodeObj.

(** The clipboard entry of a connection, if both its ends are selected. *)
Definition copy_connection (st : State) (selectedNodes : list NodePtr)
    (nodeIdMap : gmap nat string) (conn : ConnPtr) : option Json :=
  match heap_conns st !! conn with
  | Some r =>
      let fromNode := m_fromNode r in
      let toNode := m_toNode r in
      if bool_decide (fromNode ∈ selectedNodes) && bool_decide (toNode ∈ selectedNodes)
      then
        let connObj := [] in
        let connObj := obj_set "fromCopyId"
                         (JString (default "" (nodeIdMap !! fromNode))) connObj in
        let connObj := obj_set "toCopyId"
                         (JString (default "" (nodeIdMap !! toNode))) connObj in
        let connObj := obj_set "fromPort" (JInt (m_fromPortIndex r)) connObj in
        let connObj := obj_set "toPort" (JInt (m_toPortIndex r)) connObj in
        let connObj := obj_set "lineType" (JInt (m_lineType r)) connObj in
        Some (JObject connObj)
      else None
  | None => None
  end.

(** [NodeScene::copySelected]: the clipboard afterwards. *)
Definition copySelected (selected : list Item) (st : State)
    (m_clipboard : list (string * Json)) : list (string * Json) :=
  match selected with
  | [] => m_clipboard
  | _ =>
      let '(selectedNodes, nodeIdMap, _) := foldl collect_selected ([], ∅, 0%nat) selected in
      match selectedNodes with
      | [] => m_clipboard
      | _ =>
          let center := centroid (node_pos st <$> selectedNodes) in
          let nodesArray := copy_node st center nodeIdMap <$> selectedNodes in
          let connectionsArray :=
            omap (copy_connection st selectedNodes nodeIdMap) (s_connections st) in
          let m_clipboard := [] in
          let m_clipboard := obj_set "nodes" (JArray nodesArray) m_clipboard in
          obj_set "connections" (JArray connectionsArray) m_clipboard
      end
  end.

(** [NodeScene::paste] *)
Definition paste (offset : QPointF) (m_clipboard : list (string * Json))
    (sc : NodeScene) : NodeScene :=
  match m_clipboard with
  | [] => sc
  | _ => scene_push (new_PasteCommand m_clipboard offset) sc
  end.

(** [NodeScene::cutSelected]: the clipboard and the scene afterwards. *)
Definition cutSelected (selected : list Item) (m_clipboard : list (string * Json))
    (sc : NodeScene) : list (string * Json) * NodeScene :=
  (copySelected selected (scene_state sc) m_clipboard, deleteSelected selected sc).

(** [NodeScene::canPaste] *)
Definition canPaste (m_clipboard : list (string * Json)) : bool :=
  negb (bool_decide (m_clipboard = [])) && obj_contains "nodes" m_clipboard.

(** The connection [PasteCommand::redo] constructs for an entry of the
    clipboard, when both copy ids are known. *)
Definition pasted_connection (newNodeMap : gmap string NodePtr) (connValue : Json)
  : option Connection :=
  let connObj := toObject connValue in
  match newNodeMap !! toString (obj_get "fromCopyId" connObj),
        newNodeMap !! toString (obj_get "toCopyId" connObj) with
  | Some fromNode, Some toNode =>
      Some (mkConnection fromNode toNode
              (toInt (obj_get "fromPort" connObj) 0)
              (toInt (obj_get "toPort" connObj) 0)
              (default Bezier (pasted_lineType connObj)))
  | _, _ => None
  end.

(** The ids the first loop of [copySelected] gives, from [nodeIndex] on. *)
Fixpoint assign_ids (nodeIndex : nat) (nodes : list NodePtr)
    (nodeIdMap : gmap nat string) : gmap nat string :=
  match nodes with
  | [] => nodeIdMap
  | node :: nodes =>
      assign_ids (S nodeIndex) nodes (<[node := copy_id nodeIndex]> nodeIdMap)
  end.

(** The position of a node in the list of selected nodes. *)
Fixpoint index_in (p : NodePtr) (nodes : list NodePtr) : nat :=
  match nodes with
  | [] => 0
  | q :: nodes => if decide (p = q) then 0 else S (index_in p nodes)
  end.

(** The scene connection at [c] when both its ends are selected. *)
Definition copy_source (st : State) (nodes : list NodePtr) (c : ConnPtr)
  : option Connection :=
  match heap_conns st !! c with
  | Some r =>
      if bool_decide (m_fromNode r ∈ nodes) && bool_decide (m_toNode r ∈ nodes)
      then Some r else None
  | None => None
  end.

(** ** Node.cpp: port hit test *)

Definition PORT_CAPTURE_RADIUS : Q := 12.

(** [QLineF(point, portPos).length() <= PORT_CAPTURE_RADIUS], decided on
    the squares of the two sides. *)
Definition within_capture (point portPos : QPointF) : bool :=
  let dx := (px portPos - px point)%Q in
  let dy := (py portPos - py point)%Q in
  Qle_bool (dx * dx + dy * dy) (PORT_CAPTURE_RADIUS * PORT_CAPTURE_RADIUS).

(** [for (int i = first; i < first + remaining; ++i) if (...) return i;
    return -1;] *)
Fixpoint port_scan (portPos : Z -> QPointF) (point : QPointF) (i : Z) (remaining : nat)
  : Z :=
  match remaining with
  | O => (-1)%Z
  | S remaining =>
      if within_capture point (portPos i) then i
      else port_scan portPos point (i + 1)%Z remaining
  end.

(** [Node::getInputPortIndexAt] *)
Definition getInputPortIndexAt (n : Node) (point : QPointF) : Z :=
  if (m_inputPortCount n <=? 0)%Z then (-1)%Z
  else port_scan (getInputPortPos n) point 0 (Z.to_nat (m_inputPortCount n)).

(** [Node::getOutputPortIndexAt] *)
Definition getOutputPortIndexAt (n : Node) (point : QPointF) : Z :=
  if (m_outputPortCount n <=? 0)%Z then (-1)%Z
  else port_scan (getOutputPortPos n) point 0 (Z.to_nat (m_outputPortCount n)).

(** [Node::isPointAtInputPort], [Node::isPointAtOutputPort] *)
Definition isPointAtInputPort (n : Node) (point : QPointF) : bool :=
  (0 <=? getInputPortIndexAt n point)%Z.
Definition isPointAtOutputPort (n : Node) (point : QPointF) : bool :=
  (0 <=? getOutputPortIndexAt n point)%Z.

(** The result [r] of a hit test over the ports [0 .. count-1]: the first
    port within the capture radius, or -1 when there is none. *)
Definition first_hit (portPos : Z -> QPointF) (point : QPointF) (count r : Z) : Prop :=
  (r = (-1)%Z /\
   forall i, (0 <= i < count)%Z -> within_capture point (portPos i) = false) \/
  ((0 <= r < count)%Z /\ within_capture point (portPos r) = true /\
   forall j, (0 <= j < r)%Z -> within_capture point (portPos j) = false).

(** ** MiniMapWidget.cpp: the coordinate mappings of the mini map *)

Record QRectF : Type := mkRect { r_left : Q; r_top : Q; r_width : Q; r_height : Q }.

(** [QRectF::isEmpty]: the width or the height is not positive. *)
Definition rect_isEmpty (r : QRectF) : bool :=
  Qle_bool (r_width r) 0 || Qle_bool (r_height r) 0.

(** [QRectF::adjust(dx1, dy1, dx2, dy2)] *)
Definition rect_adjust (dx1 dy1 dx2 dy2 : Q) (r : QRectF) : QRectF :=
  mkRect (r_left r + dx1) (r_top r + dy1)
    (r_width r + dx2 - dx1) (r_height r + dy2 - dy1).

(** [setFixedSize(200, 150)] in the constructor: [width()] and [height()]
    of the widget. *)
Definition minimap_width : Q := 200.
Definition minimap_height : Q := 150.

(** [MiniMapWidget::getSceneBounds]; [m_scene] is given by what the scene
    answers to [itemsBoundingRect()] and [sceneRect()], [None] for the null
    pointer. *)
Definition getSceneBounds (m_scene : option (QRectF * QRectF)) : QRectF :=
  match m_scene with
  | None => mkRect 0 0 0 0
  | Some (itemsBoundingRect, sceneRect) =>
      let bounds := itemsBoundingRect in
      let bounds := if rect_isEmpty bounds then sceneRect else bounds in
      rect_adjust (-100) (-100) 100 100 bounds
  end.

(** [MiniMapWidget::widgetToScene] *)
Definition widgetToScene (m_scene : option (QRectF * QRectF)) (widgetPos : QPointF)
  : QPointF :=
  let sceneBounds := getSceneBounds m_scene in
  if rect_isEmpty sceneBounds then mkPoint 0 0
  else
    let scaleX := (r_width sceneBounds / (minimap_width - 10))%Q in
    let scaleY := (r_height sceneBounds / (minimap_height - 10))%Q in
    let scale := qMaxQ scaleX scaleY in
    let offsetX := ((minimap_width - r_width sceneBounds / scale) / 2)%Q in
    let offsetY := ((minimap_height - r_height sceneBounds / scale) / 2)%Q in
    let sceneX := ((px widgetPos - offsetX) * scale + r_left sceneBounds)%Q in
    let sceneY := ((py widgetPos - offsetY) * scale + r_top sceneBounds)%Q in
    mkPoint sceneX sceneY.

(** [MiniMapWidget::sceneToWidget] *)
Definition sceneToWidget (m_scene : option (QRectF * QRectF)) (scenePos : QPointF)
  : QPointF :=
  let sceneBounds := getSceneBounds m_scene in
  if rect_isEmpty sceneBounds then mkPoint 0 0
  else
    let scaleX := (r_width sceneBounds / (minimap_width - 10))%Q in
    let scaleY := (r_height sceneBounds / (minimap_height - 10))%Q in
    let scale := qMaxQ scaleX scaleY in
    let offsetX := ((minimap_width - r_width sceneBounds / scale) / 2)%Q in
    let offsetY := ((minimap_height - r_height sceneBounds / scale) / 2)%Q in
    let widgetX := ((px scenePos - r_left sceneBounds) / scale + offsetX)%Q in
    let widgetY := ((py scenePos - r_top sceneBounds) / scale + offsetY)%Q in
    mkPoint widgetX widgetY.

(** A point of the rectangle, borders included. *)
Definition rect_contains (r : QRectF) (p : QPointF) : Prop :=
  (r_left r <= px p <= r_left r + r_width r)%Q /\
  (r_top r <= py p <= r_top r + r_height r)%Q.

(** A scene whose items span 400 x 100 from the origin. *)
Definition minimap_example : option (QRectF * QRectF) :=
  Some (mkRect 0 0 400 100, mkRect 0 0 0 0).

(** ** NodeView.cpp: zooming

    The transform of the view is changed by [scaleView] only, by a uniform
    scaling, so it is kept as its scale [zoom], 1 for the identity a new
    view has; [transform().scale(s, s).mapRect(QRectF(0, 0, 1, 1)).width()]
    is then [|zoom * s|]. *)

(** [qAbs(t)] is [(t >= 0) ? t : -t]. *)
Definition qAbs (t : Q) : Q := if Qle_bool 0 t then t else (- t)%Q.

(** [NodeView::scaleView]: the scale of the view afterwards. *)
Definition scaleView (scaleFactor : Q) (zoom : Q) : Q :=
  let factor := qAbs (zoom * scaleFactor) in
  if Qltb factor 0.07 || Qltb 100 factor then zoom
  else (zoom * scaleFactor)%Q.

(** The connection [loadFlowData] constructs for an entry of the document,
    when both node ids are known. *)
Definition loaded_connection (nodeMap : gmap string NodePtr) (connValue : Json)
  : option Connection :=
  let connObj := toObject connValue in
  let fromNodeId := if obj_contains "from" connObj
                    then toString (obj_get "from" connObj)
                    else toString (obj_get "fromNode" connObj) in
  let toNodeId := if obj_contains "to" connObj
                  then toString (obj_get "to" connObj)
                  else toString (obj_get "toNode" connObj) in
  match nodeMap !! fromNodeId, nodeMap !! toNodeId with
  | Some fromNode, Some toNode =>
      Some (mkConnection fromNode toNode
              (toInt (obj_get "fromPort" connObj) 0)
              (toInt (obj_get "toPort" connObj) 0)
              (default Bezier (pasted_lineType connObj)))
  | _, _ => None
  end.

(** ** NodeScene.cpp: drawing a connection with the mouse

    [items(pos)] is given by the list of items Qt finds at the position.
    The temporary line, the port highlights and the default processing of
    the base class (selection, dragging of items) are not modelled.
    [m_tempFromNode] is the null pointer exactly in the idle state. *)

Inductive ConnectionState : Type := StateNone | FromNodeClicked.

Record DragState : Type := mkDrag {
  m_connectionState : ConnectionState;
  m_tempFromNode : option NodePtr;
  m_tempFromPortIndex : Z
}.

(** The state the constructor sets up and [cleanupTempConnection] restores. *)
Definition cleanupTempConnection : DragState := mkDrag StateNone None 0.

Inductive MouseButton : Type := LeftButton | RightButton | OtherButton.

(** The hit tests through a node pointer. *)
Definition outputPortIndexAt (st : State) (node : NodePtr) (point : QPointF) : Z :=
  from_option (fun n => getOutputPortIndexAt n point) (-1)%Z (heap_nodes st !! node).
Definition inputPortIndexAt (st : State) (node : NodePtr) (point : QPointF) : Z :=
  from_option (fun n => getInputPortIndexAt n point) (-1)%Z (heap_nodes st !! node).

(** [NodeScene::mousePressEvent] *)
Definition mousePressEvent (button : MouseButton) (items : list Item)
    (scenePos : QPointF) (ds : DragState) (sc : NodeScene) : DragState * NodeScene :=
  match button with
  | LeftButton =>
      let clickedNode := head (omap as_node items) in
      match clickedNode with
      | Some clickedNode =>
          let outputPortIndex := outputPortIndexAt (scene_state sc) clickedNode scenePos in
          if (0 <=? outputPortIndex)%Z
          then (mkDrag FromNodeClicked (Some clickedNode) outputPortIndex, sc)
          else (ds, sc)
      | None => (ds, sc)
      end
  | RightButton =>
      match m_connectionState ds with
      | StateNone => (ds, sc)
      | FromNodeClicked => (cleanupTempConnection, sc)
      end
  | OtherButton => (ds, sc)
  end.

(** The loop of [mouseReleaseEvent] over the items at the position: the
    first node other than the source with an input port at the position. *)
Fixpoint find_target (st : State) (tempFromNode : option NodePtr) (scenePos : QPointF)
    (items : list Item) : option (NodePtr * Z) :=
  match items with
  | [] => None
  | item :: items =>
      match as_node item with
      | Some node =>
          if bool_decide (Some node <> tempFromNode) then
            let inputPort := inputPortIndexAt st node scenePos in
            if (0 <=? inputPort)%Z then Some (node, inputPort)
            else find_target st tempFromNode scenePos items
          else find_target st tempFromNode scenePos items
      | None => find_target st tempFromNode scenePos items
      end
  end.

(** [NodeScene::mouseReleaseEvent] *)
Definition mouseReleaseEvent (button : MouseButton) (items : list Item)
    (scenePos : QPointF) (ds : DragState) (sc : NodeScene) : DragState * NodeScene :=
  match button, m_connectionState ds with
  | LeftButton, FromNodeClicked =>
      match find_target (scene_state sc) (m_tempFromNode ds) scenePos items,
            m_tempFromNode ds with
      | Some (targetNode, targetPortIndex), Some tempFromNode =>
          (cleanupTempConnection,
           scene_addConnection tempFromNode (m_tempFromPortIndex ds)
             targetNode targetPortIndex sc)
      | _, _ => (cleanupTempConnection, sc)
      end
  | _, _ => (ds, sc)
  end.

(** The sources the connections of a flow give to the node [k], in the
    order of the connections. *)
Definition sources_of (k : string) (conns : list Json) : list string :=
  (fun c => toString (obj_get "from" (toObject c)))
    <$> filter (fun c => toString (obj_get "to" (toObject c)) = k) conns.

(** The endpoints of the connections of a scene, in the order of the scene. *)
Definition endpoints (st : State) : list (NodePtr * NodePtr) :=
  omap (fun c => (fun conn => (m_fromNode conn, m_toNode conn)) <$> heap_conns st !! c)
    (s_connections st).

(** Two nodes joined by two connections, one per output port. *)
Definition parallel_scene : NodeScene :=
  let sc := addNode "a" (mkPoint 0 0) empty_scene in
  let sc := addNode "b" (mkPoint 200 0) sc in
  let sc := scene_addConnection 0 0 1 0 sc in
  scene_addConnection 0 1 1 0 sc.

(** The invariant of an editing session: the scene is valid, every
    connection of the scene is registered with both endpoints, and the
    objects of the scene live below the next free address. *)
Definition scene_consistent (st : State) : Prop :=
  flow_valid st /\ registered st /\
  (forall p, p ∈ s_nodes st -> is_Some (heap_nodes st !! p) /\ (p < next_addr st)%nat) /\
  (forall c, c ∈ s_connections st -> (c < next_addr st)%nat).

(** [st'] has the lists of [st] and at least its objects. *)
Definition grows (st st' : State) : Prop :=
  (next_addr st <= next_addr st')%nat /\
  (forall p, is_Some (heap_nodes st !! p) -> is_Some (heap_nodes st' !! p)) /\
  s_nodes st' = s_nodes st /\ s_connections st' = s_connections st.

(** One step of an editing session: opening a flow, adding a node, drawing
    a connection with the mouse (press, then release, over items of the
    scene), deleting the selection, pasting a clipboard.  The undo stack of
    the scene is arbitrary; grouping, undo and redo are not among the
    steps. *)
Inductive edit : State -> State -> Prop :=
| edit_load (data : list (string * Json)) (st : State) :
    edit st (loadFlowData data st)
| edit_addNode (type : string) (position : QPointF) (sc : NodeScene) :
    edit (scene_state sc) (scene_state (addNode type position sc))
| edit_connect (items1 items2 : list Item) (pos1 pos2 : QPointF) (sc : NodeScene) :
    (forall n, ItemNode n ∈ items1 ++ items2 -> n ∈ s_nodes (scene_state sc)) ->
    edit (scene_state sc)
      (scene_state
         (mouseReleaseEvent LeftButton items2 pos2
            (mousePressEvent LeftButton items1 pos1 cleanupTempConnection sc).1
            (mousePressEvent LeftButton items1 pos1 cleanupTempConnection sc).2).2)
| edit_delete (selected : list Item) (sc : NodeScene) :
    edit (scene_state sc) (scene_state (deleteSelected selected sc))
| edit_paste (offset : QPointF) (m_clipboard : list (string * Json)) (sc : NodeScene) :
    edit (scene_state sc) (scene_state (paste offset m_clipboard sc)).

(** [Node::setType]: a new type brings the colour, the display name and
    the port counts of its library template, when that is valid. *)
Definition setType (st : State) (type : string) (n : Node) : Node :=
  if String.eqb (m_type n) type then n
  else
    let tmpl := getTemplate st type in
    if isValid tmpl then
      mkNode type (m_name n) (m_parameters n) (m_pos n) (m_connections n)
        (t_color tmpl) true (t_displayName tmpl)
        (t_inputPortCount tmpl) (t_outputPortCount tmpl)
        (m_width n) (m_height n) (m_group n)
    else
      mkNode type (m_name n) (m_parameters n) (m_pos n) (m_connections n)
        (m_customColor n) (m_useCustomColor n) (m_displayTypeName n)
        (m_inputPortCount n) (m_outputPortCount n)
        (m_width n) (m_height n) (m_group n).

(** A file of custom templates whose one template has negative port
    counts. *)
Definition negative_document : Json :=
  JObject
    [("templates",
      JArray [JObject [("typeId", JString "neg");
                       ("displayName", JString "Neg");
                       ("inputPortCount", JInt (-4));
                       ("outputPortCount", JInt (-2))]])].

(** The table of the library once [loadCustomFromFile] has read that file
    over the built-in templates. *)
Definition negative_library : gmap string Library.NodeTemplate :=
  (Library.loadCustomFromFile lower_hex_named (Some negative_document)
     (Library.initBuiltInTemplates ∅)).2.

(** An empty scene beside that library. *)
Definition negative_scene : NodeScene :=
  mkScene (mkState ∅ ∅ 0 [] [] (template_fields <$> negative_library) 1 1)
    (mkUndoStack [] 0).

(** * Properties *)

(** ** Arithmetic helpers *)

Lemma Qltb_true (a b : Q) : Qltb a b = true <-> (a < b)%Q.
Proof.
  unfold Qltb. rewrite negb_true_iff. split; intros H.
  - apply Qnot_le_lt. intros Hle. apply Qle_bool_iff in Hle. congruence.
  - destruct (Qle_bool b a) eqn:E; [|reflexivity].
    apply Qle_bool_iff in E. apply Qle_not_lt in E. contradiction.
Qed.

Lemma Qltb_false (a b : Q) : Qltb a b = false <-> (b <= a)%Q.
Proof.
  unfold Qltb. rewrite negb_false_iff. apply Qle_bool_iff.
Qed.

Lemma qMaxZ_max (a b : Z) : qMaxZ a b = Z.max a b.
Proof. unfold qMaxZ. destruct (Z.ltb_spec a b); lia. Qed.

Lemma qBound_lower (lo v hi : Q) : (lo <= qBound lo v hi)%Q.
Proof.
  unfold qBound, qMaxQ. destruct (Qltb lo (qMinQ hi v)) eqn:E.
  - apply Qltb_true in E. lra.
  - lra.
Qed.

Lemma qBound_ge (lo v hi x : Q) :
  (x <= v)%Q -> (x <= hi)%Q -> (x <= qBound lo v hi)%Q.
Proof.
  intros Hv Hhi. unfold qBound, qMaxQ, qMinQ.
  destruct (Qltb hi v) eqn:E1.
  - destruct (Qltb lo hi) eqn:E2; [lra|]. apply Qltb_false in E2. lra.
  - destruct (Qltb lo v) eqn:E2; [lra|]. apply Qltb_false in E2. lra.
Qed.

(** ** Port counts (Node.cpp) *)

Lemma setInputPortCount_count (c : Z) (n : Node) :
  m_inputPortCount (setInputPortCount c n) = Z.max 0 c.
Proof.
  unfold setInputPortCount. rewrite qMaxZ_max.
  destruct (Z.eqb_spec (m_inputPortCount n) (Z.max 0 c)); [assumption | reflexivity].
Qed.

Lemma setOutputPortCount_count (c : Z) (n : Node) :
  m_outputPortCount (setOutputPortCount c n) = Z.max 0 c.
Proof.
  unfold setOutputPortCount. rewrite qMaxZ_max.
  destruct (Z.eqb_spec (m_outputPortCount n) (Z.max 0 c)); [assumption | reflexivity].
Qed.

Lemma setInputPortCount_output (c : Z) (n : Node) :
  m_outputPortCount (setInputPortCount c n) = m_outputPortCount n.
Proof. unfold setInputPortCount. by destruct (_ =? _)%Z. Qed.

Lemma setOutputPortCount_input (c : Z) (n : Node) :
  m_inputPortCount (setOutputPortCount c n) = m_inputPortCount n.
Proof. unfold setOutputPortCount. by destruct (_ =? _)%Z. Qed.

Lemma run_port_ops_nonneg (ops : list PortOp) (n : Node) :
  (0 <= m_inputPortCount n)%Z -> (0 <= m_outputPortCount n)%Z ->
  (0 <= m_inputPortCount (run_port_ops ops n))%Z /\
  (0 <= m_outputPortCount (run_port_ops ops n))%Z.
Proof.
  revert n. induction ops as [|op ops IH]; intros n Hi Ho; [done|].
  simpl. apply IH; destruct op; simpl;
    rewrite ?setInputPortCount_count, ?setOutputPortCount_count,
      ?setInputPortCount_output, ?setOutputPortCount_input; lia.
Qed.

(** The setters alone: [setInputPortCount c] and [setOutputPortCount c]
    store [max 0 c], whatever the integer [c]; hence a node whose two counts
    are not negative keeps non-negative counts under every sequence of these
    two calls.  The constructor and [setType] are not among them. *)
Theorem port_counts_never_negative (n : Node) (c : Z) (ops : list PortOp) :
  m_inputPortCount (setInputPortCount c n) = Z.max 0 c /\
  m_outputPortCount (setOutputPortCount c n) = Z.max 0 c /\
  ((0 <= m_inputPortCount n)%Z -> (0 <= m_outputPortCount n)%Z ->
   (0 <= m_inputPortCount (run_port_ops ops n))%Z /\
   (0 <= m_outputPortCount (run_port_ops ops n))%Z).
Proof.
  split; [apply setInputPortCount_count|].
  split; [apply setOutputPortCount_count|].
  apply run_port_ops_nonneg.
Qed.

Lemma port_counts_never_negative_witness :
  m_inputPortCount (setInputPortCount (-3) example_node) = 0%Z /\
  m_outputPortCount (setOutputPortCount (-3) example_node) = 0%Z /\
  (0 <= m_inputPortCount
          (run_port_ops [SetInput (-5); SetOutput 4; SetInput 2; SetOutput (-1)]
             example_node))%Z /\
  (0 <= m_outputPortCount
          (run_port_ops [SetInput (-5); SetOutput 4; SetInput 2; SetOutput (-1)]
             example_node))%Z.
Proof.
  pose proof (port_counts_never_negative example_node (-3)
                [SetInput (-5); SetOutput 4; SetInput 2; SetOutput (-1)]) as [H1 [H2 H3]].
  split; [exact H1|]. split; [exact H2|].
  apply H3; vm_compute; discriminate.
Defined.

(** The constructor and [setType] copy the counts of a valid template as
    they are. *)
Lemma template_counts_copied (st : State) (type name : string) (position : QPointF)
    (n : Node) :
  isValid (getTemplate st type) = true ->
  m_inputPortCount (Node_ctor st type name position)
  = t_inputPortCount (getTemplate st type) /\
  m_outputPortCount (Node_ctor st type name position)
  = t_outputPortCount (getTemplate st type) /\
  (m_type n <> type ->
   m_inputPortCount (setType st type n) = t_inputPortCount (getTemplate st type) /\
   m_outputPortCount (setType st type n) = t_outputPortCount (getTemplate st type)).
Proof.
  intros Hv. unfold Node_ctor, setType. cbv zeta. rewrite Hv.
  split; [done|]. split; [done|]. intros Hne.
  apply String.eqb_neq in Hne. by rewrite Hne.
Qed.

(** C10, evaluated.  The two setters store [max 0 c], as the claim says; but
    the counts of a node are also written by the constructor and by
    [setType], which copy the counts of the library template without the
    clamp.  With the library read from a file whose template "neg" has the
    counts -4 and -2, the node [addNode] creates has the counts -4 and -2,
    and so has a node whose type is changed to "neg"; the sibling path
    [onTemplateUpdated], which applies the same template through the
    setters, stores 0 and 0. *)
Theorem port_counts_negative_from_template :
  (forall (c : Z) (n : Node),
     m_inputPortCount (setInputPortCount c n) = Z.max 0 c /\
     m_outputPortCount (setOutputPortCount c n) = Z.max 0 c) /\
  let st := scene_state negative_scene in
  let st1 := scene_state (addNode "neg" (mkPoint 0 0) negative_scene) in
  s_nodes st1 = [0%nat] /\
  m_inputPortCount <$> heap_nodes st1 !! 0%nat = Some (-4)%Z /\
  m_outputPortCount <$> heap_nodes st1 !! 0%nat = Some (-2)%Z /\
  m_inputPortCount (setType st "neg" example_node) = (-4)%Z /\
  m_outputPortCount (setType st "neg" example_node) = (-2)%Z /\
  m_inputPortCount (apply_template (getTemplate st "neg") example_node) = 0%Z /\
  m_outputPortCount (apply_template (getTemplate st "neg") example_node) = 0%Z.
Proof.
  split.
  - intros c n. split; [apply setInputPortCount_count|apply setOutputPortCount_count].
  - cbv zeta. repeat split; vm_compute; reflexivity.
Qed.

(** ** Port geometry (Node.cpp) *)

Lemma inject_Z_pos (z : Z) : (0 < z)%Z -> (0 < inject_Z z)%Q.
Proof. intros H. replace 0%Q with (inject_Z 0) by reflexivity. by rewrite <- Zlt_Qlt. Qed.

Lemma calculatePortYOffset_few (i count : Z) (H : Q) :
  (count <= 1)%Z -> calculatePortYOffset i count H = 0%Q.
Proof.
  intros Hc. unfold calculatePortYOffset.
  destruct (Z.leb_spec count 0); [reflexivity|].
  destruct (Z.eqb_spec count 1); [reflexivity|lia].
Qed.

Lemma calculatePortYOffset_many (i count : Z) (H : Q) :
  (1 < count)%Z ->
  (calculatePortYOffset i count H ==
   - (0.4 * H) + inject_Z i * (0.8 * H / inject_Z (count - 1)))%Q.
Proof.
  intros Hc. unfold calculatePortYOffset.
  destruct (Z.leb_spec count 0); [lia|].
  destruct (Z.eqb_spec count 1); [lia|].
  pose proof (inject_Z_pos (count - 1) ltac:(lia)) as Hd.
  field. lra.
Qed.

Lemma calculatePortYOffset_span (count : Z) (H : Q) :
  (1 < count)%Z ->
  (calculatePortYOffset (count - 1) count H - calculatePortYOffset 0 count H
   == 0.8 * H)%Q.
Proof.
  intros Hc. rewrite !calculatePortYOffset_many by done.
  pose proof (inject_Z_pos (count - 1) ltac:(lia)) as Hd.
  change (inject_Z 0) with 0%Q. field. lra.
Qed.

Lemma calculatePortYOffset_symmetric (i count : Z) (H : Q) :
  (1 < count)%Z ->
  (calculatePortYOffset i count H + calculatePortYOffset (count - 1 - i) count H
   == 0)%Q.
Proof.
  intros Hc. rewrite !calculatePortYOffset_many by done.
  pose proof (inject_Z_pos (count - 1) ltac:(lia)) as Hd.
  replace (count - 1 - i)%Z with ((count - 1) + - i)%Z by lia.
  rewrite inject_Z_plus, inject_Z_opp. field. lra.
Qed.

Lemma in_range_index (i count : Z) :
  (0 <= i < count)%Z -> ((i <? 0) || (count <=? i))%Z = false.
Proof. intros Hi. apply orb_false_iff. split; [apply Z.ltb_ge|apply Z.leb_gt]; lia. Qed.

Lemma getInputPortPos_in_range (n : Node) (i : Z) :
  (0 <= i < m_inputPortCount n)%Z ->
  getInputPortPos n i =
  pt_add (m_pos n)
    (mkPoint (- m_width n / 2)%Q
       (calculatePortYOffset i (m_inputPortCount n) (m_height n))).
Proof.
  intros Hi. unfold getInputPortPos.
  destruct (Z.leb_spec (m_inputPortCount n) 0); [lia|].
  by rewrite in_range_index.
Qed.

Lemma getOutputPortPos_in_range (n : Node) (i : Z) :
  (0 <= i < m_outputPortCount n)%Z ->
  getOutputPortPos n i =
  pt_add (m_pos n)
    (mkPoint (m_width n / 2)%Q
       (calculatePortYOffset i (m_outputPortCount n) (m_height n))).
Proof.
  intros Hi. unfold getOutputPortPos.
  destruct (Z.leb_spec (m_outputPortCount n) 0); [lia|].
  by rewrite in_range_index.
Qed.

Lemma input_port_layout (n : Node) :
  port_layout n (getInputPortPos n) (m_inputPortCount n) (- m_width n / 2)%Q.
Proof.
  split; [|split].
  - intros Hc i. unfold getInputPortPos.
    by destruct (Z.leb_spec (m_inputPortCount n) 0); [|lia].
  - intros Hc i. unfold getInputPortPos. rewrite Hc. simpl.
    rewrite calculatePortYOffset_few by lia. reflexivity.
  - intros Hc. split; [|split].
    + intros i Hi. rewrite getInputPortPos_in_range by done.
      split; simpl; [reflexivity|].
      by rewrite calculatePortYOffset_many.
    + rewrite !getInputPortPos_in_range by lia. simpl.
      rewrite <- (calculatePortYOffset_span (m_inputPortCount n) (m_height n)) by done.
      ring.
    + intros i Hi. rewrite !getInputPortPos_in_range by lia. simpl.
      rewrite <- (calculatePortYOffset_symmetric i (m_inputPortCount n) (m_height n)) by done.
      ring.
Qed.

Lemma output_port_layout (n : Node) :
  port_layout n (getOutputPortPos n) (m_outputPortCount n) (m_width n / 2)%Q.
Proof.
  split; [|split].
  - intros Hc i. unfold getOutputPortPos.
    by destruct (Z.leb_spec (m_outputPortCount n) 0); [|lia].
  - intros Hc i. unfold getOutputPortPos. rewrite Hc. simpl.
    rewrite calculatePortYOffset_few by lia. reflexivity.
  - intros Hc. split; [|split].
    + intros i Hi. rewrite getOutputPortPos_in_range by done.
      split; simpl; [reflexivity|].
      by rewrite calculatePortYOffset_many.
    + rewrite !getOutputPortPos_in_range by lia. simpl.
      rewrite <- (calculatePortYOffset_span (m_outputPortCount n) (m_height n)) by done.
      ring.
    + intros i Hi. rewrite !getOutputPortPos_in_range by lia. simpl.
      rewrite <- (calculatePortYOffset_symmetric i (m_outputPortCount n) (m_height n)) by done.
      ring.
Qed.

(** C8.  Ports of one direction sit on the corresponding edge
    (x = -W/2 for inputs, +W/2 for outputs, relative to the node centre):
    without ports the query returns the edge midpoint; a single port sits at
    the vertical centre; with [count > 1] ports, port [i] sits at vertical
    offset [-0.4*H + i*(0.8*H/(count-1))], so that the first and last port
    are exactly [0.8*H] apart and the ports are symmetric about the centre. *)
Theorem port_distribution (n : Node) :
  port_layout n (getInputPortPos n) (m_inputPortCount n) (- m_width n / 2)%Q /\
  port_layout n (getOutputPortPos n) (m_outputPortCount n) (m_width n / 2)%Q.
Proof. split; [apply input_port_layout | apply output_port_layout]. Qed.

Lemma port_distribution_witness :
  getInputPortPos (setInputPortCount 0 example_node) 0 = mkPoint (10 + - 120 / 2) (20 + 0) /\
  getOutputPortPos example_node 0 = mkPoint (10 + 120 / 2) (20 + 0) /\
  (py (getInputPortPos (setInputPortCount 3 example_node) 2)
   - py (getInputPortPos (setInputPortCount 3 example_node) 0) == 0.8 * 70)%Q /\
  pt_eq (getOutputPortPos (setOutputPortCount 5 example_node) 1) (mkPoint 70 6).
Proof.
  split; [|split; [|split]].
  - destruct (port_distribution (setInputPortCount 0 example_node)) as [[H _] _].
    apply (H ltac:(vm_compute; discriminate) 0%Z).
  - destruct (port_distribution example_node) as [_ [_ [H _]]].
    apply (H eq_refl 0%Z).
  - destruct (port_distribution (setInputPortCount 3 example_node)) as [[_ [_ H]] _].
    destruct (H ltac:(reflexivity)) as [_ [Hspan _]]. exact Hspan.
  - destruct (port_distribution (setOutputPortCount 5 example_node)) as [_ [_ [_ H]]].
    destruct (H ltac:(reflexivity)) as [Hpos _].
    destruct (Hpos 1%Z ltac:(split; [lia | reflexivity])) as [Hx Hy].
    split; [rewrite Hx | rewrite Hy]; reflexivity.
Defined.

(** C9.  A port index outside the current port count, negative ones
    included, is answered with the position of port 0: the query is total
    and clamps. *)
Theorem dangling_port_index_clamped (n : Node) (i : Z) :
  ((i < 0)%Z \/ (m_inputPortCount n <= i)%Z ->
   getInputPortPos n i = getInputPortPos n 0) /\
  ((i < 0)%Z \/ (m_outputPortCount n <= i)%Z ->
   getOutputPortPos n i = getOutputPortPos n 0).
Proof.
  split; intros Hi.
  - unfold getInputPortPos.
    destruct (Z.leb_spec (m_inputPortCount n) 0); [reflexivity|].
    replace ((i <? 0) || (m_inputPortCount n <=? i))%Z with true.
    + by destruct ((0 <? 0) || (m_inputPortCount n <=? 0))%Z.
    + symmetry. apply orb_true_iff.
      destruct Hi; [left; by apply Z.ltb_lt | right; by apply Z.leb_le].
  - unfold getOutputPortPos.
    destruct (Z.leb_spec (m_outputPortCount n) 0); [reflexivity|].
    replace ((i <? 0) || (m_outputPortCount n <=? i))%Z with true.
    + by destruct ((0 <? 0) || (m_outputPortCount n <=? 0))%Z.
    + symmetry. apply orb_true_iff.
      destruct Hi; [left; by apply Z.ltb_lt | right; by apply Z.leb_le].
Qed.

Lemma dangling_port_index_clamped_witness :
  getInputPortPos (setInputPortCount 2 example_node) 5
  = getInputPortPos (setInputPortCount 2 example_node) 0 /\
  getOutputPortPos (setOutputPortCount 2 example_node) (-1)
  = getOutputPortPos (setOutputPortCount 2 example_node) 0.
Proof.
  split.
  - apply (dangling_port_index_clamped (setInputPortCount 2 example_node) 5).
    right. vm_compute. discriminate.
  - apply (dangling_port_index_clamped (setOutputPortCount 2 example_node) (-1)).
    left. lia.
Defined.

(** ** Group size (GroupNode.cpp) *)

Lemma setSize_width_ge (w h x : Q) (n : Node) :
  (x <= w)%Q -> (x <= MAX_WIDTH)%Q -> (x <= m_width (setSize w h n))%Q.
Proof. intros. simpl. by apply qBound_ge. Qed.

Lemma setSize_height_ge (w h x : Q) (n : Node) :
  (x <= h)%Q -> (x <= MAX_HEIGHT)%Q -> (x <= m_height (setSize w h n))%Q.
Proof. intros. simpl. by apply qBound_ge. Qed.

(** The last two steps of [calculatePortMappings], on their own. *)
Lemma autosize_bounds (n : Node) (minHeight : Q) :
  let n1 := if Qltb (m_height n) minHeight
            then setSize (m_width n) minHeight n else n in
  let n2 := if Qltb (m_width n1) 150
            then setSize 150 (m_height n1) n1 else n1 in
  (150 <= m_width n2)%Q /\
  ((minHeight <= MAX_HEIGHT)%Q -> (minHeight <= m_height n2)%Q) /\
  ((MAX_HEIGHT <= minHeight)%Q -> (MAX_HEIGHT <= m_height n2)%Q) /\
  m_inputPortCount n2 = m_inputPortCount n /\
  m_outputPortCount n2 = m_outputPortCount n.
Proof.
  intros n1 n2.
  assert (H1 : ((minHeight <= MAX_HEIGHT)%Q -> (minHeight <= m_height n1)%Q) /\
               ((MAX_HEIGHT <= minHeight)%Q -> (MAX_HEIGHT <= m_height n1)%Q) /\
               m_inputPortCount n1 = m_inputPortCount n /\
               m_outputPortCount n1 = m_outputPortCount n).
  { subst n1. destruct (Qltb (m_height n) minHeight) eqn:E.
    - repeat split; intros; try (apply setSize_height_ge; lra).
    - apply Qltb_false in E. repeat split; intros; lra. }
  destruct H1 as (Ha & Hb & Hc & Hd).
  subst n2. destruct (Qltb (m_width n1) 150) eqn:E.
  - repeat split; try (simpl; congruence).
    + apply setSize_width_ge; unfold MAX_WIDTH; lra.
    + intros Hle. apply setSize_height_ge; auto.
    + intros Hle. apply setSize_height_ge; [auto | lra].
  - apply Qltb_false in E. repeat split; auto.
Qed.

Lemma calculatePortMappings_counts (st : State) (n : Node) (gd : GroupData) :
  m_group n = Some gd ->
  let n' := GroupNode_calculatePortMappings st n in
  m_inputPortCount n' = Z.max 1 (Z.of_nat (length (portMappings st gd).1)) /\
  m_outputPortCount n' = Z.max 1 (Z.of_nat (length (portMappings st gd).2)) /\
  (150 <= m_width n')%Q /\
  let minHeight := inject_Z (50 + Z.max (m_inputPortCount n') (m_outputPortCount n') * 20) in
  ((minHeight <= MAX_HEIGHT)%Q -> (minHeight <= m_height n')%Q) /\
  ((MAX_HEIGHT <= minHeight)%Q -> (MAX_HEIGHT <= m_height n')%Q).
Proof.
  intros Hg. unfold GroupNode_calculatePortMappings. rewrite Hg.
  destruct (portMappings st gd) as [inputs outputs]. simpl fst; simpl snd.
  match goal with
  | |- context [setOutputPortCount ?oc (setInputPortCount ?ic ?m)] =>
      set (n0 := setOutputPortCount oc (setInputPortCount ic m))
  end.
  assert (Hin : m_inputPortCount n0 = Z.max 1 (Z.of_nat (length inputs))).
  { subst n0. rewrite setOutputPortCount_input, setInputPortCount_count, qMaxZ_max. lia. }
  assert (Hout : m_outputPortCount n0 = Z.max 1 (Z.of_nat (length outputs))).
  { subst n0. rewrite setOutputPortCount_count, qMaxZ_max. lia. }
  rewrite !qMaxZ_max.
  match goal with
  | |- context [Qltb (m_height n0) ?mh] =>
      destruct (autosize_bounds n0 mh) as (Hw & Hh1 & Hh2 & Hi & Ho)
  end.
  cbv zeta in *. rewrite Hi, Ho, Hin, Hout. auto.
Qed.

(** C7 (as amended).  After [calculatePortMappings] a group is at least 150
    wide, and its height is at least [50 + maxPortCount*20] as long as that
    does not exceed the maximal node height 200, which is the case up to
    seven ports; beyond, the height is the maximum ([setSize] clamps). *)
Theorem group_size_after_mapping (st : State) (n : Node) (gd : GroupData) :
  m_group n = Some gd ->
  let n' := GroupNode_calculatePortMappings st n in
  let maxPortCount := Z.max (m_inputPortCount n') (m_outputPortCount n') in
  (150 <= m_width n')%Q /\
  ((maxPortCount <= 7)%Z -> (inject_Z (50 + maxPortCount * 20) <= m_height n')%Q) /\
  ((7 < maxPortCount)%Z -> (200 <= m_height n')%Q).
Proof.
  intros Hg n' maxPortCount.
  destruct (calculatePortMappings_counts st n gd Hg) as (_ & _ & Hw & Hh1 & Hh2).
  fold n' in Hw, Hh1, Hh2. fold maxPortCount in Hh1, Hh2.
  split; [exact Hw|]. split; intros Hm.
  - apply Hh1. unfold MAX_HEIGHT. change 200%Q with (inject_Z 200).
    rewrite <- Zle_Qle. lia.
  - apply Hh2. unfold MAX_HEIGHT. change 200%Q with (inject_Z 200).
    rewrite <- Zle_Qle. lia.
Qed.

Lemma group_size_after_mapping_witness :
  (150 <= m_width (GroupNode_calculatePortMappings wide_state
                     (GroupNode_ctor wide_state "g" (mkPoint 0 0))))%Q /\
  (inject_Z (50 + 1 * 20)
   <= m_height (GroupNode_calculatePortMappings wide_state
                  (GroupNode_ctor wide_state "g" (mkPoint 0 0))))%Q /\
  (200 <= m_height (GroupNode_calculatePortMappings wide_state wide_group))%Q.
Proof.
  split; [|split].
  - destruct (group_size_after_mapping wide_state
                (GroupNode_ctor wide_state "g" (mkPoint 0 0))
                (mkGroupData [] [] [] [] [] [] 1) eq_refl) as (Hw & _ & _).
    exact Hw.
  - destruct (group_size_after_mapping wide_state
                (GroupNode_ctor wide_state "g" (mkPoint 0 0))
                (mkGroupData [] [] [] [] [] [] 1) eq_refl) as (_ & Hh & _).
    apply Hh. vm_compute. discriminate.
  - destruct (group_size_after_mapping wide_state wide_group
                (mkGroupData [1%nat] [] [] [] [] [(1%nat, mkPoint 0 0)] 1) eq_refl)
      as (_ & _ & Hh).
    apply Hh. vm_compute. reflexivity.
Defined.

(** C7 as stated fails: with eight exposed input ports the bound would be
    210, and the group is 200 high. *)
Lemma group_size_counterexample :
  m_inputPortCount (GroupNode_calculatePortMappings wide_state wide_group) = 8%Z /\
  m_outputPortCount (GroupNode_calculatePortMappings wide_state wide_group) = 1%Z /\
  ~ (inject_Z (50 + 8 * 20)
     <= m_height (GroupNode_calculatePortMappings wide_state wide_group))%Q.
Proof.
  split; [vm_compute; reflexivity|]. split; [vm_compute; reflexivity|].
  vm_compute. intros H. apply H. reflexivity.
Qed.

(** ** Port mappings (GroupNode.cpp) *)

Lemma endpoint_count_app (node : NodePtr) (port : Z) (l1 l2 : list PortMapping) :
  endpoint_count node port (l1 ++ l2)
  = (endpoint_count node port l1 + endpoint_count node port l2)%nat.
Proof. unfold endpoint_count. by rewrite filter_app, length_app. Qed.

Lemma mark_internal_mono (st : State) (conns : list ConnPtr) (S : gset (nat * Z * bool)) k :
  k ∈ S -> k ∈ foldl (mark_internal st) S conns.
Proof.
  revert S. induction conns as [|conn conns IH]; intros S Hk; [done|].
  simpl. apply IH. unfold mark_internal.
  destruct (heap_conns st !! conn); set_solver.
Qed.

Lemma mark_internal_marks (st : State) (conns : list ConnPtr) (S : gset (nat * Z * bool))
    (conn : ConnPtr) (c : Connection) :
  conn ∈ conns -> heap_conns st !! conn = Some c ->
  (m_toNode c, m_toPortIndex c, true) ∈ foldl (mark_internal st) S conns /\
  (m_fromNode c, m_fromPortIndex c, false) ∈ foldl (mark_internal st) S conns.
Proof.
  revert S. induction conns as [|conn' conns IH]; intros S Hin Hc.
  - by apply elem_of_nil in Hin.
  - simpl. apply elem_of_cons in Hin as [Heq|Hin]; [subst conn'|by apply IH].
    split; apply mark_internal_mono; unfold mark_internal; rewrite Hc; set_solver.
Qed.

(** The loop over the external descriptors: each descriptor contributes
    one mapping to the list of its direction, and its port is marked. *)
Lemma map_external_fold (st : State) (exts : list ExternalConnection)
    (inputs outputs : list PortMapping) (S : gset (nat * Z * bool)) :
  exists inputs' outputs' S',
    foldl (map_external st) (inputs, outputs, S) exts = (inputs', outputs', S') /\
    S ⊆ S' /\
    (forall e, e ∈ exts -> (internalNode e, internalPortIndex e, isInput e) ∈ S') /\
    (forall node port,
       endpoint_count node port inputs'
       = (endpoint_count node port inputs + descriptor_count node port true exts)%nat /\
       endpoint_count node port outputs'
       = (endpoint_count node port outputs + descriptor_count node port false exts)%nat).
Proof.
  revert inputs outputs S.
  induction exts as [|e exts IH]; intros inputs outputs S.
  - exists inputs, outputs, S. split; [done|]. split; [done|]. split.
    + intros e He. by apply elem_of_nil in He.
    + intros node port. unfold descriptor_count. simpl. lia.
  - simpl.
    destruct (isInput e) eqn:Hdir.
    + destruct (IH (inputs ++ [mkPortMapping (internalNode e) (internalPortIndex e) true
                                 (label_of st (internalNode e) (internalPortIndex e))])
                  outputs
                  ({[ (internalNode e, internalPortIndex e, true) ]} ∪ S))
        as (i' & o' & S' & Hf & Hsub & Hmark & Hcount).
      exists i', o', S'. split; [exact Hf|]. split; [set_solver|]. split.
      * intros e' He'. apply elem_of_cons in He' as [Heq|He']; [subst e'|by apply Hmark].
        rewrite Hdir. set_solver.
      * intros node port. destruct (Hcount node port) as [Hi Ho].
        rewrite Hi, Ho, endpoint_count_app.
        unfold descriptor_count, endpoint_count.
        rewrite !filter_cons, filter_nil. simpl. rewrite Hdir.
        repeat case_decide; simpl; try lia; naive_solver.
    + destruct (IH inputs
                  (outputs ++ [mkPortMapping (internalNode e) (internalPortIndex e) false
                                 (label_of st (internalNode e) (internalPortIndex e))])
                  ({[ (internalNode e, internalPortIndex e, false) ]} ∪ S))
        as (i' & o' & S' & Hf & Hsub & Hmark & Hcount).
      exists i', o', S'. split; [exact Hf|]. split; [set_solver|]. split.
      * intros e' He'. apply elem_of_cons in He' as [Heq|He']; [subst e'|by apply Hmark].
        rewrite Hdir. set_solver.
      * intros node port. destruct (Hcount node port) as [Hi Ho].
        rewrite Hi, Ho, endpoint_count_app.
        unfold descriptor_count, endpoint_count.
        rewrite !filter_cons, filter_nil. simpl. rewrite Hdir.
        repeat case_decide; simpl; try lia; naive_solver.
Qed.

(** The loop over the ports of one node never adds a marked port. *)
Lemma map_dangling_fold (st : State) (S : gset (nat * Z * bool)) (node : NodePtr)
    (input : bool) (idxs : list Z) (mappings : list PortMapping) (n : NodePtr) (p : Z) :
  (n, p, input) ∈ S ->
  endpoint_count n p (foldl (map_dangling st S node input) mappings idxs)
  = endpoint_count n p mappings.
Proof.
  intros Hk. revert mappings.
  induction idxs as [|i idxs IH]; intros mappings; [done|].
  simpl. rewrite IH. unfold map_dangling. case_bool_decide as Hin; [done|].
  rewrite endpoint_count_app. unfold endpoint_count at 2.
  rewrite filter_cons, filter_nil. simpl.
  case_decide as Heq; [|simpl; lia].
  destruct Heq as [-> ->]. contradiction.
Qed.

Lemma map_node_fold (st : State) (S : gset (nat * Z * bool)) (nodes : list NodePtr)
    (inputs outputs : list PortMapping) (n : NodePtr) (p : Z) :
  let r := foldl (map_node st S) (inputs, outputs) nodes in
  ((n, p, true) ∈ S -> endpoint_count n p r.1 = endpoint_count n p inputs) /\
  ((n, p, false) ∈ S -> endpoint_count n p r.2 = endpoint_count n p outputs).
Proof.
  revert inputs outputs.
  induction nodes as [|node nodes IH]; intros inputs outputs; [done|].
  simpl.
  match goal with
  | |- context [foldl (map_node st S) (?i, ?o) nodes] =>
      destruct (IH i o) as [Hi Ho]
  end.
  split; intros Hk.
  - rewrite (Hi Hk). by apply map_dangling_fold.
  - rewrite (Ho Hk). by apply map_dangling_fold.
Qed.

(** The mapping lists count a marked port once per external descriptor of
    its direction. *)
Lemma portMappings_connected (st : State) (gd : GroupData) (n : NodePtr) (p : Z) :
  let connected :=
    (foldl (map_external st)
       ([], [], foldl (mark_internal st) ∅ (m_internalConnections gd))
       (m_externalConnections gd)).2 in
  ((n, p, true) ∈ connected ->
   endpoint_count n p (portMappings st gd).1
   = descriptor_count n p true (m_externalConnections gd)) /\
  ((n, p, false) ∈ connected ->
   endpoint_count n p (portMappings st gd).2
   = descriptor_count n p false (m_externalConnections gd)).
Proof.
  unfold portMappings.
  destruct (map_external_fold st (m_externalConnections gd) [] []
              (foldl (mark_internal st) ∅ (m_internalConnections gd)))
    as (i' & o' & S' & Hf & Hsub & Hmark & Hcount).
  rewrite Hf. simpl.
  destruct (map_node_fold st S' (m_internalNodes gd) i' o' n p) as [Hi Ho].
  destruct (Hcount n p) as [Hci Hco].
  split; intros Hk.
  - rewrite (Hi Hk), Hci. reflexivity.
  - rewrite (Ho Hk), Hco. reflexivity.
Qed.

(** C2 (as amended).  In the lists [calculatePortMappings] builds, the
    internal endpoint of an external descriptor occurs once per descriptor
    of that direction with that endpoint (so exactly once when it is not
    shared), and a port that is an endpoint of an internal connection occurs
    only through such descriptors: as often as there are descriptors for it,
    never as a dangling port. *)
Theorem port_mapping_exclusivity (st : State) (gd : GroupData)
    (node : NodePtr) (port : Z) :
  let inputs := (portMappings st gd).1 in
  let outputs := (portMappings st gd).2 in
  let exts := m_externalConnections gd in
  ((internal_endpoint st gd node port true \/ 0 < descriptor_count node port true exts)%nat ->
   endpoint_count node port inputs = descriptor_count node port true exts) /\
  ((internal_endpoint st gd node port false \/ 0 < descriptor_count node port false exts)%nat ->
   endpoint_count node port outputs = descriptor_count node port false exts).
Proof.
  intros inputs outputs exts.
  destruct (portMappings_connected st gd node port) as [Hi Ho].
  destruct (map_external_fold st (m_externalConnections gd) [] []
              (foldl (mark_internal st) ∅ (m_internalConnections gd)))
    as (i' & o' & S' & Hf & Hsub & Hmark & _).
  rewrite Hf in Hi, Ho. simpl in Hi, Ho.
  assert (Hdesc : forall input,
             (0 < descriptor_count node port input exts)%nat ->
             (node, port, input) ∈ S').
  { intros input Hpos. unfold descriptor_count in Hpos.
    destruct (filter _ exts) as [|e l] eqn:Hfl; [simpl in Hpos; lia|].
    assert (He : e ∈ filter (fun e => internalNode e = node /\
                               internalPortIndex e = port /\ isInput e = input) exts)
      by (rewrite Hfl; left).
    apply list_elem_of_filter in He as [(<- & <- & <-) He].
    by apply Hmark. }
  split; intros [Hint|Hext].
  - apply Hi. destruct Hint as (conn & c & Hin & Hc & <- & <-).
    apply Hsub. by apply (mark_internal_marks st _ ∅ conn c).
  - apply Hi. by apply Hdesc.
  - apply Ho. destruct Hint as (conn & c & Hin & Hc & <- & <-).
    apply Hsub. by apply (mark_internal_marks st _ ∅ conn c).
  - apply Ho. by apply Hdesc.
Qed.

Lemma fanout_internal_endpoint :
  internal_endpoint (scene_state fanout_grouped)
    (group_data (scene_state fanout_grouped) 7) 0 0 false /\
  internal_endpoint (scene_state fanout_grouped)
    (group_data (scene_state fanout_grouped) 7) 1 0 true.
Proof.
  split; exists 4%nat, (mkConnection 0 1 0 0 Bezier);
    (split; [vm_compute; left | split; [vm_compute; reflexivity | split; reflexivity]]).
Qed.

Lemma port_mapping_exclusivity_witness :
  endpoint_count 0 0
    (portMappings (scene_state fanout_grouped)
       (group_data (scene_state fanout_grouped) 7)).2 = 2%nat /\
  endpoint_count 1 0
    (portMappings (scene_state fanout_grouped)
       (group_data (scene_state fanout_grouped) 7)).1 = 0%nat.
Proof.
  split.
  - destruct (port_mapping_exclusivity (scene_state fanout_grouped)
                (group_data (scene_state fanout_grouped) 7) 0 0) as [_ H].
    rewrite H; [reflexivity|]. right. vm_compute. lia.
  - destruct (port_mapping_exclusivity (scene_state fanout_grouped)
                (group_data (scene_state fanout_grouped) 7) 1 0) as [H _].
    rewrite H; [reflexivity|]. left. apply fanout_internal_endpoint.
Defined.

(** C2 as stated fails: in the group built from the fan-out scene, A.out0
    is an endpoint of the internal connection A -> B and the internal
    endpoint of two external descriptors, and it occurs twice in the output
    mapping list that [calculatePortMappings] stored. *)
Lemma port_mapping_counterexample :
  internal_endpoint (scene_state fanout_grouped)
    (group_data (scene_state fanout_grouped) 7) 0 0 false /\
  (internalNode <$> m_externalConnections (group_data (scene_state fanout_grouped) 7),
   internalPortIndex <$> m_externalConnections (group_data (scene_state fanout_grouped) 7),
   isInput <$> m_externalConnections (group_data (scene_state fanout_grouped) 7))
  = ([0%nat; 0%nat], [0%Z; 0%Z], [false; false]) /\
  endpoint_count 0 0
    (m_outputPortMappings (group_data (scene_state fanout_grouped) 7)) = 2%nat.
Proof.
  split; [apply fanout_internal_endpoint|].
  split; vm_compute; reflexivity.
Qed.

(** ** Merging of move commands (UndoCommands.cpp, QUndoStack) *)

Lemma node_pos_set_pos (st : State) (n : NodePtr) (p : QPointF) :
  node_pos (on_node n (set_pos p) st) n
  = match heap_nodes st !! n with Some _ => p | None => pt_zero end.
Proof.
  unfold node_pos, on_node. simpl. rewrite lookup_alter_eq.
  by destruct (heap_nodes st !! n).
Qed.

Lemma on_node_set_pos_dom (st : State) (n m : NodePtr) (p : QPointF) :
  is_Some (heap_nodes (on_node n (set_pos p) st) !! m) <-> is_Some (heap_nodes st !! m).
Proof.
  unfold on_node. simpl. destruct (decide (n = m)) as [->|Hne].
  - rewrite lookup_alter_eq. by rewrite fmap_is_Some.
  - by rewrite lookup_alter_ne.
Qed.

(** A push that cannot merge appends the executed command. *)
Lemma push_append (cmd : Command) (us : QUndoStack) (st : State) :
  (forall c, current us = Some c -> mergeWith c (redo cmd st).1 = None) ->
  push cmd us st
  = (mkUndoStack (take (index us) (command_list us) ++ [(redo cmd st).1])
       (S (index us)), (redo cmd st).2).
Proof.
  intros Hno. unfold push. destruct (redo cmd st) as [cmd' st'] eqn:Hr.
  simpl in *. fold (current us). destruct (current us) as [c|]; [|done].
  rewrite (Hno c eq_refl). by destruct (_ && _).
Qed.

Lemma mergeWith_not_move (n : NodePtr) (c cmd : Command) :
  is_move_on n c = false \/ is_move_on n cmd = false ->
  forall o p, c = MoveNodeCommand n o p \/ cmd = MoveNodeCommand n o p ->
  mergeWith c cmd = None.
Proof.
  intros Hnot o p Hc. unfold mergeWith.
  destruct c; try done; destruct cmd; try done; simpl in *.
  destruct (Nat.eqb_spec m_node0 m_node); [|done].
  subst. destruct Hc as [Hc|Hc]; inversion Hc; subst;
    rewrite Nat.eqb_refl in Hnot; naive_solver.
Qed.

Lemma redo_keeps_kind (n : NodePtr) (cmd : Command) (st : State) :
  is_move_on n (redo cmd st).1 = is_move_on n cmd.
Proof.
  destruct cmd; simpl; try done;
    repeat match goal with
           | |- context [match ?x with _ => _ end] => destruct x; simpl; try done
           end.
Qed.

Lemma push_first_move (n : NodePtr) (o p : QPointF) (us : QUndoStack) (st : State) :
  (index us <= length (command_list us))%nat ->
  (forall c, current us = Some c -> is_move_on n c = false) ->
  exists us',
    push (MoveNodeCommand n o p) us st = (us', on_node n (set_pos p) st) /\
    run_top n o (index us) us'.
Proof.
  intros Hlen Hcur. eexists. split.
  - rewrite push_append; [reflexivity|].
    intros c Hc. apply (mergeWith_not_move n) with (o := o) (p := p).
    + left. by apply Hcur.
    + by right.
  - unfold run_top. simpl. split; [done|]. split.
    + rewrite length_app, length_take. simpl. lia.
    + exists p. rewrite lookup_app_r; rewrite length_take; [|lia].
      by replace (index us - index us `min` length (command_list us))%nat with 0%nat by lia.
Qed.

Lemma push_next_move (n : NodePtr) (o o' p' : QPointF) (i : nat)
    (us : QUndoStack) (st : State) :
  run_top n o i us ->
  exists us',
    push (MoveNodeCommand n o' p') us st = (us', on_node n (set_pos p') st) /\
    run_top n o i us'.
Proof.
  intros (Hi & Hl & p & Hp). unfold push. simpl. rewrite Hi. simpl.
  rewrite Nat.sub_0_r, Hp. simpl. rewrite Nat.eqb_refl. simpl.
  eexists. split; [reflexivity|]. unfold run_top. simpl.
  rewrite firstn_all2 by lia.
  split; [done|]. split; [by rewrite length_insert|].
  exists p'. apply list_lookup_insert_eq. lia.
Qed.

Lemma push_all_cons (cmd : Command) (cmds : list Command) (sc : NodeScene) :
  push_all (cmd :: cmds) sc = push_all cmds (scene_push cmd sc).
Proof. reflexivity. Qed.

Lemma push_moves_run (n : NodePtr) (o : QPointF) (i : nat)
    (rest : list (QPointF * QPointF)) (sc : NodeScene) :
  run_top n o i (m_undoStack sc) ->
  run_top n o i (m_undoStack (push_all (moves_on n rest) sc)) /\
  (forall m, is_Some (heap_nodes (scene_state (push_all (moves_on n rest) sc)) !! m)
             <-> is_Some (heap_nodes (scene_state sc) !! m)).
Proof.
  revert sc. induction rest as [|[o' p'] rest IH]; intros sc Hrun; [done|].
  change (moves_on n ((o', p') :: rest))
    with (MoveNodeCommand n o' p' :: moves_on n rest).
  rewrite push_all_cons.
  destruct (push_next_move n o o' p' i (m_undoStack sc) (scene_state sc) Hrun)
    as (us' & Hpush & Hrun').
  unfold scene_push. rewrite Hpush.
  destruct (IH (mkScene (on_node n (set_pos p') (scene_state sc)) us') Hrun')
    as [Hr Hdom].
  split; [exact Hr|]. intros m. rewrite Hdom. simpl. apply on_node_set_pos_dom.
Qed.

(** C6.  Pushed onto a stack whose current command is not already a move
    of [n], a run of one or more move commands on [n] adds exactly one
    entry; undoing that entry puts [n] back where it was before the first
    move (the first command's old position, which is where the release
    handler leaves the node when it pushes); and a command that is not a
    move of [n], i.e. a move of another node or a command of another kind,
    pushed after the run does not merge but becomes a further entry. *)
Theorem move_commands_merge (sc : NodeScene) (n : NodePtr) (o1 p1 : QPointF)
    (rest : list (QPointF * QPointF)) (other : Command) :
  (index (m_undoStack sc) <= length (command_list (m_undoStack sc)))%nat ->
  (forall c, current (m_undoStack sc) = Some c -> is_move_on n c = false) ->
  node_pos (scene_state sc) n = o1 ->
  is_move_on n other = false ->
  let sc' := push_all (moves_on n ((o1, p1) :: rest)) sc in
  index (m_undoStack sc') = S (index (m_undoStack sc)) /\
  length (command_list (m_undoStack sc')) = S (index (m_undoStack sc)) /\
  index (m_undoStack (scene_undo sc')) = index (m_undoStack sc) /\
  node_pos (scene_state (scene_undo sc')) n = node_pos (scene_state sc) n /\
  index (m_undoStack (scene_push other sc')) = S (S (index (m_undoStack sc))) /\
  length (command_list (m_undoStack (scene_push other sc')))
  = S (S (index (m_undoStack sc))).
Proof.
  intros Hlen Hcur Hpos Hother sc'.
  destruct (push_first_move n o1 p1 (m_undoStack sc) (scene_state sc) Hlen Hcur)
    as (us1 & Hpush & Hrun1).
  set (sc1 := mkScene (on_node n (set_pos p1) (scene_state sc)) us1).
  assert (Hsc' : sc' = push_all (moves_on n rest) sc1).
  { subst sc' sc1.
    change (moves_on n ((o1, p1) :: rest))
      with (MoveNodeCommand n o1 p1 :: moves_on n rest).
    rewrite push_all_cons. unfold scene_push at 1. by rewrite Hpush. }
  destruct (push_moves_run n o1 (index (m_undoStack sc)) rest sc1 Hrun1)
    as [(Hi & Hl & p & Hp) Hdom].
  rewrite <- Hsc' in Hi, Hl, Hp, Hdom. clearbody sc'.
  split; [exact Hi|]. split; [exact Hl|].
  assert (Hundo : scene_undo sc'
                  = mkScene (on_node n (set_pos o1) (scene_state sc'))
                      (mkUndoStack
                         (<[index (m_undoStack sc) := MoveNodeCommand n o1 p]>
                            (command_list (m_undoStack sc')))
                         (index (m_undoStack sc)))).
  { unfold scene_undo, stack_undo. rewrite Hi, Hp. reflexivity. }
  rewrite Hundo. simpl. split; [done|]. split.
  - rewrite node_pos_set_pos.
    pose proof (Hdom n) as Hn. subst sc1. cbn [scene_state] in Hn.
    rewrite on_node_set_pos_dom in Hn.
    unfold node_pos in *.
    destruct (heap_nodes (scene_state sc') !! n) as [x|] eqn:E1;
      destruct (heap_nodes (scene_state sc) !! n) as [y|] eqn:E2; simpl in *.
    + by rewrite Hpos.
    + destruct Hn as [Hn _]. by destruct (Hn (mk_is_Some _ _ eq_refl)).
    + destruct Hn as [_ Hn]. by destruct (Hn (mk_is_Some _ _ eq_refl)).
    + done.
  - unfold scene_push. rewrite push_append.
    + simpl. rewrite Hi. split; [done|].
      rewrite length_app, length_take, Hl. simpl. lia.
    + intros c Hc. unfold current in Hc. rewrite Hi in Hc. simpl in Hc.
      rewrite Nat.sub_0_r, Hp in Hc. inversion Hc; subst c.
      apply (mergeWith_not_move n) with (o := o1) (p := p).
      * right. by rewrite redo_keeps_kind.
      * by left.
Qed.

Lemma move_commands_merge_witness :
  let run := [(mkPoint 200 0, mkPoint 250 10); (mkPoint 250 10, mkPoint 300 20);
              (mkPoint 300 20, mkPoint 10 10)] in
  let sc' := push_all (moves_on 1 run) fanout_scene in
  index (m_undoStack fanout_scene) = 7%nat /\
  index (m_undoStack sc') = 8%nat /\
  length (command_list (m_undoStack sc')) = 8%nat /\
  node_pos (scene_state sc') 1 = mkPoint 10 10 /\
  node_pos (scene_state (scene_undo sc')) 1 = mkPoint 200 0 /\
  index (m_undoStack (scene_push (MoveNodeCommand 2 (mkPoint 400 0) (mkPoint 0 0)) sc'))
  = 9%nat.
Proof.
  intros run sc'.
  assert (Hcur : forall c, current (m_undoStack fanout_scene) = Some c ->
                           is_move_on 1 c = false).
  { intros c Hc. vm_compute in Hc. by inversion Hc. }
  destruct (move_commands_merge fanout_scene 1 (mkPoint 200 0) (mkPoint 250 10)
              [(mkPoint 250 10, mkPoint 300 20); (mkPoint 300 20, mkPoint 10 10)]
              (MoveNodeCommand 2 (mkPoint 400 0) (mkPoint 0 0))
              ltac:(vm_compute; lia) Hcur eq_refl eq_refl)
    as (H1 & H2 & H3 & H4 & H5 & H6).
  split; [reflexivity|]. split; [exact H1|]. split; [exact H2|].
  split; [vm_compute; reflexivity|]. split; [exact H4|]. exact H5.
Defined.

(** ** Saving and loading (NodeScene.cpp, MainWindow) *)

(** C3, evaluated on a scene with a group inside a group.  Before saving,
    the scene holds the outer group (address 7, level 3, one input and one
    output port) whose internal nodes are the inner group (address 5, itself
    holding two nodes and one connection) and C, joined by one internal
    connection.  After [loadFlowData (getFlowData ...)] the scene holds one
    group (address 8) whose first internal node is a plain node: the inner
    group's contents are gone, the internal connection is gone, the level is
    back to 1, and the recomputed mappings give two input and two output
    ports. *)
Theorem nested_group_round_trip :
  (s_nodes nested_state = [7%nat] /\
   m_internalNodes (group_data nested_state 7) = [5%nat; 2%nat] /\
   m_internalNodes (group_data nested_state 5) = [0%nat; 1%nat] /\
   m_internalConnections (group_data nested_state 5) = [3%nat] /\
   m_internalConnections (group_data nested_state 7) = [6%nat] /\
   m_groupLevel (group_data nested_state 7) = 3%Z /\
   getInputPortCount nested_state 7 = 1%Z /\
   getOutputPortCount nested_state 7 = 1%Z /\
   length (m_inputPortMappings (group_data nested_state 7)) = 1%nat /\
   length (m_outputPortMappings (group_data nested_state 7)) = 1%nat) /\
  (s_nodes nested_reloaded = [8%nat] /\
   m_internalNodes (group_data nested_reloaded 8) = [9%nat; 10%nat] /\
   (heap_nodes nested_reloaded !! 9%nat ≫= m_group) = None /\
   (m_type <$> heap_nodes nested_reloaded !! 9%nat) = Some "group" /\
   m_internalConnections (group_data nested_reloaded 8) = [] /\
   m_groupLevel (group_data nested_reloaded 8) = 1%Z /\
   getInputPortCount nested_reloaded 8 = 2%Z /\
   getOutputPortCount nested_reloaded 8 = 2%Z /\
   length (m_inputPortMappings (group_data nested_reloaded 8)) = 2%nat /\
   length (m_outputPortMappings (group_data nested_reloaded 8)) = 2%nat).
Proof. split; vm_compute; repeat split; reflexivity. Qed.

(** C4, evaluated.  Bytes that do not parse give the null document, whose
    [object()] is empty; a top-level array likewise.  [onLoadProject] then
    reports success and the scene is empty, whatever it held: the four
    nodes and three connections of the fan-out scene are gone. *)
Theorem malformed_document_load (st : State) (l : list Json) :
  (onLoadProject DocNull st).1 = "项目加载成功" /\
  s_nodes (onLoadProject DocNull st).2 = [] /\
  s_connections (onLoadProject DocNull st).2 = [] /\
  s_nodes (onLoadProject (DocArray l) st).2 = [] /\
  s_connections (onLoadProject (DocArray l) st).2 = [] /\
  s_nodes (scene_state fanout_scene) = [0; 1; 2; 3]%nat /\
  s_connections (scene_state fanout_scene) = [4; 5; 6]%nat /\
  s_nodes (onLoadProject DocNull (scene_state fanout_scene)).2 = [].
Proof. repeat split; reflexivity. Qed.

(** ** Lists: [removeAll] and partitions *)

Lemma removeAll_filter (x : nat) (l : list nat) :
  removeAll x l = filter (fun y => y <> x) l.
Proof. reflexivity. Qed.

Lemma filter_all {A} (P : A -> Prop) `{forall x, Decision (P x)} (l : list A) :
  (forall x, x ∈ l -> P x) -> filter P l = l.
Proof.
  induction l as [|x l IH]; intros HP; [done|].
  rewrite filter_cons_True by (apply HP; left).
  f_equal. apply IH. intros y Hy. apply HP. by right.
Qed.

Lemma removeAlls_filter (xs l : list nat) :
  removeAlls xs l = filter (fun y => y ∉ xs) l.
Proof.
  revert l. induction xs as [|x xs IH]; intros l.
  - simpl. symmetry. apply filter_all. intros y _ Hy. by apply elem_of_nil in Hy.
  - change (removeAlls (x :: xs) l) with (removeAlls xs (removeAll x l)).
    rewrite IH. unfold removeAll. rewrite list_filter_filter.
    apply list_filter_iff. intros y. rewrite not_elem_of_cons. tauto.
Qed.

Lemma removeAlls_app (xs l1 l2 : list nat) :
  removeAlls xs (l1 ++ l2) = removeAlls xs l1 ++ removeAlls xs l2.
Proof. rewrite !removeAlls_filter. apply filter_app. Qed.

Lemma removeAlls_all (xs l : list nat) :
  (forall y, y ∈ l -> y ∈ xs) -> removeAlls xs l = [].
Proof.
  intros H. rewrite removeAlls_filter.
  induction l as [|y l IH]; [done|].
  rewrite filter_cons. case_decide as Hy.
  - destruct Hy. apply H. left.
  - apply IH. intros z Hz. apply H. by right.
Qed.

Lemma removeAlls_none (xs l : list nat) :
  (forall y, y ∈ l -> y ∉ xs) -> removeAlls xs l = l.
Proof.
  intros H. rewrite removeAlls_filter. by apply filter_all.
Qed.

Lemma removeAll_none (x : nat) (l : list nat) : x ∉ l -> removeAll x l = l.
Proof.
  intros H. unfold removeAll. apply filter_all.
  intros y Hy ->. contradiction.
Qed.

(** Removing a duplicate-free sublist and appending it again permutes. *)
Lemma removeAlls_restore_perm (xs l : list nat) :
  NoDup xs -> NoDup l -> (forall x, x ∈ xs -> x ∈ l) ->
  removeAlls xs l ++ xs ≡ₚ l.
Proof.
  intros Hxs Hl Hsub. apply NoDup_Permutation; [|done|].
  - apply NoDup_app. split; [|split; [|done]].
    + rewrite removeAlls_filter. by apply NoDup_filter.
    + intros y. rewrite removeAlls_filter, list_elem_of_filter. tauto.
  - intros y. rewrite elem_of_app, removeAlls_filter, list_elem_of_filter.
    split; [naive_solver|].
    intros Hy. destruct (decide (y ∈ xs)); tauto.
Qed.

(** Three boolean tests of which exactly one holds split a list three
    ways. *)
Lemma three_way_partition {A} (l : list A) (p q r : A -> bool) :
  (forall x, x ∈ l ->
     (p x = true /\ q x = false /\ r x = false) \/
     (p x = false /\ q x = true /\ r x = false) \/
     (p x = false /\ q x = false /\ r x = true)) ->
  filter p l ++ filter q l ++ filter r l ≡ₚ l.
Proof.
  induction l as [|x l IH]; intros H; [done|].
  assert (IH' := IH (fun y Hy => H y (list_elem_of_further _ _ _ Hy))).
  destruct (H x (list_elem_of_here _ _))
    as [(Hp & Hq & Hr)|[(Hp & Hq & Hr)|(Hp & Hq & Hr)]].
  - rewrite (filter_cons_True p) by (by rewrite Hp).
    rewrite (filter_cons_False q) by (rewrite Hq; intros []).
    rewrite (filter_cons_False r) by (rewrite Hr; intros []).
    simpl. by f_equiv.
  - rewrite (filter_cons_False p) by (rewrite Hp; intros []).
    rewrite (filter_cons_True q) by (by rewrite Hq).
    rewrite (filter_cons_False r) by (rewrite Hr; intros []).
    simpl. rewrite <- Permutation_middle. by f_equiv.
  - rewrite (filter_cons_False p) by (rewrite Hp; intros []).
    rewrite (filter_cons_False q) by (rewrite Hq; intros []).
    rewrite (filter_cons_True r) by (by rewrite Hr).
    rewrite app_assoc, <- Permutation_middle, <- app_assoc. by f_equiv.
Qed.

(** ** Effects of the scene primitives *)

Lemma attrs_on_node (p : NodePtr) (f : Node -> Node) (st : State) (n : NodePtr) :
  attrs (on_node p f st) n
  = if decide (p = n) then set_connections [] <$> (f <$> heap_nodes st !! n)
    else attrs st n.
Proof.
  unfold attrs, on_node. simpl. case_decide as Hp.
  - subst. by rewrite lookup_alter_eq.
  - by rewrite lookup_alter_ne.
Qed.

(** A member function that only touches the list of incident connections
    leaves [attrs] alone. *)
Lemma attrs_on_node_conn (p : NodePtr) (f : Node -> Node) (st : State) (n : NodePtr) :
  (forall x, set_connections [] (f x) = set_connections [] x) ->
  attrs (on_node p f st) n = attrs st n.
Proof.
  intros Hf. rewrite attrs_on_node. case_decide; [|done].
  unfold attrs. rewrite <- option_fmap_compose.
  apply option_fmap_ext. intros x. apply Hf.
Qed.

Lemma attrs_on_node_opt_conn (p : option NodePtr) (f : Node -> Node) (st : State)
    (n : NodePtr) :
  (forall x, set_connections [] (f x) = set_connections [] x) ->
  attrs (on_node_opt p f st) n = attrs st n.
Proof. intros Hf. destruct p; [by apply attrs_on_node_conn | done]. Qed.

Lemma node_pos_attrs (st : State) (n : NodePtr) :
  node_pos st n = from_option m_pos pt_zero (attrs st n).
Proof. unfold node_pos, attrs. by destruct (heap_nodes st !! n). Qed.

Lemma group_data_attrs (st : State) (n : NodePtr) :
  group_data st n = default (mkGroupData [] [] [] [] [] [] 1) (attrs st n ≫= m_group).
Proof. unfold group_data, attrs. by destruct (heap_nodes st !! n). Qed.

Lemma attrs_is_Some (st : State) (n : NodePtr) :
  is_Some (attrs st n) <-> is_Some (heap_nodes st !! n).
Proof. unfold attrs. apply fmap_is_Some. Qed.

Lemma conn_frame_refl (st : State) : conn_frame st st.
Proof. by repeat split. Qed.

Lemma conn_frame_trans (st1 st2 st3 : State) :
  conn_frame st1 st2 -> conn_frame st2 st3 -> conn_frame st1 st3.
Proof.
  intros (H1 & H2 & H3 & H4) (K1 & K2 & K3 & K4).
  split; [congruence|]. split; [congruence|]. split; [congruence|].
  intros n. by rewrite K4.
Qed.

Lemma on_node_opt_fields (p : option NodePtr) (f : Node -> Node) (st : State) :
  heap_conns (on_node_opt p f st) = heap_conns st /\
  next_addr (on_node_opt p f st) = next_addr st /\
  s_nodes (on_node_opt p f st) = s_nodes st /\
  s_connections (on_node_opt p f st) = s_connections st.
Proof. by destruct p. Qed.

Lemma conn_frame_on_node_opt (p : option NodePtr) (f : Node -> Node) (st : State) :
  (forall x, set_connections [] (f x) = set_connections [] x) ->
  conn_frame st (on_node_opt p f st).
Proof.
  intros Hf. destruct (on_node_opt_fields p f st) as (H1 & H2 & H3 & _).
  split; [done|]. split; [done|]. split; [done|].
  intros n. by apply attrs_on_node_opt_conn.
Qed.

Lemma conn_frame_with_s_connections (l : list ConnPtr) (st : State) :
  conn_frame st (with_s_connections l st).
Proof. by repeat split. Qed.

Lemma conn_frame_remove (c : ConnPtr) (st : State) :
  conn_frame st (removeConnectionFromScene c st).
Proof.
  unfold removeConnectionFromScene.
  eapply conn_frame_trans; [|apply conn_frame_with_s_connections].
  eapply conn_frame_trans; by apply conn_frame_on_node_opt.
Qed.

Lemma conn_frame_restore (c : ConnPtr) (st : State) :
  conn_frame st (restoreConnectionToScene c st).
Proof.
  unfold restoreConnectionToScene.
  eapply conn_frame_trans; [|apply conn_frame_with_s_connections].
  eapply conn_frame_trans; by apply conn_frame_on_node_opt.
Qed.

Lemma conn_frame_for_each {A} (op : A -> State -> State) (xs : list A) (st : State) :
  (forall x st, conn_frame st (op x st)) -> conn_frame st (for_each op xs st).
Proof.
  intros Hop. revert st. induction xs as [|x xs IH]; intros st.
  - apply conn_frame_refl.
  - simpl. eapply conn_frame_trans; [apply (Hop x)|]. apply IH.
Qed.

Lemma s_connections_remove (c : ConnPtr) (st : State) :
  s_connections (removeConnectionFromScene c st) = removeAll c (s_connections st).
Proof.
  unfold removeConnectionFromScene. simpl.
  by destruct (getFromNode st c), (getToNode _ c).
Qed.

Lemma s_connections_restore (c : ConnPtr) (st : State) :
  s_connections (restoreConnectionToScene c st) = s_connections st ++ [c].
Proof.
  unfold restoreConnectionToScene. simpl.
  by destruct (getFromNode st c), (getToNode _ c).
Qed.

Lemma s_connections_for_each_remove (cs : list ConnPtr) (st : State) :
  s_connections (for_each removeConnectionFromScene cs st)
  = removeAlls cs (s_connections st).
Proof.
  revert st. induction cs as [|c cs IH]; intros st; [done|].
  simpl. rewrite IH, s_connections_remove. reflexivity.
Qed.

Lemma s_connections_for_each_restore (cs : list ConnPtr) (st : State) :
  s_connections (for_each restoreConnectionToScene cs st) = s_connections st ++ cs.
Proof.
  revert st. induction cs as [|c cs IH]; intros st; [by rewrite app_nil_r|].
  simpl. rewrite IH, s_connections_restore, <- app_assoc. reflexivity.
Qed.

Lemma for_each_removeNode (ns : list NodePtr) (st : State) :
  for_each removeNodeFromScene ns st = with_s_nodes (removeAlls ns (s_nodes st)) st.
Proof.
  revert st. induction ns as [|n ns IH]; intros st; [by destruct st|].
  simpl. rewrite IH. reflexivity.
Qed.

Lemma for_each_restoreNode (ns : list NodePtr) (st : State) :
  for_each restoreNodeToScene ns st = with_s_nodes (s_nodes st ++ ns) st.
Proof.
  revert st. induction ns as [|n ns IH]; intros st.
  - rewrite app_nil_r. by destruct st.
  - simpl. rewrite IH. unfold with_s_nodes, restoreNodeToScene. simpl.
    by rewrite <- app_assoc.
Qed.

(** The connections a node lists can only shrink when connections are
    removed from the scene. *)
Lemma node_connections_remove (c : ConnPtr) (st : State) (n : NodePtr) (x : ConnPtr) :
  x ∈ node_connections (removeConnectionFromScene c st) n ->
  x ∈ node_connections st n.
Proof.
  unfold removeConnectionFromScene, node_connections. simpl.
  assert (Hstep : forall p st,
             x ∈ from_option m_connections []
                   (heap_nodes (on_node_opt p (removeConnection c) st) !! n) ->
             x ∈ from_option m_connections [] (heap_nodes st !! n)).
  { intros [p|] st'; [|done]. unfold on_node. simpl.
    destruct (decide (p = n)) as [->|Hne].
    - rewrite lookup_alter_eq. destruct (heap_nodes st' !! n); [|done]. simpl.
      unfold removeAll. rewrite list_elem_of_filter. tauto.
    - by rewrite lookup_alter_ne. }
  intros Hx. apply Hstep in Hx. by apply Hstep in Hx.
Qed.

Lemma node_connections_for_each_remove (cs : list ConnPtr) (st : State)
    (n : NodePtr) (x : ConnPtr) :
  x ∈ node_connections (for_each removeConnectionFromScene cs st) n ->
  x ∈ node_connections st n.
Proof.
  revert st. induction cs as [|c cs IH]; intros st; [done|].
  simpl. intros Hx. apply IH in Hx. by apply node_connections_remove in Hx.
Qed.

(** ** Grouping: the classification of the connections *)

Lemma filter_ext_in {A} (P Q : A -> Prop) `{forall x, Decision (P x)}
    `{forall x, Decision (Q x)} (l : list A) :
  (forall x, x ∈ l -> P x <-> Q x) -> filter P l = filter Q l.
Proof.
  induction l as [|x l IH]; intros HPQ; [done|].
  rewrite !filter_cons.
  rewrite IH by (intros y Hy; apply HPQ; by right).
  destruct (decide (P x)) as [HP|HP], (decide (Q x)) as [HQ|HQ]; try done.
  - destruct HQ. apply HPQ; [left|done].
  - destruct HP. apply HPQ; [left|done].
Qed.

Lemma filter_cons_bool {A} (p : A -> bool) (x : A) (l : list A) :
  filter p (x :: l) = if p x then x :: filter p l else filter p l.
Proof.
  rewrite filter_cons. destruct (p x); simpl; repeat case_decide; done.
Qed.

Lemma classify_fold (st : State) (nodeSet : gset NodePtr) (conns : list ConnPtr)
    (i0 : list ConnPtr) (e0 : list ExternalConnection) :
  (foldl (classify st nodeSet) (i0, e0) conns).1
  = i0 ++ filter (is_internal st nodeSet) conns /\
  omap originalConnection (foldl (classify st nodeSet) (i0, e0) conns).2
  = omap originalConnection e0 ++ filter (is_external st nodeSet) conns.
Proof.
  revert i0 e0. induction conns as [|c conns IH]; intros i0 e0.
  - simpl. by rewrite !app_nil_r.
  - simpl. rewrite !filter_cons_bool.
    unfold is_internal at 1 3, is_external at 1 3.
    destruct (heap_conns st !! c) as [r|]; [|by apply IH].
    destruct (bool_decide (m_fromNode r ∈ nodeSet)),
      (bool_decide (m_toNode r ∈ nodeSet)); simpl.
    + destruct (IH (i0 ++ [c]) e0) as [H1 H2].
      rewrite H1, H2, <- app_assoc. done.
    + match goal with
      | |- context [foldl _ (i0, ?e) conns] => destruct (IH i0 e) as [H1 H2]
      end.
      rewrite H1, H2, omap_app, <- app_assoc. done.
    + match goal with
      | |- context [foldl _ (i0, ?e) conns] => destruct (IH i0 e) as [H1 H2]
      end.
      rewrite H1, H2, omap_app, <- app_assoc. done.
    + by apply IH.
Qed.

(** What stays in the scene's connection list, the internal connections
    and the external ones together make up the list again. *)
Lemma classified_connections_perm (st : State) (nodeSet : gset NodePtr)
    (conns : list ConnPtr) :
  removeAlls (filter (is_internal st nodeSet) conns)
    (removeAlls (filter (is_external st nodeSet) conns) conns)
  ++ filter (is_internal st nodeSet) conns
  ++ filter (is_external st nodeSet) conns ≡ₚ conns.
Proof.
  rewrite !removeAlls_filter, list_filter_filter.
  rewrite (filter_ext_in _
             (fun c => negb (is_internal st nodeSet c || is_external st nodeSet c))).
  - apply (three_way_partition conns
             (fun c => negb (is_internal st nodeSet c || is_external st nodeSet c))).
    intros c _. unfold is_internal, is_external.
    destruct (heap_conns st !! c) as [r|]; [|by left].
    destruct (bool_decide (m_fromNode r ∈ nodeSet)),
      (bool_decide (m_toNode r ∈ nodeSet)); simpl; tauto.
  - intros c Hc. rewrite !list_elem_of_filter.
    destruct (is_internal st nodeSet c), (is_external st nodeSet c); simpl; tauto.
Qed.

(** ** Grouping: construction of the group and its connections *)

Lemma node_connections_on_node (p : NodePtr) (f : Node -> Node) (st : State)
    (n : NodePtr) :
  node_connections (on_node p f st) n
  = if decide (p = n)
    then from_option (fun x => m_connections (f x)) [] (heap_nodes st !! n)
    else node_connections st n.
Proof.
  unfold node_connections, on_node. simpl. case_decide as Hp.
  - subst. rewrite lookup_alter_eq. by destruct (heap_nodes st !! n).
  - by rewrite lookup_alter_ne.
Qed.

Lemma on_node_is_Some (p : NodePtr) (f : Node -> Node) (st : State) (n : NodePtr) :
  is_Some (heap_nodes (on_node p f st) !! n) <-> is_Some (heap_nodes st !! n).
Proof.
  unfold on_node. simpl. destruct (decide (p = n)) as [->|Hne].
  - rewrite lookup_alter_eq. apply fmap_is_Some.
  - by rewrite lookup_alter_ne.
Qed.

(** [new Connection(f, fp, t, tp)]: a record at the next address, listed by
    both endpoints; nothing else changes. *)
Lemma Connection_ctor_effect (f : NodePtr) (fp : Z) (t : NodePtr) (tp : Z) (st : State) :
  let r := Connection_ctor f fp t tp st in
  r.1 = next_addr st /\
  heap_conns r.2 = <[next_addr st := mkConnection f t fp tp Bezier]> (heap_conns st) /\
  next_addr r.2 = S (next_addr st) /\
  s_nodes r.2 = s_nodes st /\
  s_connections r.2 = s_connections st /\
  (forall n, attrs r.2 n = attrs st n) /\
  (forall n, is_Some (heap_nodes r.2 !! n) <-> is_Some (heap_nodes st !! n)) /\
  (forall n x, x ∈ node_connections r.2 n <->
               x ∈ node_connections st n \/
               (x = next_addr st /\ (n = f \/ n = t) /\ is_Some (heap_nodes st !! n))).
Proof.
  set (stA := (alloc_conn (mkConnection f t fp tp Bezier) st).2).
  set (c := next_addr st).
  change (Connection_ctor f fp t tp st)
    with (c, on_node t (addConnection c) (on_node f (addConnection c) stA)).
  cbv zeta. cbn [fst snd].
  split; [done|]. split; [done|]. split; [done|]. split; [done|]. split; [done|].
  split; [|split].
  - intros n. by rewrite !attrs_on_node_conn.
  - intros n. by rewrite !on_node_is_Some.
  - intros n x. rewrite !node_connections_on_node.
    change (node_connections stA n) with (node_connections st n).
    assert (Hl : heap_nodes (on_node f (addConnection c) stA) !! n
                 = (if decide (f = n) then addConnection c <$> heap_nodes st !! n
                    else heap_nodes st !! n)).
    { unfold on_node. simpl. case_decide as Hf.
      - subst. by rewrite lookup_alter_eq.
      - by rewrite lookup_alter_ne. }
    rewrite Hl. change (heap_nodes stA) with (heap_nodes st).
    unfold node_connections.
    destruct (heap_nodes st !! n) as [nd|] eqn:E; simpl.
    + repeat case_decide; subst; simpl;
        rewrite ?elem_of_app, ?list_elem_of_singleton; naive_solver.
    + repeat case_decide; subst; simpl; rewrite ?E; simpl;
        split; try naive_solver.
      all: intros [H|(_ & _ & H)]; [done|by destruct H].
Qed.

Lemma foldl_step {A B} (f : A -> B -> A) (a : A) (x : B) (l : list B) :
  foldl f a (x :: l) = foldl f (f a x) l.
Proof. reflexivity. Qed.

Lemma connect_group_step (g : NodePtr) (ins outs : list PortMapping)
    (e : ExternalConnection) (acc : list ConnPtr) (st : State) :
  is_Some (heap_nodes st !! g) ->
  exists st1,
    connect_group g ins outs (acc, st) e
    = (acc ++ [next_addr st],
       with_s_connections (s_connections st ++ [next_addr st]) st1) /\
    next_addr st1 = S (next_addr st) /\
    s_nodes st1 = s_nodes st /\
    (forall n, attrs st1 n = attrs st n) /\
    (forall c, (c < next_addr st)%nat -> heap_conns st1 !! c = heap_conns st !! c) /\
    is_Some (heap_nodes st1 !! g) /\
    (forall x, x ∈ node_connections st1 g <->
               x ∈ node_connections st g \/ x = next_addr st).
Proof.
  intros Hg. unfold connect_group.
  set (ctor := if isInput e
               then Connection_ctor (externalNode e) (externalPortIndex e) g
                      (groupPortIndex ins e) st
               else Connection_ctor g (groupPortIndex outs e) (externalNode e)
                      (externalPortIndex e) st).
  assert (Hc : ctor.1 = next_addr st /\
               next_addr ctor.2 = S (next_addr st) /\
               s_nodes ctor.2 = s_nodes st /\
               s_connections ctor.2 = s_connections st /\
               (forall n, attrs ctor.2 n = attrs st n) /\
               (forall c, (c < next_addr st)%nat ->
                          heap_conns ctor.2 !! c = heap_conns st !! c) /\
               is_Some (heap_nodes ctor.2 !! g) /\
               (forall x, x ∈ node_connections ctor.2 g <->
                          x ∈ node_connections st g \/ x = next_addr st)).
  { subst ctor. destruct (isInput e).
    - destruct (Connection_ctor_effect (externalNode e) (externalPortIndex e) g
                  (groupPortIndex ins e) st) as (H1 & H2 & H3 & H4 & H5 & H6 & H7 & H8).
      repeat split; try done.
      + intros c Hlt. rewrite H2. apply lookup_insert_ne. lia.
      + by apply H7.
      + intros Hx. apply H8 in Hx. naive_solver.
      + intros Hx. apply H8. naive_solver.
    - destruct (Connection_ctor_effect g (groupPortIndex outs e) (externalNode e)
                  (externalPortIndex e) st) as (H1 & H2 & H3 & H4 & H5 & H6 & H7 & H8).
      repeat split; try done.
      + intros c Hlt. rewrite H2. apply lookup_insert_ne. lia.
      + by apply H7.
      + intros Hx. apply H8 in Hx. naive_solver.
      + intros Hx. apply H8. naive_solver. }
  destruct ctor as [newConn st1]. simpl in Hc.
  destruct Hc as (-> & K2 & K3 & K4 & K5 & K6 & K7 & K8).
  exists st1. rewrite K4. done.
Qed.

Lemma connect_group_fold (g : NodePtr) (ins outs : list PortMapping)
    (exts : list ExternalConnection) (acc : list ConnPtr) (st : State) :
  is_Some (heap_nodes st !! g) ->
  (foldl (connect_group g ins outs) (acc, st) exts).1
  = acc ++ seq (next_addr st) (length exts) /\
  exists st',
    (foldl (connect_group g ins outs) (acc, st) exts).2 = st' /\
    s_connections st' = s_connections st ++ seq (next_addr st) (length exts) /\
    next_addr st' = (next_addr st + length exts)%nat /\
    s_nodes st' = s_nodes st /\
    (forall n, attrs st' n = attrs st n) /\
    (forall c, (c < next_addr st)%nat -> heap_conns st' !! c = heap_conns st !! c) /\
    (forall x, x ∈ node_connections st' g <->
               x ∈ node_connections st g \/ x ∈ seq (next_addr st) (length exts)).
Proof.
  revert acc st. induction exts as [|e exts IH]; intros acc st Hg.
  - simpl. rewrite !app_nil_r, Nat.add_0_r. split; [done|].
    exists st. repeat split; try done.
    + by left.
    + intros [?|H]; [done|]. by apply elem_of_nil in H.
  - destruct (connect_group_step g ins outs e acc st Hg)
      as (st1 & Hstep & K2 & K3 & K5 & K6 & K7 & K8).
    rewrite !foldl_step, Hstep.
    set (st2 := with_s_connections (s_connections st ++ [next_addr st]) st1).
    destruct (IH (acc ++ [next_addr st]) st2 K7)
      as (J1 & st' & J0 & J2 & J3 & J4 & J5 & J6 & J7).
    change (next_addr st2) with (next_addr st1) in *. rewrite K2 in *.
    change (s_connections st2) with (s_connections st ++ [next_addr st]) in *.
    change (s_nodes st2) with (s_nodes st1) in *.
    change (node_connections st2 g) with (node_connections st1 g) in *.
    split; [rewrite J1, <- app_assoc; done|].
    exists st'. split; [done|].
    split; [rewrite J2, <- app_assoc; done|].
    split; [rewrite J3; simpl; lia|].
    split; [congruence|].
    split; [intros n; rewrite J5; apply K5|].
    split; [intros c Hc; rewrite J6 by lia; by apply K6|].
    intros x. rewrite J7, K8. simpl. rewrite elem_of_cons. naive_solver.
Qed.

(** [calculatePortMappings] replaces the two mapping lists and may change
    the port counts and the size; the other members of the group, its
    position and its incident connections stay. *)
Lemma calculatePortMappings_keeps (st : State) (n : Node) (gd : GroupData) :
  m_group n = Some gd ->
  let n' := GroupNode_calculatePortMappings st n in
  m_pos n' = m_pos n /\ m_connections n' = m_connections n /\
  exists ins outs,
    m_group n' = Some (mkGroupData (m_internalNodes gd) (m_internalConnections gd)
                         (m_externalConnections gd) ins outs
                         (m_originalPositions gd) (m_groupLevel gd)).
Proof.
  intros Hg. unfold GroupNode_calculatePortMappings. rewrite Hg.
  destruct (portMappings st gd) as [ins outs].
  cbv zeta. unfold setInputPortCount, setOutputPortCount.
  repeat match goal with
         | |- context [if ?b then _ else _] => destruct b
         end; simpl; eauto.
Qed.

(** ** Grouping: the effect of [GroupNodesCommand::redo] *)

Lemma conn_frame_node_pos (st st' : State) (n : NodePtr) :
  conn_frame st st' -> node_pos st' n = node_pos st n.
Proof. intros (_ & _ & _ & H). by rewrite !node_pos_attrs, H. Qed.

Lemma conn_frame_group_data (st st' : State) (n : NodePtr) :
  conn_frame st st' -> group_data st' n = group_data st n.
Proof. intros (_ & _ & _ & H). by rewrite !group_data_attrs, H. Qed.

Lemma conn_frame_is_Some (st st' : State) (n : NodePtr) :
  conn_frame st st' ->
  is_Some (heap_nodes st' !! n) <-> is_Some (heap_nodes st !! n).
Proof. intros (_ & _ & _ & H). by rewrite <- !attrs_is_Some, H. Qed.

Lemma group_redo_first (st : State) (nodes : list NodePtr) (ics : list ConnPtr)
    (exts : list ExternalConnection) (extPtrs : list ConnPtr)
    (origPos : list (NodePtr * QPointF)) :
  let g := next_addr st in
  let news := seq (S g) (length exts) in
  exists st',
    redo (GroupNodesCommand nodes ics exts extPtrs origPos None [] true) st
    = (GroupNodesCommand nodes ics exts extPtrs origPos (Some g) news false, st') /\
    s_nodes st' = removeAlls nodes (s_nodes st) ++ [g] /\
    s_connections st' = removeAlls ics (removeAlls extPtrs (s_connections st)) ++ news /\
    next_addr st' = (S g + length exts)%nat /\
    (forall n, n <> g -> attrs st' n = attrs st n) /\
    (forall c, (c < g)%nat -> heap_conns st' !! c = heap_conns st !! c) /\
    is_Some (heap_nodes st' !! g) /\
    is_Some (attrs st' g ≫= m_group) /\
    node_pos st' g = centroid (node_pos st <$> nodes) /\
    m_internalNodes (group_data st' g) = nodes /\
    m_internalConnections (group_data st' g) = ics /\
    m_externalConnections (group_data st' g) = exts /\
    m_originalPositions (group_data st' g) = origPos /\
    (forall x, x ∈ node_connections st' g <-> x ∈ news).
Proof.
  intros g news. unfold redo.
  set (center := centroid (node_pos st <$> nodes)).
  set (node0 := GroupNode_ctor st "组合" center).
  change (alloc_node node0 st)
    with (g, mkState (<[g := node0]> (heap_nodes st)) (heap_conns st) (S g)
               (s_nodes st) (s_connections st) (m_templates st) (nodeCount st)
               (pasteCount st)).
  cbv iota beta.
  set (stA := mkState (<[g := node0]> (heap_nodes st)) _ _ _ _ _ _ _).
  set (stB := on_node g (setGroupContents nodes ics exts origPos) stA).
  set (stC := calculatePortMappings g stB).
  set (stD := for_each removeConnectionFromScene extPtrs stC).
  set (stE := for_each removeConnectionFromScene ics stD).
  set (stF := for_each removeNodeFromScene nodes stE).
  set (stG := with_s_nodes (s_nodes stF ++ [g]) stF).
  (* the group object after the mappings are computed *)
  set (nodeB := setGroupContents nodes ics exts origPos node0).
  assert (HgB : m_group nodeB
                = Some (mkGroupData nodes ics exts [] [] origPos 1)).
  { subst nodeB node0. unfold GroupNode_ctor, Node_ctor.
    by destruct (isValid _). }
  assert (HB : heap_nodes stB !! g = Some nodeB).
  { subst stB stA. unfold on_node. simpl. rewrite lookup_alter_eq, lookup_insert_eq. done. }
  destruct (calculatePortMappings_keeps stB nodeB _ HgB) as (HposC & HconnC & insC & outsC & HgC).
  set (nodeC := GroupNode_calculatePortMappings stB nodeB) in *.
  assert (HC : heap_nodes stC !! g = Some nodeC).
  { subst stC. unfold calculatePortMappings, on_node at 1.
    cbn [heap_nodes with_heap_nodes]. rewrite lookup_alter_eq, HB. done. }
  assert (HCother : forall n, n <> g -> heap_nodes stC !! n = heap_nodes st !! n).
  { intros n Hn. subst stC stB stA. unfold calculatePortMappings, on_node. simpl.
    rewrite !lookup_alter_ne, lookup_insert_ne by done. done. }
  assert (FCD : conn_frame stC stD)
    by (apply conn_frame_for_each, conn_frame_remove).
  assert (FDE : conn_frame stD stE)
    by (apply conn_frame_for_each, conn_frame_remove).
  assert (FCE : conn_frame stC stE) by (by eapply conn_frame_trans).
  assert (HF : stF = with_s_nodes (removeAlls nodes (s_nodes stE)) stE)
    by apply for_each_removeNode.
  assert (FCG : s_nodes stG = removeAlls nodes (s_nodes st) ++ [g]
                /\ s_connections stG
                   = removeAlls ics (removeAlls extPtrs (s_connections st))
                /\ heap_nodes stG = heap_nodes stE).
  { subst stG. rewrite HF. destruct FCE as (E1 & E2 & E3 & E4).
    split; [|split].
    - simpl. by rewrite E3.
    - simpl. subst stE stD. by rewrite !s_connections_for_each_remove.
    - done. }
  destruct FCG as (HnodesG & HconnsG & HheapG).
  assert (HGg : is_Some (heap_nodes stG !! g)).
  { rewrite HheapG. apply (conn_frame_is_Some stC stE g FCE). by rewrite HC. }
  destruct (connect_group_fold g (m_inputPortMappings (group_data stG g))
              (m_outputPortMappings (group_data stG g)) exts [] stG HGg)
    as (Hnews & st' & Hst' & J2 & J3 & J4 & J5 & J6 & J7).
  destruct (foldl _ ([], stG) exts) as [newExts st''] eqn:Hfold.
  simpl in Hnews, Hst'. subst newExts st''.
  change (next_addr stG) with (next_addr stF) in *.
  destruct FCE as (E1 & E2 & E3 & E4).
  assert (HnextF : next_addr stF = S g) by (rewrite HF; simpl; rewrite E2; done).
  rewrite HnextF in *.
  exists st'. split; [done|].
  split; [by rewrite J4|]. split; [by rewrite J2, HconnsG|].
  split; [rewrite J3; done|].
  assert (HattrG : forall n, attrs stG n = attrs stC n).
  { intros n. unfold attrs. rewrite HheapG. apply E4. }
  split.
  { intros n Hn. rewrite J5, HattrG. unfold attrs. by rewrite HCother. }
  split.
  { intros c Hc. rewrite J6 by lia.
    replace (heap_conns stG) with (heap_conns stE) by (subst stG; by rewrite HF).
    rewrite E1. done. }
  split.
  { apply attrs_is_Some. rewrite J5. by apply attrs_is_Some. }
  assert (HattrC : attrs st' g = Some (set_connections [] nodeC)).
  { rewrite J5, HattrG. unfold attrs. by rewrite HC. }
  split.
  { rewrite HattrC. simpl. rewrite HgC. done. }
  split.
  { rewrite node_pos_attrs, HattrC. simpl. rewrite HposC.
    subst nodeB node0. unfold GroupNode_ctor, Node_ctor.
    by destruct (isValid _). }
  rewrite group_data_attrs, HattrC. simpl. rewrite HgC. simpl.
  split; [done|]. split; [done|]. split; [done|]. split; [done|].
  intros x. rewrite J7.
  assert (Hempty : node_connections stG g = []).
  { destruct (node_connections stG g) as [|y l] eqn:El; [done|].
    assert (Hy : y ∈ node_connections stC g).
    { apply (node_connections_for_each_remove extPtrs).
      apply (node_connections_for_each_remove ics).
      change (y ∈ node_connections stE g).
      replace (node_connections stE g) with (node_connections stG g)
        by (unfold node_connections; by rewrite HheapG).
      rewrite El. left. }
    unfold node_connections in Hy. rewrite HC in Hy. simpl in Hy.
    rewrite HconnC in Hy. subst nodeB node0.
    unfold GroupNode_ctor, Node_ctor in Hy.
    destruct (isValid _); simpl in Hy; by apply elem_of_nil in Hy. }
  rewrite Hempty. split; [intros [H|H]; [by apply elem_of_nil in H|done]|by right].
Qed.

(** ** Ungrouping: the effect of [UngroupNodesCommand::redo] *)

Lemma set_pos_attrs (p : QPointF) (st : State) (n m : NodePtr) :
  attrs (on_node n (set_pos p) st) m
  = if decide (n = m) then set_pos p <$> attrs st m else attrs st m.
Proof.
  rewrite attrs_on_node. case_decide; [|done].
  unfold attrs. by rewrite <- !option_fmap_compose.
Qed.

Lemma set_pos_idem (p q : QPointF) (o : option Node) :
  set_pos p <$> (set_pos q <$> o) = set_pos p <$> o.
Proof. by destruct o. Qed.

Lemma restore_node_fold (offset : QPointF) (origPos : list (NodePtr * QPointF))
    (val : NodePtr -> QPointF) (nodes : list NodePtr) (st : State) :
  (forall n, n ∈ nodes -> qmap_find n origPos = Some (val n)) ->
  exists st',
    foldl (restore_node offset) (origPos, st) nodes = (origPos, st') /\
    s_nodes st' = s_nodes st ++ nodes /\
    s_connections st' = s_connections st /\
    heap_conns st' = heap_conns st /\
    next_addr st' = next_addr st /\
    (forall n, n ∉ nodes -> attrs st' n = attrs st n) /\
    (forall n, n ∈ nodes ->
       attrs st' n = set_pos (pt_add (val n) offset) <$> attrs st n).
Proof.
  revert st. induction nodes as [|node nodes IH]; intros st Hval.
  - exists st. rewrite app_nil_r. repeat split; try done.
    intros n Hn. by apply elem_of_nil in Hn.
  - rewrite foldl_step. unfold restore_node at 2. unfold qmap_index.
    rewrite (Hval node) by left.
    set (st1 := restoreNodeToScene node
                  (on_node node (set_pos (pt_add (val node) offset)) st)).
    destruct (IH st1) as (st' & Hf & H1 & H2 & H3 & H4 & H5 & H6).
    { intros n Hn. apply Hval. by right. }
    exists st'. split; [exact Hf|].
    split; [rewrite H1; simpl; by rewrite <- app_assoc|].
    split; [by rewrite H2|]. split; [by rewrite H3|]. split; [by rewrite H4|].
    assert (Hst1 : forall n,
               attrs st1 n = if decide (node = n)
                             then set_pos (pt_add (val node) offset) <$> attrs st n
                             else attrs st n).
    { intros n. subst st1.
      change (attrs (restoreNodeToScene node ?s) n) with (attrs s n).
      apply set_pos_attrs. }
    split.
    + intros n Hn. apply not_elem_of_cons in Hn as [Hne Hn].
      rewrite (H5 n Hn), Hst1. by rewrite decide_False.
    + intros n Hn. destruct (decide (n ∈ nodes)) as [Hin|Hnin].
      * rewrite (H6 n Hin), Hst1. case_decide; [|done].
        subst. by rewrite set_pos_idem.
      * apply elem_of_cons in Hn as [->|Hn]; [|done].
        rewrite (H5 _ Hnin), Hst1. by rewrite decide_True.
Qed.

Lemma conn_frame_restore_original (e : ExternalConnection) (st : State) :
  conn_frame st (restore_original e st).
Proof.
  unfold restore_original. destruct (originalConnection e).
  - apply conn_frame_restore.
  - apply conn_frame_refl.
Qed.

Lemma s_connections_for_each_restore_original (exts : list ExternalConnection)
    (st : State) :
  s_connections (for_each restore_original exts st)
  = s_connections st ++ omap originalConnection exts.
Proof.
  revert st. induction exts as [|e exts IH]; intros st; [by rewrite app_nil_r|].
  simpl. rewrite IH. unfold restore_original.
  destruct (originalConnection e); [|done].
  by rewrite s_connections_restore, <- app_assoc.
Qed.

Lemma ungroup_redo (st : State) (g : NodePtr) (nodes : list NodePtr)
    (ics : list ConnPtr) (exts : list ExternalConnection) (gexts : list ConnPtr)
    (origPos : list (NodePtr * QPointF)) (firstRedo : bool)
    (val : NodePtr -> QPointF) :
  (forall n, n ∈ nodes -> qmap_find n origPos = Some (val n)) ->
  let offset := pt_sub (node_pos st g) (centroid (origPos.*2)) in
  exists st',
    redo (UngroupNodesCommand g nodes ics exts gexts origPos firstRedo) st
    = (UngroupNodesCommand g nodes ics exts gexts origPos firstRedo, st') /\
    s_nodes st' = removeAll g (s_nodes st) ++ nodes /\
    s_connections st'
    = removeAlls gexts (s_connections st) ++ ics ++ omap originalConnection exts /\
    heap_conns st' = heap_conns st /\
    next_addr st' = next_addr st /\
    (forall n, n ∉ nodes -> attrs st' n = attrs st n) /\
    (forall n, n ∈ nodes ->
       attrs st' n = set_pos (pt_add (val n) offset) <$> attrs st n).
Proof.
  intros Hval offset. unfold redo.
  set (st1 := for_each removeConnectionFromScene gexts st).
  set (st2 := removeNodeFromScene g st1).
  assert (F1 : conn_frame st st1) by apply conn_frame_for_each, conn_frame_remove.
  assert (Hpos : node_pos st2 g = node_pos st g)
    by apply (conn_frame_node_pos st st1 g F1).
  rewrite Hpos. fold offset.
  destruct (restore_node_fold offset origPos val nodes st2 Hval)
    as (st3 & Hf & H1 & H2 & H3 & H4 & H5 & H6).
  rewrite Hf.
  set (st4 := for_each restoreConnectionToScene ics st3).
  set (st5 := for_each restore_original exts st4).
  assert (F34 : conn_frame st3 st4) by apply conn_frame_for_each, conn_frame_restore.
  assert (F45 : conn_frame st4 st5)
    by apply conn_frame_for_each, conn_frame_restore_original.
  destruct (conn_frame_trans _ _ _ F34 F45) as (E1 & E2 & E3 & E4).
  destruct F1 as (A1 & A2 & A3 & A4).
  exists st5. split; [done|].
  split; [rewrite E3, H1; simpl; by rewrite A3|].
  split.
  { subst st5 st4. rewrite s_connections_for_each_restore_original,
      s_connections_for_each_restore, H2, <- app_assoc.
    simpl. subst st1. by rewrite s_connections_for_each_remove. }
  split; [rewrite E1, H3; simpl; done|].
  split; [rewrite E2, H4; simpl; done|].
  split.
  - intros n Hn. rewrite E4, (H5 n Hn). apply A4.
  - intros n Hn. rewrite E4, (H6 n Hn).
    change (attrs st2 n) with (attrs st1 n). by rewrite A4.
Qed.

(** ** The grouping round trip *)

Lemma qmap_find_insert (k k' : NodePtr) (v : QPointF) (m : list (NodePtr * QPointF)) :
  qmap_find k (qmap_insert k' v m)
  = if (k =? k')%nat then Some v else qmap_find k m.
Proof.
  induction m as [|[k0 v0] m IH]; simpl; [done|].
  destruct (Nat.ltb_spec k' k0); simpl; [done|].
  destruct (Nat.eqb_spec k' k0); simpl.
  - subst. by destruct (Nat.eqb_spec k k0).
  - rewrite IH. destruct (Nat.eqb_spec k k0), (Nat.eqb_spec k k'); congruence.
Qed.

Lemma original_positions_find (st : State) (nodes : list NodePtr) (n : NodePtr) :
  n ∈ nodes -> qmap_find n (original_positions st nodes) = Some (node_pos st n).
Proof.
  unfold original_positions.
  assert (H : forall m,
             qmap_find n (foldl (fun m node => qmap_insert node (node_pos st node) m)
                            m nodes)
             = if decide (n ∈ nodes) then Some (node_pos st n) else qmap_find n m).
  { induction nodes as [|x nodes IH]; intros m.
    - rewrite decide_False; [done|]. intros H. by apply elem_of_nil in H.
    - rewrite foldl_step, IH, qmap_find_insert.
      destruct (Nat.eqb_spec n x) as [->|Hne].
      + rewrite (decide_True (P := x ∈ x :: nodes)) by left.
        by case_decide.
      + repeat case_decide; try done.
        * destruct H0. by right.
        * apply elem_of_cons in H0 as [?|?]; done. }
  intros Hn. rewrite H. by rewrite decide_True.
Qed.

Lemma push_state (cmd : Command) (us : QUndoStack) (st : State) :
  (push cmd us st).2 = (redo cmd st).2.
Proof.
  unfold push. destruct (redo cmd st) as [cmd' st'].
  destruct (if (index us =? 0)%nat then None else _) as [c|]; [|done].
  destruct (_ && _); [|done]. by destruct (mergeWith c cmd').
Qed.

Lemma scene_push_state (cmd : Command) (sc : NodeScene) :
  scene_state (scene_push cmd sc) = (redo cmd (scene_state sc)).2.
Proof.
  unfold scene_push. rewrite <- (push_state cmd (m_undoStack sc)).
  by destruct (push cmd (m_undoStack sc) (scene_state sc)).
Qed.

(** What [groupSelected] pushes when at least two nodes are selected. *)
Lemma groupSelected_pushes (selected : list Item) (sc : NodeScene) :
  (2 <= length (omap as_node selected))%nat ->
  let st := scene_state sc in
  let nodes := omap as_node selected in
  let nodeSet : gset NodePtr := list_to_set nodes in
  exists exts,
    omap originalConnection exts
    = filter (is_external st nodeSet) (s_connections st) /\
    groupSelected selected sc
    = (true,
       scene_push (GroupNodesCommand nodes
                     (filter (is_internal st nodeSet) (s_connections st)) exts
                     (filter (is_external st nodeSet) (s_connections st))
                     (original_positions st nodes) None [] true) sc).
Proof.
  intros Hlen. cbv zeta. unfold groupSelected, canGroup.
  set (nodes := omap as_node selected) in *.
  set (st := scene_state sc).
  set (nodeSet := list_to_set nodes : gset NodePtr).
  destruct (Nat.leb_spec 2 (length nodes)) as [_|]; [|lia]. simpl.
  destruct (Nat.ltb_spec (length nodes) 2) as [|_]; [lia|].
  destruct (classify_fold st nodeSet (s_connections st) [] []) as [H1 H2].
  destruct (foldl (classify st nodeSet) ([], []) (s_connections st)) as [ics exts].
  simpl in H1, H2. subst ics.
  exists exts. split; [exact H2|]. unfold new_GroupNodesCommand. rewrite H2. done.
Qed.

Lemma ungroupSelected_pushes (g : NodePtr) (sc : NodeScene) :
  as_group (scene_state sc) (ItemNode g) = Some g ->
  ungroupSelected [ItemNode g] sc
  = (true, scene_push (new_UngroupNodesCommand (scene_state sc) g) sc).
Proof.
  intros H. unfold ungroupSelected, canUngroup.
  change (omap (as_group (scene_state sc)) [ItemNode g])
    with (match as_group (scene_state sc) (ItemNode g) with
          | Some y => [y]
          | None => []
          end).
  by rewrite H.
Qed.

(** C1.  Select at least two distinct nodes of the scene, group them, let
    the group be moved to any position [p], and ungroup it.  Both
    operations succeed, and afterwards the scene lists the same nodes and
    the same connections as before grouping (the group and the connections
    made for its ports are gone, the original connection objects are back,
    each with the record, hence endpoints and port indices, it had); every
    grouped node is the object it was, at its original position plus
    [p - centroid(originalPositions)]; every other node is untouched. *)
Theorem group_ungroup_round_trip (sc : NodeScene) (selected : list Item)
    (p : QPointF) :
  let st := scene_state sc in
  let nodes := omap as_node selected in
  let g := next_addr st in
  (2 <= length nodes)%nat ->
  NoDup nodes ->
  (forall n, n ∈ nodes -> n ∈ s_nodes st) ->
  NoDup (s_nodes st) ->
  addresses_allocated st ->
  let grouped := groupSelected selected sc in
  let moved := mkScene (on_node g (set_pos p) (scene_state grouped.2))
                 (m_undoStack grouped.2) in
  let ungrouped := ungroupSelected [ItemNode g] moved in
  let st2 := scene_state ungrouped.2 in
  let offset := pt_sub p (centroid ((original_positions st nodes).*2)) in
  grouped.1 = true /\ ungrouped.1 = true /\
  g ∈ s_nodes (scene_state grouped.2) /\
  s_nodes st2 ≡ₚ s_nodes st /\
  s_connections st2 ≡ₚ s_connections st /\
  (forall c, c ∈ s_connections st -> heap_conns st2 !! c = heap_conns st !! c) /\
  (forall n, n ∈ nodes ->
     attrs st2 n = set_pos (pt_add (node_pos st n) offset) <$> attrs st n) /\
  (forall n, n ∉ nodes -> n <> g -> attrs st2 n = attrs st n).
Proof.
  intros st nodes g Hlen Hnd Hsub Hnds [Halloc_n Halloc_c]
    grouped moved ungrouped st2 offset.
  destruct (groupSelected_pushes selected sc Hlen) as (exts & Hexts & Hgroup).
  fold st nodes in Hexts, Hgroup.
  set (nodeSet := list_to_set nodes : gset NodePtr) in *.
  set (ics := filter (is_internal st nodeSet) (s_connections st)) in *.
  set (extPtrs := filter (is_external st nodeSet) (s_connections st)) in *.
  set (origPos := original_positions st nodes) in *.
  subst st2 ungrouped moved grouped. rewrite Hgroup. cbn [fst snd].
  destruct (group_redo_first st nodes ics exts extPtrs origPos)
    as (st1 & Hredo & G1 & G2 & G3 & G4 & G5 & G6 & G6' & G7 & G8 & G9 & G10 & G11 & G12).
  fold g in Hredo, G1, G2, G3, G4, G5, G6, G6', G7, G8, G9, G10, G11, G12.
  assert (Hst1 : scene_state (scene_push
                   (GroupNodesCommand nodes ics exts extPtrs origPos None [] true) sc)
                 = st1).
  { rewrite scene_push_state. fold st. by rewrite Hredo. }
  rewrite Hst1.
  set (us1 := m_undoStack _).
  set (moved := mkScene (on_node g (set_pos p) st1) us1).
  set (stm := on_node g (set_pos p) st1) in *.
  (* the moved state *)
  assert (Mattr : forall n, n <> g -> attrs stm n = attrs st1 n).
  { intros n Hn. subst stm. rewrite set_pos_attrs. by rewrite decide_False. }
  assert (Mgroup : attrs stm g ≫= m_group = attrs st1 g ≫= m_group).
  { subst stm. rewrite set_pos_attrs, decide_True by done.
    by destruct (attrs st1 g). }
  assert (Mgd : group_data stm g = group_data st1 g).
  { by rewrite !group_data_attrs, Mgroup. }
  assert (Mconn : node_connections stm g = node_connections st1 g).
  { subst stm. rewrite node_connections_on_node, decide_True by done.
    unfold node_connections. by destruct (heap_nodes st1 !! g). }
  assert (Mpos : node_pos stm g = p).
  { subst stm. rewrite node_pos_set_pos. by destruct G6 as [x ->]. }
  (* ungrouping *)
  assert (Hasg : as_group stm (ItemNode g) = Some g).
  { unfold as_group. fold (attrs stm g) in Mgroup.
    assert (Hm : heap_nodes stm !! g ≫= m_group = attrs stm g ≫= m_group).
    { unfold attrs. by destruct (heap_nodes stm !! g). }
    rewrite Hm, Mgroup. by destruct G6' as [x ->]. }
  rewrite (ungroupSelected_pushes g moved Hasg). cbn [fst snd].
  change (scene_state moved) with stm.
  unfold new_UngroupNodesCommand. rewrite Mgd, G8, G9, G10, G11, Mconn.
  set (gexts := node_connections st1 g) in *.
  rewrite scene_push_state.
  change (scene_state moved) with stm.
  destruct (ungroup_redo stm g nodes ics exts gexts origPos true (node_pos st)
              (fun n Hn => original_positions_find st nodes n Hn))
    as (st2 & Hredo2 & U1 & U2 & U3 & U4 & U5 & U6).
  rewrite Hredo2. cbn [snd]. rewrite Mpos in U6. fold offset in U6.
  assert (Hg_fresh : g ∉ s_nodes st).
  { intros Hg. apply Halloc_n in Hg. unfold g in Hg. lia. }
  assert (Hnodes_lt : forall n, n ∈ nodes -> n <> g).
  { intros n Hn ->. apply Hg_fresh. by apply Hsub. }
  assert (Hsm : s_nodes stm = s_nodes st1) by done.
  assert (Hcm : s_connections stm = s_connections st1) by done.
  assert (Hhm : heap_conns stm = heap_conns st1) by done.
  split; [done|]. split; [done|].
  split; [rewrite G1, elem_of_app, list_elem_of_singleton; by right|].
  split.
  { rewrite U1, Hsm, G1.
    assert (Hrem : removeAll g (removeAlls nodes (s_nodes st) ++ [g])
                   = removeAlls nodes (s_nodes st)).
    { unfold removeAll. rewrite filter_app, filter_cons_False, filter_nil, app_nil_r
        by (intros H; by apply H).
      apply filter_all. intros y Hy ->.
      rewrite removeAlls_filter in Hy. apply list_elem_of_filter in Hy as [_ Hy].
      contradiction. }
    rewrite Hrem. by apply removeAlls_restore_perm. }
  split.
  { rewrite U2, Hcm, G2, removeAlls_app.
    rewrite (removeAlls_none gexts
               (removeAlls ics (removeAlls extPtrs (s_connections st)))).
    - rewrite (removeAlls_all gexts (seq (S g) (length exts))).
      + rewrite app_nil_r, Hexts. apply classified_connections_perm.
      + intros y Hy. by apply G12.
    - intros y Hy Hy'. apply G12 in Hy'. apply elem_of_seq in Hy' as [Hy' _].
      rewrite !removeAlls_filter in Hy.
      apply list_elem_of_filter in Hy as [_ Hy].
      apply list_elem_of_filter in Hy as [_ Hy].
      apply Halloc_c in Hy. unfold g in Hy'. lia. }
  split.
  { intros c Hc. rewrite U3, Hhm. apply G5. by apply Halloc_c. }
  split.
  - intros n Hn. rewrite (U6 n Hn), (Mattr n (Hnodes_lt n Hn)).
    by rewrite (G4 n (Hnodes_lt n Hn)).
  - intros n Hn Hng. rewrite (U5 n Hn), (Mattr n Hng). by apply G4.
Qed.

Lemma group_ungroup_round_trip_witness :
  let p := mkPoint 300 50 in
  let grouped := groupSelected [ItemNode 0; ItemNode 1] fanout_scene in
  let moved := mkScene (on_node 7 (set_pos p) (scene_state grouped.2))
                 (m_undoStack grouped.2) in
  let st2 := scene_state (ungroupSelected [ItemNode 7] moved).2 in
  s_nodes (scene_state grouped.2) = [2; 3; 7]%nat /\
  s_nodes st2 ≡ₚ [0; 1; 2; 3]%nat /\
  s_connections st2 ≡ₚ [4; 5; 6]%nat /\
  heap_conns st2 !! 5%nat = Some (mkConnection 0 2 0 0 Bezier) /\
  pt_eq (node_pos st2 0) (mkPoint 200 50) /\
  pt_eq (node_pos st2 1) (mkPoint 400 50) /\
  node_pos st2 2 = mkPoint 400 0.
Proof.
  assert (Hnd : NoDup [0; 1]%nat)
    by (repeat (apply NoDup_cons; split; [set_solver|]); apply NoDup_nil_2).
  assert (Hnds : NoDup (s_nodes (scene_state fanout_scene))).
  { change (NoDup [0; 1; 2; 3]%nat).
    repeat (apply NoDup_cons; split; [set_solver|]); apply NoDup_nil_2. }
  assert (Hsub : forall n, n ∈ [0; 1]%nat -> n ∈ s_nodes (scene_state fanout_scene)).
  { intros n Hn. change (n ∈ [0; 1; 2; 3]%nat). set_solver. }
  assert (Halloc : addresses_allocated (scene_state fanout_scene)).
  { split; intros x Hx.
    - change (x ∈ [0; 1; 2; 3]%nat) in Hx. change (x < 7)%nat.
      repeat (apply elem_of_cons in Hx as [->|Hx]; [lia|]). by apply elem_of_nil in Hx.
    - change (x ∈ [4; 5; 6]%nat) in Hx. change (x < 7)%nat.
      repeat (apply elem_of_cons in Hx as [->|Hx]; [lia|]). by apply elem_of_nil in Hx. }
  intros p grouped moved st2.
  destruct (group_ungroup_round_trip fanout_scene [ItemNode 0; ItemNode 1] p
              ltac:(simpl; lia) Hnd Hsub Hnds Halloc)
    as (_ & _ & _ & H1 & H2 & H3 & H4 & H5).
  split; [reflexivity|]. split; [exact H1|]. split; [exact H2|].
  split; [vm_compute; reflexivity|].
  split; [vm_compute; split; reflexivity|].
  split; [vm_compute; split; reflexivity|].
  vm_compute. reflexivity.
Defined.

(** ** Undo and redo (UndoCommands.cpp)

    Every [undo], and every [redo] after the first, is a sequence of the
    four scene primitives and of position assignments.  A state is
    determined by its components ([state_eq]): the background, the two
    scene lists, and for each node its attributes and its list of incident
    connections.  For a sequence of primitives each component has a closed
    form (the [scene] rewriting rules), so that [redo] after [undo] after
    [redo] is compared with [redo] component by component.  A first [redo]
    that allocates objects is a later [redo] in the state where the objects
    are allocated already. *)

Lemma node_ext (x y : Node) :
  set_connections [] x = set_connections [] y ->
  m_connections x = m_connections y -> x = y.
Proof. destruct x, y; simpl; intros [=] ?; by subst. Qed.

Lemma incident_frame (st st' : State) (n : NodePtr) (c : ConnPtr) :
  heap_conns st' = heap_conns st ->
  (is_Some (heap_nodes st' !! n) <-> is_Some (heap_nodes st !! n)) ->
  incident st' n c = incident st n c.
Proof.
  intros Hc Hn. unfold incident, getFromNode, getToNode. rewrite Hc.
  destruct (heap_nodes st' !! n) as [x|] eqn:E1, (heap_nodes st !! n) as [y|] eqn:E2;
    try done.
  - destruct Hn as [Hn _]. destruct Hn as [? [=]]. by eexists.
  - destruct Hn as [_ Hn]. destruct Hn as [? [=]]. by eexists.
Qed.

Lemma incident_conn_frame (st st' : State) (n : NodePtr) (c : ConnPtr) :
  conn_frame st st' -> incident st' n c = incident st n c.
Proof.
  intros F. apply incident_frame; [apply F|]. by apply conn_frame_is_Some.
Qed.

Lemma node_connections_restore_eq (c : ConnPtr) (st : State) (n : NodePtr) :
  node_connections (restoreConnectionToScene c st) n
  = node_connections st n ++ incident st n c.
Proof.
  unfold restoreConnectionToScene, incident, getFromNode, getToNode, node_connections.
  destruct (heap_conns st !! c) as [r|] eqn:Hc; simpl.
  - rewrite Hc. simpl.
    destruct (decide (m_fromNode r = n)) as [->|Hf],
             (decide (m_toNode r = n)) as [Ht|Ht].
    + rewrite Ht, !lookup_alter_eq.
      destruct (heap_nodes st !! n) as [x|]; simpl; [|done].
      rewrite !decide_True by done. by rewrite <- app_assoc.
    + rewrite lookup_alter_ne, lookup_alter_eq by done.
      destruct (heap_nodes st !! n) as [x|]; simpl; [|done].
      rewrite decide_True, decide_False by congruence. by rewrite app_nil_r.
    + rewrite Ht, lookup_alter_eq, lookup_alter_ne by done.
      destruct (heap_nodes st !! n) as [x|]; simpl; [|done].
      rewrite decide_False, decide_True by congruence. done.
    + rewrite !lookup_alter_ne by done.
      destruct (heap_nodes st !! n) as [x|]; simpl; [|done].
      rewrite !decide_False by congruence. by rewrite app_nil_r.
  - rewrite Hc. simpl. destruct (heap_nodes st !! n) as [x|]; simpl; [|done].
    by rewrite app_nil_r.
Qed.

Lemma removeAlls_cat (xs ys l : list nat) :
  removeAlls (xs ++ ys) l = removeAlls ys (removeAlls xs l).
Proof. unfold removeAlls. by rewrite foldl_app. Qed.

Lemma node_connections_remove_eq (c : ConnPtr) (st : State) (n : NodePtr) :
  node_connections (removeConnectionFromScene c st) n
  = removeAlls (incident st n c) (node_connections st n).
Proof.
  unfold removeConnectionFromScene, incident, getFromNode, getToNode, node_connections.
  destruct (heap_conns st !! c) as [r|] eqn:Hc; simpl.
  - rewrite Hc. simpl.
    destruct (decide (m_fromNode r = n)) as [->|Hf],
             (decide (m_toNode r = n)) as [Ht|Ht].
    + rewrite Ht, !lookup_alter_eq.
      destruct (heap_nodes st !! n) as [x|]; simpl; [|done].
      rewrite !decide_True by done. done.
    + rewrite lookup_alter_ne, lookup_alter_eq by done.
      destruct (heap_nodes st !! n) as [x|]; simpl; [|done].
      rewrite decide_True, decide_False by congruence. done.
    + rewrite Ht, lookup_alter_eq, lookup_alter_ne by done.
      destruct (heap_nodes st !! n) as [x|]; simpl; [|done].
      rewrite decide_False, decide_True by congruence. done.
    + rewrite !lookup_alter_ne by done.
      destruct (heap_nodes st !! n) as [x|]; simpl; [|done].
      rewrite !decide_False by congruence. done.
  - rewrite Hc. simpl. by destruct (heap_nodes st !! n) as [x|].
Qed.

Lemma node_connections_for_each_restore_eq (cs : list ConnPtr) (st : State)
    (n : NodePtr) :
  node_connections (for_each restoreConnectionToScene cs st) n
  = node_connections st n ++ flat_map (incident st n) cs.
Proof.
  revert st. induction cs as [|c cs IH]; intros st; simpl.
  - by rewrite app_nil_r.
  - unfold for_each in *. simpl. rewrite IH, node_connections_restore_eq, <- app_assoc.
    f_equal. f_equal.
    apply flat_map_ext. intros c'.
    apply incident_conn_frame, conn_frame_restore.
Qed.

Lemma node_connections_for_each_remove_eq (cs : list ConnPtr) (st : State)
    (n : NodePtr) :
  node_connections (for_each removeConnectionFromScene cs st) n
  = removeAlls (flat_map (incident st n) cs) (node_connections st n).
Proof.
  revert st. induction cs as [|c cs IH]; intros st; simpl; [done|].
  unfold for_each in *. simpl. rewrite IH, node_connections_remove_eq, removeAlls_cat.
  f_equal.
  apply flat_map_ext. intros c'.
  apply incident_conn_frame, conn_frame_remove.
Qed.

Lemma state_eq (st st' : State) :
  background st' = background st ->
  s_nodes st' = s_nodes st -> s_connections st' = s_connections st ->
  (forall n, attrs st' n = attrs st n) ->
  (forall n, is_Some (heap_nodes st !! n) ->
     node_connections st' n = node_connections st n) ->
  st' = st.
Proof.
  intros [=] En Ec Ha Hc.
  assert (heap_nodes st' = heap_nodes st).
  { apply map_eq; intros n. specialize (Ha n); specialize (Hc n).
    unfold attrs, node_connections in *.
    destruct (heap_nodes st' !! n) as [x|], (heap_nodes st !! n) as [y|];
      simpl in *; try done.
    f_equal. apply node_ext; [congruence|]. apply Hc. by eexists. }
  destruct st, st'; simpl in *; congruence.
Qed.

(** How each primitive acts on each component. *)

Lemma background_remove (c : ConnPtr) (st : State) :
  background (removeConnectionFromScene c st) = background st.
Proof.
  unfold removeConnectionFromScene. by destruct (getFromNode st c), (getToNode _ c).
Qed.

Lemma background_restore (c : ConnPtr) (st : State) :
  background (restoreConnectionToScene c st) = background st.
Proof.
  unfold restoreConnectionToScene. by destruct (getFromNode st c), (getToNode _ c).
Qed.

Lemma background_for_each {A} (op : A -> State -> State) (xs : list A) (st : State) :
  (forall x st, background (op x st) = background st) ->
  background (for_each op xs st) = background st.
Proof.
  intros Hop. revert st. induction xs as [|x xs IH]; intros st; [done|].
  unfold for_each in *. simpl. by rewrite IH, Hop.
Qed.

Lemma background_removes (cs : list ConnPtr) (st : State) :
  background (for_each removeConnectionFromScene cs st) = background st.
Proof. apply background_for_each, background_remove. Qed.

Lemma background_restores (cs : list ConnPtr) (st : State) :
  background (for_each restoreConnectionToScene cs st) = background st.
Proof. apply background_for_each, background_restore. Qed.

Lemma s_nodes_removes (cs : list ConnPtr) (st : State) :
  s_nodes (for_each removeConnectionFromScene cs st) = s_nodes st.
Proof. apply (conn_frame_for_each _ cs st), conn_frame_remove. Qed.

Lemma s_nodes_restores (cs : list ConnPtr) (st : State) :
  s_nodes (for_each restoreConnectionToScene cs st) = s_nodes st.
Proof. apply (conn_frame_for_each _ cs st), conn_frame_restore. Qed.

Lemma attrs_removes (cs : list ConnPtr) (st : State) (n : NodePtr) :
  attrs (for_each removeConnectionFromScene cs st) n = attrs st n.
Proof. apply (conn_frame_for_each _ cs st), conn_frame_remove. Qed.

Lemma attrs_restores (cs : list ConnPtr) (st : State) (n : NodePtr) :
  attrs (for_each restoreConnectionToScene cs st) n = attrs st n.
Proof. apply (conn_frame_for_each _ cs st), conn_frame_restore. Qed.

Lemma incidents_conn_frame (st st' : State) (n : NodePtr) (cs : list ConnPtr) :
  conn_frame st st' -> incidents st' n cs = incidents st n cs.
Proof.
  intros F. apply flat_map_ext. intros c. by apply incident_conn_frame.
Qed.

Lemma incidents_removes (cs cs' : list ConnPtr) (st : State) (n : NodePtr) :
  incidents (for_each removeConnectionFromScene cs st) n cs' = incidents st n cs'.
Proof. apply incidents_conn_frame, conn_frame_for_each, conn_frame_remove. Qed.

Lemma incidents_restores (cs cs' : list ConnPtr) (st : State) (n : NodePtr) :
  incidents (for_each restoreConnectionToScene cs st) n cs' = incidents st n cs'.
Proof. apply incidents_conn_frame, conn_frame_for_each, conn_frame_restore. Qed.

Lemma node_connections_removes (cs : list ConnPtr) (st : State) (n : NodePtr) :
  node_connections (for_each removeConnectionFromScene cs st) n
  = removeAlls (incidents st n cs) (node_connections st n).
Proof. apply node_connections_for_each_remove_eq. Qed.

Lemma node_connections_restores (cs : list ConnPtr) (st : State) (n : NodePtr) :
  node_connections (for_each restoreConnectionToScene cs st) n
  = node_connections st n ++ incidents st n cs.
Proof. apply node_connections_for_each_restore_eq. Qed.

Lemma background_with_s_nodes (l : list NodePtr) (st : State) :
  background (with_s_nodes l st) = background st.
Proof. done. Qed.
Lemma s_nodes_with_s_nodes (l : list NodePtr) (st : State) :
  s_nodes (with_s_nodes l st) = l.
Proof. done. Qed.
Lemma s_connections_with_s_nodes (l : list NodePtr) (st : State) :
  s_connections (with_s_nodes l st) = s_connections st.
Proof. done. Qed.
Lemma attrs_with_s_nodes (l : list NodePtr) (st : State) (n : NodePtr) :
  attrs (with_s_nodes l st) n = attrs st n.
Proof. done. Qed.
Lemma node_connections_with_s_nodes (l : list NodePtr) (st : State) (n : NodePtr) :
  node_connections (with_s_nodes l st) n = node_connections st n.
Proof. done. Qed.
Lemma incidents_with_s_nodes (l : list NodePtr) (st : State) (n : NodePtr)
    (cs : list ConnPtr) :
  incidents (with_s_nodes l st) n cs = incidents st n cs.
Proof. done. Qed.

Create Rewrite HintDb scene.
#[export] Hint Rewrite
  background_removes background_restores background_with_s_nodes
  s_nodes_removes s_nodes_restores s_nodes_with_s_nodes
  s_connections_for_each_remove s_connections_for_each_restore
  s_connections_with_s_nodes
  attrs_removes attrs_restores attrs_with_s_nodes
  node_connections_removes node_connections_restores node_connections_with_s_nodes
  incidents_removes incidents_restores incidents_with_s_nodes
  for_each_removeNode for_each_restoreNode : scene.

(** List facts. *)

Lemma elem_of_removeAlls (xs l : list nat) (y : nat) :
  y ∈ removeAlls xs l <-> y ∈ l /\ y ∉ xs.
Proof. rewrite removeAlls_filter, list_elem_of_filter. tauto. Qed.

Lemma removeAlls_absorb (xs l ys : list nat) :
  (forall y, y ∈ ys -> y ∈ xs) -> removeAlls xs (l ++ ys) = removeAlls xs l.
Proof.
  intros H. by rewrite removeAlls_app, (removeAlls_all xs ys), app_nil_r.
Qed.

Lemma removeAlls_idem (xs l : list nat) :
  removeAlls xs (removeAlls xs l) = removeAlls xs l.
Proof.
  apply removeAlls_none. intros y Hy. by apply elem_of_removeAlls in Hy as [_ ?].
Qed.

Lemma incidents_subset (st : State) (n : NodePtr) (cs : list ConnPtr) (y : ConnPtr) :
  y ∈ incidents st n cs -> y ∈ cs.
Proof.
  unfold incidents. rewrite list_elem_of_In, in_flat_map.
  intros (c & Hc & Hy). apply list_elem_of_In in Hc.
  unfold incident in Hy. destruct (heap_nodes st !! n); [|done].
  apply in_app_or in Hy as [Hy|Hy]; case_decide; simpl in Hy; try done;
    destruct Hy as [<-|[]]; done.
Qed.

Ltac scene_eq :=
  apply state_eq; [ | | | intros ? | intros ? ? ];
  autorewrite with scene; try done.

(** [DeleteCommand]: after the first [redo], [undo] followed by [redo]
    gives the same state again, from any state. *)
Lemma delete_undo_redo (nd cd : list (list (string * Json))) (nodes : list NodePtr)
    (conns : list ConnPtr) (b : bool) (st : State) :
  let r := redo (DeleteCommand nd cd nodes conns b) st in
  let u := undo r.1 r.2 in
  redo u.1 u.2 = r.
Proof.
  simpl. f_equal. scene_eq.
  - rewrite removeAlls_absorb by done. apply removeAlls_idem.
  - rewrite removeAlls_absorb by done. apply removeAlls_idem.
  - rewrite removeAlls_absorb by done. apply removeAlls_idem.
Qed.

(** Moving a node. *)

Lemma node_connections_set_pos (p : QPointF) (st : State) (n m : NodePtr) :
  node_connections (on_node n (set_pos p) st) m = node_connections st m.
Proof.
  rewrite node_connections_on_node. case_decide; [subst|done].
  unfold node_connections. by destruct (heap_nodes st !! m).
Qed.

Lemma move_undo_redo (node : NodePtr) (oldPos newPos : QPointF) (st : State) :
  let r := redo (MoveNodeCommand node oldPos newPos) st in
  let u := undo r.1 r.2 in
  redo u.1 u.2 = r.
Proof.
  simpl. f_equal. apply state_eq; try done.
  - intros n. rewrite !set_pos_attrs. case_decide; [|done].
    by rewrite !set_pos_idem.
  - intros n _. by rewrite !node_connections_set_pos.
Qed.

Lemma last_position_is_Some (l : list (NodePtr * QPointF)) (n : NodePtr) :
  is_Some (last_position l n) <-> n ∈ l.*1.
Proof.
  induction l as [|[m p] l IH]; simpl.
  - split; [by intros [? [=]]|by intros ?%elem_of_nil].
  - rewrite elem_of_cons, <- IH.
    destruct (last_position l n); simpl.
    + split; [by right|by eexists].
    + case_decide; subst.
      * split; [by left|by eexists].
      * split; [by intros [? [=]]|]. intros [?|[? [=]]]. congruence.
Qed.

Lemma set_positions_attrs (l : list (NodePtr * QPointF)) (st : State) (n : NodePtr) :
  attrs (for_each (fun np => on_node np.1 (set_pos np.2)) l st) n
  = match last_position l n with
    | Some p => set_pos p <$> attrs st n
    | None => attrs st n
    end.
Proof.
  revert st. induction l as [|[m p] l IH]; intros st; [done|].
  unfold for_each in *. simpl. rewrite IH, set_pos_attrs.
  destruct (last_position l n); case_decide; try done.
  by rewrite set_pos_idem.
Qed.

Lemma set_positions_frame (l : list (NodePtr * QPointF)) (st : State) :
  let st' := for_each (fun np => on_node np.1 (set_pos np.2)) l st in
  background st' = background st /\ s_nodes st' = s_nodes st /\
  s_connections st' = s_connections st /\
  forall n, node_connections st' n = node_connections st n.
Proof.
  revert st. induction l as [|[m p] l IH]; intros st; [done|].
  unfold for_each in *. simpl.
  destruct (IH (on_node m (set_pos p) st)) as (A & B & C & D).
  repeat split; try done. intros n. by rewrite D, node_connections_set_pos.
Qed.

(** [MoveNodesCommand]: the constructor is given a position of either kind
    for every node. *)
Lemma moves_undo_redo (nodes : list NodePtr) (oldPositions newPositions : list QPointF)
    (st : State) :
  (length nodes <= length oldPositions)%nat ->
  (length nodes <= length newPositions)%nat ->
  let r := redo (MoveNodesCommand nodes oldPositions newPositions) st in
  let u := undo r.1 r.2 in
  redo u.1 u.2 = r.
Proof.
  intros Ho Hn. simpl. f_equal. unfold set_positions.
  set (new := zip nodes newPositions). set (old := zip nodes oldPositions).
  set (st1 := for_each _ new st). set (st2 := for_each _ old st1).
  destruct (set_positions_frame new st) as (A1 & B1 & C1 & D1).
  destruct (set_positions_frame old st1) as (A2 & B2 & C2 & D2).
  destruct (set_positions_frame new st2) as (A3 & B3 & C3 & D3).
  fold st1 in A1, B1, C1, D1. fold st2 in A2, B2, C2, D2.
  apply state_eq; try congruence.
  - intros n.
    pose proof (set_positions_attrs new st n) as E1.
    pose proof (set_positions_attrs old st1 n) as E2.
    pose proof (set_positions_attrs new st2 n) as E3.
    fold st1 in E1. fold st2 in E2. rewrite E3, E2, E1.
    assert (Hdom : is_Some (last_position old n) -> is_Some (last_position new n)).
    { rewrite !last_position_is_Some. unfold old, new.
      by rewrite !fst_zip by done. }
    destruct (last_position new n) as [p|].
    + destruct (last_position old n); by rewrite !set_pos_idem.
    + destruct (last_position old n); [|done].
      destruct Hdom as [? [=]]. by eexists.
Qed.

(** Adding a node or a connection. *)

Lemma removeAlls_snoc (xs l : list nat) :
  (forall y, y ∈ l -> y ∉ xs) -> removeAlls xs (l ++ xs) = l.
Proof.
  intros H. rewrite removeAlls_app, (removeAlls_all xs xs), app_nil_r by done.
  by apply removeAlls_none.
Qed.

Lemma removeAll_snoc (x : nat) (l : list nat) :
  x ∉ l -> removeAll x (l ++ [x]) = l.
Proof.
  intros H. apply (removeAlls_snoc [x] l). intros y Hy ->%list_elem_of_singleton.
  done.
Qed.

(** [AddNodeCommand]: the node the command holds, or is about to create, is
    not in the scene's list before [redo]. *)
Lemma add_node_undo_redo (type : string) (pos : QPointF) (node : option NodePtr)
    (b : bool) (st : State) :
  default (next_addr st) node ∉ s_nodes st ->
  let r := redo (AddNodeCommand type pos node b) st in
  let u := undo r.1 r.2 in
  redo u.1 u.2 = r.
Proof.
  intros H. destruct node as [n|]; simpl in *.
  - unfold restoreNodeToScene, removeNodeFromScene. simpl.
    by rewrite removeAll_snoc.
  - unfold restoreNodeToScene, removeNodeFromScene, with_s_nodes. simpl.
    by rewrite removeAll_snoc.
Qed.

Lemma createConnection_restore (f : NodePtr) (fp : Z) (t : NodePtr) (tp : Z)
    (st : State) :
  createConnection f fp t tp st
  = (next_addr st,
     restoreConnectionToScene (next_addr st)
       (alloc_conn (mkConnection f t fp tp Bezier) st).2).
Proof.
  unfold createConnection, Connection_ctor, restoreConnectionToScene,
    getFromNode, getToNode. simpl.
  by repeat (rewrite lookup_insert_eq; simpl).
Qed.

Lemma restore_remove_restore (c : ConnPtr) (st : State) :
  c ∉ s_connections st -> (forall n, c ∉ node_connections st n) ->
  restoreConnectionToScene c (removeConnectionFromScene c (restoreConnectionToScene c st))
  = restoreConnectionToScene c st.
Proof.
  intros Hs Hn.
  change (for_each restoreConnectionToScene [c]
            (for_each removeConnectionFromScene [c]
               (for_each restoreConnectionToScene [c] st))
          = for_each restoreConnectionToScene [c] st).
  scene_eq.
  - rewrite removeAlls_snoc; [done|].
    by intros y Hy ->%list_elem_of_singleton.
  - rewrite removeAlls_snoc; [done|].
    intros y Hy Hy'%incidents_subset. apply list_elem_of_singleton in Hy' as ->.
    by apply (Hn n).
Qed.

(** [AddConnectionCommand]: the connection the command holds, or is about
    to create, is not registered anywhere before [redo]. *)
Lemma add_connection_undo_redo (f t : NodePtr) (fp tp : Z) (conn : option ConnPtr)
    (b : bool) (st : State) :
  let c := default (next_addr st) conn in
  c ∉ s_connections st -> (forall n, c ∉ node_connections st n) ->
  let r := redo (AddConnectionCommand f t fp tp conn b) st in
  let u := undo r.1 r.2 in
  redo u.1 u.2 = r.
Proof.
  intros c Hs Hn. subst c.
  destruct conn as [c'|]; cbn [redo undo fst snd default] in *.
  - by rewrite restore_remove_restore.
  - rewrite createConnection_restore. cbn [redo undo fst snd].
    by rewrite restore_remove_restore.
Qed.

(** Loops over several lists and over external descriptors. *)

Lemma for_each_app {A} (op : A -> State -> State) (xs ys : list A) (st : State) :
  for_each op (xs ++ ys) st = for_each op ys (for_each op xs st).
Proof. unfold for_each. by rewrite foldl_app. Qed.

Lemma for_each_restore_original (exts : list ExternalConnection) (st : State) :
  for_each restore_original exts st
  = for_each restoreConnectionToScene (omap originalConnection exts) st.
Proof.
  revert st. induction exts as [|e exts IH]; intros st; [done|].
  unfold for_each in *. simpl. rewrite IH. unfold restore_original.
  by destruct (originalConnection e).
Qed.

Lemma for_each_remove_original (exts : list ExternalConnection) (st : State) :
  for_each remove_original exts st
  = for_each removeConnectionFromScene (omap originalConnection exts) st.
Proof.
  revert st. induction exts as [|e exts IH]; intros st; [done|].
  unfold for_each in *. simpl. rewrite IH. unfold remove_original.
  by destruct (originalConnection e).
Qed.

(** [set_positions] on the other components. *)

Lemma background_set_positions (ns : list NodePtr) (ps : list QPointF) (st : State) :
  background (set_positions ns ps st) = background st.
Proof. apply set_positions_frame. Qed.
Lemma s_nodes_set_positions (ns : list NodePtr) (ps : list QPointF) (st : State) :
  s_nodes (set_positions ns ps st) = s_nodes st.
Proof. apply set_positions_frame. Qed.
Lemma s_connections_set_positions (ns : list NodePtr) (ps : list QPointF) (st : State) :
  s_connections (set_positions ns ps st) = s_connections st.
Proof. apply set_positions_frame. Qed.
Lemma node_connections_set_positions (ns : list NodePtr) (ps : list QPointF)
    (st : State) (n : NodePtr) :
  node_connections (set_positions ns ps st) n = node_connections st n.
Proof. apply set_positions_frame. Qed.

Lemma set_positions_is_Some (ns : list NodePtr) (ps : list QPointF) (st : State)
    (n : NodePtr) :
  is_Some (heap_nodes (set_positions ns ps st) !! n) <-> is_Some (heap_nodes st !! n).
Proof.
  rewrite <- !attrs_is_Some. unfold set_positions. rewrite set_positions_attrs.
  destruct (last_position _ n); [|done]. by rewrite fmap_is_Some.
Qed.

Lemma heap_conns_set_positions (ns : list NodePtr) (ps : list QPointF) (st : State) :
  heap_conns (set_positions ns ps st) = heap_conns st.
Proof.
  pose proof (background_set_positions ns ps st) as H. by injection H.
Qed.

Lemma incidents_set_positions (ns : list NodePtr) (ps : list QPointF) (st : State)
    (n : NodePtr) (cs : list ConnPtr) :
  incidents (set_positions ns ps st) n cs = incidents st n cs.
Proof.
  apply flat_map_ext. intros c. apply incident_frame.
  - apply heap_conns_set_positions.
  - apply set_positions_is_Some.
Qed.

#[export] Hint Rewrite
  background_set_positions s_nodes_set_positions s_connections_set_positions
  node_connections_set_positions incidents_set_positions : scene.

Lemma last_position_assign (f : NodePtr -> QPointF) (ns : list NodePtr) (n : NodePtr) :
  last_position (zip ns (f <$> ns)) n = if decide (n ∈ ns) then Some (f n) else None.
Proof.
  induction ns as [|m ns IH].
  - simpl. by destruct (decide (n ∈ [])) as [H%elem_of_nil|].
  - change (last_position (zip (m :: ns) (f <$> m :: ns)) n)
      with (match last_position (zip ns (f <$> ns)) n with
            | Some q => Some q
            | None => if decide (m = n) then Some (f m) else None
            end).
    rewrite IH. destruct (decide (n ∈ ns)) as [Hin|Hnin].
    + rewrite decide_True; [done|by right].
    + destruct (decide (m = n)) as [->|Hne].
      * rewrite decide_True; [done|by left].
      * rewrite decide_False; [done|]. rewrite elem_of_cons. naive_solver.
Qed.

Lemma attrs_assign (f : NodePtr -> QPointF) (ns : list NodePtr) (st : State)
    (n : NodePtr) :
  attrs (set_positions ns (f <$> ns) st) n
  = if decide (n ∈ ns) then set_pos (f n) <$> attrs st n else attrs st n.
Proof.
  unfold set_positions. rewrite set_positions_attrs, last_position_assign.
  by case_decide.
Qed.

Lemma set_positions_restoreNode (ns : list NodePtr) (ps : list QPointF)
    (m : NodePtr) (st : State) :
  set_positions ns ps (restoreNodeToScene m st)
  = restoreNodeToScene m (set_positions ns ps st).
Proof.
  unfold set_positions. generalize (zip ns ps). intros l. revert st.
  induction l as [|np l IH]; intros st; [done|].
  unfold for_each in *. simpl. by rewrite <- IH.
Qed.

Lemma set_positions_cons (n : NodePtr) (p : QPointF) (ns : list NodePtr)
    (ps : list QPointF) (st : State) :
  set_positions (n :: ns) (p :: ps) st = set_positions ns ps (on_node n (set_pos p) st).
Proof. done. Qed.

(** When the map has an entry for every node, the loop of
    [UngroupNodesCommand::redo] that places the nodes leaves the map as it
    is; it assigns the positions and appends the nodes. *)
Lemma restore_node_fold_split (offset : QPointF) (origPos : list (NodePtr * QPointF))
    (nodes : list NodePtr) (st : State) :
  (forall n, n ∈ nodes -> is_Some (qmap_find n origPos)) ->
  foldl (restore_node offset) (origPos, st) nodes
  = (origPos,
     for_each restoreNodeToScene nodes
       (set_positions nodes
          ((fun n => pt_add (default pt_zero (qmap_find n origPos)) offset) <$> nodes)
          st)).
Proof.
  revert st. induction nodes as [|m nodes IH]; intros st Hall; [done|].
  rewrite foldl_step. unfold restore_node at 2, qmap_index.
  destruct (Hall m) as [v Hv]; [by left|]. rewrite Hv.
  rewrite IH by (intros; apply Hall; by right).
  rewrite fmap_cons, set_positions_cons, Hv. simpl.
  by rewrite set_positions_restoreNode.
Qed.

(** ** UngroupNodesCommand *)

Lemma ungroup_redo_eq (g : NodePtr) (nodes : list NodePtr) (ics : list ConnPtr)
    (exts : list ExternalConnection) (gexts : list ConnPtr)
    (origPos : list (NodePtr * QPointF)) (b : bool) (st : State) :
  (forall n, n ∈ nodes -> is_Some (qmap_find n origPos)) ->
  let offset := pt_sub (node_pos st g) (centroid (origPos.*2)) in
  redo (UngroupNodesCommand g nodes ics exts gexts origPos b) st
  = (UngroupNodesCommand g nodes ics exts gexts origPos b,
     for_each restoreConnectionToScene (omap originalConnection exts)
       (for_each restoreConnectionToScene ics
          (for_each restoreNodeToScene nodes
             (set_positions nodes
                ((fun n => pt_add (default pt_zero (qmap_find n origPos)) offset)
                   <$> nodes)
                (for_each removeNodeFromScene [g]
                   (for_each removeConnectionFromScene gexts st)))))).
Proof.
  intros Hall offset. unfold redo.
  assert (Hpos : node_pos (removeNodeFromScene g
                             (for_each removeConnectionFromScene gexts st)) g
                 = node_pos st g).
  { apply (conn_frame_node_pos st (for_each removeConnectionFromScene gexts st)).
    apply conn_frame_for_each, conn_frame_remove. }
  rewrite Hpos. fold offset.
  rewrite restore_node_fold_split by done.
  by rewrite for_each_restore_original.
Qed.

Lemma ungroup_undo_eq (g : NodePtr) (nodes : list NodePtr) (ics : list ConnPtr)
    (exts : list ExternalConnection) (gexts : list ConnPtr)
    (origPos : list (NodePtr * QPointF)) (b : bool) (st : State) :
  undo (UngroupNodesCommand g nodes ics exts gexts origPos b) st
  = (UngroupNodesCommand g nodes ics exts gexts origPos b,
     for_each restoreConnectionToScene gexts
       (for_each restoreNodeToScene [g]
          (for_each removeNodeFromScene nodes
             (for_each removeConnectionFromScene ics
                (for_each removeConnectionFromScene (omap originalConnection exts)
                   st))))).
Proof. unfold undo. by rewrite for_each_remove_original. Qed.

Lemma removeAlls_keep (xs l l' : list nat) :
  (forall y, y ∈ l -> y ∉ xs) -> removeAlls xs (l ++ l') = l ++ removeAlls xs l'.
Proof. intros H. by rewrite removeAlls_app, (removeAlls_none xs l). Qed.

Lemma removeAlls_sub (xs ys l : list nat) :
  (forall y, y ∈ l -> y ∈ xs) -> removeAlls xs (removeAlls ys l) = [].
Proof.
  intros H. apply removeAlls_all. intros y Hy.
  apply elem_of_removeAlls in Hy as [Hy _]. by apply H.
Qed.

(** What [redo], [undo], [redo] leave of a list from which [redo] removes
    [G] and to which it appends [A] and [B]. *)
Lemma cycle_remove_append (X G A B : list nat) :
  (forall y, y ∈ X -> (y ∉ A) /\ (y ∉ B)) ->
  (removeAlls G (removeAlls A (removeAlls B ((removeAlls G X ++ A) ++ B)) ++ G) ++ A)
  ++ B
  = (removeAlls G X ++ A) ++ B.
Proof.
  intros H. set (Y := removeAlls G X).
  assert (HY : forall y, y ∈ Y -> (y ∉ G) /\ (y ∉ A) /\ (y ∉ B)).
  { intros y Hy. apply elem_of_removeAlls in Hy as [Hy ?]. naive_solver. }
  rewrite <- (app_assoc Y A B), (removeAlls_keep B Y) by naive_solver.
  rewrite (removeAlls_app B A B), (removeAlls_all B B), app_nil_r by done.
  rewrite (removeAlls_keep A Y), (removeAlls_sub A B A), app_nil_r by naive_solver.
  rewrite (removeAlls_snoc G Y) by naive_solver.
  by rewrite <- app_assoc.
Qed.

Lemma ungroup_undo_redo (g : NodePtr) (nodes : list NodePtr) (ics : list ConnPtr)
    (exts : list ExternalConnection) (gexts : list ConnPtr)
    (origPos : list (NodePtr * QPointF)) (b : bool) (st : State) :
  let origs := omap originalConnection exts in
  (forall n, n ∈ nodes -> is_Some (qmap_find n origPos)) ->
  g ∉ nodes ->
  (forall y, y ∈ s_nodes st -> y ∉ nodes) ->
  (forall y, y ∈ s_connections st -> (y ∉ ics) /\ (y ∉ origs)) ->
  (forall n y, y ∈ node_connections st n -> (y ∉ ics) /\ (y ∉ origs)) ->
  let r := redo (UngroupNodesCommand g nodes ics exts gexts origPos b) st in
  let u := undo r.1 r.2 in
  redo u.1 u.2 = r.
Proof.
  intros origs Hall Hg Hn Hc Hnc r u. subst r u.
  rewrite ungroup_redo_eq by done. cbn [fst snd].
  rewrite ungroup_undo_eq. cbn [fst snd].
  rewrite ungroup_redo_eq by done. f_equal. fold origs.
  set (off := pt_sub (node_pos st g) (centroid (origPos.*2))).
  match goal with |- context [pt_sub (node_pos ?s g) _] => set (st2 := s) end.
  assert (Hoff : node_pos st2 g = node_pos st g).
  { rewrite !node_pos_attrs. subst st2. autorewrite with scene.
    rewrite attrs_assign, decide_False by done. by autorewrite with scene. }
  rewrite Hoff. fold off. subst st2.
  scene_eq.
  - set (X := removeAlls [g] (s_nodes st)).
    assert (HX : forall y, y ∈ X -> (y ∉ [g]) /\ (y ∉ nodes)).
    { intros y Hy. apply elem_of_removeAlls in Hy as [Hy ?]. naive_solver. }
    rewrite (removeAlls_snoc nodes X) by naive_solver.
    by rewrite (removeAlls_snoc [g] X) by naive_solver.
  - by apply cycle_remove_append.
  - rewrite !attrs_assign. autorewrite with scene. rewrite attrs_assign.
    case_decide; [|by autorewrite with scene].
    autorewrite with scene. by rewrite set_pos_idem.
  - apply cycle_remove_append. intros y Hy.
    destruct (Hnc n y Hy). split; by intros ?%incidents_subset.
Qed.

(** ** GroupNodesCommand, once the group exists *)

Lemma on_node_set_pos_same (n : NodePtr) (st : State) :
  on_node n (set_pos (node_pos st n)) st = st.
Proof.
  apply state_eq; try done.
  - intros m. rewrite set_pos_attrs. case_decide; [subst|done].
    rewrite node_pos_attrs. by destruct (attrs st m) as [[]|].
  - intros m _. apply node_connections_set_pos.
Qed.

Lemma restore_node_exact_fold_same (origPos : list (NodePtr * QPointF))
    (nodes : list NodePtr) (st : State) :
  (forall n, n ∈ nodes -> qmap_find n origPos = Some (node_pos st n)) ->
  foldl restore_node_exact (origPos, st) nodes
  = (origPos, for_each restoreNodeToScene nodes st).
Proof.
  revert st. induction nodes as [|m nodes IH]; intros st Hall; [done|].
  rewrite foldl_step. unfold restore_node_exact at 2, qmap_index.
  rewrite (Hall m) by (by left). rewrite on_node_set_pos_same.
  rewrite IH; [done|]. intros n Hn. rewrite (Hall n) by (by right). done.
Qed.

Lemma cycle_append_remove (X A B N : list nat) :
  (forall y, y ∈ X -> y ∉ N) ->
  removeAlls A
    (removeAlls B ((removeAlls N (removeAlls A (removeAlls B X) ++ N) ++ A) ++ B))
  ++ N
  = removeAlls A (removeAlls B X) ++ N.
Proof.
  intros H. set (Y := removeAlls A (removeAlls B X)).
  assert (HY : forall y, y ∈ Y -> (y ∉ A) /\ (y ∉ B) /\ (y ∉ N)).
  { intros y Hy. apply elem_of_removeAlls in Hy as [Hy ?].
    apply elem_of_removeAlls in Hy as [Hy ?]. naive_solver. }
  rewrite (removeAlls_snoc N Y) by naive_solver.
  rewrite <- (app_assoc Y A B), (removeAlls_keep B Y) by naive_solver.
  rewrite (removeAlls_app B A B), (removeAlls_all B B), app_nil_r by done.
  by rewrite (removeAlls_keep A Y), (removeAlls_sub A B A), app_nil_r by naive_solver.
Qed.

Lemma group_again_undo_redo (nodes : list NodePtr) (ics : list ConnPtr)
    (exts : list ExternalConnection) (extPtrs : list ConnPtr)
    (origPos : list (NodePtr * QPointF)) (g : NodePtr) (news : list ConnPtr)
    (st : State) :
  g ∉ s_nodes st ->
  (forall y, y ∈ s_connections st -> y ∉ news) ->
  (forall n y, y ∈ node_connections st n -> y ∉ news) ->
  (forall n, n ∈ nodes -> qmap_find n origPos = Some (node_pos st n)) ->
  let r := redo (GroupNodesCommand nodes ics exts extPtrs origPos (Some g) news false)
             st in
  let u := undo r.1 r.2 in
  redo u.1 u.2 = r.
Proof.
  intros Hg Hc Hnc Hpos r u. subst r u. cbn [redo fst snd undo].
  change (removeNodeFromScene g) with (for_each removeNodeFromScene [g]).
  change (restoreNodeToScene g) with (for_each restoreNodeToScene [g]).
  rewrite restore_node_exact_fold_same.
  2:{ intros n Hn. rewrite (Hpos n Hn). f_equal. rewrite !node_pos_attrs.
      by autorewrite with scene. }
  cbn [redo fst snd]. f_equal.
  change (restoreNodeToScene g) with (for_each restoreNodeToScene [g]).
  scene_eq.
  - set (X := removeAlls nodes (s_nodes st)).
    assert (HX : forall y, y ∈ X -> (y ∉ nodes) /\ (y ∉ [g])).
    { intros y Hy. apply elem_of_removeAlls in Hy as [Hy ?]. split; [done|].
      intros ->%list_elem_of_singleton. done. }
    rewrite (removeAlls_snoc [g] X) by naive_solver.
    by rewrite (removeAlls_snoc nodes X) by naive_solver.
  - by apply cycle_append_remove.
  - apply cycle_append_remove. intros y Hy ?%incidents_subset.
    by apply (Hnc n y).
Qed.

(** ** PasteCommand, once the copies exist *)

Lemma paste_again_undo_redo (clip : list (string * Json)) (offset : QPointF)
    (pastedNodes : list NodePtr) (pastedConns : list ConnPtr) (b : bool)
    (st : State) :
  pastedNodes <> [] ->
  (forall y, y ∈ s_nodes st -> y ∉ pastedNodes) ->
  (forall y, y ∈ s_connections st -> y ∉ pastedConns) ->
  (forall n y, y ∈ node_connections st n -> y ∉ pastedConns) ->
  let r := redo (PasteCommand clip offset pastedNodes pastedConns b) st in
  let u := undo r.1 r.2 in
  redo u.1 u.2 = r.
Proof.
  intros Hne Hn Hc Hnc r u. subst r u.
  destruct pastedNodes as [|m ns]; [done|]. cbn [redo fst snd undo]. f_equal.
  scene_eq.
  - by rewrite removeAlls_snoc.
  - by rewrite removeAlls_snoc.
  - rewrite removeAlls_snoc; [done|]. intros y Hy ?%incidents_subset.
    by apply (Hnc n y).
Qed.

(** ** GroupNodesCommand, first execution

    The first [redo] allocates the group node and the connections that join
    it to the outside; on the state in which these objects already exist it
    does what every later [redo] does. *)

Lemma connect_group_restore (g : NodePtr) (ins outs : list PortMapping)
    (acc : list ConnPtr) (st : State) (ext : ExternalConnection) :
  connect_group g ins outs (acc, st) ext
  = (acc ++ [next_addr st],
     restoreConnectionToScene (next_addr st)
       (alloc_conn (group_connection g ins outs ext) st).2).
Proof.
  unfold connect_group, group_connection, Connection_ctor, restoreConnectionToScene,
    getFromNode, getToNode.
  destruct (isInput ext); simpl; by repeat (rewrite lookup_insert_eq; simpl).
Qed.

Lemma alloc_conn_restore (r : Connection) (c : ConnPtr) (st : State) :
  c <> next_addr st ->
  (alloc_conn r (restoreConnectionToScene c st)).2
  = restoreConnectionToScene c (alloc_conn r st).2.
Proof.
  intros Hc. unfold restoreConnectionToScene, getFromNode, getToNode. simpl.
  destruct (heap_conns st !! c) as [x|] eqn:E; simpl;
    repeat (rewrite lookup_insert_ne by done; rewrite ?E; simpl); done.
Qed.

Lemma alloc_conn_remove (r : Connection) (c : ConnPtr) (st : State) :
  c <> next_addr st ->
  (alloc_conn r (removeConnectionFromScene c st)).2
  = removeConnectionFromScene c (alloc_conn r st).2.
Proof.
  intros Hc. unfold removeConnectionFromScene, getFromNode, getToNode. simpl.
  destruct (heap_conns st !! c) as [x|] eqn:E; simpl;
    repeat (rewrite lookup_insert_ne by done; rewrite ?E; simpl); done.
Qed.

Lemma next_addr_for_each {A} (op : A -> State -> State) (xs : list A) (st : State) :
  (forall x st, background (op x st) = background st) ->
  next_addr (for_each op xs st) = next_addr st.
Proof.
  intros H. pose proof (background_for_each op xs st H) as E. by injection E.
Qed.

Lemma alloc_conn_restores (r : Connection) (cs : list ConnPtr) (st : State) :
  (forall c, c ∈ cs -> c < next_addr st)%nat ->
  (alloc_conn r (for_each restoreConnectionToScene cs st)).2
  = for_each restoreConnectionToScene cs (alloc_conn r st).2.
Proof.
  revert st. induction cs as [|c cs IH]; intros st H; [done|].
  unfold for_each in *. cbn [foldl].
  assert (Hc : (c < next_addr st)%nat) by (apply H; by left).
  assert (Hn : next_addr (restoreConnectionToScene c st) = next_addr st).
  { pose proof (background_restore c st) as E. by injection E. }
  rewrite IH.
  - rewrite alloc_conn_restore; [done|lia].
  - intros c' Hc'. rewrite Hn. apply H. by right.
Qed.

Lemma alloc_conn_removes (r : Connection) (cs : list ConnPtr) (st : State) :
  (forall c, c ∈ cs -> c < next_addr st)%nat ->
  (alloc_conn r (for_each removeConnectionFromScene cs st)).2
  = for_each removeConnectionFromScene cs (alloc_conn r st).2.
Proof.
  revert st. induction cs as [|c cs IH]; intros st H; [done|].
  unfold for_each in *. cbn [foldl].
  assert (Hc : (c < next_addr st)%nat) by (apply H; by left).
  assert (Hn : next_addr (removeConnectionFromScene c st) = next_addr st).
  { pose proof (background_remove c st) as E. by injection E. }
  rewrite IH.
  - rewrite alloc_conn_remove; [done|lia].
  - intros c' Hc'. rewrite Hn. apply H. by right.
Qed.

Lemma alloc_conn_with_s_nodes (r : Connection) (l : list NodePtr) (st : State) :
  (alloc_conn r (with_s_nodes l st)).2 = with_s_nodes l (alloc_conn r st).2.
Proof. done. Qed.

Lemma s_nodes_alloc_conn (r : Connection) (st : State) :
  s_nodes (alloc_conn r st).2 = s_nodes st.
Proof. done. Qed.

Lemma next_addr_removes (cs : list ConnPtr) (st : State) :
  next_addr (for_each removeConnectionFromScene cs st) = next_addr st.
Proof. apply next_addr_for_each, background_remove. Qed.

Lemma next_addr_restores (cs : list ConnPtr) (st : State) :
  next_addr (for_each restoreConnectionToScene cs st) = next_addr st.
Proof. apply next_addr_for_each, background_restore. Qed.

Lemma alloc_conn_regroup (r : Connection) (nodes : list NodePtr)
    (ics extPtrs : list ConnPtr) (g : NodePtr) (st : State) :
  (forall c, c ∈ extPtrs ++ ics -> c < next_addr st)%nat ->
  (alloc_conn r (regroup nodes ics extPtrs g st)).2
  = regroup nodes ics extPtrs g (alloc_conn r st).2.
Proof.
  intros H. unfold regroup, restoreNodeToScene.
  rewrite !for_each_removeNode, !alloc_conn_with_s_nodes.
  rewrite alloc_conn_removes, alloc_conn_removes.
  - by rewrite !s_nodes_removes, s_nodes_alloc_conn.
  - intros c Hc. apply H. rewrite elem_of_app. by left.
  - intros c Hc. rewrite next_addr_removes. apply H. rewrite elem_of_app. by right.
Qed.

Lemma next_addr_regroup (nodes : list NodePtr) (ics extPtrs : list ConnPtr)
    (g : NodePtr) (st : State) :
  next_addr (regroup nodes ics extPtrs g st) = next_addr st.
Proof.
  unfold regroup, restoreNodeToScene. rewrite for_each_removeNode. simpl.
  by rewrite !next_addr_removes.
Qed.

Lemma connect_group_fold_restore (g : NodePtr) (ins outs : list PortMapping)
    (nodes : list NodePtr) (ics extPtrs : list ConnPtr)
    (exts : list ExternalConnection) (acc cs0 : list ConnPtr) (st : State) :
  (forall c, c ∈ extPtrs ++ ics -> c < next_addr st)%nat ->
  (forall c, c ∈ cs0 -> c < next_addr st)%nat ->
  foldl (connect_group g ins outs)
    (acc, for_each restoreConnectionToScene cs0 (regroup nodes ics extPtrs g st)) exts
  = (acc ++ seq (next_addr st) (length exts),
     for_each restoreConnectionToScene (cs0 ++ seq (next_addr st) (length exts))
       (regroup nodes ics extPtrs g
          (allocs (group_connection g ins outs <$> exts) st))).
Proof.
  revert acc cs0 st. induction exts as [|e exts IH]; intros acc cs0 st H H0.
  - simpl. by rewrite !app_nil_r.
  - rewrite foldl_step, connect_group_restore.
    rewrite next_addr_restores, next_addr_regroup.
    rewrite alloc_conn_restores
      by (intros c Hc; rewrite next_addr_regroup; by apply H0).
    rewrite alloc_conn_regroup by done.
    change (restoreConnectionToScene (next_addr st) (for_each restoreConnectionToScene cs0 ?s))
      with (for_each restoreConnectionToScene [next_addr st]
              (for_each restoreConnectionToScene cs0 s)).
    rewrite <- for_each_app.
    rewrite IH.
    + simpl. rewrite <- !app_assoc. done.
    + simpl. intros c Hc. specialize (H c Hc). lia.
    + simpl. intros c [Hc| ->%list_elem_of_singleton]%elem_of_app; [|lia].
      specialize (H0 c Hc). lia.
Qed.

Lemma allocs_fields (rs : list Connection) (st : State) :
  heap_nodes (allocs rs st) = heap_nodes st /\
  s_nodes (allocs rs st) = s_nodes st /\
  s_connections (allocs rs st) = s_connections st /\
  next_addr (allocs rs st) = (next_addr st + length rs)%nat.
Proof.
  revert st. induction rs as [|r rs IH]; intros st.
  - simpl. repeat split; try done; lia.
  - unfold allocs in *. cbn [foldl].
    destruct (IH (alloc_conn r st).2) as (A & B & C & D).
    rewrite A, B, C, D. simpl. repeat split; try done; lia.
Qed.

Lemma GroupNode_ctor_fields (st : State) (name : string) (p : QPointF) :
  m_connections (GroupNode_ctor st name p) = [] /\
  is_Some (m_group (GroupNode_ctor st name p)).
Proof.
  unfold GroupNode_ctor, Node_ctor. destruct (isValid _); simpl; split; by eauto.
Qed.

Lemma group_allocated_fields (nodes : list NodePtr) (ics : list ConnPtr)
    (exts : list ExternalConnection) (origPos : list (NodePtr * QPointF))
    (st : State) :
  let g := next_addr st in
  let st' := group_allocated nodes ics exts origPos st in
  s_nodes st' = s_nodes st /\ s_connections st' = s_connections st /\
  next_addr st' = S g /\
  node_connections st' g = [] /\
  (forall n, n <> g -> heap_nodes st' !! n = heap_nodes st !! n).
Proof.
  intros g st'. subst st'. unfold group_allocated, alloc_node. fold g.
  set (c := GroupNode_ctor _ _ _).
  destruct (GroupNode_ctor_fields st "组合" (centroid (node_pos st <$> nodes)))
    as [Hc [gd Hg]]. fold c in Hc, Hg.
  repeat split; try done.
  - unfold node_connections, calculatePortMappings, on_node. simpl.
    rewrite !lookup_alter_eq, lookup_insert_eq. simpl.
    set (n1 := setGroupContents nodes ics exts origPos c).
    assert (H1 : m_connections n1 = [] /\ is_Some (m_group n1)).
    { subst n1. unfold setGroupContents. rewrite Hg. simpl. split; by eauto. }
    destruct H1 as [H1 [gd1 H2]].
    destruct (calculatePortMappings_keeps
                (on_node g (setGroupContents nodes ics exts origPos)
                   {| heap_nodes := <[g:=c]> (heap_nodes st);
                      heap_conns := heap_conns st;
                      next_addr := S g;
                      s_nodes := s_nodes st;
                      s_connections := s_connections st;
                      m_templates := m_templates st;
                      nodeCount := nodeCount st;
                      pasteCount := pasteCount st |}) n1 gd1 H2) as (_ & E & _).
    unfold on_node in E. simpl in E. by rewrite E.
  - intros n Hn. unfold calculatePortMappings, on_node. simpl.
    by rewrite !lookup_alter_ne, lookup_insert_ne by done.
Qed.

Lemma regroup_attrs (nodes : list NodePtr) (ics extPtrs : list ConnPtr)
    (g : NodePtr) (st : State) (n : NodePtr) :
  attrs (regroup nodes ics extPtrs g st) n = attrs st n.
Proof.
  unfold regroup.
  change (restoreNodeToScene g) with (for_each restoreNodeToScene [g]).
  by autorewrite with scene.
Qed.

Lemma group_first_eq (nodes : list NodePtr) (ics : list ConnPtr)
    (exts : list ExternalConnection) (extPtrs : list ConnPtr)
    (origPos : list (NodePtr * QPointF)) (grp : option NodePtr) (st : State) :
  (forall c, c ∈ extPtrs ++ ics -> c < next_addr st)%nat ->
  let g := next_addr st in
  let st_g := group_allocated nodes ics exts origPos st in
  let ins := m_inputPortMappings (group_data st_g g) in
  let outs := m_outputPortMappings (group_data st_g g) in
  redo (GroupNodesCommand nodes ics exts extPtrs origPos grp [] true) st
  = redo (GroupNodesCommand nodes ics exts extPtrs origPos (Some g)
            (seq (S g) (length exts)) false)
      (allocs (group_connection g ins outs <$> exts) st_g).
Proof.
  intros H g st_g ins outs.
  destruct (group_allocated_fields nodes ics exts origPos st)
    as (E1 & E2 & E3 & E4 & E5). fold g st_g in E1, E2, E3, E4, E5.
  cbn [redo]. unfold alloc_node. fold g.
  change (calculatePortMappings g
            (on_node g (setGroupContents nodes ics exts origPos)
               {| heap_nodes := <[g := GroupNode_ctor st "组合"
                                         (centroid (node_pos st <$> nodes))]>
                                  (heap_nodes st);
                  heap_conns := heap_conns st;
                  next_addr := S g;
                  s_nodes := s_nodes st;
                  s_connections := s_connections st;
                  m_templates := m_templates st;
                  nodeCount := nodeCount st;
                  pasteCount := pasteCount st |})) with st_g.
  set (st1 := for_each removeNodeFromScene nodes
                (for_each removeConnectionFromScene ics
                   (for_each removeConnectionFromScene extPtrs st_g))).
  change (with_s_nodes (s_nodes st1 ++ [g]) st1)
    with (regroup nodes ics extPtrs g st_g).
  rewrite !group_data_attrs, regroup_attrs, <- !group_data_attrs. fold ins outs.
  pose proof (connect_group_fold_restore g ins outs nodes ics extPtrs exts [] [] st_g)
    as F.
  change (for_each restoreConnectionToScene [] ?s) with s in F.
  rewrite F.
  - rewrite E3. simpl. done.
  - intros c Hc. rewrite E3. specialize (H c Hc). lia.
  - by intros c ?%elem_of_nil.
Qed.

(** [GroupNodesCommand], first execution: the allocator is ahead of every
    address the scene, the nodes' connection lists and the command mention,
    and the command has recorded the nodes' positions. *)
Lemma group_first_undo_redo (nodes : list NodePtr) (ics : list ConnPtr)
    (exts : list ExternalConnection) (extPtrs : list ConnPtr)
    (origPos : list (NodePtr * QPointF)) (grp : option NodePtr) (st : State) :
  (forall y, y ∈ s_nodes st -> y < next_addr st)%nat ->
  (forall y, y ∈ s_connections st -> y < next_addr st)%nat ->
  (forall n y, y ∈ node_connections st n -> y < next_addr st)%nat ->
  (forall n, n ∈ nodes -> n < next_addr st)%nat ->
  (forall c, c ∈ extPtrs ++ ics -> c < next_addr st)%nat ->
  (forall n, n ∈ nodes -> qmap_find n origPos = Some (node_pos st n)) ->
  let r := redo (GroupNodesCommand nodes ics exts extPtrs origPos grp [] true) st in
  let u := undo r.1 r.2 in
  redo u.1 u.2 = r.
Proof.
  intros Hn Hc Hnc Hm Hcs Hpos r u. subst r u.
  pose proof (group_first_eq nodes ics exts extPtrs origPos grp st Hcs) as E.
  cbv zeta in E. rewrite E. clear E.
  set (g := next_addr st).
  set (st_g := group_allocated nodes ics exts origPos st).
  set (rs := group_connection g _ _ <$> exts).
  destruct (group_allocated_fields nodes ics exts origPos st)
    as (E1 & E2 & E3 & E4 & E5). fold g st_g in E1, E2, E3, E4, E5.
  destruct (allocs_fields rs st_g) as (A1 & A2 & A3 & A4).
  assert (Hold : forall n, n <> g ->
            heap_nodes (allocs rs st_g) !! n = heap_nodes st !! n).
  { intros n Hne. rewrite A1. by apply E5. }
  apply group_again_undo_redo.
  - rewrite A2, E1. intros Hg%Hn. subst g. lia.
  - intros y. rewrite A3, E2. intros Hy%Hc Hy'%elem_of_seq. subst g. lia.
  - intros n y. unfold node_connections. destruct (decide (n = g)) as [->|Hne].
    + rewrite A1. fold (node_connections st_g g). rewrite E4.
      by intros ?%elem_of_nil.
    + rewrite Hold by done. intros Hy%Hnc Hy'%elem_of_seq. subst g. lia.
  - intros n Hin. rewrite (Hpos n Hin). f_equal. unfold node_pos.
    rewrite Hold; [done|]. specialize (Hm n Hin). subst g. lia.
Qed.

(** ** PasteCommand, first execution *)

Lemma Node_ctor_connections (st : State) (type name : string) (p : QPointF) :
  m_connections (Node_ctor st type name p) = [].
Proof. unfold Node_ctor. by destruct (isValid _). Qed.

Lemma Node_fromJson_connections (st : State) (json : list (string * Json)) :
  m_connections (Node_fromJson st json) = [].
Proof.
  assert (H1 : forall w h n, m_connections (setSize w h n) = m_connections n) by done.
  assert (H2 : forall c n, m_connections (setOutputPortCount c n) = m_connections n).
  { intros c n. unfold setOutputPortCount. simpl. by destruct (_ =? _)%Z. }
  assert (H3 : forall c n, m_connections (setInputPortCount c n) = m_connections n).
  { intros c n. unfold setInputPortCount. simpl. by destruct (_ =? _)%Z. }
  assert (H4 : forall c n, m_connections (setDisplayTypeName c n) = m_connections n)
    by done.
  assert (H5 : forall c n, m_connections (setCustomColor c n) = m_connections n)
    by done.
  assert (H6 : forall c n, m_connections (set_parameters c n) = m_connections n)
    by done.
  unfold Node_fromJson.
  destruct (obj_contains "position" json && isObject (obj_get "position" json));
    repeat match goal with
           | |- context [if ?b then _ else _] => destruct b
           end;
    rewrite ?H1, ?H2, ?H3, ?H4, ?H5, ?H6; apply Node_ctor_connections.
Qed.

Lemma paste_node_eq (offset : QPointF) (M : gmap string NodePtr)
    (acc l : list NodePtr) (st : State) (v : Json) :
  paste_node offset (M, acc, with_s_nodes l st) v
  = (<[toString (obj_get "copyId" (toObject v)) := next_addr st]> M,
     acc ++ [next_addr st],
     with_s_nodes (l ++ [next_addr st]) (alloc_node (pasted_node offset st v) st).2).
Proof. reflexivity. Qed.

Lemma extends_refl (st : State) : extends st st.
Proof. by repeat split. Qed.

Lemma extends_trans (st1 st2 st3 : State) :
  extends st1 st2 -> extends st2 st3 -> extends st1 st3.
Proof.
  intros (A1 & A2 & A3 & A4) (B1 & B2 & B3 & B4).
  repeat split; [congruence|congruence|lia|]. intros n y Hy. by apply A4, B4.
Qed.

Lemma extends_alloc_node (x : Node) (st : State) :
  m_connections x = [] -> extends st (alloc_node x st).2.
Proof.
  intros Hx. repeat split; simpl; [lia|].
  intros n y. unfold node_connections. simpl.
  destruct (decide (n = next_addr st)) as [->|Hne].
  - rewrite lookup_insert_eq. simpl. rewrite Hx. by intros ?%elem_of_nil.
  - by rewrite lookup_insert_ne.
Qed.

Lemma paste_node_fold (offset : QPointF) (arr : list Json) (M : gmap string NodePtr)
    (acc l : list NodePtr) (st : State) :
  exists M' st',
    foldl (paste_node offset) (M, acc, with_s_nodes l st) arr
    = (M', acc ++ seq (next_addr st) (length arr),
       with_s_nodes (l ++ seq (next_addr st) (length arr)) st') /\
    extends st st' /\ next_addr st' = (next_addr st + length arr)%nat.
Proof.
  revert M acc l st. induction arr as [|v arr IH]; intros M acc l st.
  - exists M, st. simpl. rewrite !app_nil_r. split; [done|].
    split; [apply extends_refl|lia].
  - rewrite foldl_step, paste_node_eq.
    set (x := pasted_node offset st v).
    destruct (IH (<[toString (obj_get "copyId" (toObject v)) := next_addr st]> M)
                (acc ++ [next_addr st]) (l ++ [next_addr st]) (alloc_node x st).2)
      as (M' & st' & E & X & N).
    exists M', st'. rewrite E. simpl. rewrite <- !app_assoc. simpl.
    split; [done|]. split.
    + eapply extends_trans; [|exact X]. apply extends_alloc_node.
      subst x. unfold pasted_node. simpl. apply Node_fromJson_connections.
    + rewrite N. simpl. lia.
Qed.

Lemma paste_connection_eq (M : gmap string NodePtr) (pcs : list ConnPtr)
    (st : State) (v : Json) (f t : NodePtr) :
  let connObj := toObject v in
  M !! toString (obj_get "fromCopyId" connObj) = Some f ->
  M !! toString (obj_get "toCopyId" connObj) = Some t ->
  paste_connection M (pcs, st) v
  = (pcs ++ [next_addr st],
     restoreConnectionToScene (next_addr st)
       (typed_alloc (pasted_lineType connObj)
          (mkConnection f t (toInt (obj_get "fromPort" connObj) 0)
             (toInt (obj_get "toPort" connObj) 0) Bezier) st)).
Proof.
  intros connObj Hf Ht. unfold paste_connection. fold connObj. rewrite Hf, Ht.
  unfold typed_alloc, pasted_lineType, Connection_ctor, restoreConnectionToScene,
    getFromNode, getToNode, setLineType.
  destruct (obj_contains "lineType" connObj); cbn [alloc_conn fst snd];
    cbn [heap_conns heap_nodes next_addr s_nodes s_connections on_node on_node_opt
         with_heap_nodes with_s_connections];
    repeat (rewrite ?lookup_alter_eq, ?lookup_insert_eq;
            cbn [fmap option_fmap option_map m_fromNode m_toNode
                 heap_conns heap_nodes next_addr s_nodes s_connections on_node
                 on_node_opt with_heap_nodes with_s_connections]);
    reflexivity.
Qed.

Lemma setLineType_restore (t : Z) (a c : ConnPtr) (st : State) :
  a <> c ->
  setLineType t a (restoreConnectionToScene c st)
  = restoreConnectionToScene c (setLineType t a st).
Proof.
  intros Hc. unfold restoreConnectionToScene, getFromNode, getToNode, setLineType.
  simpl.
  destruct (heap_conns st !! c) as [x|] eqn:E; simpl;
    repeat (rewrite lookup_alter_ne by done; rewrite ?E; simpl); done.
Qed.

Lemma typed_alloc_restore (lt : option Z) (r : Connection) (c : ConnPtr) (st : State) :
  c <> next_addr st ->
  typed_alloc lt r (restoreConnectionToScene c st)
  = restoreConnectionToScene c (typed_alloc lt r st).
Proof.
  intros Hc. unfold typed_alloc.
  assert (Hn : next_addr (restoreConnectionToScene c st) = next_addr st).
  { pose proof (background_restore c st) as E. by injection E. }
  rewrite Hn, alloc_conn_restore by done.
  destruct lt; [|done]. by rewrite setLineType_restore.
Qed.

Lemma next_addr_typed_alloc (lt : option Z) (r : Connection) (st : State) :
  next_addr (typed_alloc lt r st) = S (next_addr st).
Proof. unfold typed_alloc. by destruct lt. Qed.

Lemma typed_alloc_restores (lt : option Z) (r : Connection) (cs : list ConnPtr)
    (st : State) :
  (forall c, c ∈ cs -> c < next_addr st)%nat ->
  typed_alloc lt r (for_each restoreConnectionToScene cs st)
  = for_each restoreConnectionToScene cs (typed_alloc lt r st).
Proof.
  revert st. induction cs as [|c cs IH]; intros st H; [done|].
  unfold for_each in *. cbn [foldl].
  assert (Hc : (c < next_addr st)%nat) by (apply H; by left).
  assert (Hn : next_addr (restoreConnectionToScene c st) = next_addr st).
  { pose proof (background_restore c st) as E. by injection E. }
  rewrite IH.
  - rewrite typed_alloc_restore; [done|lia].
  - intros c' Hc'. rewrite Hn. apply H. by right.
Qed.

Lemma typed_alloc_with_s_nodes (lt : option Z) (r : Connection) (l : list NodePtr)
    (st : State) :
  typed_alloc lt r (with_s_nodes l st) = with_s_nodes l (typed_alloc lt r st).
Proof. by destruct lt. Qed.

Lemma extends_typed_alloc (lt : option Z) (r : Connection) (st : State) :
  extends st (typed_alloc lt r st).
Proof.
  unfold typed_alloc. destruct lt; repeat split; simpl; try done; lia.
Qed.

Lemma paste_connection_fold (M : gmap string NodePtr) (arr : list Json)
    (acc cs0 : list ConnPtr) (l : list NodePtr) (st : State) :
  (forall c, c ∈ cs0 -> c < next_addr st)%nat ->
  exists cs st',
    foldl (paste_connection M)
      (acc, for_each restoreConnectionToScene cs0 (with_s_nodes l st)) arr
    = (acc ++ cs, for_each restoreConnectionToScene (cs0 ++ cs) (with_s_nodes l st')) /\
    extends st st' /\ (forall c, c ∈ cs -> next_addr st <= c)%nat.
Proof.
  revert acc cs0 st. induction arr as [|v arr IH]; intros acc cs0 st H0.
  - exists [], st. simpl. rewrite !app_nil_r. split; [done|].
    split; [apply extends_refl|]. by intros c ?%elem_of_nil.
  - rewrite foldl_step.
    destruct (M !! toString (obj_get "fromCopyId" (toObject v))) as [f|] eqn:Hf.
    2:{ unfold paste_connection at 2. rewrite Hf. by apply IH. }
    destruct (M !! toString (obj_get "toCopyId" (toObject v))) as [t|] eqn:Ht.
    2:{ unfold paste_connection at 2. rewrite Hf, Ht. by apply IH. }
    rewrite (paste_connection_eq M acc _ v f t Hf Ht).
    rewrite next_addr_restores. cbn [next_addr with_s_nodes].
    set (lt := pasted_lineType _). set (r := mkConnection _ _ _ _ _).
    rewrite typed_alloc_restores by done.
    rewrite typed_alloc_with_s_nodes.
    change (restoreConnectionToScene (next_addr st)
              (for_each restoreConnectionToScene cs0 ?s))
      with (for_each restoreConnectionToScene [next_addr st]
              (for_each restoreConnectionToScene cs0 s)).
    rewrite <- for_each_app.
    destruct (IH (acc ++ [next_addr st]) (cs0 ++ [next_addr st]) (typed_alloc lt r st))
      as (cs & st' & E & X & Hcs).
    { rewrite next_addr_typed_alloc.
      intros c [Hc| ->%list_elem_of_singleton]%elem_of_app; [|lia].
      specialize (H0 c Hc). lia. }
    exists (next_addr st :: cs), st'. rewrite E.
    rewrite <- !app_assoc. split; [done|]. split.
    + eapply extends_trans; [apply extends_typed_alloc|exact X].
    + intros c [->|Hc]%elem_of_cons; [lia|].
      specialize (Hcs c Hc). rewrite next_addr_typed_alloc in Hcs. lia.
Qed.

Lemma with_s_nodes_same (st : State) : with_s_nodes (s_nodes st) st = st.
Proof. by destruct st. Qed.

Lemma extends_bump_pasteCount (st : State) : extends st (bump_pasteCount st).
Proof. by repeat split. Qed.

(** The first [redo] of a [PasteCommand] allocates the copies and then does
    what every later [redo] does. *)
Lemma paste_first_eq (clip : list (string * Json)) (offset : QPointF) (b : bool)
    (st : State) :
  let pn := seq (next_addr st) (length (toArray (obj_get "nodes" clip))) in
  exists pc st',
    redo (PasteCommand clip offset [] [] b) st
    = (PasteCommand clip offset pn pc false,
       for_each restoreConnectionToScene pc (for_each restoreNodeToScene pn st')) /\
    extends st st' /\ (forall c, c ∈ pc -> next_addr st <= c)%nat.
Proof.
  intros pn. cbn [redo].
  destruct (paste_node_fold offset (toArray (obj_get "nodes" clip)) ∅ []
              (s_nodes st) st) as (M & st1 & E1 & X1 & N1).
  rewrite with_s_nodes_same in E1. rewrite E1. fold pn. cbn [app].
  change (bump_pasteCount (with_s_nodes (s_nodes st ++ pn) st1))
    with (for_each restoreConnectionToScene []
            (with_s_nodes (s_nodes st ++ pn) (bump_pasteCount st1))).
  destruct (paste_connection_fold M (toArray (obj_get "connections" clip)) [] []
              (s_nodes st ++ pn) (bump_pasteCount st1)) as (pc & st2 & E2 & X2 & Hpc).
  { by intros c ?%elem_of_nil. }
  rewrite E2. cbn [app].
  assert (X : extends st st2).
  { eapply extends_trans; [exact X1|].
    eapply extends_trans; [apply extends_bump_pasteCount|exact X2]. }
  exists pc, st2. split; [|split; [done|]].
  - rewrite for_each_restoreNode. by destruct X as (-> & _).
  - intros c Hc. specialize (Hpc c Hc). simpl in Hpc.
    destruct X1 as (_ & _ & ? & _). lia.
Qed.

(** [PasteCommand], first execution: the clipboard holds at least one node
    (as every clipboard [copySelected] fills does) and the allocator is
    ahead of every address the scene and the nodes' connection lists
    mention. *)
Lemma paste_first_undo_redo (clip : list (string * Json)) (offset : QPointF)
    (b : bool) (st : State) :
  toArray (obj_get "nodes" clip) <> [] ->
  (forall y, y ∈ s_nodes st -> y < next_addr st)%nat ->
  (forall y, y ∈ s_connections st -> y < next_addr st)%nat ->
  (forall n y, y ∈ node_connections st n -> y < next_addr st)%nat ->
  let r := redo (PasteCommand clip offset [] [] b) st in
  let u := undo r.1 r.2 in
  redo u.1 u.2 = r.
Proof.
  intros Hne Hn Hc Hnc r u. subst r u.
  destruct (paste_first_eq clip offset b st) as (pc & st' & E & X & Hpc).
  cbv zeta in E. rewrite E. clear E.
  set (pn := seq (next_addr st) (length (toArray (obj_get "nodes" clip)))).
  assert (Hpn : pn <> []).
  { subst pn. destruct (toArray (obj_get "nodes" clip)); [done|]. simpl. done. }
  assert (E : redo (PasteCommand clip offset pn pc false) st'
              = (PasteCommand clip offset pn pc false,
                 for_each restoreConnectionToScene pc
                   (for_each restoreNodeToScene pn st'))).
  { destruct pn; [done|]. reflexivity. }
  rewrite <- E. destruct X as (X1 & X2 & X3 & X4).
  apply paste_again_undo_redo; [done| | |].
  - intros y. rewrite X1. intros Hy%Hn Hy'%elem_of_seq. lia.
  - intros y. rewrite X2. intros Hy%Hc Hy'%Hpc. lia.
  - intros n y Hy%X4%Hnc Hy'%Hpc. lia.
Qed.

(** ** Undo/redo symmetry for every command class *)


(** The commands the editor builds in a state whose addresses are all
    allocated are executable there. *)
Lemma new_commands_executable (st : State) :
  lists_allocated st ->
  (forall type pos, executable (new_AddNodeCommand type pos) st) /\
  (forall f fp t tp, executable (new_AddConnectionCommand f fp t tp) st) /\
  (forall clip offset,
     toArray (obj_get "nodes" clip) <> [] ->
     executable (new_PasteCommand clip offset) st) /\
  (forall nodes ics exts,
     (forall n, n ∈ nodes -> n ∈ s_nodes st) ->
     (forall c, c ∈ omap originalConnection exts ++ ics -> c ∈ s_connections st) ->
     executable (new_GroupNodesCommand st nodes ics exts) st).
Proof.
  intros [[Hn Hc] Hnc]. split; [|split; [|split]].
  - intros type pos. simpl. intros Hin%Hn. lia.
  - intros f fp t tp. simpl. split.
    + intros y Hy%Hc ->%list_elem_of_singleton. lia.
    + intros n y Hy%Hnc ->%list_elem_of_singleton. lia.
  - intros clip offset Hne. simpl. by repeat split.
  - intros nodes ics exts Hin Hcs. simpl. repeat split; try done.
    + intros n Hm. by apply Hn, Hin.
    + intros c Hm. by apply Hc, Hcs.
    + intros n Hm. by apply original_positions_find.
Qed.

Lemma node_connections_Forall (P : ConnPtr -> Prop) (st : State) :
  map_Forall (fun _ x => Forall P (m_connections x)) (heap_nodes st) ->
  forall n y, y ∈ node_connections st n -> P y.
Proof.
  intros H n y. unfold node_connections.
  destruct (heap_nodes st !! n) as [x|] eqn:E; simpl; [|by intros ?%elem_of_nil].
  specialize (H n x E). simpl in H. rewrite Forall_forall in H. apply H.
Qed.


(** C5, evaluated on the ungrouping of a reopened group.  The saved group
    holds two nodes of the same name, placed at (0,0) and (200,100); the
    group sits at their centre (100,50).  [loadFlowData] finds the internal
    nodes by name, so the loaded group (address 0, internal nodes 1 and 2)
    has an original position for node 2 only.  The first [redo] of the
    [UngroupNodesCommand] takes the centre of that one entry, puts node 1 at
    (-100,-50) and node 2 at (100,50), and leaves a second entry, (0,0) for
    node 1, in the command's map: that is what [m_originalPositions[node]]
    does for a missing key.  After [undo] the next [redo] takes the centre
    of two entries and puts node 1 at (0,0) and node 2 at (200,100).  Node
    membership and the connection list are the same after both; the
    positions are not.  (Of the conditions of [executable] the command
    fails the first: its map has no entry for node 1.) *)
Theorem ungroup_undo_redo_diverges :
  let loaded := scene_state twin_loaded in
  let executed := scene_state twin_ungrouped in
  let redone := scene_state twin_undone_redone in
  let cmd := UngroupNodesCommand 0 [1; 2]%nat [] [] []
               [(2%nat, mkPoint 200 100)] true in
  let cmd' := UngroupNodesCommand 0 [1; 2]%nat [] [] []
                [(1%nat, pt_zero); (2%nat, mkPoint 200 100)] true in
  (s_nodes loaded = [0%nat] /\
   new_UngroupNodesCommand loaded 0 = cmd /\
   redo cmd loaded = (cmd', executed) /\
   current (m_undoStack twin_ungrouped) = Some cmd' /\
   redo (undo cmd' executed).1 (undo cmd' executed).2 = (cmd', redone) /\
   s_nodes (undo cmd' executed).2 = [0%nat]) /\
  (s_nodes executed = [1; 2]%nat /\ s_connections executed = [] /\
   pt_eq (node_pos executed 1) (mkPoint (-100) (-50)) /\
   pt_eq (node_pos executed 2) (mkPoint 100 50)) /\
  (s_nodes redone = [1; 2]%nat /\ s_connections redone = [] /\
   pt_eq (node_pos redone 1) (mkPoint 0 0) /\
   pt_eq (node_pos redone 2) (mkPoint 200 100)) /\
  ~ pt_eq (node_pos redone 1) (node_pos executed 1) /\
  ~ pt_eq (node_pos redone 2) (node_pos executed 2).
Proof.
  repeat split; try (vm_compute; reflexivity);
    intros [H _]; vm_compute in H; discriminate H.
Qed.

(** ** Dependencies and execution order (CodeGenerator.cpp) *)

Lemma hits_le (ds order : list string) :
  NoDup order -> (hits ds order <= length ds)%nat.
Proof.
  intros Hnd. unfold hits. apply submseteq_length, NoDup_submseteq.
  - by apply NoDup_filter.
  - by intros x [? _]%list_elem_of_filter.
Qed.

Lemma hits_full (ds order : list string) :
  NoDup order -> hits ds order = length ds ->
  NoDup ds /\ forall d, d ∈ ds -> d ∈ order.
Proof.
  intros Hnd Hh. unfold hits in Hh.
  assert (P : filter (fun c => c ∈ ds) order ≡ₚ ds).
  { apply submseteq_length_Permutation; [|lia].
    apply NoDup_submseteq; [by apply NoDup_filter|].
    by intros x [? _]%list_elem_of_filter. }
  split.
  - rewrite <- P. by apply NoDup_filter.
  - intros d Hd. rewrite <- P in Hd. by apply list_elem_of_filter in Hd as [_ ?].
Qed.

Lemma hits_all (ds order : list string) :
  NoDup order -> NoDup ds -> (forall d, d ∈ ds -> d ∈ order) ->
  hits ds order = length ds.
Proof.
  intros Hnd Hds Hsub. unfold hits. apply Permutation_length.
  apply NoDup_Permutation; [by apply NoDup_filter|done|].
  intros x. rewrite list_elem_of_filter. naive_solver.
Qed.

Lemma hits_snoc (ds order : list string) (c : string) :
  hits ds (order ++ [c]) = (hits ds order + if bool_decide (c ∈ ds) then 1 else 0)%nat.
Proof.
  unfold hits. rewrite filter_app, length_app. f_equal.
  rewrite filter_cons. case_bool_decide.
  - by rewrite decide_True.
  - by rewrite decide_False.
Qed.

Lemma entries_key_eq (l : list (string * list string)) (k : string) (ds ds' : list string) :
  NoDup (l.*1) -> (k, ds) ∈ l -> (k, ds') ∈ l -> ds = ds'.
Proof.
  intros Hnd [i Hi]%list_elem_of_lookup [j Hj]%list_elem_of_lookup.
  assert (i = j) as ->.
  { apply (NoDup_lookup (l.*1) i j k); [done| |]; rewrite list_lookup_fmap.
    - by rewrite Hi.
    - by rewrite Hj. }
  congruence.
Qed.

Lemma visit_step (pre post : list (string * list string)) (k : string)
    (ds : list string) (order : list string) (current : string)
    (inDegree : gmap string Z) (queue : list string) :
  NoDup ((pre ++ (k, ds) :: post).*1) ->
  visit_inv pre ((k, ds) :: post) order current inDegree queue ->
  visit_inv (pre ++ [(k, ds)]) post order current
    (visit current (inDegree, queue) (k, ds)).1
    (visit current (inDegree, queue) (k, ds)).2.
Proof.
  intros Hkeys (Hnd & Hpre & Hpost & Mpre & Mpost & Hsub).
  assert (Hnd' : NoDup (order ++ [current])) by (by apply NoDup_app in Hnd as [? _]).
  assert (Hndo : NoDup order) by (by apply NoDup_app in Hnd' as [? _]).
  assert (Hcur : current ∉ order).
  { apply NoDup_app in Hnd' as (_ & H & _). intros Hin. apply (H _ Hin). by left. }
  assert (Hother : forall k' ds', (k', ds') ∈ pre ++ post -> k' <> k).
  { intros k' ds' Hin ->. rewrite fmap_app, fmap_cons in Hkeys. simpl in Hkeys.
    apply NoDup_app in Hkeys as (_ & H1 & H2). apply NoDup_cons in H2 as [H2 _].
    apply elem_of_app in Hin as [Hin|Hin].
    - apply (H1 k); [|by left]. apply list_elem_of_fmap. by exists (k, ds').
    - apply H2. apply list_elem_of_fmap. by exists (k, ds'). }
  assert (Hk : inDegree !! k
               = Some (Z.of_nat (length ds) - Z.of_nat (hits ds order))%Z)
    by (apply Hpost; by left).
  assert (Mk : k ∈ (order ++ [current]) ++ queue <-> hits ds order = length ds)
    by (apply Mpost; by left).
  assert (Hsub' : forall k0, k0 ∈ (order ++ [current]) ++ queue ->
                    k0 ∈ ((pre ++ [(k, ds)]) ++ post).*1).
  { intros k0 Hk0. rewrite <- app_assoc. simpl. by apply Hsub. }
  unfold visit. simpl. case_bool_decide as Hc.
  - (* [current] is a dependency of [k] *)
    pose proof (hits_snoc ds order current) as Hs.
    rewrite bool_decide_eq_true_2 in Hs by done.
    pose proof (hits_le ds (order ++ [current]) Hnd') as Hle.
    assert (Hnotin : k ∉ (order ++ [current]) ++ queue).
    { intros Hin%Mk. destruct (hits_full ds order Hndo Hin) as [_ Hall].
      by apply Hcur, Hall. }
    rewrite Hk. simpl.
    destruct (_ =? 0)%Z eqn:Hz; simpl.
    + apply Z.eqb_eq in Hz.
      split; [|split; [|split; [|split; [|split]]]].
      * rewrite app_assoc. apply NoDup_app. split; [done|]. split.
        -- intros x Hx ->%list_elem_of_singleton. done.
        -- apply NoDup_singleton.
      * intros k' ds' [Hin| [= -> ->]%list_elem_of_singleton]%elem_of_app.
        -- rewrite lookup_insert_ne by (symmetry; eapply Hother, elem_of_app; eauto).
           by apply Hpre.
        -- rewrite lookup_insert_eq. f_equal. lia.
      * intros k' ds' Hin.
        rewrite lookup_insert_ne by (symmetry; eapply Hother, elem_of_app; eauto).
        apply Hpost. by right.
      * intros k' ds' [Hin| [= -> ->]%list_elem_of_singleton]%elem_of_app.
        -- rewrite app_assoc, elem_of_app, list_elem_of_singleton.
           rewrite <- (Mpre k' ds' Hin).
           assert (k' <> k) by (eapply Hother, elem_of_app; eauto). naive_solver.
        -- rewrite app_assoc, elem_of_app, list_elem_of_singleton.
           split; [intros _; lia|by right].
      * intros k' ds' Hin.
        rewrite app_assoc, elem_of_app, list_elem_of_singleton.
        rewrite <- (Mpost k' ds') by (by right).
        assert (k' <> k) by (eapply Hother, elem_of_app; eauto). naive_solver.
      * intros k0. rewrite app_assoc, elem_of_app, list_elem_of_singleton.
        intros [Hk0| ->]; [by apply Hsub'|].
        rewrite !fmap_app, !elem_of_app. left. right. simpl. by left.
    + apply Z.eqb_neq in Hz.
      split; [done|]. split; [|split; [|split; [|split]]]; try done.
      * intros k' ds' [Hin| [= -> ->]%list_elem_of_singleton]%elem_of_app.
        -- rewrite lookup_insert_ne by (symmetry; eapply Hother, elem_of_app; eauto).
           by apply Hpre.
        -- rewrite lookup_insert_eq. f_equal. lia.
      * intros k' ds' Hin.
        rewrite lookup_insert_ne by (symmetry; eapply Hother, elem_of_app; eauto).
        apply Hpost. by right.
      * intros k' ds' [Hin| [= -> ->]%list_elem_of_singleton]%elem_of_app.
        -- by apply Mpre.
        -- split; [done|]. intros. lia.
      * intros k' ds' Hin. apply Mpost. by right.
  - (* [current] is not a dependency of [k] *)
    pose proof (hits_snoc ds order current) as Hs.
    rewrite bool_decide_eq_false_2 in Hs by done. simpl.
    split; [done|]. split; [|split; [|split; [|split]]]; try done.
    + intros k' ds' [Hin| [= -> ->]%list_elem_of_singleton]%elem_of_app.
      * by apply Hpre.
      * rewrite Hk. f_equal. lia.
    + intros k' ds' Hin. apply Hpost. by right.
    + intros k' ds' [Hin| [= -> ->]%list_elem_of_singleton]%elem_of_app.
      * by apply Mpre.
      * rewrite Mk. lia.
    + intros k' ds' Hin. apply Mpost. by right.
Qed.

Lemma visit_fold (order : list string) (current : string)
    (post : list (string * list string)) :
  forall (pre : list (string * list string)) (inDegree : gmap string Z)
         (queue : list string),
    NoDup ((pre ++ post).*1) ->
    visit_inv pre post order current inDegree queue ->
    visit_inv (pre ++ post) [] order current
      (foldl (visit current) (inDegree, queue) post).1
      (foldl (visit current) (inDegree, queue) post).2.
Proof.
  induction post as [|[k ds] post IH]; intros pre inDegree queue Hkeys Hinv.
  - simpl. by rewrite app_nil_r.
  - cbn [foldl]. pose proof (visit_step _ _ _ _ _ _ _ _ Hkeys Hinv) as Hstep.
    destruct (visit current (inDegree, queue) (k, ds)) as [inDegree' queue'].
    replace (pre ++ (k, ds) :: post) with ((pre ++ [(k, ds)]) ++ post) in *
      by (by rewrite <- app_assoc).
    by apply IH.
Qed.

Lemma in_degrees_snoc (l : list (string * list string)) (e : string * list string) :
  in_degrees (l ++ [e]) = <[e.1 := Z.of_nat (length e.2)]> (in_degrees l).
Proof. unfold in_degrees. by rewrite foldl_app. Qed.

Lemma in_degrees_lookup (l : list (string * list string)) (k : string) (ds : list string) :
  NoDup (l.*1) -> (k, ds) ∈ l -> in_degrees l !! k = Some (Z.of_nat (length ds)).
Proof.
  induction l as [|[k' ds'] l IH] using rev_ind; intros Hnd Hin.
  - by apply elem_of_nil in Hin.
  - rewrite in_degrees_snoc. simpl.
    rewrite fmap_app in Hnd. apply NoDup_app in Hnd as (Hl & Hne & _).
    apply elem_of_app in Hin as [Hin| [= -> ->]%list_elem_of_singleton].
    + rewrite lookup_insert_ne; [by apply IH|].
      intros ->. apply (Hne k); [|by left].
      apply list_elem_of_fmap. by exists (k, ds).
    + by rewrite lookup_insert_eq.
Qed.

Lemma sched_inv_initial (dependencies : list (string * list string)) :
  NoDup (dependencies.*1) ->
  sched_inv dependencies [] (in_degrees dependencies)
    (initial_queue dependencies (in_degrees dependencies)).
Proof.
  intros Hnd. unfold sched_inv, initial_queue. simpl.
  split; [by apply NoDup_filter|].
  split; [|split; [|split]].
  - intros k ds Hin. rewrite (in_degrees_lookup _ _ _ Hnd Hin). f_equal.
    unfold hits. simpl. lia.
  - intros k ds Hin. rewrite list_elem_of_filter.
    rewrite (in_degrees_lookup _ _ _ Hnd Hin). simpl. unfold hits. simpl.
    split.
    + intros [H _]. lia.
    + intros H. split; [lia|]. apply list_elem_of_fmap. by exists (k, ds).
  - intros k [_ H]%list_elem_of_filter. done.
  - intros i k ds H. by rewrite lookup_nil in H.
Qed.

Lemma sched_inv_step (dependencies : list (string * list string))
    (order : list string) (inDegree : gmap string Z)
    (current : string) (queue : list string) :
  NoDup (dependencies.*1) ->
  sched_inv dependencies order inDegree (current :: queue) ->
  sched_inv dependencies (order ++ [current])
    (foldl (visit current) (inDegree, queue) dependencies).1
    (foldl (visit current) (inDegree, queue) dependencies).2.
Proof.
  intros Hkeys (Hnd & Hdeg & Hmem & Hsub & Hpos).
  assert (Hndo : NoDup order) by (by apply NoDup_app in Hnd as [? _]).
  assert (Hstart : visit_inv [] dependencies order current inDegree queue).
  { unfold visit_inv. rewrite <- !app_assoc. simpl.
    split; [done|]. split; [|split; [|split; [|split]]]; try done.
    - intros k ds H. by apply elem_of_nil in H.
    - intros k ds H. by apply elem_of_nil in H. }
  pose proof (visit_fold order current dependencies [] inDegree queue Hkeys Hstart)
    as (Hnd' & Hdeg' & _ & Hmem' & _ & Hsub').
  simpl in *. rewrite app_nil_r in Hsub'.
  split; [done|]. split; [done|]. split; [done|]. split; [done|].
  intros i k ds Hi Hin d Hd.
  destruct (decide (i < length order)%nat) as [Hlt|Hge].
  - rewrite lookup_app_l in Hi by done.
    rewrite take_app_le by lia. by apply (Hpos i k ds).
  - assert (i = length order) as ->.
    { apply lookup_lt_Some in Hi. rewrite length_app in Hi. simpl in Hi. lia. }
    rewrite list_lookup_middle in Hi by done. injection Hi as <-.
    rewrite take_app_length.
    assert (Hfull : hits ds order = length ds).
    { apply (Hmem current ds Hin). apply elem_of_app. right. by left. }
    destruct (hits_full ds order Hndo Hfull) as [_ Hall]. by apply Hall.
Qed.

Lemma sched_inv_length (dependencies : list (string * list string))
    (order : list string) (inDegree : gmap string Z) (queue : list string) :
  sched_inv dependencies order inDegree queue ->
  (length order + length queue <= length dependencies)%nat.
Proof.
  intros (Hnd & _ & _ & Hsub & _).
  rewrite <- length_app, <- (length_fmap fst dependencies).
  apply submseteq_length, NoDup_submseteq; [done|]. intros x. apply Hsub.
Qed.

Lemma schedule_inv (dependencies : list (string * list string)) (fuel : nat) :
  forall (order : list string) (inDegree : gmap string Z) (queue : list string),
    NoDup (dependencies.*1) ->
    sched_inv dependencies order inDegree queue ->
    (length dependencies <= fuel + length order)%nat ->
    exists order' inDegree',
      schedule fuel dependencies order inDegree queue = (order', []) /\
      sched_inv dependencies order' inDegree' [].
Proof.
  induction fuel as [|fuel IH]; intros order inDegree queue Hkeys Hinv Hfuel.
  - pose proof (sched_inv_length _ _ _ _ Hinv) as Hlen.
    destruct queue as [|current queue]; [|simpl in Hlen; lia].
    exists order, inDegree. by split.
  - destruct queue as [|current queue].
    + exists order, inDegree. by split.
    + pose proof (sched_inv_step _ _ _ _ _ Hkeys Hinv) as Hstep.
      cbn [schedule].
      destruct (foldl (visit current) (inDegree, queue) dependencies)
        as [inDegree' queue'].
      apply IH; [done|done|]. rewrite length_app. simpl. lia.
Qed.

Lemma schedule_more_fuel (dependencies : list (string * list string)) (f1 : nat) :
  forall (f2 : nat) (order : list string) (inDegree : gmap string Z)
         (queue result : list string),
    (f1 <= f2)%nat ->
    schedule f1 dependencies order inDegree queue = (result, []) ->
    schedule f2 dependencies order inDegree queue = (result, []).
Proof.
  induction f1 as [|f1 IH]; intros f2 order inDegree queue result Hle Hs.
  - destruct queue; [|done]. by destruct f2.
  - destruct f2 as [|f2]; [lia|].
    destruct queue as [|current queue]; [done|]. cbn [schedule] in *.
    destruct (foldl (visit current) (inDegree, queue) dependencies)
      as [inDegree' queue'].
    apply IH; [lia|done].
Qed.

Lemma generateExecutionOrder_inv (dependencies : list (string * list string)) :
  NoDup (dependencies.*1) ->
  exists order inDegree,
    generateExecutionOrder dependencies = Some order /\
    (forall fuel, (length dependencies <= fuel)%nat ->
       schedule fuel dependencies [] (in_degrees dependencies)
         (initial_queue dependencies (in_degrees dependencies)) = (order, [])) /\
    sched_inv dependencies order inDegree [].
Proof.
  intros Hkeys.
  destruct (schedule_inv dependencies (length dependencies) [] _ _ Hkeys
              (sched_inv_initial _ Hkeys)) as (order & inDegree & Hs & Hinv);
    [simpl; lia|].
  exists order, inDegree. split; [|split; [|done]].
  - unfold generateExecutionOrder. by rewrite Hs.
  - intros fuel Hfuel. by apply (schedule_more_fuel _ (length dependencies)).
Qed.

(** X2: whatever the dependency map holds (cycles, unknown ids, repeated
    entries), the loop of [generateExecutionOrder] stops after at most one
    round per key; its result lists no id twice and only keys of the map. *)
Theorem execution_order_terminates (dependencies : list (string * list string)) :
  NoDup (dependencies.*1) ->
  exists order,
    generateExecutionOrder dependencies = Some order /\
    (forall fuel, (length dependencies <= fuel)%nat ->
       schedule fuel dependencies [] (in_degrees dependencies)
         (initial_queue dependencies (in_degrees dependencies)) = (order, [])) /\
    NoDup order /\
    (forall k, k ∈ order -> k ∈ dependencies.*1).
Proof.
  intros Hkeys.
  destruct (generateExecutionOrder_inv _ Hkeys)
    as (order & inDegree & Hg & Hfuel & Hnd & _ & _ & Hsub & _).
  exists order. rewrite app_nil_r in *. by repeat split.
Qed.

Lemma execution_order_terminates_witness :
  NoDup (doubled.*1) /\
  exists order,
    generateExecutionOrder doubled = Some order /\
    (forall fuel, (length doubled <= fuel)%nat ->
       schedule fuel doubled [] (in_degrees doubled)
         (initial_queue doubled (in_degrees doubled)) = (order, [])) /\
    NoDup order /\
    (forall k, k ∈ order -> k ∈ doubled.*1).
Proof.
  assert (H : NoDup (doubled.*1)) by (apply (bool_decide_unpack _); vm_compute; exact I).
  split; [exact H|]. exact (execution_order_terminates doubled H).
Defined.

(** X3: in the order [generateExecutionOrder] returns, every dependency of
    a listed node stands strictly before the node. *)
Theorem execution_order_topological (dependencies : list (string * list string))
    (order : list string) (i : nat) (k : string) (ds : list string) (d : string) :
  NoDup (dependencies.*1) ->
  generateExecutionOrder dependencies = Some order ->
  order !! i = Some k ->
  (k, ds) ∈ dependencies ->
  d ∈ ds ->
  exists j, (j < i)%nat /\ order !! j = Some d.
Proof.
  intros Hkeys Hg Hi Hin Hd.
  destruct (generateExecutionOrder_inv _ Hkeys)
    as (order' & inDegree & Hg' & _ & _ & _ & _ & _ & Hpos).
  assert (order' = order) as -> by congruence.
  destruct (proj1 (list_elem_of_lookup _ _) (Hpos i k ds Hi Hin d Hd)) as [j Hj].
  exists j. apply lookup_take_Some in Hj as [Hj Hlt]. by split.
Qed.

Lemma execution_order_topological_witness :
  exists j, (j < 3)%nat /\ ["a"; "b"; "c"; "d"] !! j = Some "c".
Proof.
  apply (execution_order_topological diamond ["a"; "b"; "c"; "d"] 3 "d" ["b"; "c"] "c").
  - apply (bool_decide_unpack _); vm_compute; exact I.
  - vm_compute; reflexivity.
  - reflexivity.
  - apply (bool_decide_unpack _); vm_compute; exact I.
  - apply (bool_decide_unpack _); vm_compute; exact I.
Defined.

(** X4: a node is in the generated order exactly when its dependency list
    names no node twice and every node it names is in the order itself.  So
    a node fed twice by the same node, a node depending on an id that is no
    key, and the nodes of a cycle are left out, with everything downstream
    of them. *)
Theorem execution_order_membership (dependencies : list (string * list string))
    (order : list string) (k : string) (ds : list string) :
  NoDup (dependencies.*1) ->
  generateExecutionOrder dependencies = Some order ->
  (k, ds) ∈ dependencies ->
  k ∈ order <-> NoDup ds /\ forall d, d ∈ ds -> d ∈ order.
Proof.
  intros Hkeys Hg Hin.
  destruct (generateExecutionOrder_inv _ Hkeys)
    as (order' & inDegree & Hg' & _ & Hnd & _ & Hmem & _ & _).
  assert (order' = order) as -> by congruence.
  rewrite app_nil_r in *. rewrite (Hmem k ds Hin). split.
  - by apply hits_full.
  - intros [Hds Hall]. by apply hits_all.
Qed.

Lemma execution_order_membership_witness :
  "b" ∈ ["a"] <-> NoDup ["a"; "a"] /\ forall d, d ∈ ["a"; "a"] -> d ∈ ["a"].
Proof.
  apply (execution_order_membership doubled ["a"] "b" ["a"; "a"]).
  - apply (bool_decide_unpack _); vm_compute; exact I.
  - vm_compute; reflexivity.
  - apply (bool_decide_unpack _); vm_compute; exact I.
Defined.

(** X5: on an acyclic map (some rank grows along every dependency) whose
    lists name only keys and none twice, the generated order is a
    rearrangement of all the keys. *)
Theorem execution_order_complete (dependencies : list (string * list string))
    (order : list string) (rank : string -> nat) :
  NoDup (dependencies.*1) ->
  (forall k ds, (k, ds) ∈ dependencies ->
     NoDup ds /\ forall d, d ∈ ds -> d ∈ dependencies.*1 /\ (rank d < rank k)%nat) ->
  generateExecutionOrder dependencies = Some order ->
  order ≡ₚ dependencies.*1.
Proof.
  intros Hkeys Hdag Hg.
  destruct (generateExecutionOrder_inv _ Hkeys)
    as (order' & inDegree & Hg' & _ & Hnd & _ & Hmem & Hsub & _).
  assert (order' = order) as -> by congruence.
  rewrite app_nil_r in *.
  apply NoDup_Permutation; [done|done|].
  intros k. split; [apply Hsub|].
  remember (rank k) as r eqn:Hr. revert k Hr.
  induction r as [r IH] using lt_wf_ind. intros k -> Hk.
  apply list_elem_of_fmap in Hk as [[k' ds] [-> Hin]]. simpl.
  apply (Hmem _ _ Hin).
  destruct (Hdag _ _ Hin) as [Hds Hall]. apply hits_all; [done|done|].
  intros d Hd. destruct (Hall d Hd) as [Hdk Hlt].
  by apply (IH (rank d) Hlt d).
Qed.

Lemma execution_order_complete_witness :
  ["a"; "b"; "c"; "d"] ≡ₚ diamond.*1.
Proof.
  apply (execution_order_complete diamond ["a"; "b"; "c"; "d"] diamond_rank).
  - apply (bool_decide_unpack _); vm_compute; exact I.
  - assert (H : Forall (fun e : string * list string =>
                  NoDup e.2 /\
                  Forall (fun d => d ∈ diamond.*1 /\ (diamond_rank d < diamond_rank e.1)%nat)
                    e.2) diamond)
      by (apply (bool_decide_unpack _); vm_compute; exact I).
    intros k ds Hin. rewrite Forall_forall in H. destruct (H _ Hin) as [H1 H2].
    split; [exact H1|]. intros d Hd. rewrite Forall_forall in H2. exact (H2 d Hd).
  - vm_compute; reflexivity.
Defined.

Lemma analyze_connections_lookup (conns : list Json) :
  forall (dependencies : gmap string (list string)) (connValue : Json),
    connValue ∈ conns ->
    exists ds,
      foldl analyze_connection dependencies conns
        !! toString (obj_get "to" (toObject connValue)) = Some ds /\
      toString (obj_get "from" (toObject connValue)) ∈ ds.
Proof.
  induction conns as [|x conns IH] using rev_ind; intros dependencies connValue Hin.
  - by apply elem_of_nil in Hin.
  - rewrite foldl_app. cbn [foldl]. unfold analyze_connection at 1.
    apply elem_of_app in Hin as [Hin| ->%list_elem_of_singleton].
    + destruct (IH dependencies connValue Hin) as (ds & Hl & Hd).
      destruct (decide (toString (obj_get "to" (toObject x))
                        = toString (obj_get "to" (toObject connValue)))) as [E|E].
      * rewrite E, lookup_insert_eq, Hl. simpl.
        eexists. split; [done|]. apply elem_of_app. by left.
      * rewrite lookup_insert_ne by done. by exists ds.
    + rewrite lookup_insert_eq. eexists. split; [done|].
      apply elem_of_app. right. by left.
Qed.

(** X6: code generation follows the wires of the scene: for every connection
    of the saved flow whose target node is in the generated order, the
    source node stands strictly before it. *)
Theorem execution_order_respects_connections (created : string) (st : State)
    (dependencies : list (string * list string)) (order : list string)
    (c : ConnPtr) (conn : Connection) (i : nat) :
  dependencies ≡ₚ map_to_list (analyzeDependencies (getFlowData created st)) ->
  generateExecutionOrder dependencies = Some order ->
  c ∈ s_connections st ->
  heap_conns st !! c = Some conn ->
  order !! i = Some (node_id (m_toNode conn)) ->
  exists j, (j < i)%nat /\ order !! j = Some (node_id (m_fromNode conn)).
Proof.
  intros Hperm Hg Hc Hconn Hi.
  assert (Hkeys : NoDup (dependencies.*1)).
  { rewrite Hperm. apply NoDup_fst_map_to_list. }
  assert (Hin : flowConnection conn
                ∈ toArray (obj_get "connections" (getFlowData created st))).
  { unfold getFlowData. cbn [obj_set obj_get String.eqb Ascii.eqb Bool.eqb toArray].
    apply list_elem_of_omap. exists c. split; [done|]. by rewrite Hconn. }
  destruct (analyze_connections_lookup _
              (foldl analyze_node ∅ (toArray (obj_get "nodes" (getFlowData created st))))
              _ Hin) as (ds & Hl & Hd).
  change (toString (obj_get "to" (toObject (flowConnection conn))))
    with (node_id (m_toNode conn)) in Hl.
  change (toString (obj_get "from" (toObject (flowConnection conn))))
    with (node_id (m_fromNode conn)) in Hd.
  assert (Hk : (node_id (m_toNode conn), ds) ∈ dependencies).
  { rewrite Hperm. by apply elem_of_map_to_list. }
  destruct (generateExecutionOrder_inv _ Hkeys)
    as (order' & inDegree & Hg' & _ & _ & _ & _ & _ & Hpos).
  assert (order' = order) as -> by congruence.
  destruct (proj1 (list_elem_of_lookup _ _) (Hpos i _ ds Hi Hk _ Hd)) as [j Hj].
  exists j. apply lookup_take_Some in Hj as [Hj Hlt]. by split.
Qed.

Lemma execution_order_respects_connections_witness :
  exists j, (j < 2)%nat /\
    ["node_0"; "node_3"; "node_1"; "node_2"] !! j
    = Some (node_id (m_fromNode (mkConnection 0 1 0 0 0))).
Proof.
  apply (execution_order_respects_connections "" (scene_state fanout_scene)
           (map_to_list (analyzeDependencies (getFlowData "" (scene_state fanout_scene))))
           ["node_0"; "node_3"; "node_1"; "node_2"] 4 (mkConnection 0 1 0 0 0) 2).
  - reflexivity.
  - vm_compute; reflexivity.
  - apply (bool_decide_unpack _); vm_compute; exact I.
  - vm_compute; reflexivity.
  - vm_compute; reflexivity.
Defined.

(** ** The template library (NodeTemplate.cpp, NodeLibrary.cpp) *)


Lemma toInt_JInt (z d : Z) : toInt (JInt z) d = z.
Proof.
  unfold toInt, JInt, inject_Z, Qred.
  pose proof (Z.ggcd_gcd z 1) as Hg. pose proof (Z.ggcd_correct_divisors z 1) as Hd.
  destruct (Z.ggcd z 1) as [g [aa bb]]. simpl in Hg. rewrite Z.gcd_1_r in Hg. subst g.
  destruct Hd as [-> Hb]. assert (bb = 1%Z) as -> by lia. simpl.
  by destruct aa.
Qed.

Lemma toString_JString_fmap (l : list string) : toString <$> (JString <$> l) = l.
Proof. induction l as [|x l IH]; [done|]. rewrite !fmap_cons. by f_equal. Qed.

Lemma template_fromJson_toJson (QColor_named : string -> string) (t : Library.NodeTemplate) :
  Library.fromJson QColor_named (Library.toJson t)
  = Library.mkNodeTemplate (Library.m_typeId t) (Library.m_displayName t)
      (Library.m_category t) (QColor_named (Library.m_color t))
      (Library.m_description t) (Library.m_defaultParameters t)
      (Library.m_inputPortCount t) (Library.m_outputPortCount t)
      (Library.m_isBuiltIn t).
Proof.
  destruct t. unfold Library.fromJson, Library.toJson.
  cbn [obj_set obj_get String.eqb Ascii.eqb Bool.eqb toString Library.toStringOr
       toArray toBool Library.m_typeId Library.m_displayName Library.m_category
       Library.m_color Library.m_description Library.m_defaultParameters
       Library.m_inputPortCount Library.m_outputPortCount Library.m_isBuiltIn].
  by rewrite !toInt_JInt, toString_JString_fmap.
Qed.



Lemma well_keyed_empty : Library.well_keyed ∅.
Proof. intros typeId tmpl H. by rewrite lookup_empty in H. Qed.

Lemma well_keyed_insert (tmpl : Library.NodeTemplate)
    (m : gmap string Library.NodeTemplate) :
  Library.isValid tmpl = true -> Library.well_keyed m ->
  Library.well_keyed (<[Library.m_typeId tmpl := tmpl]> m).
Proof.
  intros Hv Hm typeId t.
  destruct (decide (Library.m_typeId tmpl = typeId)) as [<-|Hne].
  - rewrite lookup_insert_eq. by intros [= <-].
  - rewrite lookup_insert_ne by done. apply Hm.
Qed.

Lemma well_keyed_delete (typeId : string) (m : gmap string Library.NodeTemplate) :
  Library.well_keyed m -> Library.well_keyed (delete typeId m).
Proof. intros Hm k t [_ H]%lookup_delete_Some. by apply Hm. Qed.

Lemma well_keyed_init (m : gmap string Library.NodeTemplate) :
  Library.well_keyed m -> Library.well_keyed (Library.initBuiltInTemplates m).
Proof.
  intros Hm. unfold Library.initBuiltInTemplates, Library.insert_template.
  repeat (apply well_keyed_insert; [reflexivity|]). done.
Qed.

Lemma well_keyed_load (QColor_named : string -> string) (values : list Json) :
  forall m, Library.well_keyed m ->
    Library.well_keyed (foldl (Library.load_template QColor_named) m values).
Proof.
  induction values as [|v values IH]; intros m Hm; [done|].
  cbn [foldl]. apply IH. unfold Library.load_template, Library.insert_template.
  destruct (Library.isValid _) eqn:Hv; [|done]. by apply well_keyed_insert.
Qed.

Lemma well_keyed_load_custom (QColor_named : string -> string) (values : list Json) :
  forall m, Library.well_keyed m ->
    Library.well_keyed (foldl (Library.load_custom_template QColor_named) m values).
Proof.
  induction values as [|v values IH]; intros m Hm; [done|].
  cbn [foldl]. apply IH. unfold Library.load_custom_template, Library.insert_template.
  destruct (Library.isValid _) eqn:Hv; [|done].
  destruct (negb _); [|done]. simpl.
  destruct (Library.hasTemplate _ _); by apply well_keyed_insert.
Qed.

Lemma well_keyed_call (QColor_named : string -> string) (c : Library.Call)
    (m : gmap string Library.NodeTemplate) :
  Library.well_keyed m -> Library.well_keyed (Library.call QColor_named m c).
Proof.
  intros Hm. destruct c as [| |tmpl|tmpl|typeId|doc|doc]; simpl.
  - by apply well_keyed_init.
  - apply well_keyed_init, well_keyed_empty.
  - unfold Library.addTemplate, Library.insert_template.
    destruct (Library.isValid tmpl) eqn:Hv; [|done]. simpl.
    destruct (Library.hasTemplate _ _); [done|]. by apply well_keyed_insert.
  - unfold Library.updateTemplate.
    destruct (Library.isValid tmpl) eqn:Hv; [|done]. simpl.
    destruct (Library.hasTemplate _ _); [|done]. by apply well_keyed_insert.
  - unfold Library.removeTemplate.
    destruct (Library.hasTemplate _ _); [|done]. by apply well_keyed_delete.
  - unfold Library.loadFromFile. destruct doc as [doc|]; [|done].
    destruct (isObject doc); [|done]. simpl.
    apply well_keyed_load, well_keyed_empty.
  - unfold Library.loadCustomFromFile. destruct doc as [doc|]; [|done].
    destruct (isObject doc); [|done]. simpl.
    by apply well_keyed_load_custom.
Qed.

Lemma well_keyed_calls (QColor_named : string -> string) (calls : list Library.Call) :
  forall m, Library.well_keyed m ->
    Library.well_keyed (foldl (Library.call QColor_named) m calls).
Proof.
  induction calls as [|c calls IH]; intros m Hm; [done|].
  cbn [foldl]. by apply IH, well_keyed_call.
Qed.

(** X7: however the library is filled and changed (built-in templates,
    reset, add, update, remove, loading a library file or a custom file of
    any content), [getTemplate] gives a valid template exactly for the ids
    [hasTemplate] accepts, and that template carries the id it was asked
    for. *)
Theorem library_lookup_valid (QColor_named : string -> string)
    (calls : list Library.Call) (typeId : string) :
  let m_templates := foldl (Library.call QColor_named) ∅ calls in
  Library.isValid (Library.getTemplate m_templates typeId)
  = Library.hasTemplate m_templates typeId /\
  (Library.hasTemplate m_templates typeId = true ->
   Library.m_typeId (Library.getTemplate m_templates typeId) = typeId).
Proof.
  intros m_templates.
  pose proof (well_keyed_calls QColor_named calls ∅ well_keyed_empty) as Hm.
  fold m_templates in Hm. unfold Library.getTemplate, Library.hasTemplate.
  destruct (m_templates !! typeId) as [tmpl|] eqn:E; simpl.
  - destruct (Hm _ _ E) as [Hv Hid]. by rewrite Hv.
  - done.
Qed.

(** X8: a template written by [NodeTemplate::toJson] and read back by
    [NodeTemplate::fromJson] has every member as before, the colour being
    the one Qt builds from the written colour name. *)
Theorem template_json_round_trip (QColor_named : string -> string)
    (t : Library.NodeTemplate) :
  Library.fromJson QColor_named (Library.toJson t)
  = Library.mkNodeTemplate (Library.m_typeId t) (Library.m_displayName t)
      (Library.m_category t) (QColor_named (Library.m_color t))
      (Library.m_description t) (Library.m_defaultParameters t)
      (Library.m_inputPortCount t) (Library.m_outputPortCount t)
      (Library.m_isBuiltIn t).
Proof. apply template_fromJson_toJson. Qed.

Lemma template_fromJson_toJson_id (QColor_named : string -> string)
    (t : Library.NodeTemplate) :
  QColor_named (Library.m_color t) = Library.m_color t ->
  Library.fromJson QColor_named (Library.toJson t) = t.
Proof. intros H. rewrite template_fromJson_toJson, H. by destruct t. Qed.

Lemma keyed_entries (l : list (string * Library.NodeTemplate)) :
  (forall k t, (k, t) ∈ l -> Library.m_typeId t = k) ->
  (fun t => (Library.m_typeId t, t)) ∘ snd <$> l = l.
Proof.
  induction l as [|[k t] l IH]; intros H; [done|].
  rewrite fmap_cons. simpl. rewrite (H k t) by (by left).
  f_equal. apply IH. intros k' t' Hin. apply H. by right.
Qed.

Lemma load_templates_list_to_map (QColor_named : string -> string)
    (templates : list Library.NodeTemplate) :
  (forall t, t ∈ templates ->
     Library.isValid t = true /\ QColor_named (Library.m_color t) = Library.m_color t) ->
  forall m,
    foldl (Library.load_template QColor_named) m
      ((fun tmpl => JObject (Library.toJson tmpl)) <$> templates)
    = list_to_map ((fun t => (Library.m_typeId t, t)) <$> reverse templates) ∪ m.
Proof.
  induction templates as [|t templates IH]; intros Hall m.
  - simpl. by rewrite (left_id_L ∅ (∪)).
  - rewrite fmap_cons. cbn [foldl]. rewrite IH
      by (intros t' Ht'; apply Hall; by right).
    destruct (Hall t) as [Hv Hc]; [by left|].
    unfold Library.load_template. cbn [toObject].
    rewrite (template_fromJson_toJson_id _ _ Hc), Hv.
    unfold Library.insert_template.
    rewrite reverse_cons, fmap_app, list_to_map_app. simpl.
    rewrite insert_empty, <- (assoc_L (∪)). f_equal.
    by rewrite <- insert_union_singleton_l.
Qed.

(** X9: a library whose templates are valid, stored under their type ids
    and coloured with names Qt reads back unchanged, written by
    [saveToFile] (in whatever order the table is iterated) and read by
    [loadFromFile], comes back as it was, whatever the table held before
    the load. *)
Theorem library_save_load_round_trip (QColor_named : string -> string)
    (m_templates before : gmap string Library.NodeTemplate)
    (templates : list Library.NodeTemplate) :
  Library.well_keyed m_templates ->
  (forall typeId t, m_templates !! typeId = Some t ->
     QColor_named (Library.m_color t) = Library.m_color t) ->
  templates ≡ₚ (map_to_list m_templates).*2 ->
  Library.loadFromFile QColor_named (Some (Library.library_document templates)) before
  = (true, m_templates).
Proof.
  intros Hm Hc Hperm. unfold Library.loadFromFile, Library.library_document.
  cbn [isObject negb toObject obj_set obj_get String.eqb Ascii.eqb Bool.eqb toArray].
  f_equal.
  assert (Hin : forall t, t ∈ templates -> m_templates !! Library.m_typeId t = Some t).
  { intros t Ht. rewrite Hperm in Ht.
    apply list_elem_of_fmap in Ht as [[k t'] [-> Hk%elem_of_map_to_list]].
    simpl. destruct (Hm _ _ Hk) as [_ ->]. done. }
  rewrite load_templates_list_to_map.
  2:{ intros t Ht. pose proof (Hin t Ht) as Ht'. split; [by apply (Hm _ _ Ht')|].
      by apply (Hc _ _ Ht'). }
  rewrite (right_id_L ∅ (∪)).
  assert (Hpairs : (fun t => (Library.m_typeId t, t)) <$> reverse templates
                   ≡ₚ map_to_list m_templates).
  { rewrite reverse_Permutation, Hperm, <- list_fmap_compose.
    rewrite keyed_entries; [done|].
    intros k t Hk%elem_of_map_to_list. by destruct (Hm _ _ Hk). }
  transitivity (list_to_map (map_to_list m_templates) : gmap string Library.NodeTemplate);
    [|apply list_to_map_to_list].
  apply list_to_map_proper; [|done].
  rewrite Hpairs. apply NoDup_fst_map_to_list.
Qed.

Lemma library_save_load_round_trip_witness :
  Library.loadFromFile lower_hex_named
    (Some (Library.library_document (map_to_list (Library.initBuiltInTemplates ∅)).*2)) ∅
  = (true, Library.initBuiltInTemplates ∅).
Proof.
  apply (library_save_load_round_trip lower_hex_named (Library.initBuiltInTemplates ∅) ∅).
  - change (map_Forall (fun typeId tmpl =>
              Library.isValid tmpl = true /\ Library.m_typeId tmpl = typeId)
              (Library.initBuiltInTemplates ∅)).
    apply (bool_decide_unpack _); vm_compute; exact I.
  - change (map_Forall (fun (_ : string) t =>
              lower_hex_named (Library.m_color t) = Library.m_color t)
              (Library.initBuiltInTemplates ∅)).
    apply (bool_decide_unpack _); vm_compute; exact I.
  - reflexivity.
Defined.


Lemma load_custom_lookup (QColor_named : string -> string) (values : list Json)
    (m : gmap string Library.NodeTemplate) (typeId : string) :
  foldl (Library.load_custom_template QColor_named) m values !! typeId
  = match last (custom_candidates QColor_named values typeId) with
    | Some tmpl => Some tmpl
    | None => m !! typeId
    end.
Proof.
  induction values as [|v values IH] using rev_ind; [done|].
  rewrite foldl_app. cbn [foldl]. unfold custom_candidates in *.
  rewrite fmap_app, filter_app, fmap_cons, fmap_nil, filter_cons, filter_nil.
  unfold Library.load_custom_template at 1, Library.insert_template. cbv zeta.
  change ((Library.fromJson QColor_named ∘ toObject) v)
    with (Library.fromJson QColor_named (toObject v)).
  set (tmpl := Library.fromJson QColor_named (toObject v)).
  destruct (Library.isValid tmpl && negb (Library.m_isBuiltIn tmpl)) eqn:Hk.
  - assert (Hins : forall m', (if Library.hasTemplate m' (Library.m_typeId tmpl)
                               then <[Library.m_typeId tmpl := tmpl]> m'
                               else <[Library.m_typeId tmpl := tmpl]> m')
                              = <[Library.m_typeId tmpl := tmpl]> m')
      by (intros m'; by destruct (Library.hasTemplate _ _)).
    rewrite Hins. destruct (decide (Library.m_typeId tmpl = typeId)) as [E|E].
    + rewrite decide_True by done. rewrite last_snoc. by rewrite <- E, lookup_insert_eq.
    + rewrite decide_False by tauto. rewrite app_nil_r.
      by rewrite lookup_insert_ne.
  - rewrite decide_False by (intros [? _]; done). by rewrite app_nil_r.
Qed.

(** X10: [loadCustomFromFile] merges: for each type id, the library holds
    afterwards the last template of the file with that id that is valid and
    not marked built-in, and when the file has none, what it held before.
    A document that is not an object, or a file that cannot be opened,
    changes nothing. *)
Theorem load_custom_merges (QColor_named : string -> string) (doc : option Json)
    (m_templates : gmap string Library.NodeTemplate) (typeId : string) :
  (Library.loadCustomFromFile QColor_named doc m_templates).2 !! typeId
  = match doc with
    | Some (JObject root) =>
        match last (custom_candidates QColor_named
                      (toArray (obj_get "templates" root)) typeId) with
        | Some tmpl => Some tmpl
        | None => m_templates !! typeId
        end
    | _ => m_templates !! typeId
    end.
Proof.
  unfold Library.loadCustomFromFile.
  destruct doc as [doc|]; [|done]. destruct doc; try done.
  simpl. apply load_custom_lookup.
Qed.

(** X11: a valid template whose type id is free can be added; it is then
    what [getTemplate] returns for its id, and removing it again gives back
    the table as it was. *)
Theorem add_then_remove (tmpl : Library.NodeTemplate)
    (m_templates : gmap string Library.NodeTemplate) :
  Library.isValid tmpl = true ->
  Library.hasTemplate m_templates (Library.m_typeId tmpl) = false ->
  let added := Library.addTemplate tmpl m_templates in
  added.1 = true /\
  Library.getTemplate added.2 (Library.m_typeId tmpl) = tmpl /\
  Library.removeTemplate (Library.m_typeId tmpl) added.2 = (true, m_templates).
Proof.
  intros Hv Hh. unfold Library.addTemplate. rewrite Hv, Hh. simpl.
  unfold Library.insert_template, Library.getTemplate, Library.removeTemplate,
    Library.hasTemplate.
  rewrite lookup_insert_eq. simpl. split; [done|]. split; [done|].
  f_equal.
  rewrite delete_insert_eq. apply delete_id.
  apply bool_decide_eq_false_1 in Hh.
  by apply eq_None_not_Some.
Qed.

Lemma add_then_remove_witness :
  let tmpl := Library.NodeTemplate_ctor "mixer" "Mixer" "Custom" "#808080" in
  let added := Library.addTemplate tmpl (Library.initBuiltInTemplates ∅) in
  added.1 = true /\
  Library.getTemplate added.2 (Library.m_typeId tmpl) = tmpl /\
  Library.removeTemplate (Library.m_typeId tmpl) added.2
  = (true, Library.initBuiltInTemplates ∅).
Proof.
  apply (add_then_remove (Library.NodeTemplate_ctor "mixer" "Mixer" "Custom" "#808080")
           (Library.initBuiltInTemplates ∅)).
  - reflexivity.
  - vm_compute; reflexivity.
Defined.

Lemma templates_read_back (QColor_named : string -> string)
    (templates : list Library.NodeTemplate) :
  (forall t, t ∈ templates -> QColor_named (Library.m_color t) = Library.m_color t) ->
  Library.fromJson QColor_named ∘ toObject
    <$> ((fun tmpl => JObject (Library.toJson tmpl)) <$> templates)
  = templates.
Proof.
  induction templates as [|t templates IH]; intros Hc; [done|].
  rewrite !fmap_cons. f_equal.
  - apply template_fromJson_toJson_id, Hc. by left.
  - apply IH. intros t' Ht'. apply Hc. by right.
Qed.

(** X12: reading the file [saveCustomToFile] wrote of a library back into
    that library with [loadCustomFromFile] leaves the library as it is
    (templates valid, stored under their type ids and coloured with names
    Qt reads back unchanged). *)
Theorem custom_save_load_unchanged (QColor_named : string -> string)
    (m_templates : gmap string Library.NodeTemplate)
    (templates : list Library.NodeTemplate) :
  Library.well_keyed m_templates ->
  (forall typeId t, m_templates !! typeId = Some t ->
     QColor_named (Library.m_color t) = Library.m_color t) ->
  templates ≡ₚ (map_to_list m_templates).*2 ->
  Library.loadCustomFromFile QColor_named
    (Some (Library.custom_document templates)) m_templates
  = (true, m_templates).
Proof.
  intros Hm Hc Hperm. unfold Library.loadCustomFromFile, Library.custom_document.
  cbn [isObject negb toObject obj_set obj_get String.eqb Ascii.eqb Bool.eqb toArray].
  f_equal. apply map_eq. intros typeId. rewrite load_custom_lookup.
  assert (Hin : forall t, t ∈ templates -> m_templates !! Library.m_typeId t = Some t).
  { intros t Ht. rewrite Hperm in Ht.
    apply list_elem_of_fmap in Ht as [[k t'] [-> Hk%elem_of_map_to_list]].
    simpl. destruct (Hm _ _ Hk) as [_ ->]. done. }
  unfold custom_candidates. rewrite templates_read_back.
  2:{ intros t [_ Ht]%list_elem_of_filter. by apply (Hc _ _ (Hin t Ht)). }
  destruct (last _) as [t|] eqn:El; [|done].
  apply last_Some_elem_of in El.
  apply list_elem_of_filter in El as [[_ <-] [_ Ht]%list_elem_of_filter].
  symmetry. by apply Hin.
Qed.

Lemma custom_save_load_unchanged_witness :
  Library.loadCustomFromFile lower_hex_named
    (Some (Library.custom_document (map_to_list (Library.initBuiltInTemplates ∅)).*2))
    (Library.initBuiltInTemplates ∅)
  = (true, Library.initBuiltInTemplates ∅).
Proof.
  apply (custom_save_load_unchanged lower_hex_named (Library.initBuiltInTemplates ∅)).
  - change (map_Forall (fun typeId tmpl =>
              Library.isValid tmpl = true /\ Library.m_typeId tmpl = typeId)
              (Library.initBuiltInTemplates ∅)).
    apply (bool_decide_unpack _); vm_compute; exact I.
  - change (map_Forall (fun (_ : string) t =>
              lower_hex_named (Library.m_color t) = Library.m_color t)
              (Library.initBuiltInTemplates ∅)).
    apply (bool_decide_unpack _); vm_compute; exact I.
  - reflexivity.
Defined.

(** ** Validity of the scene (NodeScene.cpp) *)

Lemma validateFlow_spec (st : State) : validateFlow st = true <-> flow_valid st.
Proof.
  unfold validateFlow, flow_valid, getFromNode, getToNode.
  rewrite forallb_forall. split.
  - intros H c Hc%list_elem_of_In. specialize (H c Hc).
    destruct (heap_conns st !! c) as [conn|]; [|done]. simpl in H.
    apply andb_true_iff in H as [H1%bool_decide_eq_true_1 H2%bool_decide_eq_true_1].
    by exists conn.
  - intros H c Hc%list_elem_of_In. destruct (H c Hc) as (conn & -> & H1 & H2). simpl.
    by rewrite !bool_decide_eq_true_2.
Qed.

Lemma load_internal_nodes_lists (values : list Json) :
  forall acc,
    s_nodes (foldl load_internal_node acc values).2 = s_nodes acc.2 /\
    s_connections (foldl load_internal_node acc values).2 = s_connections acc.2.
Proof.
  induction values as [|v values IH]; intros acc; [done|].
  cbn [foldl]. destruct (IH (load_internal_node acc v)) as [-> ->].
  by destruct acc as [[? ?] ?].
Qed.

Lemma load_internal_connections_lists (m : gmap string NodePtr) (values : list Json) :
  forall acc,
    s_nodes (foldl (load_internal_connection m) acc values).2 = s_nodes acc.2 /\
    s_connections (foldl (load_internal_connection m) acc values).2
    = s_connections acc.2.
Proof.
  induction values as [|v values IH]; intros acc; [done|].
  cbn [foldl]. destruct (IH (load_internal_connection m acc v)) as [-> ->].
  destruct acc as [? ?]. unfold load_internal_connection, Connection_ctor, alloc_conn.
  cbv zeta. by repeat (case_match; simpl).
Qed.

Lemma load_node_lists (acc : gmap string NodePtr * State) (nodeValue : Json) :
  exists node,
    (load_node acc nodeValue).1
    = <[toString (obj_get "id" (toObject nodeValue)) := node]> acc.1 /\
    s_nodes (load_node acc nodeValue).2 = s_nodes acc.2 ++ [node] /\
    s_connections (load_node acc nodeValue).2 = s_connections acc.2.
Proof.
  destruct acc as [nodeMap st]. unfold load_node.
  destruct (toBool _ _).
  - cbv zeta.
    destruct (alloc_node _ st) as [groupNode st1] eqn:E1.
    assert (H1 : s_nodes st1 = s_nodes st /\ s_connections st1 = s_connections st)
      by (by injection E1 as <- <-).
    pose proof (load_internal_nodes_lists
                  (toArray (obj_get "internalNodes" (toObject nodeValue)))
                  ([], ∅, st1)) as H2.
    destruct (foldl load_internal_node _ _) as [[internalNodes internalNodeMap] st2].
    pose proof (load_internal_connections_lists internalNodeMap
                  (toArray (obj_get "internalConnections" (toObject nodeValue)))
                  ([], st2)) as H3.
    destruct (foldl (load_internal_connection _) _ _) as [internalConnections st3].
    simpl in *. exists groupNode.
    destruct H1 as [<- <-], H2 as [<- <-], H3 as [<- <-]. done.
  - destruct (alloc_node _ st) as [node st1] eqn:E1. exists node.
    by injection E1 as <- <-.
Qed.

Lemma load_nodes_inv (values : list Json) :
  forall acc,
    (forall k p, acc.1 !! k = Some p -> p ∈ s_nodes acc.2) ->
    (forall k p, (foldl load_node acc values).1 !! k = Some p ->
       p ∈ s_nodes (foldl load_node acc values).2) /\
    s_connections (foldl load_node acc values).2 = s_connections acc.2.
Proof.
  induction values as [|v values IH]; intros acc Hacc; [done|].
  cbn [foldl]. destruct (load_node_lists acc v) as (node & Hmap & Hn & Hc).
  destruct (IH (load_node acc v)) as [H1 H2].
  - intros k p. rewrite Hmap, Hn.
    destruct (decide (toString (obj_get "id" (toObject v)) = k)) as [<-|Hne].
    + rewrite lookup_insert_eq. intros [= <-]. apply elem_of_app. right. by left.
    + rewrite lookup_insert_ne by done. intros Hp%Hacc. apply elem_of_app. by left.
  - split; [done|]. by rewrite H2.
Qed.

Lemma load_connection_inv (nodeMap : gmap string NodePtr) (st : State) (connValue : Json) :
  (forall k p, nodeMap !! k = Some p -> p ∈ s_nodes st) ->
  flow_allocated st ->
  s_nodes (load_connection nodeMap st connValue) = s_nodes st /\
  flow_allocated (load_connection nodeMap st connValue).
Proof.
  intros Hmap [Hv Hlt]. unfold load_connection. cbv zeta.
  destruct (nodeMap !! _) as [fromNode|] eqn:Ef; [|done].
  destruct (nodeMap !! _) as [toNode|] eqn:Et in |- *; [|done].
  apply Hmap in Ef, Et. unfold Connection_ctor, alloc_conn. cbv zeta beta iota.
  set (c := next_addr st).
  match goal with |- context [obj_contains "lineType" ?o] =>
    destruct (obj_contains "lineType" o) end.
  - simpl. split; [done|]. split.
    + intros c' [Hc'| ->%list_elem_of_singleton]%elem_of_app; simpl.
      * destruct (Hv c' Hc') as (conn & Hl & H1 & H2). exists conn.
        rewrite lookup_alter_ne, lookup_insert_ne by (apply Hlt in Hc'; unfold c; lia).
        done.
      * rewrite lookup_alter_eq, lookup_insert_eq. simpl. eexists. split; [done|].
        by simpl.
    + intros c' [Hc'| ->%list_elem_of_singleton]%elem_of_app; simpl.
      * apply Hlt in Hc'. lia.
      * unfold c. lia.
  - simpl. split; [done|]. split.
    + intros c' [Hc'| ->%list_elem_of_singleton]%elem_of_app; simpl.
      * destruct (Hv c' Hc') as (conn & Hl & H1 & H2). exists conn.
        rewrite lookup_insert_ne by (apply Hlt in Hc'; unfold c; lia).
        done.
      * rewrite lookup_insert_eq. eexists. split; [done|]. by simpl.
    + intros c' [Hc'| ->%list_elem_of_singleton]%elem_of_app; simpl.
      * apply Hlt in Hc'. lia.
      * unfold c. lia.
Qed.

Lemma load_connections_inv (nodeMap : gmap string NodePtr) (values : list Json) :
  forall st,
    (forall k p, nodeMap !! k = Some p -> p ∈ s_nodes st) ->
    flow_allocated st ->
    flow_allocated (foldl (load_connection nodeMap) st values).
Proof.
  induction values as [|v values IH]; intros st Hmap Hst; [done|].
  cbn [foldl]. destruct (load_connection_inv nodeMap st v Hmap Hst) as [Hn Hst'].
  apply IH; [|done]. intros k p Hp. rewrite Hn. by apply (Hmap k p).
Qed.

(** X13: whatever document is loaded over whatever scene, the scene
    [loadFlowData] leaves passes [validateFlow]: every connection it holds
    runs between two nodes of the scene. *)
Theorem loaded_flow_is_valid (data : list (string * Json)) (st : State) :
  validateFlow (loadFlowData data st) = true.
Proof.
  apply validateFlow_spec. unfold loadFlowData.
  set (st0 := with_s_connections [] (with_s_nodes [] (clear st))).
  destruct (load_nodes_inv (toArray (obj_get "nodes" data)) (∅, st0)) as [Hmap Hc].
  { intros k p H. simpl in H. by rewrite lookup_empty in H. }
  destruct (foldl load_node (∅, st0) _) as [nodeMap st1]. simpl in Hmap, Hc.
  apply (load_connections_inv nodeMap _ st1 Hmap).
  split; intros c; rewrite Hc; by intros ?%elem_of_nil.
Qed.


Lemma collect_connections_elem (st : State) (nodes : list NodePtr) :
  forall (acc : list ConnPtr) (c : ConnPtr),
    c ∈ foldl (fun acc node =>
                 foldl (fun acc conn =>
                          if bool_decide (conn ∈ acc) then acc else acc ++ [conn])
                   acc (node_connections st node)) acc nodes
    <-> c ∈ acc \/ exists n, n ∈ nodes /\ c ∈ node_connections st n.
Proof.
  assert (Hin : forall (l acc : list ConnPtr) (c : ConnPtr),
            c ∈ foldl (fun acc conn =>
                         if bool_decide (conn ∈ acc) then acc else acc ++ [conn]) acc l
            <-> c ∈ acc \/ c ∈ l).
  { induction l as [|x l IH]; intros acc c; cbn [foldl].
    - rewrite elem_of_nil. tauto.
    - rewrite IH, elem_of_cons. case_bool_decide as Hx.
      + split; [tauto|]. intros [?|[->|?]]; tauto.
      + rewrite elem_of_app, list_elem_of_singleton. tauto. }
  induction nodes as [|n nodes IH]; intros acc c; cbn [foldl].
  - split; [tauto|]. intros [?|(n & Hn%elem_of_nil & _)]; done.
  - rewrite IH, Hin. split.
    + intros [[?|?]|(n' & Hn' & Hc)]; [tauto| |].
      * right. exists n. split; [by left|done].
      * right. exists n'. split; [by right|done].
    + intros [?|(n' & [->|Hn']%elem_of_cons & Hc)]; [tauto|tauto|].
      right. by exists n'.
Qed.

Lemma deleteSelected_state (selected : list Item) (sc : NodeScene) :
  let st := scene_state sc in
  let nodes := omap as_node selected in
  let conns :=
    foldl (fun acc node =>
             foldl (fun acc conn =>
                      if bool_decide (conn ∈ acc) then acc else acc ++ [conn])
               acc (node_connections st node))
      (omap as_conn selected) nodes in
  scene_state (deleteSelected selected sc)
  = with_s_nodes (removeAlls nodes (s_nodes st))
      (for_each removeConnectionFromScene conns st).
Proof.
  intros st nodes conns. unfold deleteSelected. fold st. fold nodes. fold conns.
  assert (Hsame : st = with_s_nodes (removeAlls [] (s_nodes st))
                         (for_each removeConnectionFromScene [] st))
    by (by destruct st).
  assert (Hpush : scene_state (scene_push (new_DeleteCommand st nodes conns) sc)
                  = with_s_nodes (removeAlls nodes (s_nodes st))
                      (for_each removeConnectionFromScene conns st)).
  { rewrite scene_push_state. unfold new_DeleteCommand. cbn [redo snd]. fold st.
    by rewrite for_each_removeNode, s_nodes_removes. }
  destruct selected as [|it selected]; [done|].
  destruct nodes; [|done]. by destruct conns.
Qed.

(** X14: [deleteSelected] takes every selected node and connection out of
    the scene and keeps every other node; in a valid scene whose
    connections are registered with their endpoints, the scene stays valid:
    no connection is left hanging on a deleted node. *)
Theorem delete_selected_keeps_valid (selected : list Item) (sc : NodeScene) :
  flow_valid (scene_state sc) ->
  registered (scene_state sc) ->
  let st' := scene_state (deleteSelected selected sc) in
  validateFlow st' = true /\
  (forall n, n ∈ s_nodes st' <-> n ∈ s_nodes (scene_state sc) /\ ItemNode n ∉ selected) /\
  (forall c, ItemConn c ∈ selected -> c ∉ s_connections st').
Proof.
  intros Hv Hr. cbv zeta. rewrite deleteSelected_state.
  set (st := scene_state sc) in *.
  set (nodes := omap as_node selected).
  set (conns := foldl _ (omap as_conn selected) nodes).
  assert (Hnodes : forall n, n ∈ nodes <-> ItemNode n ∈ selected).
  { intros n. unfold nodes. rewrite list_elem_of_omap. split.
    - intros ([p|c] & Hin & [= <-]). done.
    - intros Hin. by exists (ItemNode n). }
  assert (Hconns : forall c, ItemConn c ∈ selected -> c ∈ omap as_conn selected).
  { intros c Hin. apply list_elem_of_omap. by exists (ItemConn c). }
  assert (Hcs : forall c, c ∈ conns <->
            c ∈ omap as_conn selected \/ exists n, n ∈ nodes /\ c ∈ node_connections st n)
    by (intros c; apply collect_connections_elem).
  pose proof (conn_frame_for_each removeConnectionFromScene conns st
                conn_frame_remove) as (Hh & _ & Hn & _).
  split; [|split].
  - apply validateFlow_spec. intros c. simpl.
    rewrite s_connections_for_each_remove, elem_of_removeAlls. intros [Hc Hnc].
    destruct (Hv c Hc) as (conn & Hl & Hf & Ht). exists conn. rewrite Hh.
    split; [done|]. destruct (Hr c conn Hc Hl) as [Rf Rt].
    rewrite !elem_of_removeAlls. repeat split; try done.
    + intros Hin. apply Hnc, Hcs. right. by exists (m_fromNode conn).
    + intros Hin. apply Hnc, Hcs. right. by exists (m_toNode conn).
  - intros n. simpl. rewrite elem_of_removeAlls, Hnodes. tauto.
  - intros c Hc. simpl. rewrite s_connections_for_each_remove, elem_of_removeAlls.
    intros [_ Hnc]. apply Hnc, Hcs. left. by apply Hconns.
Qed.

Lemma registeredb_true (st : State) : registeredb st = true -> registered st.
Proof.
  unfold registeredb. rewrite forallb_forall. intros H c conn Hc%list_elem_of_In Hl.
  specialize (H c Hc). rewrite Hl in H.
  apply andb_true_iff in H as [H1%bool_decide_eq_true_1 H2%bool_decide_eq_true_1].
  done.
Qed.

Lemma delete_selected_keeps_valid_witness :
  let st' := scene_state (deleteSelected [ItemNode 0] fanout_scene) in
  validateFlow st' = true /\
  (forall n, n ∈ s_nodes st' <->
     n ∈ s_nodes (scene_state fanout_scene) /\ ItemNode n ∉ [ItemNode 0]) /\
  (forall c, ItemConn c ∈ [ItemNode 0] -> c ∉ s_connections st').
Proof.
  apply (delete_selected_keeps_valid [ItemNode 0] fanout_scene).
  - apply validateFlow_spec. vm_compute; reflexivity.
  - apply registeredb_true. vm_compute; reflexivity.
Defined.

(** ** Template updates reach the scene (NodeScene.cpp) *)

Lemma apply_template_fields (tmpl : NodeTemplate) (n : Node) :
  apply_template tmpl n
  = mkNode (m_type n) (m_name n) (m_parameters n) (m_pos n) (m_connections n)
      (t_color tmpl) true (t_displayName tmpl)
      (Z.max 0 (t_inputPortCount tmpl)) (Z.max 0 (t_outputPortCount tmpl))
      (m_width n) (m_height n) (m_group n).
Proof.
  unfold apply_template, setOutputPortCount, setInputPortCount, setDisplayTypeName,
    setCustomColor. rewrite !qMaxZ_max. simpl.
  destruct (m_inputPortCount n =? _)%Z eqn:Ei; simpl;
    destruct (m_outputPortCount n =? _)%Z eqn:Eo; simpl;
    rewrite ?Z.eqb_eq in *; congruence.
Qed.

Lemma apply_template_idem (tmpl : NodeTemplate) (n : Node) :
  apply_template tmpl (apply_template tmpl n) = apply_template tmpl n.
Proof. by rewrite !apply_template_fields. Qed.

Lemma template_loop (typeId : string) (tmpl : NodeTemplate) (nodes : list NodePtr) :
  forall st,
    let st' :=
      for_each (fun node st =>
                  if String.eqb (node_type st node) typeId
                  then on_node node (apply_template tmpl) st
                  else st) nodes st in
    heap_conns st' = heap_conns st /\ next_addr st' = next_addr st /\
    s_nodes st' = s_nodes st /\ s_connections st' = s_connections st /\
    m_templates st' = m_templates st /\
    forall p, heap_nodes st' !! p
      = (fun n => if bool_decide (p ∈ nodes) && String.eqb (m_type n) typeId
                  then apply_template tmpl n else n) <$> heap_nodes st !! p.
Proof.
  induction nodes as [|node nodes IH]; intros st.
  - simpl. repeat split; try done. intros p. by destruct (heap_nodes st !! p).
  - cbn [for_each foldl]. cbv zeta.
    set (st1 := if String.eqb (node_type st node) typeId
                then on_node node (apply_template tmpl) st else st).
    destruct (IH st1) as (H1 & H2 & H3 & H4 & H5 & H6).
    unfold for_each in *. rewrite H1, H2, H3, H4, H5.
    assert (Hst1 : heap_conns st1 = heap_conns st /\ next_addr st1 = next_addr st /\
                   s_nodes st1 = s_nodes st /\ s_connections st1 = s_connections st /\
                   m_templates st1 = m_templates st)
      by (subst st1; by destruct (String.eqb _ _)).
    destruct Hst1 as (-> & -> & -> & -> & ->). repeat split; try done.
    intros p. rewrite H6. subst st1. unfold node_type.
    destruct (decide (p = node)) as [->|Hne].
    + rewrite (bool_decide_eq_true_2 (node ∈ node :: nodes)) by (by left).
      destruct (heap_nodes st !! node) as [n|] eqn:En; cbn [from_option].
      * destruct (String.eqb (m_type n) typeId) eqn:Et.
        -- cbn [on_node heap_nodes with_heap_nodes].
           rewrite lookup_alter_eq, En. cbn [fmap option_fmap option_map].
           assert (Ht : m_type (apply_template tmpl n) = m_type n)
             by (by rewrite apply_template_fields).
           rewrite Ht, Et, andb_true_r. cbn [andb].
           destruct (bool_decide _); [apply f_equal, apply_template_idem|done].
        -- rewrite En. cbn [fmap option_fmap option_map].
           by rewrite Et, !andb_false_r.
      * assert (Hn : heap_nodes (if String.eqb "" typeId
                                 then on_node node (apply_template tmpl) st else st)
                     !! node = None).
        { destruct (String.eqb "" typeId); [|done].
          cbn [on_node heap_nodes with_heap_nodes]. by rewrite lookup_alter_eq, En. }
        by rewrite Hn.
    + assert (Hp : heap_nodes (if String.eqb (from_option m_type "" (heap_nodes st !! node))
                                   typeId
                               then on_node node (apply_template tmpl) st else st) !! p
                   = heap_nodes st !! p).
      { destruct (String.eqb _ _); [|done]. simpl. by rewrite lookup_alter_ne. }
      rewrite Hp. destruct (heap_nodes st !! p) as [n|]; [|done]. simpl.
      f_equal. rewrite (bool_decide_ext (p ∈ node :: nodes) (p ∈ nodes)); [done|].
      rewrite elem_of_cons. naive_solver.
Qed.

(** X15: when a template is updated, every node of the scene with that
    type takes the template's colour, display name and port counts (a
    negative count as 0) and keeps its name, position, size, connections
    and group contents; no other node, no list and no connection changes.
    For an id without a valid template nothing changes at all. *)
Theorem template_update_reaches_nodes (typeId : string) (st : State) :
  let tmpl := getTemplate st typeId in
  let st' := onTemplateUpdated typeId st in
  heap_conns st' = heap_conns st /\ next_addr st' = next_addr st /\
  s_nodes st' = s_nodes st /\ s_connections st' = s_connections st /\
  m_templates st' = m_templates st /\
  forall p, heap_nodes st' !! p
    = (fun n =>
         if isValid tmpl && bool_decide (p ∈ s_nodes st) && String.eqb (m_type n) typeId
         then mkNode (m_type n) (m_name n) (m_parameters n) (m_pos n) (m_connections n)
                (t_color tmpl) true (t_displayName tmpl)
                (Z.max 0 (t_inputPortCount tmpl)) (Z.max 0 (t_outputPortCount tmpl))
                (m_width n) (m_height n) (m_group n)
         else n) <$> heap_nodes st !! p.
Proof.
  intros tmpl st'. subst st'. unfold onTemplateUpdated. fold tmpl.
  destruct (isValid tmpl); simpl.
  - destruct (template_loop typeId tmpl (s_nodes st) st) as (H1 & H2 & H3 & H4 & H5 & H6).
    repeat split; try done. intros p. rewrite H6.
    destruct (heap_nodes st !! p) as [n|]; [|done]. simpl.
    by rewrite apply_template_fields.
  - repeat split; try done. intros p. by destruct (heap_nodes st !! p).
Qed.

(** ** Copy and paste (NodeScene.cpp, UndoCommands.cpp) *)

Lemma obj_get_set_eq (k : string) (v : Json) (o : list (string * Json)) :
  obj_get k (obj_set k v o) = v.
Proof.
  induction o as [|[k' v'] o IH]; simpl.
  - by rewrite String.eqb_refl.
  - destruct (String.eqb k k') eqn:E; simpl; [by rewrite String.eqb_refl|].
    by rewrite E.
Qed.

Lemma obj_get_set_ne (k k' : string) (v : Json) (o : list (string * Json)) :
  k <> k' -> obj_get k (obj_set k' v o) = obj_get k o.
Proof.
  intros Hne. apply String.eqb_neq in Hne.
  induction o as [|[k2 v2] o IH]; simpl.
  - by rewrite Hne.
  - destruct (String.eqb k' k2) eqn:E; simpl.
    + apply String.eqb_eq in E as <-. by rewrite Hne.
    + destruct (String.eqb k k2); [done|apply IH].
Qed.

Lemma obj_contains_set_ne (k k' : string) (v : Json) (o : list (string * Json)) :
  k <> k' -> obj_contains k (obj_set k' v o) = obj_contains k o.
Proof. intros Hne. unfold obj_contains. by rewrite obj_get_set_ne. Qed.

(** What [Node::fromJson] makes of the members a document gives. *)
Lemma Node_fromJson_fields (st : State) (json : list (string * Json)) :
  let n := Node_fromJson st json in
  m_type n = toString (obj_get "type" json) /\
  m_name n = toString (obj_get "name" json) /\
  m_parameters n = toString <$> toArray (obj_get "parameters" json) /\
  m_group n = None /\
  (obj_contains "inputPortCount" json = true ->
   m_inputPortCount n = Z.max 0 (toInt (obj_get "inputPortCount" json) 0)) /\
  (obj_contains "outputPortCount" json = true ->
   m_outputPortCount n = Z.max 0 (toInt (obj_get "outputPortCount" json) 0)) /\
  (obj_contains "width" json = true -> obj_contains "height" json = true ->
   m_width n = qBound MIN_WIDTH (toDouble (obj_get "width" json)) MAX_WIDTH /\
   m_height n = qBound MIN_HEIGHT (toDouble (obj_get "height" json)) MAX_HEIGHT).
Proof.
  unfold Node_fromJson.
  set (type := toString (obj_get "type" json)).
  set (name := toString (obj_get "name" json)).
  destruct (if obj_contains "position" json && isObject (obj_get "position" json)
            then _ else _) as [x y].
  set (n0 := Node_ctor st type name (mkPoint x y)).
  assert (H0 : m_type n0 = type /\ m_name n0 = name /\ m_group n0 = None).
  { subst n0. unfold Node_ctor. by destruct (isValid _). }
  set (n1 := set_parameters _ n0).
  assert (H1 : m_type n1 = type /\ m_name n1 = name /\ m_group n1 = None /\
               m_parameters n1 = toString <$> toArray (obj_get "parameters" json))
    by (subst n1; destruct H0 as (? & ? & ?); by repeat split).
  set (n2 := if obj_contains "customColor" json then _ else n1).
  assert (H2 : m_type n2 = type /\ m_name n2 = name /\ m_group n2 = None /\
               m_parameters n2 = toString <$> toArray (obj_get "parameters" json))
    by (subst n2; by destruct (obj_contains "customColor" json)).
  set (n3 := if obj_contains "displayTypeName" json then _ else n2).
  assert (H3 : m_type n3 = type /\ m_name n3 = name /\ m_group n3 = None /\
               m_parameters n3 = toString <$> toArray (obj_get "parameters" json))
    by (subst n3; by destruct (obj_contains "displayTypeName" json)).
  set (n4 := if obj_contains "inputPortCount" json then _ else n3).
  assert (H4 : (m_type n4 = type /\ m_name n4 = name /\ m_group n4 = None /\
                m_parameters n4 = toString <$> toArray (obj_get "parameters" json)) /\
               (obj_contains "inputPortCount" json = true ->
                m_inputPortCount n4 = Z.max 0 (toInt (obj_get "inputPortCount" json) 0))).
  { subst n4. destruct H3 as (? & ? & ? & ?).
    destruct (obj_contains "inputPortCount" json); [|by repeat split].
    unfold setInputPortCount. rewrite qMaxZ_max.
    destruct (_ =? _)%Z eqn:E; [apply Z.eqb_eq in E|]; by repeat split. }
  set (n5 := if obj_contains "outputPortCount" json then _ else n4).
  assert (H5 : (m_type n5 = type /\ m_name n5 = name /\ m_group n5 = None /\
                m_parameters n5 = toString <$> toArray (obj_get "parameters" json)) /\
               (obj_contains "inputPortCount" json = true ->
                m_inputPortCount n5 = Z.max 0 (toInt (obj_get "inputPortCount" json) 0)) /\
               (obj_contains "outputPortCount" json = true ->
                m_outputPortCount n5
                = Z.max 0 (toInt (obj_get "outputPortCount" json) 0))).
  { subst n5. destruct H4 as [(? & ? & ? & ?) H4'].
    destruct (obj_contains "outputPortCount" json); [|by repeat split].
    unfold setOutputPortCount. rewrite qMaxZ_max.
    destruct (_ =? _)%Z eqn:E; [apply Z.eqb_eq in E|]; by repeat split. }
  destruct H5 as ((T & N & G & P) & I & O).
  destruct (obj_contains "width" json && obj_contains "height" json) eqn:Ewh.
  - apply andb_true_iff in Ewh as [-> ->]. cbv zeta. unfold setSize.
    cbn [m_type m_name m_parameters m_group m_inputPortCount m_outputPortCount
         m_width m_height].
    do 6 (split; [done|]). done.
  - cbv zeta. do 6 (split; [done|]).
    intros Hw Hh. by rewrite Hw, Hh in Ewh.
Qed.

Lemma Node_toJson_get (p : NodePtr) (n : Node) :
  let json := Node_toJson p n in
  obj_get "type" json = JString (m_type n) /\
  obj_get "name" json = JString (m_name n) /\
  obj_get "parameters" json = JArray (JString <$> m_parameters n) /\
  obj_get "inputPortCount" json = JInt (m_inputPortCount n) /\
  obj_get "outputPortCount" json = JInt (m_outputPortCount n) /\
  obj_get "width" json = JDouble (m_width n) /\
  obj_get "height" json = JDouble (m_height n).
Proof.
  unfold Node_toJson. cbv zeta.
  destruct (m_useCustomColor n); destruct (negb _);
    repeat split;
    repeat first [ rewrite obj_get_set_eq; reflexivity
                 | rewrite obj_get_set_ne by (intros [=]) ].
Qed.


Lemma pasted_node_ext (offset : QPointF) (st1 st2 : State) (v : Json) :
  m_templates st1 = m_templates st2 -> pasteCount st1 = pasteCount st2 ->
  pasted_node offset st1 v = pasted_node offset st2 v.
Proof.
  intros Ht Hp. unfold pasted_node, Node_fromJson, Node_ctor, getTemplate.
  by rewrite Ht, Hp.
Qed.

Lemma paste_node_step (offset : QPointF) (M : gmap string NodePtr)
    (acc : list NodePtr) (st : State) (v : Json) :
  paste_node offset (M, acc, st) v
  = (<[toString (obj_get "copyId" (toObject v)) := next_addr st]> M,
     acc ++ [next_addr st],
     with_s_nodes (s_nodes st ++ [next_addr st])
       (alloc_node (pasted_node offset st v) st).2).
Proof. reflexivity. Qed.

Lemma paste_nodes_heap (offset : QPointF) (arr : list Json) :
  forall (M : gmap string NodePtr) (acc : list NodePtr) (st : State),
  exists M' st',
    foldl (paste_node offset) (M, acc, st) arr
    = (M', acc ++ seq (next_addr st) (length arr), st') /\
    s_nodes st' = s_nodes st ++ seq (next_addr st) (length arr) /\
    s_connections st' = s_connections st /\
    heap_conns st' = heap_conns st /\
    next_addr st' = (next_addr st + length arr)%nat /\
    m_templates st' = m_templates st /\
    pasteCount st' = pasteCount st /\
    (forall i v, arr !! i = Some v ->
       heap_nodes st' !! (next_addr st + i)%nat = Some (pasted_node offset st v)) /\
    (forall p, (p < next_addr st)%nat -> heap_nodes st' !! p = heap_nodes st !! p) /\
    (forall k, (forall j v, arr !! j = Some v ->
                  toString (obj_get "copyId" (toObject v)) <> k) ->
       M' !! k = M !! k) /\
    (forall i v, arr !! i = Some v ->
       (forall j v', arr !! j = Some v' -> (i < j)%nat ->
          toString (obj_get "copyId" (toObject v'))
          <> toString (obj_get "copyId" (toObject v))) ->
       M' !! toString (obj_get "copyId" (toObject v)) = Some (next_addr st + i)%nat).
Proof.
  induction arr as [|v arr IH]; intros M acc st.
  - exists M, st. simpl. rewrite !app_nil_r, Nat.add_0_r.
    repeat split; try done; intros i v H; by rewrite lookup_nil in H.
  - rewrite foldl_step, paste_node_step.
    set (a := next_addr st).
    set (st1 := with_s_nodes (s_nodes st ++ [a]) (alloc_node (pasted_node offset st v) st).2).
    destruct (IH (<[toString (obj_get "copyId" (toObject v)) := a]> M) (acc ++ [a]) st1)
      as (M' & st' & E & Hn & Hc & Hh & Ha & Ht & Hp & Hnew & Hold & Mkeep & Mnew).
    assert (Ea : next_addr st1 = S a) by done.
    rewrite Ea in *.
    exists M', st'. rewrite E, Hn, Hc, Hh, Ha, Ht, Hp. cbn [length seq].
    rewrite <- !app_assoc. cbn [app].
    split; [done|].
    split; [subst st1; cbn [s_nodes with_s_nodes]; by rewrite <- app_assoc|].
    split; [done|]. split; [done|].
    split; [lia|]. split; [done|]. split; [done|].
    split; [|split; [|split]].
    + intros [|i] v' Hi.
      * injection Hi as <-. rewrite Nat.add_0_r, Hold by lia.
        subst st1. cbn [heap_nodes with_s_nodes alloc_node snd].
        by rewrite ?lookup_insert_eq.
      * cbn [lookup list_lookup] in Hi.
        replace (a + S i)%nat with (S a + i)%nat by lia.
        rewrite (Hnew i v' Hi). f_equal; by apply pasted_node_ext.
    + intros p Hlt. rewrite Hold by lia.
      subst st1. cbn [heap_nodes with_s_nodes alloc_node snd].
      apply lookup_insert_ne. unfold a. lia.
    + intros k Hk. rewrite Mkeep.
      * rewrite lookup_insert_ne; [done|]. apply (Hk 0%nat v). done.
      * intros j v' Hj. apply (Hk (S j) v'). done.
    + intros [|i] v' Hi Hlast.
      * injection Hi as <-. rewrite Nat.add_0_r, Mkeep.
        -- by rewrite lookup_insert_eq.
        -- intros j v' Hj. apply (Hlast (S j) v'); [done|lia].
      * cbn [lookup list_lookup] in Hi.
        replace (a + S i)%nat with (S a + i)%nat by lia.
        apply (Mnew i v' Hi). intros j v2 Hj Hlt.
        apply (Hlast (S j) v2); [done|lia].
Qed.


Lemma paste_connection_step (M : gmap string NodePtr) (acc : list ConnPtr)
    (st : State) (v : Json) :
  let r := paste_connection M (acc, st) v in
  match pasted_connection M v with
  | Some c =>
      r.1 = acc ++ [next_addr st] /\
      s_connections r.2 = s_connections st ++ [next_addr st] /\
      heap_conns r.2 = <[next_addr st := c]> (heap_conns st) /\
      next_addr r.2 = S (next_addr st)
  | None =>
      r.1 = acc /\ s_connections r.2 = s_connections st /\
      heap_conns r.2 = heap_conns st /\ next_addr r.2 = next_addr st
  end /\
  s_nodes r.2 = s_nodes st /\ (forall n, attrs r.2 n = attrs st n).
Proof.
  unfold pasted_connection, paste_connection. cbv zeta.
  destruct (M !! toString (obj_get "fromCopyId" (toObject v))) as [f|]; [|done].
  destruct (M !! toString (obj_get "toCopyId" (toObject v))) as [t|]; [|done].
  pose proof (Connection_ctor_effect f (toInt (obj_get "fromPort" (toObject v)) 0)
                t (toInt (obj_get "toPort" (toObject v)) 0) st)
    as (E1 & E2 & E3 & E4 & E5 & E6 & _).
  destruct (Connection_ctor f _ t _ st) as [newConn st1]. simpl in E1, E2, E3, E4, E5, E6.
  subst newConn. unfold pasted_lineType.
  destruct (obj_contains "lineType" (toObject v)); simpl.
  - rewrite E2, E3, E4, E5. split; [|split; [done|apply E6]].
    split; [done|]. split; [done|]. split; [|done].
    apply map_eq. intros c. destruct (decide (c = next_addr st)) as [->|Hne].
    + by rewrite lookup_alter_eq, !lookup_insert_eq.
    + by rewrite lookup_alter_ne, !lookup_insert_ne.
  - rewrite E2, E3, E4, E5. split; [|split; [done|apply E6]]. done.
Qed.

Lemma paste_connections_heap (M : gmap string NodePtr) (arr : list Json) :
  forall (acc : list ConnPtr) (st : State),
    let r := foldl (paste_connection M) (acc, st) arr in
    let made := omap (pasted_connection M) arr in
    r.1 = acc ++ seq (next_addr st) (length made) /\
    s_connections r.2 = s_connections st ++ seq (next_addr st) (length made) /\
    s_nodes r.2 = s_nodes st /\
    (forall n, attrs r.2 n = attrs st n) /\
    (forall j c, made !! j = Some c ->
       heap_conns r.2 !! (next_addr st + j)%nat = Some c) /\
    (forall c, (c < next_addr st)%nat -> heap_conns r.2 !! c = heap_conns st !! c).
Proof.
  induction arr as [|v arr IH]; intros acc st.
  - simpl. rewrite !app_nil_r. repeat split; try done.
  - cbv zeta. rewrite foldl_step.
    pose proof (paste_connection_step M acc st v) as (Hs & Hn & Ha).
    destruct (paste_connection M (acc, st) v) as [acc1 st1]. simpl in Hs, Hn, Ha.
    specialize (IH acc1 st1). cbv zeta in IH.
    destruct IH as (I1 & I2 & I3 & I4 & I5 & I6).
    cbn [omap list_omap].
    destruct (pasted_connection M v) as [c0|].
    + destruct Hs as (-> & Hs2 & Hs3 & Hs4). rewrite Hs4 in *.
      rewrite I1, I2, I3, Hs2, Hn. cbn [length seq]. rewrite <- !app_assoc. cbn [app].
      split; [done|]. split; [done|]. split; [done|].
      split; [intros n; by rewrite I4|]. split.
      * intros [|j] c Hj.
        -- injection Hj as <-. rewrite Nat.add_0_r, I6 by lia.
           by rewrite Hs3, lookup_insert_eq.
        -- cbn [lookup list_lookup] in Hj.
           replace (next_addr st + S j)%nat with (S (next_addr st) + j)%nat by lia.
           by apply I5.
      * intros c Hc. rewrite I6 by lia. rewrite Hs3. apply lookup_insert_ne. lia.
    + destruct Hs as (-> & Hs2 & Hs3 & Hs4). rewrite Hs4 in *.
      rewrite I1, I2, I3, Hs2, Hn.
      split; [done|]. split; [done|]. split; [done|].
      split; [intros n; by rewrite I4|]. split; [done|].
      intros c Hc. by rewrite I6, Hs3.
Qed.


Lemma collect_selected_fold (selected : list Item) :
  forall (ns : list NodePtr) (m : gmap nat string) (i : nat),
    foldl collect_selected (ns, m, i) selected
    = (ns ++ omap as_node selected, assign_ids i (omap as_node selected) m,
       (i + length (omap as_node selected))%nat).
Proof.
  induction selected as [|[p|c] selected IH]; intros ns m i.
  - simpl. by rewrite app_nil_r, Nat.add_0_r.
  - rewrite foldl_step. cbn [collect_selected as_node omap list_omap]. rewrite IH.
    cbn [assign_ids length]. rewrite <- app_assoc. cbn [app].
    f_equal; first [done|lia].
  - rewrite foldl_step. cbn [collect_selected as_node omap list_omap]. apply IH.
Qed.

Lemma copySelected_clipboard (selected : list Item) (st : State)
    (m_clipboard : list (string * Json)) :
  let nodes := omap as_node selected in
  let nodeIdMap := assign_ids 0 nodes ∅ in
  nodes <> [] ->
  copySelected selected st m_clipboard
  = [("nodes", JArray (copy_node st (centroid (node_pos st <$> nodes)) nodeIdMap
                         <$> nodes));
     ("connections", JArray (omap (copy_connection st nodes nodeIdMap)
                               (s_connections st)))].
Proof.
  intros nodes nodeIdMap Hne. unfold copySelected.
  destruct selected as [|it selected]; [done|].
  rewrite collect_selected_fold. cbn [app Nat.add]. fold nodes. fold nodeIdMap.
  destruct nodes; [done|]. reflexivity.
Qed.

Lemma copy_node_fields (offset : QPointF) (st0 st : State) (center : QPointF)
    (nodeIdMap : gmap nat string) (p : NodePtr) (n : Node) :
  heap_nodes st0 !! p = Some n ->
  let n' := pasted_node offset st (copy_node st0 center nodeIdMap p) in
  m_type n' = m_type n /\
  m_name n' = m_name n +:+ " (副本" +:+ pretty (pasteCount st) +:+ ")" /\
  m_pos n' = pt_add (pt_sub (m_pos n) center) offset /\
  m_parameters n' = m_parameters n /\
  m_group n' = None /\
  m_inputPortCount n' = Z.max 0 (m_inputPortCount n) /\
  m_outputPortCount n' = Z.max 0 (m_outputPortCount n) /\
  m_width n' = qBound MIN_WIDTH (m_width n) MAX_WIDTH /\
  m_height n' = qBound MIN_HEIGHT (m_height n) MAX_HEIGHT.
Proof.
  intros Hn. unfold pasted_node, copy_node, node_toJson, node_pos. rewrite Hn.
  cbn [from_option toObject].
  set (json := obj_set "relY" _ (obj_set "relX" _ (obj_set "copyId" _ (Node_toJson p n)))).
  assert (Hget : forall k, k <> "relY" -> k <> "relX" -> k <> "copyId" ->
                   obj_get k json = obj_get k (Node_toJson p n)).
  { intros k H1 H2 H3. subst json. by rewrite !obj_get_set_ne. }
  destruct (Node_toJson_get p n) as (G1 & G2 & G3 & G4 & G5 & G6 & G7).
  destruct (Node_fromJson_fields st json) as (F1 & F2 & F3 & F4 & F5 & F6 & F7).
  rewrite Hget, G1 in F1 by (intros [=]).
  rewrite Hget, G2 in F2 by (intros [=]).
  rewrite Hget, G3 in F3 by (intros [=]).
  cbn [toString toArray] in F1, F2, F3. rewrite toString_JString_fmap in F3.
  assert (C : forall k, k <> "relY" -> k <> "relX" -> k <> "copyId" ->
                obj_get k (Node_toJson p n) <> JUndefined ->
                obj_contains k json = true).
  { intros k H1 H2 H3 H4. unfold obj_contains. rewrite Hget by done.
    by destruct (obj_get k (Node_toJson p n)). }
  rewrite Hget, G4, toInt_JInt in F5 by (intros [=]).
  rewrite Hget, G5, toInt_JInt in F6 by (intros [=]).
  rewrite !Hget, G6, G7 in F7 by (intros [=]).
  specialize (F5 ltac:(apply C; [intros [=]..|by rewrite G4])).
  specialize (F6 ltac:(apply C; [intros [=]..|by rewrite G5])).
  specialize (F7 ltac:(apply C; [intros [=]..|by rewrite G6])
                 ltac:(apply C; [intros [=]..|by rewrite G7])).
  destruct F7 as [F7 F8].
  assert (Hx : obj_get "relX" json = JDouble (px (m_pos n) - px center)).
  { subst json. rewrite obj_get_set_ne by (intros [=]). apply obj_get_set_eq. }
  assert (Hy : obj_get "relY" json = JDouble (py (m_pos n) - py center)).
  { subst json. apply obj_get_set_eq. }
  cbn [m_type m_name m_pos m_parameters m_group m_inputPortCount m_outputPortCount
       m_width m_height set_name set_pos].
  rewrite Hx, Hy, F1, F2, F3, F4, F5, F6, F7, F8. done.
Qed.


Lemma paste_state (offset : QPointF) (clip : list (string * Json)) (sc : NodeScene) :
  clip <> [] ->
  exists M pn st1,
    foldl (paste_node offset) (∅, [], scene_state sc) (toArray (obj_get "nodes" clip))
    = (M, pn, st1) /\
    scene_state (paste offset clip sc)
    = (foldl (paste_connection M) ([], bump_pasteCount st1)
         (toArray (obj_get "connections" clip))).2.
Proof.
  intros Hne. unfold paste. destruct clip as [|e clip]; [done|].
  rewrite scene_push_state. unfold new_PasteCommand. cbn [redo].
  destruct (foldl (paste_node offset) _ _) as [[M pn] st1].
  exists M, pn, st1. split; [done|].
  by destruct (foldl (paste_connection M) _ _).
Qed.

(** X16: pasting what [copySelected] copied (in the same scene or, as
    after a cut, in a later one) adds one new node per copied node, in
    selection order.  The copy has the type and parameters of the original,
    its name with the copy suffix, its port counts and size (as the setters
    clamp them), and stands at the paste point plus the original's offset
    from the centre of the selection ([canPaste] allows the paste).  A copy
    is never a group: a copied group node comes back as a plain node.  The
    nodes that are there keep everything but their connection lists. *)
Theorem copy_paste_nodes (selected : list Item) (st0 : State) (sc : NodeScene)
    (offset : QPointF) (m_clipboard : list (string * Json)) :
  let st := scene_state sc in
  let nodes := omap as_node selected in
  let center := centroid (node_pos st0 <$> nodes) in
  let st' := scene_state (paste offset (copySelected selected st0 m_clipboard) sc) in
  nodes <> [] ->
  canPaste (copySelected selected st0 m_clipboard) = true /\
  s_nodes st' = s_nodes st ++ seq (next_addr st) (length nodes) /\
  (forall p, (p < next_addr st)%nat -> attrs st' p = attrs st p) /\
  forall i p n, nodes !! i = Some p -> heap_nodes st0 !! p = Some n ->
    exists n', heap_nodes st' !! (next_addr st + i)%nat = Some n' /\
      m_type n' = m_type n /\
      m_name n' = m_name n +:+ " (副本" +:+ pretty (pasteCount st) +:+ ")" /\
      m_pos n' = pt_add (pt_sub (m_pos n) center) offset /\
      m_parameters n' = m_parameters n /\
      m_group n' = None /\
      m_inputPortCount n' = Z.max 0 (m_inputPortCount n) /\
      m_outputPortCount n' = Z.max 0 (m_outputPortCount n) /\
      m_width n' = qBound MIN_WIDTH (m_width n) MAX_WIDTH /\
      m_height n' = qBound MIN_HEIGHT (m_height n) MAX_HEIGHT.
Proof.
  intros st nodes center st' Hne. subst st'.
  rewrite (copySelected_clipboard selected st0 m_clipboard Hne).
  fold nodes. fold center. set (ids := assign_ids 0 nodes ∅).
  set (clip := [("nodes", _); ("connections", _)]).
  split; [done|].
  destruct (paste_state offset clip sc) as (M & pn & st1 & E1 & ->); [done|].
  fold st in E1.
  change (toArray (obj_get "nodes" clip)) with (copy_node st0 center ids <$> nodes) in E1.
  destruct (paste_nodes_heap offset (copy_node st0 center ids <$> nodes) ∅ [] st)
    as (M' & st1' & E1' & Hn & Hc & Hh & Ha & Ht & Hp & Hnew & Hold & _ & _).
  rewrite E1 in E1'. injection E1' as <- _ <-.
  pose proof (paste_connections_heap M (toArray (obj_get "connections" clip)) []
                (bump_pasteCount st1)) as (_ & _ & K3 & K4 & _ & _).
  cbv zeta in K3, K4. rewrite length_fmap in Hn.
  split; [by rewrite K3|]. split.
  - intros p Hlt. rewrite K4. unfold attrs. cbn [heap_nodes bump_pasteCount].
    by rewrite Hold.
  - intros i p n Hi Hp'.
    assert (Hi' : (copy_node st0 center ids <$> nodes) !! i
                  = Some (copy_node st0 center ids p))
      by (by rewrite list_lookup_fmap, Hi).
    pose proof (K4 (next_addr st + i)%nat) as Hattrs. unfold attrs in Hattrs.
    cbn [heap_nodes bump_pasteCount] in Hattrs.
    rewrite (Hnew i _ Hi') in Hattrs.
    destruct (heap_nodes _ !! (next_addr st + i)%nat) as [n'|] eqn:En'; [|done].
    exists n'. split; [done|].
    assert (Hs : set_connections [] n'
                 = set_connections [] (pasted_node offset st (copy_node st0 center ids p)))
      by (cbn [fmap option_fmap option_map] in Hattrs; congruence).
    clear Hattrs.
    destruct (copy_node_fields offset st0 st center ids p n Hp')
      as (F1 & F2 & F3 & F4 & F5 & F6 & F7 & F8 & F9).
    set (x := pasted_node offset st (copy_node st0 center ids p)) in *.
    rewrite <- F1, <- F2, <- F3, <- F4, <- F5, <- F6, <- F7, <- F8, <- F9.
    change (m_type n') with (m_type (set_connections [] n')).
    change (m_name n') with (m_name (set_connections [] n')).
    change (m_pos n') with (m_pos (set_connections [] n')).
    change (m_parameters n') with (m_parameters (set_connections [] n')).
    change (m_group n') with (m_group (set_connections [] n')).
    change (m_inputPortCount n') with (m_inputPortCount (set_connections [] n')).
    change (m_outputPortCount n') with (m_outputPortCount (set_connections [] n')).
    change (m_width n') with (m_width (set_connections [] n')).
    change (m_height n') with (m_height (set_connections [] n')).
    rewrite Hs. done.
Qed.

(** The example: two connected nodes of the fan-out scene are cut, and the
    clipboard is pasted into the scene that is left. *)
Lemma copy_paste_nodes_witness :
  let st0 := scene_state fanout_scene in
  let cut := cutSelected [ItemNode 0; ItemNode 1] [] fanout_scene in
  let st := scene_state cut.2 in
  let nodes := omap as_node [ItemNode 0; ItemNode 1] in
  let center := centroid (node_pos st0 <$> nodes) in
  let st' := scene_state (paste (mkPoint 50 50) cut.1 cut.2) in
  canPaste cut.1 = true /\
  s_nodes st' = s_nodes st ++ seq (next_addr st) (length nodes) /\
  (forall p, (p < next_addr st)%nat -> attrs st' p = attrs st p) /\
  forall i p n, nodes !! i = Some p -> heap_nodes st0 !! p = Some n ->
    exists n', heap_nodes st' !! (next_addr st + i)%nat = Some n' /\
      m_type n' = m_type n /\
      m_name n' = m_name n +:+ " (副本" +:+ pretty (pasteCount st) +:+ ")" /\
      m_pos n' = pt_add (pt_sub (m_pos n) center) (mkPoint 50 50) /\
      m_parameters n' = m_parameters n /\
      m_group n' = None /\
      m_inputPortCount n' = Z.max 0 (m_inputPortCount n) /\
      m_outputPortCount n' = Z.max 0 (m_outputPortCount n) /\
      m_width n' = qBound MIN_WIDTH (m_width n) MAX_WIDTH /\
      m_height n' = qBound MIN_HEIGHT (m_height n) MAX_HEIGHT.
Proof.
  apply (copy_paste_nodes [ItemNode 0; ItemNode 1] (scene_state fanout_scene)
           (deleteSelected [ItemNode 0; ItemNode 1] fanout_scene) (mkPoint 50 50) []).
  discriminate.
Defined.


Lemma index_in_lookup (p : NodePtr) (nodes : list NodePtr) :
  p ∈ nodes -> nodes !! index_in p nodes = Some p.
Proof.
  induction nodes as [|q nodes IH]; intros Hin; [by apply elem_of_nil in Hin|].
  cbn [index_in]. case_decide as Hq; [by subst|].
  apply elem_of_cons in Hin as [?|Hin]; [done|]. by apply IH.
Qed.

Lemma index_in_NoDup (nodes : list NodePtr) (i : nat) (p : NodePtr) :
  NoDup nodes -> nodes !! i = Some p -> index_in p nodes = i.
Proof.
  intros Hnd Hi. apply (NoDup_lookup nodes _ _ p Hnd); [|done].
  apply index_in_lookup. by eapply list_elem_of_lookup_2.
Qed.

Lemma assign_ids_other (nodes : list NodePtr) :
  forall (i : nat) (m : gmap nat string) (p : NodePtr),
    p ∉ nodes -> assign_ids i nodes m !! p = m !! p.
Proof.
  induction nodes as [|q nodes IH]; intros i m p Hp; [done|].
  apply not_elem_of_cons in Hp as [Hne Hp]. cbn [assign_ids].
  rewrite IH by done. by apply lookup_insert_ne.
Qed.

Lemma assign_ids_lookup (nodes : list NodePtr) :
  forall (i : nat) (m : gmap nat string) (p : NodePtr),
    NoDup nodes -> p ∈ nodes ->
    assign_ids i nodes m !! p = Some (copy_id (i + index_in p nodes)).
Proof.
  induction nodes as [|q nodes IH]; intros i m p Hnd Hp; [by apply elem_of_nil in Hp|].
  apply NoDup_cons in Hnd as [Hq Hnd]. cbn [assign_ids index_in]. case_decide as E.
  - subst q. rewrite assign_ids_other by done.
    by rewrite lookup_insert_eq, Nat.add_0_r.
  - apply elem_of_cons in Hp as [?|Hp]; [done|].
    rewrite IH by done. do 2 f_equal. lia.
Qed.

Lemma copy_id_inj (i j : nat) : copy_id i = copy_id j -> i = j.
Proof.
  unfold copy_id. intros H. apply (inj (String.app "copy_node_")) in H.
  by apply (inj pretty) in H.
Qed.

Lemma omap_omap {A B C} (f : A -> option B) (g : B -> option C) (l : list A) :
  omap g (omap f l) = omap (fun x => f x ≫= g) l.
Proof.
  induction l as [|x l IH]; [done|]. cbn [omap list_omap].
  destruct (f x) as [y|]; cbn [omap list_omap mbind option_bind]; [|done].
  destruct (g y); by rewrite IH.
Qed.

(** X17: pasting what [copySelected] copied adds one new connection for
    every connection that had both ends among the selected nodes when they
    were copied, in the order of the scene; it joins the copies of the two
    ends and keeps the port indices and the line type.  Connections to nodes
    outside the selection are not copied, and the connections that are
    there are not changed. *)
Theorem copy_paste_connections (selected : list Item) (st0 : State) (sc : NodeScene)
    (offset : QPointF) (m_clipboard : list (string * Json)) :
  let st := scene_state sc in
  let nodes := omap as_node selected in
  let copied := omap (copy_source st0 nodes) (s_connections st0) in
  let st' := scene_state (paste offset (copySelected selected st0 m_clipboard) sc) in
  let first := (next_addr st + length nodes)%nat in
  nodes <> [] ->
  NoDup nodes ->
  s_connections st' = s_connections st ++ seq first (length copied) /\
  (forall c, (c < next_addr st)%nat -> heap_conns st' !! c = heap_conns st !! c) /\
  forall j r, copied !! j = Some r ->
    heap_conns st' !! (first + j)%nat
    = Some (mkConnection (next_addr st + index_in (m_fromNode r) nodes)
              (next_addr st + index_in (m_toNode r) nodes)
              (m_fromPortIndex r) (m_toPortIndex r) (m_lineType r)).
Proof.
  intros st nodes copied st' first Hne Hnd. subst st'.
  rewrite (copySelected_clipboard selected st0 m_clipboard Hne).
  fold nodes. set (center := centroid _). set (ids := assign_ids 0 nodes ∅).
  set (clip := [("nodes", _); ("connections", _)]).
  destruct (paste_state offset clip sc) as (M & pn & st1 & E1 & ->); [done|].
  fold st in E1.
  change (toArray (obj_get "nodes" clip)) with (copy_node st0 center ids <$> nodes) in E1.
  change (toArray (obj_get "connections" clip))
    with (omap (copy_connection st0 nodes ids) (s_connections st0)).
  destruct (paste_nodes_heap offset (copy_node st0 center ids <$> nodes) ∅ [] st)
    as (M' & st1' & E1' & Hn & Hc & Hh & Ha & _ & _ & _ & _ & _ & Mnew).
  rewrite E1 in E1'. injection E1' as <- _ <-. rewrite length_fmap in Ha, Hn.
  assert (HM : forall p, p ∈ nodes ->
            M !! default "" (ids !! p) = Some (next_addr st + index_in p nodes)%nat).
  { intros p Hp. pose proof (index_in_lookup p nodes Hp) as Hi.
    assert (Hid : forall q, q ∈ nodes -> default "" (ids !! q) = copy_id (index_in q nodes)).
    { intros q Hq. unfold ids. by rewrite assign_ids_lookup. }
    assert (Hcopy : forall q, toString (obj_get "copyId" (toObject
                      (copy_node st0 center ids q))) = default "" (ids !! q)).
    { intros q. unfold copy_node. cbn [toObject].
      rewrite !obj_get_set_ne by (intros [=]). by rewrite obj_get_set_eq. }
    rewrite <- (Hcopy p). apply Mnew; [by rewrite list_lookup_fmap, Hi|].
    intros j v' Hj Hlt. rewrite list_lookup_fmap in Hj.
    destruct (nodes !! j) as [q|] eqn:Eq; [|done]. injection Hj as <-.
    rewrite !Hcopy, !Hid by (done || by eapply list_elem_of_lookup_2).
    intros Heq%copy_id_inj. rewrite (index_in_NoDup nodes j q Hnd Eq) in Heq. lia. }
  assert (Hmade : omap (pasted_connection M)
                    (omap (copy_connection st0 nodes ids) (s_connections st0))
                  = (fun r => mkConnection (next_addr st + index_in (m_fromNode r) nodes)
                                (next_addr st + index_in (m_toNode r) nodes)
                                (m_fromPortIndex r) (m_toPortIndex r) (m_lineType r))
                    <$> copied).
  { unfold copied. rewrite omap_omap. generalize (s_connections st0) as l.
    induction l as [|c l IH]; [done|].
    cbn [omap list_omap]. rewrite IH. clear IH.
    unfold copy_connection, copy_source.
    destruct (heap_conns st0 !! c) as [r|]; [|done].
    destruct (bool_decide (m_fromNode r ∈ nodes)) eqn:Bf; [|done].
    destruct (bool_decide (m_toNode r ∈ nodes)) eqn:Bt; [|done].
    apply bool_decide_eq_true_1 in Bf, Bt.
    cbn [andb mbind option_bind]. unfold pasted_connection, pasted_lineType, obj_contains.
    cbn [toObject].
    rewrite !obj_get_set_ne by (intros [=]).
    repeat first [ rewrite obj_get_set_eq | rewrite obj_get_set_ne by (intros [=]) ].
    cbn [toString]. rewrite (HM _ Bf), (HM _ Bt), !toInt_JInt.
    unfold JInt. reflexivity. }
  pose proof (paste_connections_heap M
                (omap (copy_connection st0 nodes ids) (s_connections st0)) []
                (bump_pasteCount st1)) as (_ & K2 & _ & _ & K5 & K6).
  cbv zeta in K2, K5, K6. rewrite Hmade, length_fmap in K2. rewrite Hmade in K5.
  cbn [next_addr s_connections heap_conns bump_pasteCount] in K2, K5, K6.
  rewrite Ha, Hc in K2. rewrite Ha in K5, K6. rewrite Hh in K6.
  split; [done|]. split.
  - intros c Hlt. apply K6. lia.
  - intros j r Hj. apply K5. by rewrite list_lookup_fmap, Hj.
Qed.

Lemma copy_paste_connections_witness :
  let st := scene_state fanout_scene in
  let nodes := omap as_node [ItemNode 0; ItemNode 1] in
  let copied := omap (copy_source st nodes) (s_connections st) in
  let st' := scene_state (paste (mkPoint 50 50)
                            (copySelected [ItemNode 0; ItemNode 1] st []) fanout_scene) in
  let first := (next_addr st + length nodes)%nat in
  s_connections st' = s_connections st ++ seq first (length copied) /\
  (forall c, (c < next_addr st)%nat -> heap_conns st' !! c = heap_conns st !! c) /\
  forall j r, copied !! j = Some r ->
    heap_conns st' !! (first + j)%nat
    = Some (mkConnection (next_addr st + index_in (m_fromNode r) nodes)
              (next_addr st + index_in (m_toNode r) nodes)
              (m_fromPortIndex r) (m_toPortIndex r) (m_lineType r)).
Proof.
  apply (copy_paste_connections [ItemNode 0; ItemNode 1] (scene_state fanout_scene)
           fanout_scene (mkPoint 50 50) []).
  - discriminate.
  - apply (bool_decide_unpack _); vm_compute; exact I.
Defined.

(** ** Port hit test (Node.cpp) *)

Lemma port_scan_spec (portPos : Z -> QPointF) (point : QPointF) (remaining : nat) :
  forall i : Z,
    let r := port_scan portPos point i remaining in
    (r = (-1)%Z /\
     forall k, (i <= k < i + Z.of_nat remaining)%Z ->
       within_capture point (portPos k) = false) \/
    ((i <= r < i + Z.of_nat remaining)%Z /\ within_capture point (portPos r) = true /\
     forall j, (i <= j < r)%Z -> within_capture point (portPos j) = false).
Proof.
  induction remaining as [|remaining IH]; intros i; cbn [port_scan].
  - left. split; [done|]. intros k Hk. lia.
  - destruct (within_capture point (portPos i)) eqn:E.
    + right. split; [lia|]. split; [done|]. intros j Hj. lia.
    + destruct (IH (i + 1)%Z) as [[-> Hall]|(Hr & Hw & Hbefore)].
      * left. split; [done|]. intros k Hk.
        destruct (decide (k = i)) as [->|Hne]; [done|]. apply Hall. lia.
      * right. split; [lia|]. split; [done|]. intros j Hj.
        destruct (decide (j = i)) as [->|Hne]; [done|]. apply Hbefore. lia.
Qed.

(** X18: the port hit tests return the first port (lowest index) whose
    centre is within the capture radius of the point, and -1 when no port
    is, in particular when the node has no port on that side. *)
Theorem port_hit_is_first_within_radius (n : Node) (point : QPointF) :
  first_hit (getInputPortPos n) point (m_inputPortCount n)
    (getInputPortIndexAt n point) /\
  first_hit (getOutputPortPos n) point (m_outputPortCount n)
    (getOutputPortIndexAt n point).
Proof.
  unfold getInputPortIndexAt, getOutputPortIndexAt, first_hit. split.
  - destruct (Z.leb_spec (m_inputPortCount n) 0) as [Hc|Hc].
    + left. split; [done|]. intros i Hi. lia.
    + pose proof (port_scan_spec (getInputPortPos n) point
                    (Z.to_nat (m_inputPortCount n)) 0) as H.
      cbv zeta in H. rewrite Z2Nat.id, Z.add_0_l in H by lia. exact H.
  - destruct (Z.leb_spec (m_outputPortCount n) 0) as [Hc|Hc].
    + left. split; [done|]. intros i Hi. lia.
    + pose proof (port_scan_spec (getOutputPortPos n) point
                    (Z.to_nat (m_outputPortCount n)) 0) as H.
      cbv zeta in H. rewrite Z2Nat.id, Z.add_0_l in H by lia. exact H.
Qed.


Lemma within_capture_iff (point portPos : QPointF) :
  within_capture point portPos = true <->
  ((px portPos - px point) * (px portPos - px point)
   + (py portPos - py point) * (py portPos - py point) <= 144)%Q.
Proof.
  unfold within_capture, PORT_CAPTURE_RADIUS. rewrite Qle_bool_iff.
  assert (E : (12 * 12 == 144)%Q) by reflexivity. by rewrite E.
Qed.

Lemma within_capture_self (p : QPointF) : within_capture p p = true.
Proof. apply within_capture_iff. nra. Qed.

(** Ports on one edge, seen from the centre of port [i]: port [j] is
    within the capture radius exactly when [|j - i|] spacings are. *)
Lemma within_capture_ports (X Y H : Q) (count i j : Z) :
  (1 < count)%Z ->
  let s := (0.8 * H / inject_Z (count - 1))%Q in
  within_capture (mkPoint X (Y + calculatePortYOffset i count H))
    (mkPoint X (Y + calculatePortYOffset j count H)) = true <->
  ((inject_Z (j - i) * s) * (inject_Z (j - i) * s) <= 144)%Q.
Proof.
  intros Hc s. rewrite within_capture_iff. cbn [px py].
  rewrite !calculatePortYOffset_many by done. fold s.
  assert (E : (inject_Z (j - i) == inject_Z j - inject_Z i)%Q).
  { unfold Z.sub. rewrite inject_Z_plus, inject_Z_opp. ring. }
  rewrite E.
  assert (E2 : ((X - X) * (X - X) +
                (Y + (- (0.4 * H) + inject_Z j * s) - (Y + (- (0.4 * H) + inject_Z i * s))) *
                (Y + (- (0.4 * H) + inject_Z j * s) - (Y + (- (0.4 * H) + inject_Z i * s)))
                == (inject_Z j - inject_Z i) * s * ((inject_Z j - inject_Z i) * s))%Q)
    by ring.
  by rewrite E2.
Qed.

Lemma scan_own_position (portPos : Z -> QPointF) (count : Z) (X Y H : Q) (i : Z) :
  (forall j, (0 <= j < count)%Z ->
     portPos j = mkPoint X (Y + calculatePortYOffset j count H)) ->
  (0 <= i < count)%Z ->
  (0 < H)%Q ->
  port_scan portPos (portPos i) 0 (Z.to_nat count) = i <->
  i = 0%Z \/ (12 * inject_Z (count - 1) < 0.8 * H)%Q.
Proof.
  intros Hpos Hi HH.
  pose proof (port_scan_spec portPos (portPos i) (Z.to_nat count) 0) as Hspec.
  cbv zeta in Hspec. rewrite Z2Nat.id, Z.add_0_l in Hspec by lia.
  set (r := port_scan portPos (portPos i) 0 (Z.to_nat count)) in *.
  assert (Hself : within_capture (portPos i) (portPos i) = true)
    by apply within_capture_self.
  assert (Hr : (0 <= r <= i)%Z /\ within_capture (portPos i) (portPos r) = true /\
               forall j, (0 <= j < r)%Z -> within_capture (portPos i) (portPos j) = false).
  { destruct Hspec as [[_ Hall]|(Hr & Hw & Hb)].
    - rewrite Hall in Hself by done. done.
    - split; [|by split]. split; [lia|].
      destruct (Z.le_gt_cases r i) as [?|Hgt]; [done|].
      rewrite Hb in Hself by lia. done. }
  destruct Hr as (Hr & Hw & Hb).
  destruct (decide (count = 1%Z)) as [->|Hc1].
  { assert (i = 0%Z) by lia. split; [by left|]. intros _. lia. }
  assert (Hc : (1 < count)%Z) by lia.
  pose proof (inject_Z_pos (count - 1) ltac:(lia)) as Hd.
  set (s := (0.8 * H / inject_Z (count - 1))%Q).
  assert (Hs : (s * inject_Z (count - 1) == 0.8 * H)%Q) by (unfold s; field; lra).
  assert (Hs0 : (0 < s)%Q).
  { unfold s. apply Qlt_shift_div_l; lra. }
  assert (Hports : forall j, (0 <= j < count)%Z ->
            within_capture (portPos i) (portPos j) = true <->
            ((inject_Z (j - i) * s) * (inject_Z (j - i) * s) <= 144)%Q).
  { intros j Hj. rewrite (Hpos i Hi), (Hpos j Hj). by apply within_capture_ports. }
  split.
  - intros Hri. destruct (decide (i = 0%Z)) as [?|Hne]; [by left|]. right.
    assert (Hprev : within_capture (portPos i) (portPos (i - 1)%Z) = false)
      by (apply Hb; lia).
    assert (Hnot : ~ ((inject_Z (i - 1 - i) * s) * (inject_Z (i - 1 - i) * s) <= 144)%Q).
    { intros Hle. apply Hports in Hle; [|lia]. congruence. }
    replace (i - 1 - i)%Z with (-1)%Z in Hnot by lia.
    change (inject_Z (-1)) with (-1)%Q in Hnot.
    assert (12 < s)%Q by nra. nra.
  - intros [->|Hwide].
    + lia.
    + destruct (decide (r = i)) as [?|Hne]; [done|]. exfalso.
      assert (Hlt : (r < i)%Z) by lia.
      apply Hports in Hw; [|lia].
      assert (Hk : (inject_Z (r - i) <= -1)%Q).
      { change (-1)%Q with (inject_Z (-1)). rewrite <- Zle_Qle. lia. }
      assert (Hs12 : (12 < s)%Q) by nra.
      set (k := inject_Z (r - i)) in *.
      assert (Ht : (k * s <= - s)%Q) by nra.
      set (t := (k * s)%Q) in *.
      assert (Ht12 : (t < -12)%Q) by lra.
      nra.
Qed.

(** X19: at the centre of one of its ports, the hit test of a node of
    positive height answers with that port exactly when it is the first
    port or the ports of that edge are more than the capture radius (12)
    apart, i.e. 0.8 * height > 12 * (count - 1).  With closer ports the
    click on a port is attributed to a port above it. *)
Theorem port_hit_at_port_centre (n : Node) (i : Z) :
  (0 < m_height n)%Q ->
  ((0 <= i < m_inputPortCount n)%Z ->
   getInputPortIndexAt n (getInputPortPos n i) = i <->
   i = 0%Z \/ (12 * inject_Z (m_inputPortCount n - 1) < 0.8 * m_height n)%Q) /\
  ((0 <= i < m_outputPortCount n)%Z ->
   getOutputPortIndexAt n (getOutputPortPos n i) = i <->
   i = 0%Z \/ (12 * inject_Z (m_outputPortCount n - 1) < 0.8 * m_height n)%Q).
Proof.
  intros HH. split; intros Hi.
  - unfold getInputPortIndexAt.
    destruct (Z.leb_spec (m_inputPortCount n) 0) as [?|_]; [lia|].
    apply (scan_own_position _ _ (px (m_pos n) + - m_width n / 2)%Q (py (m_pos n)));
      [|done|done].
    intros j Hj. by rewrite getInputPortPos_in_range.
  - unfold getOutputPortIndexAt.
    destruct (Z.leb_spec (m_outputPortCount n) 0) as [?|_]; [lia|].
    apply (scan_own_position _ _ (px (m_pos n) + m_width n / 2)%Q (py (m_pos n)));
      [|done|done].
    intros j Hj. by rewrite getOutputPortPos_in_range.
Qed.

Lemma port_hit_at_port_centre_witness :
  ((0 <= 1 < m_inputPortCount wide_node)%Z ->
   getInputPortIndexAt wide_node (getInputPortPos wide_node 1) = 1%Z <->
   1%Z = 0%Z \/ (12 * inject_Z (m_inputPortCount wide_node - 1) < 0.8 * m_height wide_node)%Q) /\
  ((0 <= 1 < m_outputPortCount wide_node)%Z ->
   getOutputPortIndexAt wide_node (getOutputPortPos wide_node 1) = 1%Z <->
   1%Z = 0%Z \/ (12 * inject_Z (m_outputPortCount wide_node - 1) < 0.8 * m_height wide_node)%Q).
Proof.
  apply (port_hit_at_port_centre wide_node 1). reflexivity.
Defined.

(** ** The mini map (MiniMapWidget.cpp) *)

Lemma rect_isEmpty_false (r : QRectF) :
  rect_isEmpty r = false <-> (0 < r_width r)%Q /\ (0 < r_height r)%Q.
Proof.
  unfold rect_isEmpty. rewrite orb_false_iff.
  assert (H : forall a, Qle_bool a 0 = false <-> (0 < a)%Q).
  { intros a. split.
    - intros E. apply Qnot_le_lt. intros Hle%Qle_bool_iff. congruence.
    - intros Hlt. destruct (Qle_bool a 0) eqn:E; [|done].
      apply Qle_bool_iff in E. lra. }
  by rewrite !H.
Qed.

(** The scale of the mini map: positive, and large enough for both
    directions. *)
Lemma minimap_scale (W H : Q) :
  (0 < W)%Q -> (0 < H)%Q ->
  let scale := qMaxQ (W / (minimap_width - 10)) (H / (minimap_height - 10)) in
  (0 < scale)%Q /\ (W <= scale * 190)%Q /\ (H <= scale * 140)%Q.
Proof.
  intros HW HH. unfold minimap_width, minimap_height.
  assert (E1 : (200 - 10 == 190)%Q) by reflexivity.
  assert (E2 : (150 - 10 == 140)%Q) by reflexivity.
  assert (X : (W / (200 - 10) * 190 == W)%Q) by (field; lra).
  assert (Y : (H / (150 - 10) * 140 == H)%Q) by (field; lra).
  assert (PX : (0 < W / (200 - 10))%Q) by (apply Qlt_shift_div_l; lra).
  assert (PY : (0 < H / (150 - 10))%Q) by (apply Qlt_shift_div_l; lra).
  cbv zeta. unfold qMaxQ.
  destruct (Qltb _ _) eqn:E; [apply Qltb_true in E|apply Qltb_false in E];
    repeat split; lra.
Qed.

(** X20: on a mini map with non-empty scene bounds the two coordinate
    mappings are inverse to each other: the scene point a click navigates
    to is drawn where the click was. *)
Theorem minimap_mappings_inverse (m_scene : option (QRectF * QRectF)) (p : QPointF) :
  rect_isEmpty (getSceneBounds m_scene) = false ->
  pt_eq (sceneToWidget m_scene (widgetToScene m_scene p)) p /\
  pt_eq (widgetToScene m_scene (sceneToWidget m_scene p)) p.
Proof.
  intros Hne. unfold sceneToWidget, widgetToScene. rewrite Hne.
  apply rect_isEmpty_false in Hne as [HW HH].
  set (b := getSceneBounds m_scene) in *.
  destruct (minimap_scale (r_width b) (r_height b) HW HH) as (Hs & _ & _).
  cbv zeta in *. set (scale := qMaxQ _ _) in *.
  unfold pt_eq. cbn [px py]. repeat split; field; lra.
Qed.

Lemma minimap_mappings_inverse_witness :
  pt_eq (sceneToWidget minimap_example (widgetToScene minimap_example (mkPoint 100 75)))
    (mkPoint 100 75) /\
  pt_eq (widgetToScene minimap_example (sceneToWidget minimap_example (mkPoint 100 75)))
    (mkPoint 100 75).
Proof.
  apply (minimap_mappings_inverse minimap_example (mkPoint 100 75)). reflexivity.
Defined.

(** X21: the mini map shows all of the scene bounds: every point of the
    bounds is drawn inside the widget, at least 5 pixels from its border. *)
Theorem minimap_shows_bounds (m_scene : option (QRectF * QRectF)) (q : QPointF) :
  rect_isEmpty (getSceneBounds m_scene) = false ->
  rect_contains (getSceneBounds m_scene) q ->
  rect_contains (mkRect 5 5 (minimap_width - 10) (minimap_height - 10))
    (sceneToWidget m_scene q).
Proof.
  intros Hne [[Hx1 Hx2] [Hy1 Hy2]]. unfold sceneToWidget. rewrite Hne.
  apply rect_isEmpty_false in Hne as [HW HH].
  set (b := getSceneBounds m_scene) in *.
  destruct (minimap_scale (r_width b) (r_height b) HW HH) as (Hs & HsW & HsH).
  cbv zeta in *. set (scale := qMaxQ _ _) in *.
  unfold rect_contains, minimap_width, minimap_height. cbn [px py r_left r_top r_width r_height].
  assert (EW : (r_width b / scale * scale == r_width b)%Q) by (field; lra).
  assert (EH : (r_height b / scale * scale == r_height b)%Q) by (field; lra).
  set (w := (r_width b / scale)%Q) in *. set (h := (r_height b / scale)%Q) in *.
  assert (Ex : ((px q - r_left b) / scale * scale == px q - r_left b)%Q) by (field; lra).
  assert (Ey : ((py q - r_top b) / scale * scale == py q - r_top b)%Q) by (field; lra).
  set (x := ((px q - r_left b) / scale)%Q) in *.
  set (y := ((py q - r_top b) / scale)%Q) in *.
  assert (Hw : (w <= 190)%Q) by (apply (Qmult_le_r _ _ scale Hs); lra).
  assert (Hh : (h <= 140)%Q) by (apply (Qmult_le_r _ _ scale Hs); lra).
  assert (Hx : (0 <= x <= w)%Q) by (split; apply (Qmult_le_r _ _ scale Hs); lra).
  assert (Hy : (0 <= y <= h)%Q) by (split; apply (Qmult_le_r _ _ scale Hs); lra).
  destruct Hx, Hy. clear EW EH Ex Ey HsW HsH. clearbody x y w h scale.
  unfold Qdiv. change (/ 2)%Q with (1 # 2)%Q. repeat split; lra.
Qed.

Lemma minimap_shows_bounds_witness :
  rect_contains (mkRect 5 5 (minimap_width - 10) (minimap_height - 10))
    (sceneToWidget minimap_example (mkPoint 400 100)).
Proof.
  apply (minimap_shows_bounds minimap_example (mkPoint 400 100)).
  - reflexivity.
  - repeat split; by vm_compute.
Defined.

(** ** Zooming (NodeView.cpp) *)

Lemma scaleView_range (scaleFactor zoom : Q) :
  (0.07 <= qAbs zoom <= 100)%Q ->
  (0.07 <= qAbs (scaleView scaleFactor zoom) <= 100)%Q.
Proof.
  intros Hz. unfold scaleView. cbv zeta.
  destruct (Qltb (qAbs (zoom * scaleFactor)) 0.07) eqn:E1; [done|].
  destruct (Qltb 100 (qAbs (zoom * scaleFactor))) eqn:E2; [done|].
  apply Qltb_false in E1, E2. cbn [orb]. by split.
Qed.

(** X22: whatever zoom steps are asked for (keys, wheel, any factors), the
    scale of the view stays between 0.07 and 100: a step that would leave
    the range is not applied at all. *)
Theorem zoom_stays_in_range (scaleFactors : list Q) :
  let zoom := foldl (fun zoom scaleFactor => scaleView scaleFactor zoom) 1%Q scaleFactors in
  (0.07 <= qAbs zoom <= 100)%Q.
Proof.
  cbv zeta. assert (H1 : (0.07 <= qAbs 1 <= 100)%Q) by (split; by vm_compute).
  revert H1. generalize 1%Q as zoom.
  induction scaleFactors as [|s scaleFactors IH]; intros zoom Hz; [done|].
  cbn [foldl]. by apply IH, scaleView_range.
Qed.

(** ** Saving and opening a flow (NodeScene.cpp) *)

Lemma port_setters_keep (c : Z) (n : Node) :
  (m_pos (setInputPortCount c n) = m_pos n /\
   m_customColor (setInputPortCount c n) = m_customColor n /\
   m_useCustomColor (setInputPortCount c n) = m_useCustomColor n /\
   m_displayTypeName (setInputPortCount c n) = m_displayTypeName n /\
   m_width (setInputPortCount c n) = m_width n /\
   m_height (setInputPortCount c n) = m_height n) /\
  (m_pos (setOutputPortCount c n) = m_pos n /\
   m_customColor (setOutputPortCount c n) = m_customColor n /\
   m_useCustomColor (setOutputPortCount c n) = m_useCustomColor n /\
   m_displayTypeName (setOutputPortCount c n) = m_displayTypeName n /\
   m_width (setOutputPortCount c n) = m_width n /\
   m_height (setOutputPortCount c n) = m_height n).
Proof.
  unfold setInputPortCount, setOutputPortCount. cbv zeta.
  split; by destruct (_ =? _)%Z.
Qed.

(** What [Node::fromJson] makes of the position, the colour, the display
    name and the size. *)
Lemma Node_fromJson_more (st : State) (json : list (string * Json)) :
  let n := Node_fromJson st json in
  (obj_contains "position" json && isObject (obj_get "position" json) = true ->
   m_pos n = mkPoint (toDouble (obj_get "x" (toObject (obj_get "position" json))))
               (toDouble (obj_get "y" (toObject (obj_get "position" json))))) /\
  (obj_contains "customColor" json = true ->
   m_customColor n = toString (obj_get "customColor" json) /\
   m_useCustomColor n = true) /\
  (obj_contains "displayTypeName" json = true ->
   m_displayTypeName n = toString (obj_get "displayTypeName" json)) /\
  (obj_contains "width" json = false ->
   m_width n = DEFAULT_WIDTH /\ m_height n = DEFAULT_HEIGHT).
Proof.
  unfold Node_fromJson.
  set (type := toString (obj_get "type" json)).
  set (name := toString (obj_get "name" json)).
  set (xy := if obj_contains "position" json && isObject (obj_get "position" json)
             then _ else _).
  assert (Hxy : obj_contains "position" json && isObject (obj_get "position" json) = true ->
                xy = (toDouble (obj_get "x" (toObject (obj_get "position" json))),
                      toDouble (obj_get "y" (toObject (obj_get "position" json)))))
    by (intros E; subst xy; by rewrite E).
  destruct xy as [x y].
  set (n0 := Node_ctor st type name (mkPoint x y)).
  assert (H0 : m_pos n0 = mkPoint x y /\
               m_width n0 = DEFAULT_WIDTH /\ m_height n0 = DEFAULT_HEIGHT)
    by (subst n0; unfold Node_ctor; by destruct (isValid _)).
  set (n1 := set_parameters _ n0).
  set (n2 := if obj_contains "customColor" json then _ else n1).
  assert (H2 : (m_pos n2 = mkPoint x y /\
                m_width n2 = DEFAULT_WIDTH /\ m_height n2 = DEFAULT_HEIGHT) /\
               (obj_contains "customColor" json = true ->
                m_customColor n2 = toString (obj_get "customColor" json) /\
                m_useCustomColor n2 = true)).
  { subst n2 n1. destruct (obj_contains "customColor" json); by split. }
  set (n3 := if obj_contains "displayTypeName" json then _ else n2).
  assert (H3 : (m_pos n3 = mkPoint x y /\
                m_width n3 = DEFAULT_WIDTH /\ m_height n3 = DEFAULT_HEIGHT) /\
               (obj_contains "customColor" json = true ->
                m_customColor n3 = toString (obj_get "customColor" json) /\
                m_useCustomColor n3 = true) /\
               (obj_contains "displayTypeName" json = true ->
                m_displayTypeName n3 = toString (obj_get "displayTypeName" json))).
  { subst n3. destruct H2 as [H2 H2'].
    destruct (obj_contains "displayTypeName" json); [|by split].
    split; [done|]. by split. }
  set (n4 := if obj_contains "inputPortCount" json then _ else n3).
  assert (H4 : m_pos n4 = m_pos n3 /\ m_customColor n4 = m_customColor n3 /\
               m_useCustomColor n4 = m_useCustomColor n3 /\
               m_displayTypeName n4 = m_displayTypeName n3 /\
               m_width n4 = m_width n3 /\ m_height n4 = m_height n3).
  { subst n4. destruct (obj_contains "inputPortCount" json); [|done].
    apply port_setters_keep. }
  set (n5 := if obj_contains "outputPortCount" json then _ else n4).
  assert (H5 : m_pos n5 = m_pos n4 /\ m_customColor n5 = m_customColor n4 /\
               m_useCustomColor n5 = m_useCustomColor n4 /\
               m_displayTypeName n5 = m_displayTypeName n4 /\
               m_width n5 = m_width n4 /\ m_height n5 = m_height n4).
  { subst n5. destruct (obj_contains "outputPortCount" json); [|done].
    apply port_setters_keep. }
  destruct H3 as ((P & W & H) & C & D).
  destruct H4 as (P4 & C4 & U4 & D4 & W4 & HH4).
  destruct H5 as (P5 & C5 & U5 & D5 & W5 & HH5).
  clearbody n5 n4 n3.
  assert (Hpos : m_pos (if obj_contains "width" json && obj_contains "height" json
                        then setSize (toDouble (obj_get "width" json))
                               (toDouble (obj_get "height" json)) n5
                        else n5) = mkPoint x y).
  { destruct (obj_contains "width" json && obj_contains "height" json);
      cbn [setSize m_pos]; congruence. }
  cbv zeta. split; [|split; [|split]].
  - intros E. rewrite Hpos. specialize (Hxy E). by injection Hxy as -> ->.
  - intros E. destruct (C E) as [C1 C2].
    destruct (obj_contains "width" json && obj_contains "height" json);
      cbn [setSize m_customColor m_useCustomColor]; split; congruence.
  - intros E. specialize (D E).
    destruct (obj_contains "width" json && obj_contains "height" json);
      cbn [setSize m_displayTypeName]; congruence.
  - intros E. rewrite E. cbn [andb]. split; congruence.
Qed.


Lemma Node_fromJson_ext (st1 st2 : State) (json : list (string * Json)) :
  m_templates st1 = m_templates st2 -> Node_fromJson st1 json = Node_fromJson st2 json.
Proof.
  intros Ht. unfold Node_fromJson, Node_ctor, getTemplate. by rewrite Ht.
Qed.

Lemma flowNode_get (st : State) (p : NodePtr) (n : Node) :
  m_group n = None ->
  let json := toObject (flowNode st p n) in
  flowNode st p n = JObject json /\
  obj_get "id" json = JString (node_id p) /\
  obj_get "type" json = JString (m_type n) /\
  obj_get "name" json = JString (m_name n) /\
  obj_get "position" json
  = JObject [("x", JDouble (px (m_pos n))); ("y", JDouble (py (m_pos n)))] /\
  obj_get "inputPortCount" json = JInt (m_inputPortCount n) /\
  obj_get "outputPortCount" json = JInt (m_outputPortCount n) /\
  obj_get "parameters" json = JObject [] /\
  obj_get "isGroup" json = JUndefined /\
  obj_get "width" json = JUndefined /\
  obj_get "customColor" json
  = (if m_useCustomColor n then JString (m_customColor n) else JUndefined) /\
  obj_get "displayTypeName" json
  = (if negb (String.eqb (m_displayTypeName n) "")
     then JString (m_displayTypeName n) else JUndefined).
Proof.
  intros Hg. unfold flowNode. rewrite Hg. cbv zeta. cbn [toObject].
  destruct (m_useCustomColor n); destruct (negb _);
    repeat split;
    repeat first [ rewrite obj_get_set_eq; reflexivity
                 | rewrite obj_get_set_ne by (intros [=])
                 | reflexivity ].
Qed.

Lemma load_node_plain (M : gmap string NodePtr) (st : State) (v : Json) :
  toBool (obj_get "isGroup" (toObject v)) false = false ->
  load_node (M, st) v
  = (<[toString (obj_get "id" (toObject v)) := next_addr st]> M,
     with_s_nodes (s_nodes st ++ [next_addr st])
       (alloc_node (Node_fromJson st (toObject v)) st).2).
Proof. intros H. unfold load_node. by rewrite H. Qed.

Lemma load_nodes_heap (arr : list Json) :
  forall (M : gmap string NodePtr) (st : State),
    (forall v, v ∈ arr -> toBool (obj_get "isGroup" (toObject v)) false = false) ->
    exists M' st',
      foldl load_node (M, st) arr = (M', st') /\
      s_nodes st' = s_nodes st ++ seq (next_addr st) (length arr) /\
      s_connections st' = s_connections st /\
      heap_conns st' = heap_conns st /\
      next_addr st' = (next_addr st + length arr)%nat /\
      (forall i v, arr !! i = Some v ->
         heap_nodes st' !! (next_addr st + i)%nat
         = Some (Node_fromJson st (toObject v))) /\
      (forall i v, arr !! i = Some v ->
         (forall j v', arr !! j = Some v' -> (i < j)%nat ->
            toString (obj_get "id" (toObject v')) <> toString (obj_get "id" (toObject v))) ->
         M' !! toString (obj_get "id" (toObject v)) = Some (next_addr st + i)%nat) /\
      (forall p, (p < next_addr st)%nat -> heap_nodes st' !! p = heap_nodes st !! p) /\
      (forall k, (forall j v, arr !! j = Some v ->
                    toString (obj_get "id" (toObject v)) <> k) ->
         M' !! k = M !! k) /\
      m_templates st' = m_templates st.
Proof.
  induction arr as [|v arr IH]; intros M st Hplain.
  - exists M, st. simpl. rewrite !app_nil_r, Nat.add_0_r.
    repeat split; try done; intros i v H; by rewrite lookup_nil in H.
  - rewrite foldl_step, load_node_plain by (apply Hplain; by left).
    set (a := next_addr st).
    set (st1 := with_s_nodes (s_nodes st ++ [a])
                  (alloc_node (Node_fromJson st (toObject v)) st).2).
    destruct (IH (<[toString (obj_get "id" (toObject v)) := a]> M) st1)
      as (M' & st' & E & Hn & Hc & Hh & Ha & Hnew & Mnew & Hold & Mkeep & Ht).
    { intros v' Hv'. apply Hplain. by right. }
    assert (Ea : next_addr st1 = S a) by done.
    rewrite Ea in *.
    exists M', st'. rewrite E, Hn, Hc, Hh, Ha, Ht. cbn [length seq].
    split; [done|].
    split; [subst st1; cbn [s_nodes with_s_nodes]; by rewrite <- app_assoc|].
    split; [done|]. split; [done|]. split; [lia|].
    split; [|split; [|split; [|split; [|done]]]].
    + intros [|i] v' Hi.
      * injection Hi as <-. rewrite Nat.add_0_r, Hold by lia.
        subst st1. cbn [heap_nodes with_s_nodes alloc_node snd].
        by rewrite ?lookup_insert_eq.
      * cbn [lookup list_lookup] in Hi.
        replace (a + S i)%nat with (S a + i)%nat by lia.
        rewrite (Hnew i v' Hi). f_equal; by apply Node_fromJson_ext.
    + intros [|i] v' Hi Hlast.
      * injection Hi as <-. rewrite Nat.add_0_r, Mkeep.
        -- by rewrite lookup_insert_eq.
        -- intros j v' Hj. apply (Hlast (S j) v'); [done|lia].
      * cbn [lookup list_lookup] in Hi.
        replace (a + S i)%nat with (S a + i)%nat by lia.
        apply (Mnew i v' Hi). intros j v2 Hj Hlt.
        apply (Hlast (S j) v2); [done|lia].
    + intros p Hlt. rewrite Hold by lia.
      subst st1. cbn [heap_nodes with_s_nodes alloc_node snd].
      apply lookup_insert_ne. unfold a. lia.
    + intros k Hk. rewrite Mkeep.
      * rewrite lookup_insert_ne; [done|]. apply (Hk 0%nat v). done.
      * intros j v' Hj. apply (Hk (S j) v'). done.
Qed.

Lemma load_connection_step (M : gmap string NodePtr) (st : State) (v : Json) :
  let st' := load_connection M st v in
  match loaded_connection M v with
  | Some c =>
      s_connections st' = s_connections st ++ [next_addr st] /\
      heap_conns st' = <[next_addr st := c]> (heap_conns st) /\
      next_addr st' = S (next_addr st)
  | None =>
      s_connections st' = s_connections st /\
      heap_conns st' = heap_conns st /\ next_addr st' = next_addr st
  end /\
  s_nodes st' = s_nodes st /\ (forall n, attrs st' n = attrs st n).
Proof.
  unfold loaded_connection, load_connection. cbv zeta.
  destruct (M !! _) as [f|]; [|done].
  destruct (M !! _) as [t|] in |- *; [|done].
  pose proof (Connection_ctor_effect f (toInt (obj_get "fromPort" (toObject v)) 0)
                t (toInt (obj_get "toPort" (toObject v)) 0) st)
    as (E1 & E2 & E3 & E4 & E5 & E6 & _).
  destruct (Connection_ctor f _ t _ st) as [newConn st1]. simpl in E1, E2, E3, E4, E5, E6.
  subst newConn. unfold pasted_lineType.
  destruct (obj_contains "lineType" (toObject v)); simpl.
  - rewrite E2, E3, E4, E5. split; [|split; [done|apply E6]].
    split; [done|]. split; [|done].
    apply map_eq. intros c. destruct (decide (c = next_addr st)) as [->|Hne].
    + by rewrite lookup_alter_eq, !lookup_insert_eq.
    + by rewrite lookup_alter_ne, !lookup_insert_ne.
  - rewrite E2, E3, E4, E5. split; [|split; [done|apply E6]]. done.
Qed.

Lemma load_connections_heap (M : gmap string NodePtr) (arr : list Json) :
  forall (st : State),
    let st' := foldl (load_connection M) st arr in
    let made := omap (loaded_connection M) arr in
    s_connections st' = s_connections st ++ seq (next_addr st) (length made) /\
    s_nodes st' = s_nodes st /\
    (forall n, attrs st' n = attrs st n) /\
    (forall j c, made !! j = Some c ->
       heap_conns st' !! (next_addr st + j)%nat = Some c) /\
    (forall c, (c < next_addr st)%nat -> heap_conns st' !! c = heap_conns st !! c).
Proof.
  induction arr as [|v arr IH]; intros st.
  - simpl. rewrite !app_nil_r. repeat split; try done.
  - cbv zeta. rewrite foldl_step.
    pose proof (load_connection_step M st v) as (Hs & Hn & Ha).
    set (st1 := load_connection M st v) in *. cbv zeta in Hs.
    specialize (IH st1). cbv zeta in IH.
    destruct IH as (I2 & I3 & I4 & I5 & I6).
    cbn [omap list_omap].
    destruct (loaded_connection M v) as [c0|].
    + destruct Hs as (Hs2 & Hs3 & Hs4). rewrite Hs4 in *.
      rewrite I2, I3, Hs2, Hn. cbn [length seq]. rewrite <- !app_assoc. cbn [app].
      split; [done|]. split; [done|].
      split; [intros n; by rewrite I4|]. split.
      * intros [|j] c Hj.
        -- injection Hj as <-. rewrite Nat.add_0_r, I6 by lia.
           by rewrite Hs3, lookup_insert_eq.
        -- cbn [lookup list_lookup] in Hj.
           replace (next_addr st + S j)%nat with (S (next_addr st) + j)%nat by lia.
           by apply I5.
      * intros c Hc. rewrite I6 by lia. rewrite Hs3. apply lookup_insert_ne. lia.
    + destruct Hs as (Hs2 & Hs3 & Hs4). rewrite Hs4 in *.
      rewrite I2, I3, Hs2, Hn.
      split; [done|]. split; [done|].
      split; [intros n; by rewrite I4|]. split; [done|].
      intros c Hc. by rewrite I6, Hs3.
Qed.

Lemma node_id_inj (p q : NodePtr) : node_id p = node_id q -> p = q.
Proof.
  unfold node_id, ptr_number. intros H. apply (inj (String.app "node_")) in H.
  by apply (inj pretty) in H.
Qed.


(** X23: a scene of plain nodes saved by [getFlowData] and opened by
    [loadFlowData] (in the same or another session) comes back with one
    node per saved node, in order, with the same type, name, position and
    port counts (a negative count as 0), its custom colour and display
    name when it had them, and with one connection for every connection
    between two saved nodes, joining the same ports with the same line
    type.  The parameters and the size of a node do not survive: the
    parameters come back empty and the size is the default one. *)
Theorem flow_save_load_round_trip (created : string) (st st2 : State) :
  let nodes := s_nodes st in
  let kept := omap (copy_source st nodes) (s_connections st) in
  let st' := loadFlowData (getFlowData created st) st2 in
  let first := (next_addr st2 + length nodes)%nat in
  NoDup nodes ->
  (forall p, p ∈ nodes -> exists n, heap_nodes st !! p = Some n /\ m_group n = None) ->
  s_nodes st' = seq (next_addr st2) (length nodes) /\
  (forall i p n, nodes !! i = Some p -> heap_nodes st !! p = Some n ->
     exists n', heap_nodes st' !! (next_addr st2 + i)%nat = Some n' /\
       m_type n' = m_type n /\ m_name n' = m_name n /\ m_pos n' = m_pos n /\
       m_inputPortCount n' = Z.max 0 (m_inputPortCount n) /\
       m_outputPortCount n' = Z.max 0 (m_outputPortCount n) /\
       m_group n' = None /\
       m_parameters n' = [] /\
       m_width n' = DEFAULT_WIDTH /\ m_height n' = DEFAULT_HEIGHT /\
       (m_useCustomColor n = true ->
        m_customColor n' = m_customColor n /\ m_useCustomColor n' = true) /\
       (m_displayTypeName n <> "" -> m_displayTypeName n' = m_displayTypeName n)) /\
  s_connections st' = seq first (length kept) /\
  forall j r, kept !! j = Some r ->
    heap_conns st' !! (first + j)%nat
    = Some (mkConnection (next_addr st2 + index_in (m_fromNode r) nodes)
              (next_addr st2 + index_in (m_toNode r) nodes)
              (m_fromPortIndex r) (m_toPortIndex r) (m_lineType r)).
Proof.
  intros nodes kept st' first Hnd Hplain. subst st'. unfold loadFlowData.
  set (st0 := with_s_connections [] (with_s_nodes [] (clear st2))).
  assert (Hst0 : next_addr st0 = next_addr st2 /\ s_nodes st0 = [] /\
                 s_connections st0 = []) by done.
  destruct Hst0 as (Ha0 & Hn0 & Hc0).
  (* the arrays of the document *)
  assert (Hnodes : toArray (obj_get "nodes" (getFlowData created st))
                   = (fun p => flowNode st p (default example_node (heap_nodes st !! p)))
                     <$> nodes).
  { unfold getFlowData. cbn [obj_set obj_get String.eqb Ascii.eqb Bool.eqb toArray].
    fold nodes. clear -Hplain. induction nodes as [|p l IH]; [done|].
    cbn [omap list_omap fmap list_fmap].
    destruct (Hplain p) as (n & Hn & _); [by left|]. rewrite Hn. cbn [fmap option_fmap option_map default].
    rewrite IH; [done|]. intros q Hq. apply Hplain. by right. }
  assert (Hconns : toArray (obj_get "connections" (getFlowData created st))
                   = omap (fun c => flowConnection <$> heap_conns st !! c)
                       (s_connections st)) by done.
  rewrite Hnodes, Hconns. clear Hnodes Hconns.
  set (arr := (fun p => flowNode st p (default example_node (heap_nodes st !! p))) <$> nodes).
  assert (Harr : forall i p n, nodes !! i = Some p -> heap_nodes st !! p = Some n ->
                   arr !! i = Some (flowNode st p n)).
  { intros i p n Hi Hp. unfold arr. rewrite list_lookup_fmap, Hi. simpl. by rewrite Hp. }
  assert (Hlookup : forall i v, arr !! i = Some v ->
                      exists p n, nodes !! i = Some p /\ heap_nodes st !! p = Some n /\
                                  m_group n = None /\ v = flowNode st p n).
  { intros i v Hi. unfold arr in Hi. rewrite list_lookup_fmap in Hi.
    destruct (nodes !! i) as [p|] eqn:Ep; [|done]. injection Hi as <-.
    destruct (Hplain p) as (n & Hn & Hg); [by eapply list_elem_of_lookup_2|].
    exists p, n. by rewrite Hn. }
  assert (Hid : forall i v, arr !! i = Some v ->
                  exists p, nodes !! i = Some p /\
                            toString (obj_get "id" (toObject v)) = node_id p).
  { intros i v Hi. destruct (Hlookup i v Hi) as (p & n & Hp & Hn & Hg & ->).
    exists p. split; [done|].
    destruct (flowNode_get st p n Hg) as (_ & -> & _). done. }
  destruct (load_nodes_heap arr ∅ st0) as (M & st1 & E & Hn & Hc & Hh & Ha & Hnew & Mnew & _ & Mkeep & Ht).
  { intros v [i Hi]%list_elem_of_lookup.
    destruct (Hlookup i v Hi) as (p & n & _ & _ & Hg & ->).
    destruct (flowNode_get st p n Hg) as (_ & _ & _ & _ & _ & _ & _ & _ & -> & _). done. }
  rewrite E. unfold arr in Hn, Ha. rewrite length_fmap in Hn, Ha. fold arr in Hn, Ha.
  rewrite Ha0 in *. rewrite Hn0 in Hn. rewrite Hc0 in Hc. cbn [app] in Hn.
  assert (HM : forall p, p ∈ nodes ->
            M !! node_id p = Some (next_addr st2 + index_in p nodes)%nat).
  { intros p Hp. pose proof (index_in_lookup p nodes Hp) as Hi.
    destruct (Hplain p Hp) as (n & Hpn & Hg).
    pose proof (Harr _ _ _ Hi Hpn) as Hv.
    destruct (Hid _ _ Hv) as (p' & Hp' & Hidp).
    assert (p' = p) by congruence. subst p'. rewrite <- Hidp.
    apply Mnew; [done|]. intros j v' Hj Hlt.
    destruct (Hid _ _ Hj) as (q & Hq & ->). rewrite Hidp.
    intros Heq%node_id_inj. subst q.
    pose proof (NoDup_lookup nodes _ _ p Hnd Hq Hi). lia. }
  assert (HM' : forall p, p ∉ nodes -> M !! node_id p = None).
  { intros p Hp. rewrite Mkeep; [done|]. intros j v Hj.
    destruct (Hid _ _ Hj) as (q & Hq & ->). intros Heq%node_id_inj. subst q.
    apply Hp. by eapply list_elem_of_lookup_2. }
  set (carr := omap (fun c => flowConnection <$> heap_conns st !! c) (s_connections st)).
  assert (Hmade : omap (loaded_connection M) carr
                  = (fun r => mkConnection (next_addr st2 + index_in (m_fromNode r) nodes)
                                (next_addr st2 + index_in (m_toNode r) nodes)
                                (m_fromPortIndex r) (m_toPortIndex r) (m_lineType r))
                    <$> kept).
  { unfold carr, kept. rewrite omap_omap. generalize (s_connections st) as l.
    induction l as [|c l IH]; [done|].
    cbn [omap list_omap]. rewrite IH. clear IH. unfold copy_source.
    destruct (heap_conns st !! c) as [r|]; [|done].
    cbn [fmap option_fmap option_map mbind option_bind].
    unfold loaded_connection, flowConnection, pasted_lineType, obj_contains.
    cbn [toObject].
    repeat first [ rewrite obj_get_set_eq | rewrite obj_get_set_ne by (intros [=]) ].
    cbn [toString]. rewrite !toInt_JInt. unfold JInt at 1. cbn [default].
    destruct (bool_decide (m_fromNode r ∈ nodes)) eqn:Bf.
    - apply bool_decide_eq_true_1 in Bf. rewrite (HM _ Bf).
      destruct (bool_decide (m_toNode r ∈ nodes)) eqn:Bt.
      + apply bool_decide_eq_true_1 in Bt. rewrite (HM _ Bt). done.
      + apply bool_decide_eq_false_1 in Bt. by rewrite (HM' _ Bt).
    - apply bool_decide_eq_false_1 in Bf. by rewrite (HM' _ Bf). }
  pose proof (load_connections_heap M carr st1) as (K1 & K2 & K3 & K4 & K5).
  cbv zeta in K1, K2, K3, K4, K5. rewrite Hmade in K1, K4. rewrite length_fmap in K1.
  rewrite Ha, Hc in K1. rewrite Ha in K4. cbn [app] in K1.
  split; [by rewrite K2|]. split; [|split; [done|]].
  - intros i p n Hi Hp.
    pose proof (Harr _ _ _ Hi Hp) as Hv.
    destruct (Hplain p) as (n0 & Hn0' & Hg); [by eapply list_elem_of_lookup_2|].
    assert (n0 = n) by congruence. subst n0.
    pose proof (K3 (next_addr st2 + i)%nat) as Hattrs. unfold attrs in Hattrs.
    rewrite (Hnew i _ Hv) in Hattrs.
    destruct (heap_nodes _ !! (next_addr st2 + i)%nat) as [n'|] eqn:En'; [|done].
    exists n'. split; [done|].
    destruct (flowNode_get st p n Hg)
      as (_ & G1 & G2 & G3 & G4 & G5 & G6 & G7 & G8 & G9 & G10 & G11).
    set (json := toObject (flowNode st p n)) in *.
    assert (Hs : set_connections [] n' = set_connections [] (Node_fromJson st0 json))
      by (cbn [fmap option_fmap option_map] in Hattrs; congruence).
    clear Hattrs.
    destruct (Node_fromJson_fields st0 json) as (F1 & F2 & F3 & F4 & F5 & F6 & _).
    destruct (Node_fromJson_more st0 json) as (R1 & R2 & R3 & R4).
    assert (C : forall k v, obj_get k json = v -> v <> JUndefined ->
                  obj_contains k json = true).
    { intros k v <- Hv'. unfold obj_contains. by destruct (obj_get k json). }
    rewrite G2 in F1. rewrite G3 in F2. rewrite G7 in F3.
    rewrite G5, toInt_JInt in F5. rewrite G6, toInt_JInt in F6.
    specialize (F5 (C _ _ G5 ltac:(done))). specialize (F6 (C _ _ G6 ltac:(done))).
    rewrite G4 in R1. cbn [isObject toObject obj_get String.eqb Ascii.eqb Bool.eqb
                           toDouble andb] in R1.
    rewrite (C _ _ G4 ltac:(done)) in R1. specialize (R1 eq_refl).
    assert (Hw : obj_contains "width" json = false)
      by (unfold obj_contains; by rewrite G9).
    destruct (R4 Hw) as [R4a R4b].
    set (x := Node_fromJson st0 json) in *.
    change (m_type n') with (m_type (set_connections [] n')).
    change (m_name n') with (m_name (set_connections [] n')).
    change (m_pos n') with (m_pos (set_connections [] n')).
    change (m_parameters n') with (m_parameters (set_connections [] n')).
    change (m_group n') with (m_group (set_connections [] n')).
    change (m_inputPortCount n') with (m_inputPortCount (set_connections [] n')).
    change (m_outputPortCount n') with (m_outputPortCount (set_connections [] n')).
    change (m_width n') with (m_width (set_connections [] n')).
    change (m_height n') with (m_height (set_connections [] n')).
    change (m_customColor n') with (m_customColor (set_connections [] n')).
    change (m_useCustomColor n') with (m_useCustomColor (set_connections [] n')).
    change (m_displayTypeName n') with (m_displayTypeName (set_connections [] n')).
    rewrite Hs. cbn [set_connections m_type m_name m_pos m_parameters m_group
                     m_inputPortCount m_outputPortCount m_width m_height
                     m_customColor m_useCustomColor m_displayTypeName].
    rewrite F1, F2, F3, F4, F5, F6, R1, R4a, R4b. cbn [toString toArray].
    do 2 (split; [done|]). split; [by destruct (m_pos n)|].
    do 6 (split; [done|]). split.
    + intros Hu. rewrite Hu in G10. rewrite G10 in R2.
      apply R2. unfold obj_contains. by rewrite G10.
    + intros Hd. apply String.eqb_neq in Hd. rewrite Hd in G11. cbn [negb] in G11.
      rewrite G11 in R3. apply R3. unfold obj_contains. by rewrite G11.
  - intros j r Hj. apply K4. by rewrite list_lookup_fmap, Hj.
Qed.

Lemma flow_save_load_round_trip_witness :
  let st := scene_state fanout_scene in
  let st2 := empty_state in
  let nodes := s_nodes st in
  let kept := omap (copy_source st nodes) (s_connections st) in
  let st' := loadFlowData (getFlowData "" st) st2 in
  let first := (next_addr st2 + length nodes)%nat in
  s_nodes st' = seq (next_addr st2) (length nodes) /\
  (forall i p n, nodes !! i = Some p -> heap_nodes st !! p = Some n ->
     exists n', heap_nodes st' !! (next_addr st2 + i)%nat = Some n' /\
       m_type n' = m_type n /\ m_name n' = m_name n /\ m_pos n' = m_pos n /\
       m_inputPortCount n' = Z.max 0 (m_inputPortCount n) /\
       m_outputPortCount n' = Z.max 0 (m_outputPortCount n) /\
       m_group n' = None /\
       m_parameters n' = [] /\
       m_width n' = DEFAULT_WIDTH /\ m_height n' = DEFAULT_HEIGHT /\
       (m_useCustomColor n = true ->
        m_customColor n' = m_customColor n /\ m_useCustomColor n' = true) /\
       (m_displayTypeName n <> "" -> m_displayTypeName n' = m_displayTypeName n)) /\
  s_connections st' = seq first (length kept) /\
  forall j r, kept !! j = Some r ->
    heap_conns st' !! (first + j)%nat
    = Some (mkConnection (next_addr st2 + index_in (m_fromNode r) nodes)
              (next_addr st2 + index_in (m_toNode r) nodes)
              (m_fromPortIndex r) (m_toPortIndex r) (m_lineType r)).
Proof.
  apply (flow_save_load_round_trip "" (scene_state fanout_scene) empty_state).
  - apply (bool_decide_unpack _); vm_compute; exact I.
  - intros p Hp. vm_compute in Hp.
    repeat (apply elem_of_cons in Hp as [->|Hp]);
      [eexists; split; vm_compute; reflexivity..|by apply elem_of_nil in Hp].
Defined.

(** ** Drawing a connection with the mouse (NodeScene.cpp) *)

Lemma port_index_range (n : Node) (point : QPointF) :
  ((0 <= getInputPortIndexAt n point)%Z ->
   (getInputPortIndexAt n point < m_inputPortCount n)%Z /\
   within_capture point (getInputPortPos n (getInputPortIndexAt n point)) = true) /\
  ((0 <= getOutputPortIndexAt n point)%Z ->
   (getOutputPortIndexAt n point < m_outputPortCount n)%Z /\
   within_capture point (getOutputPortPos n (getOutputPortIndexAt n point)) = true).
Proof.
  unfold getInputPortIndexAt, getOutputPortIndexAt. split.
  - destruct (Z.leb_spec (m_inputPortCount n) 0) as [Hc|Hc]; [lia|].
    pose proof (port_scan_spec (getInputPortPos n) point
                  (Z.to_nat (m_inputPortCount n)) 0) as H.
    cbv zeta in H. rewrite Z2Nat.id, Z.add_0_l in H by lia.
    destruct H as [[-> _]|(Hr & Hw & _)]; [lia|]. intros _. split; [lia|done].
  - destruct (Z.leb_spec (m_outputPortCount n) 0) as [Hc|Hc]; [lia|].
    pose proof (port_scan_spec (getOutputPortPos n) point
                  (Z.to_nat (m_outputPortCount n)) 0) as H.
    cbv zeta in H. rewrite Z2Nat.id, Z.add_0_l in H by lia.
    destruct H as [[-> _]|(Hr & Hw & _)]; [lia|]. intros _. split; [lia|done].
Qed.

Lemma find_target_spec (st : State) (from : option NodePtr) (scenePos : QPointF)
    (items : list Item) (t : NodePtr) (tp : Z) :
  find_target st from scenePos items = Some (t, tp) ->
  ItemNode t ∈ items /\ Some t <> from /\ tp = inputPortIndexAt st t scenePos /\
  (0 <= tp)%Z.
Proof.
  induction items as [|[p|c] items IH]; cbn [find_target as_node]; [done| |].
  - case_bool_decide as Hp.
    + destruct (Z.leb_spec 0 (inputPortIndexAt st p scenePos)) as [Hge|Hlt].
      * intros [= <- <-]. split; [by left|]. by repeat split.
      * intros H. destruct (IH H) as (? & ? & ? & ?). split; [by right|done].
    + intros H. destruct (IH H) as (? & ? & ? & ?). split; [by right|done].
  - intros H. destruct (IH H) as (? & ? & ? & ?). split; [by right|done].
Qed.

(** X24: a connection drawn with the mouse (press, then release, from the
    idle state) never joins a node to itself and always uses existing
    ports: it starts at the output port of the pressed node that is within
    the capture radius of the press point and ends at such an input port
    of a different node under the release point.  In every other case the
    gesture leaves the scene as it is, and the scene is idle again. *)
Theorem mouse_connection_is_well_formed (items1 items2 : list Item)
    (pos1 pos2 : QPointF) (sc : NodeScene) :
  let st := scene_state sc in
  let pressed := mousePressEvent LeftButton items1 pos1 cleanupTempConnection sc in
  let released := mouseReleaseEvent LeftButton items2 pos2 pressed.1 pressed.2 in
  m_connectionState released.1 = StateNone /\
  (scene_state released.2 = st \/
   exists f t fp tp nf nt,
     scene_state released.2 = (createConnection f fp t tp st).2 /\
     f <> t /\
     ItemNode f ∈ items1 /\ ItemNode t ∈ items2 /\
     heap_nodes st !! f = Some nf /\ heap_nodes st !! t = Some nt /\
     (0 <= fp < m_outputPortCount nf)%Z /\ (0 <= tp < m_inputPortCount nt)%Z /\
     within_capture pos1 (getOutputPortPos nf fp) = true /\
     within_capture pos2 (getInputPortPos nt tp) = true).
Proof.
  intros st pressed released. subst released pressed.
  unfold mousePressEvent.
  destruct (head (omap as_node items1)) as [f|] eqn:Eh; [|by split; [|left]].
  destruct (Z.leb_spec 0 (outputPortIndexAt (scene_state sc) f pos1)) as [Hge|Hlt];
    [|by split; [|left]].
  cbn [fst snd]. unfold mouseReleaseEvent. cbn [m_connectionState m_tempFromNode
                                               m_tempFromPortIndex].
  fold st. fold st in Hge.
  destruct (find_target st (Some f) pos2 items2) as [[t tp]|] eqn:Ef;
    [|by split; [|left]].
  cbn [fst snd]. split; [done|]. right.
  apply find_target_spec in Ef as (Ht & Hne & -> & Htp).
  assert (Hf : ItemNode f ∈ items1).
  { apply head_Some_elem_of in Eh. apply list_elem_of_omap in Eh as ([p|c] & Hin & [= <-]).
    done. }
  unfold outputPortIndexAt in *. unfold inputPortIndexAt in *.
  destruct (heap_nodes st !! f) as [nf|] eqn:Enf; [|cbn in Hge; lia].
  destruct (heap_nodes st !! t) as [nt|] eqn:Ent; [|cbn in Htp; lia].
  cbn [from_option] in *.
  destruct (port_index_range nf pos1) as [_ Ho]. destruct (Ho Hge) as [Ho1 Ho2].
  destruct (port_index_range nt pos2) as [Hi _]. destruct (Hi Htp) as [Hi1 Hi2].
  exists f, t, (getOutputPortIndexAt nf pos1), (getInputPortIndexAt nt pos2), nf, nt.
  split.
  { unfold scene_addConnection. rewrite scene_push_state. fold st.
    unfold new_AddConnectionCommand. cbn [redo].
    by destruct (createConnection f _ t _ st). }
  split; [congruence|]. by repeat split.
Qed.

(** ** Code generation for a scene (CodeGenerator.cpp, NodeScene.cpp) *)

Lemma analyze_nodes_lookup (nodes : list Json) (k : string) :
  foldl analyze_node ∅ nodes !! k
  = if bool_decide (k ∈ (fun v => toString (obj_get "id" (toObject v))) <$> nodes)
    then Some [] else None.
Proof.
  induction nodes as [|x nodes IH] using rev_ind.
  - cbn [foldl fmap list_fmap]. rewrite lookup_empty.
    case_bool_decide as H; [by apply elem_of_nil in H|done].
  - rewrite foldl_app, fmap_app. cbn [foldl fmap list_fmap]. unfold analyze_node at 1.
    destruct (decide (toString (obj_get "id" (toObject x)) = k)) as [E|E].
    + rewrite E, lookup_insert_eq. rewrite bool_decide_eq_true_2; [done|].
      apply elem_of_app. right. rewrite <- E. by left.
    + rewrite lookup_insert_ne by done. rewrite IH.
      apply (f_equal (fun b : bool => if b then Some [] else None)).
      apply bool_decide_ext. rewrite elem_of_app, list_elem_of_singleton. naive_solver.
Qed.

Lemma sources_of_snoc (k : string) (conns : list Json) (x : Json) :
  sources_of k (conns ++ [x])
  = sources_of k conns
    ++ (if decide (toString (obj_get "to" (toObject x)) = k)
        then [toString (obj_get "from" (toObject x))] else []).
Proof.
  unfold sources_of. rewrite filter_app, fmap_app. f_equal.
  rewrite filter_cons, filter_nil. by destruct (decide _).
Qed.

Lemma analyze_connections_exact (conns : list Json) (dependencies : gmap string (list string))
    (k : string) :
  foldl analyze_connection dependencies conns !! k
  = match dependencies !! k, sources_of k conns with
    | None, [] => None
    | ds, fs => Some (default [] ds ++ fs)
    end.
Proof.
  induction conns as [|x conns IH] using rev_ind.
  - simpl. destruct (dependencies !! k); simpl; [by rewrite app_nil_r|done].
  - rewrite foldl_app, sources_of_snoc. cbn [foldl]. unfold analyze_connection at 1.
    cbv zeta. destruct (decide (toString (obj_get "to" (toObject x)) = k)) as [E|E].
    + rewrite E, lookup_insert_eq, IH.
      destruct (dependencies !! k) as [ds|], (sources_of k conns) as [|f fs];
        simpl; rewrite ?app_nil_r, <- ?app_assoc; done.
    + rewrite lookup_insert_ne by done. rewrite IH, app_nil_r. done.
Qed.

(** The dependency list of a key is the list of its sources; the keys are
    the ids of the nodes and the targets of the connections. *)
Lemma analyzeDependencies_lookup (flowData : list (string * Json)) (k : string)
    (ds : list string) :
  analyzeDependencies flowData !! k = Some ds <->
  ds = sources_of k (toArray (obj_get "connections" flowData)) /\
  (k ∈ (fun v => toString (obj_get "id" (toObject v)))
         <$> toArray (obj_get "nodes" flowData) \/
   ds <> []).
Proof.
  unfold analyzeDependencies. cbv zeta.
  rewrite analyze_connections_exact, analyze_nodes_lookup.
  case_bool_decide as Hk; simpl.
  - destruct (sources_of k _); naive_solver.
  - destruct (sources_of k _); naive_solver.
Qed.

Lemma flowNode_id (st : State) (p : NodePtr) (n : Node) :
  toString (obj_get "id" (toObject (flowNode st p n))) = node_id p.
Proof.
  unfold flowNode. cbv zeta.
  destruct (m_group n), (m_useCustomColor n), (negb _); cbn [toObject];
    rewrite !obj_get_set_ne by (intros [=]); by rewrite obj_get_set_eq.
Qed.

Lemma flow_node_ids (created : string) (st : State) (k : string) :
  k ∈ (fun v => toString (obj_get "id" (toObject v)))
        <$> toArray (obj_get "nodes" (getFlowData created st)) <->
  exists p, p ∈ s_nodes st /\ is_Some (heap_nodes st !! p) /\ k = node_id p.
Proof.
  unfold getFlowData. cbv zeta.
  rewrite obj_get_set_ne by (intros [=]). rewrite obj_get_set_eq. cbn [toArray].
  rewrite list_elem_of_fmap. split.
  - intros (v & -> & (p & Hp & Hv)%list_elem_of_omap).
    destruct (heap_nodes st !! p) as [n|] eqn:Hn; [|done].
    simpl in Hv. injection Hv as <-. exists p. by rewrite flowNode_id.
  - intros (p & Hp & [n Hn] & ->). exists (flowNode st p n).
    split; [by rewrite flowNode_id|].
    apply list_elem_of_omap. exists p. by rewrite Hn.
Qed.

Lemma flow_sources (created : string) (st : State) (k : string) :
  sources_of k (toArray (obj_get "connections" (getFlowData created st)))
  = (fun e => node_id e.1) <$> filter (fun e => node_id e.2 = k) (endpoints st).
Proof.
  unfold getFlowData, endpoints. cbv zeta. rewrite obj_get_set_eq. cbn [toArray].
  generalize (s_connections st) as l. intros l.
  induction l as [|c l IH]; [done|]. cbn [omap list_omap].
  destruct (heap_conns st !! c) as [conn|]; [|done].
  cbn [fmap option_fmap option_map]. unfold sources_of in *.
  rewrite !filter_cons.
  change (toString (obj_get "to" (toObject (flowConnection conn))))
    with (node_id (m_toNode conn)).
  cbn [snd]. destruct (decide (node_id (m_toNode conn) = k)); [|done].
  rewrite !fmap_cons. by f_equal.
Qed.

Lemma sources_NoDup (l : list (NodePtr * NodePtr)) (k : string) :
  NoDup l -> NoDup ((fun e => node_id e.1) <$> filter (fun e => node_id e.2 = k) l).
Proof.
  intros Hnd. apply NoDup_fmap_2_strong; [|by apply NoDup_filter].
  intros [f1 t1] [f2 t2] [H1 _]%list_elem_of_filter [H2 _]%list_elem_of_filter Hf.
  simpl in *. apply node_id_inj in Hf as ->. f_equal.
  apply node_id_inj. congruence.
Qed.

Lemma endpoints_elem (st : State) (f t : NodePtr) :
  (f, t) ∈ endpoints st <->
  exists c conn, c ∈ s_connections st /\ heap_conns st !! c = Some conn /\
    m_fromNode conn = f /\ m_toNode conn = t.
Proof.
  unfold endpoints. rewrite list_elem_of_omap. split.
  - intros (c & Hc & H). destruct (heap_conns st !! c) as [conn|] eqn:E; [|done].
    simpl in H. injection H as <- <-. by exists c, conn.
  - intros (c & conn & Hc & E & <- & <-). exists c. by rewrite E.
Qed.

(** X25: code generation covers a well-formed scene.  When the scene is
    valid and acyclic (some rank grows along every connection) and no two
    connections join the same pair of nodes in the same direction, the
    execution order computed from the saved flow lists every node of the
    scene exactly once, and nothing else. *)
Theorem code_generation_covers_scene (created : string) (st : State)
    (dependencies : list (string * list string)) (rank : NodePtr -> nat) :
  dependencies ≡ₚ map_to_list (analyzeDependencies (getFlowData created st)) ->
  (forall p, p ∈ s_nodes st -> is_Some (heap_nodes st !! p)) ->
  flow_valid st ->
  (forall c conn, c ∈ s_connections st -> heap_conns st !! c = Some conn ->
     (rank (m_fromNode conn) < rank (m_toNode conn))%nat) ->
  NoDup (endpoints st) ->
  exists order,
    generateExecutionOrder dependencies = Some order /\
    NoDup order /\
    forall k, k ∈ order <-> exists p, p ∈ s_nodes st /\ k = node_id p.
Proof.
  intros Hperm Halloc Hvalid Hrank Hpar.
  assert (Hkeys : NoDup (dependencies.*1)).
  { rewrite Hperm. apply NoDup_fst_map_to_list. }
  destruct (generateExecutionOrder_inv _ Hkeys)
    as (order & inDegree & Hg & _ & Hnd & _ & Hmem & Hsub & _).
  rewrite app_nil_r in *.
  assert (Hentry : forall k ds, (k, ds) ∈ dependencies <->
            analyzeDependencies (getFlowData created st) !! k = Some ds).
  { intros k ds. rewrite Hperm. apply elem_of_map_to_list. }
  exists order. split; [done|]. split; [done|].
  intros k. split.
  - intros Hk. apply Hsub in Hk.
    apply list_elem_of_fmap in Hk as ([k' ds] & -> & Hin). simpl.
    apply Hentry, analyzeDependencies_lookup in Hin as [Hds [Hid|Hne]].
    + apply flow_node_ids in Hid as (p & Hp & _ & ->). by exists p.
    + rewrite flow_sources in Hds.
      destruct (filter (fun e => node_id e.2 = k') (endpoints st))
        as [|[f t] l] eqn:Hf; [by subst ds|].
      assert (Hft : (f, t) ∈ filter (fun e => node_id e.2 = k') (endpoints st))
        by (rewrite Hf; by left).
      apply list_elem_of_filter in Hft as [Ht Hft]. simpl in Ht.
      apply endpoints_elem in Hft as (c & conn & Hc & Hconn & <- & <-).
      destruct (Hvalid c Hc) as (conn' & Hconn' & _ & Hto).
      assert (conn' = conn) as -> by congruence.
      by exists (m_toNode conn).
  - intros (p & Hp & ->).
    remember (rank p) as r eqn:Hr. revert p Hr Hp.
    induction r as [r IH] using lt_wf_ind. intros p -> Hp.
    assert (Hin : (node_id p,
                   sources_of (node_id p)
                     (toArray (obj_get "connections" (getFlowData created st))))
                  ∈ dependencies).
    { apply Hentry, analyzeDependencies_lookup. split; [done|]. left.
      apply flow_node_ids. exists p. by split; [|split; [apply Halloc|]]. }
    apply (Hmem _ _ Hin). rewrite flow_sources.
    apply hits_all; [done|by apply sources_NoDup|].
    intros d ([f t] & -> & [Ht Hft]%list_elem_of_filter)%list_elem_of_fmap.
    simpl in *. apply node_id_inj in Ht as ->.
    apply endpoints_elem in Hft as (c & conn & Hc & Hconn & <- & <-).
    destruct (Hvalid c Hc) as (conn' & Hconn' & Hfrom & _).
    assert (conn' = conn) as -> by congruence.
    by apply (IH (rank (m_fromNode conn)) (Hrank c conn Hc Hconn)).
Qed.

Lemma code_generation_covers_scene_witness :
  exists order,
    generateExecutionOrder
      (map_to_list (analyzeDependencies (getFlowData "" (scene_state fanout_scene))))
    = Some order /\
    NoDup order /\
    forall k, k ∈ order <->
      exists p, p ∈ s_nodes (scene_state fanout_scene) /\ k = node_id p.
Proof.
  apply (code_generation_covers_scene "" (scene_state fanout_scene) _ (fun p => p)).
  - reflexivity.
  - apply Forall_forall. apply (bool_decide_unpack _); vm_compute; exact I.
  - apply validateFlow_spec. vm_compute; reflexivity.
  - assert (H : Forall (fun c =>
                  match heap_conns (scene_state fanout_scene) !! c with
                  | Some conn => (m_fromNode conn <? m_toNode conn)%nat = true
                  | None => True
                  end) (s_connections (scene_state fanout_scene))).
    { vm_compute. repeat constructor. }
    intros c conn Hc Hconn. rewrite Forall_forall in H. specialize (H c Hc).
    rewrite Hconn in H. by apply Nat.ltb_lt.
  - apply (bool_decide_unpack _); vm_compute; exact I.
Defined.

(** X26: two connections between the same two nodes in the same direction
    (on the same or on different ports) take the target node out of the
    generated code: the dependency list names the source twice, the
    in-degree of the target never reaches zero, and the node is missing
    from the execution order. *)
Theorem parallel_connections_drop_target (created : string) (st : State)
    (dependencies : list (string * list string)) (order : list string)
    (i j : nat) (c1 c2 : ConnPtr) (conn1 conn2 : Connection) :
  dependencies ≡ₚ map_to_list (analyzeDependencies (getFlowData created st)) ->
  generateExecutionOrder dependencies = Some order ->
  (i < j)%nat ->
  s_connections st !! i = Some c1 ->
  s_connections st !! j = Some c2 ->
  heap_conns st !! c1 = Some conn1 ->
  heap_conns st !! c2 = Some conn2 ->
  m_fromNode conn1 = m_fromNode conn2 ->
  m_toNode conn1 = m_toNode conn2 ->
  node_id (m_toNode conn1) ∉ order.
Proof.
  intros Hperm Hg Hij Hi Hj Hconn1 Hconn2 Hfrom Hto Hin.
  assert (Hkeys : NoDup (dependencies.*1)).
  { rewrite Hperm. apply NoDup_fst_map_to_list. }
  destruct (generateExecutionOrder_inv _ Hkeys)
    as (order' & inDegree & Hg' & _ & Hnd & _ & Hmem & _ & _).
  assert (order' = order) as -> by congruence.
  rewrite app_nil_r in *.
  set (k := node_id (m_toNode conn1)) in *.
  set (e := (m_fromNode conn1, m_toNode conn1)).
  assert (Hsplit : exists l1 l2 l3, endpoints st = l1 ++ e :: l2 ++ e :: l3).
  { assert (Hi' : take j (s_connections st) !! i = Some c1)
      by (by rewrite lookup_take_lt).
    assert (Hl : s_connections st
                 = take i (take j (s_connections st))
                   ++ c1 :: drop (S i) (take j (s_connections st))
                   ++ c2 :: drop (S j) (s_connections st)).
    { rewrite <- (take_drop_middle _ _ _ Hj) at 1.
      rewrite <- (take_drop_middle _ _ _ Hi') at 1.
      by rewrite <- app_assoc. }
    unfold endpoints. rewrite Hl.
    rewrite omap_app. cbn [omap list_omap]. rewrite Hconn1.
    rewrite omap_app. cbn [omap list_omap]. rewrite Hconn2.
    cbn [fmap option_fmap option_map]. rewrite <- Hfrom, <- Hto.
    by eexists _, _, _. }
  destruct Hsplit as (l1 & l2 & l3 & Hsplit).
  assert (Hentry : (k, (fun e => node_id e.1)
                         <$> filter (fun e => node_id e.2 = k) (endpoints st))
                   ∈ dependencies).
  { rewrite Hperm. apply elem_of_map_to_list, analyzeDependencies_lookup.
    rewrite flow_sources. split; [done|]. right.
    rewrite Hsplit, filter_app, filter_cons. rewrite decide_True by done.
    rewrite fmap_app, fmap_cons. by destruct (_ <$> filter _ l1). }
  apply (Hmem _ _ Hentry) in Hin. apply hits_full in Hin as [Hdup _]; [|done].
  rewrite Hsplit in Hdup.
  rewrite filter_app, filter_cons, decide_True in Hdup by done.
  rewrite filter_app, filter_cons, decide_True in Hdup by done.
  rewrite fmap_app, fmap_cons, fmap_app, fmap_cons in Hdup.
  apply NoDup_app in Hdup as (_ & _ & Hdup).
  apply NoDup_cons in Hdup as [Hdup _]. apply Hdup.
  apply elem_of_app. right. by left.
Qed.

Lemma parallel_connections_drop_target_witness :
  node_id (m_toNode (mkConnection 0 1 0 0 0)) ∉ ["node_0"].
Proof.
  apply (parallel_connections_drop_target "" (scene_state parallel_scene)
           (map_to_list (analyzeDependencies (getFlowData "" (scene_state parallel_scene))))
           ["node_0"] 0 1 2 3 (mkConnection 0 1 0 0 0) (mkConnection 0 1 1 0 0)).
  - reflexivity.
  - vm_compute; reflexivity.
  - lia.
  - vm_compute; reflexivity.
  - vm_compute; reflexivity.
  - vm_compute; reflexivity.
  - vm_compute; reflexivity.
  - reflexivity.
  - reflexivity.
Defined.

(** ** An editing session keeps the scene valid (NodeScene.cpp, UndoCommands.cpp) *)

Lemma scene_consistent_fields (st st' : State) :
  heap_nodes st' = heap_nodes st -> heap_conns st' = heap_conns st ->
  next_addr st' = next_addr st -> s_nodes st' = s_nodes st ->
  s_connections st' = s_connections st ->
  scene_consistent st -> scene_consistent st'.
Proof.
  intros H1 H2 H3 H4 H5 (Hv & Hr & Hn & Hc).
  unfold scene_consistent, flow_valid, registered, node_connections.
  rewrite H1, H2, H3, H4, H5. done.
Qed.

Lemma scene_consistent_add_node (n : Node) (st : State) :
  scene_consistent st ->
  scene_consistent (with_s_nodes (s_nodes st ++ [next_addr st]) (alloc_node n st).2).
Proof.
  intros (Hv & Hr & Hn & Hc). split; [|split; [|split]].
  - intros c Hc'. destruct (Hv c Hc') as (conn & Hl & Hf & Ht).
    exists conn. simpl. rewrite !elem_of_app. by repeat split; [|left|left].
  - intros c conn Hc' Hl. simpl in Hc', Hl.
    destruct (Hv c Hc') as (conn' & Hl' & Hf & Ht).
    assert (conn' = conn) as -> by congruence.
    destruct (Hr c conn Hc' Hl) as [Rf Rt].
    unfold node_connections. simpl.
    rewrite !lookup_insert_ne by (apply Hn in Hf, Ht; lia). done.
  - intros p. simpl. rewrite elem_of_app, list_elem_of_singleton. intros [Hp| ->].
    + destruct (Hn p Hp) as [Hs Hlt]. split; [|lia].
      by rewrite lookup_insert_ne by lia.
    + rewrite lookup_insert_eq. split; [done|lia].
  - intros c Hc'. simpl in *. apply Hc in Hc'. lia.
Qed.

Lemma scene_consistent_createNode (type : string) (position : QPointF) (st : State) :
  scene_consistent st -> scene_consistent (createNode type position st).2.
Proof.
  intros H. unfold createNode. cbv zeta.
  set (st1 := mkState _ _ _ _ _ _ (nodeCount st + 1)%Z _).
  assert (H1 : scene_consistent st1) by (by apply (scene_consistent_fields st)).
  apply (scene_consistent_add_node
           (Node_ctor st1 type (node_name_of_count (nodeCount st)) position)) in H1.
  exact H1.
Qed.

Lemma scene_consistent_ctor (f : NodePtr) (fp : Z) (t : NodePtr) (tp : Z) (st : State) :
  scene_consistent st -> scene_consistent (Connection_ctor f fp t tp st).2.
Proof.
  intros (Hv & Hr & Hn & Hc).
  pose proof (Connection_ctor_effect f fp t tp st) as (E1 & E2 & E3 & E4 & E5 & _ & E7 & E8).
  destruct (Connection_ctor f fp t tp st) as [c st1]. simpl in *.
  split; [|split; [|split]].
  - intros c' Hc'. rewrite E5 in Hc'. destruct (Hv c' Hc') as (conn & Hl & Hf & Ht).
    exists conn. rewrite E2, E4, lookup_insert_ne by (apply Hc in Hc'; lia). done.
  - intros c' conn Hc' Hl. rewrite E5 in Hc'.
    rewrite E2, lookup_insert_ne in Hl by (apply Hc in Hc'; lia).
    destruct (Hr c' conn Hc' Hl) as [Rf Rt]. rewrite !E8. by split; left.
  - intros p Hp. rewrite E4 in Hp. destruct (Hn p Hp) as [Hs Hlt].
    rewrite E7, E3. split; [done|lia].
  - intros c' Hc'. rewrite E5 in Hc'. apply Hc in Hc'. lia.
Qed.

Lemma scene_consistent_setLineType (type : Z) (c : ConnPtr) (st : State) :
  scene_consistent st -> scene_consistent (setLineType type c st).
Proof.
  intros (Hv & Hr & Hn & Hc).
  assert (Hl : forall c' conn', heap_conns (setLineType type c st) !! c' = Some conn' ->
            exists conn, heap_conns st !! c' = Some conn /\
              m_fromNode conn' = m_fromNode conn /\ m_toNode conn' = m_toNode conn).
  { intros c' conn'. unfold setLineType. simpl.
    destruct (decide (c = c')) as [->|Hne].
    - rewrite lookup_alter_eq. destruct (heap_conns st !! c') as [conn|]; [|done].
      intros [= <-]. by exists conn.
    - rewrite lookup_alter_ne by done. intros H. by exists conn'. }
  split; [|split; [|split]]; [| |done|done].
  - intros c' Hc'. destruct (Hv c' Hc') as (conn & Hl' & Hf & Ht).
    unfold setLineType. simpl. destruct (decide (c = c')) as [->|Hne].
    + rewrite lookup_alter_eq, Hl'. by eexists.
    + rewrite lookup_alter_ne by done. by exists conn.
  - intros c' conn' Hc' Hl'. destruct (Hl c' conn' Hl') as (conn & Hl0 & -> & ->).
    exact (Hr c' conn Hc' Hl0).
Qed.

Lemma scene_consistent_append (c : ConnPtr) (conn : Connection) (st : State) :
  scene_consistent st ->
  heap_conns st !! c = Some conn ->
  m_fromNode conn ∈ s_nodes st -> m_toNode conn ∈ s_nodes st ->
  c ∈ node_connections st (m_fromNode conn) ->
  c ∈ node_connections st (m_toNode conn) ->
  (c < next_addr st)%nat ->
  scene_consistent (with_s_connections (s_connections st ++ [c]) st).
Proof.
  intros (Hv & Hr & Hn & Hc) Hl Hf Ht Rf Rt Hlt. split; [|split; [|split]]; [| |done|].
  - intros c'. simpl. rewrite elem_of_app, list_elem_of_singleton. intros [Hc'| ->].
    + exact (Hv c' Hc').
    + by exists conn.
  - intros c' conn'. simpl. rewrite elem_of_app, list_elem_of_singleton.
    intros [Hc'| ->] Hl'.
    + exact (Hr c' conn' Hc' Hl').
    + assert (conn' = conn) as -> by congruence. done.
  - intros c'. simpl. rewrite elem_of_app, list_elem_of_singleton. intros [Hc'| ->].
    + by apply Hc.
    + done.
Qed.

(** A new connection between two nodes of the scene, with or without a
    line type set before it is listed. *)
Lemma scene_consistent_connect (f : NodePtr) (fp : Z) (t : NodePtr) (tp : Z)
    (lineType : option Z) (st : State) :
  scene_consistent st -> f ∈ s_nodes st -> t ∈ s_nodes st ->
  let r := Connection_ctor f fp t tp st in
  let st2 := match lineType with
             | Some type => setLineType type r.1 r.2
             | None => r.2
             end in
  scene_consistent (with_s_connections (s_connections st2 ++ [r.1]) st2).
Proof.
  intros H Hf Ht r st2.
  pose proof (scene_consistent_ctor f fp t tp st H) as H1. fold r in H1.
  pose proof (Connection_ctor_effect f fp t tp st) as (E1 & E2 & E3 & E4 & E5 & _ & E7 & E8).
  fold r in E1, E2, E3, E4, E5, E7, E8. cbv zeta in E1, E2, E3, E4, E5, E7, E8.
  clearbody r. destruct H as (_ & _ & Hn & _).
  assert (H2 : scene_consistent st2).
  { unfold st2. destruct lineType; [by apply scene_consistent_setLineType|done]. }
  assert (Hh : heap_nodes st2 = heap_nodes r.2 /\ s_nodes st2 = s_nodes r.2 /\
               next_addr st2 = next_addr r.2).
  { unfold st2. by destruct lineType. }
  destruct Hh as (Hh1 & Hh2 & Hh3).
  assert (Hl : exists conn, heap_conns st2 !! r.1 = Some conn /\
                 m_fromNode conn = f /\ m_toNode conn = t).
  { unfold st2. destruct lineType as [type|].
    - unfold setLineType. simpl. rewrite lookup_alter_eq, E2, E1, lookup_insert_eq.
      by eexists.
    - rewrite E2, E1, lookup_insert_eq. by eexists. }
  destruct Hl as (conn & Hl & Hcf & Hct).
  apply (scene_consistent_append r.1 conn st2 H2 Hl).
  - by rewrite Hcf, Hh2, E4.
  - by rewrite Hct, Hh2, E4.
  - rewrite Hcf. unfold node_connections. rewrite Hh1.
    apply (E8 f r.1). right. split; [done|]. split; [by left|]. by apply Hn.
  - rewrite Hct. unfold node_connections. rewrite Hh1.
    apply (E8 t r.1). right. split; [done|]. split; [by right|]. by apply Hn.
  - rewrite Hh3, E3, E1. lia.
Qed.

Lemma scene_consistent_createConnection (f : NodePtr) (fp : Z) (t : NodePtr) (tp : Z)
    (st : State) :
  scene_consistent st -> f ∈ s_nodes st -> t ∈ s_nodes st ->
  scene_consistent (createConnection f fp t tp st).2.
Proof.
  intros H Hf Ht.
  pose proof (scene_consistent_connect f fp t tp None st H Hf Ht) as H1.
  cbv zeta in H1. unfold createConnection.
  by destruct (Connection_ctor f fp t tp st).
Qed.

(** What a completed gesture does to the scene. *)
Lemma mouse_gesture_state (items1 items2 : list Item) (pos1 pos2 : QPointF)
    (sc : NodeScene) :
  let st := scene_state sc in
  let pressed := mousePressEvent LeftButton items1 pos1 cleanupTempConnection sc in
  let released := mouseReleaseEvent LeftButton items2 pos2 pressed.1 pressed.2 in
  scene_state released.2 = st \/
  exists f t fp tp,
    scene_state released.2 = (createConnection f fp t tp st).2 /\
    ItemNode f ∈ items1 /\ ItemNode t ∈ items2.
Proof.
  intros st pressed released. subst released pressed.
  unfold mousePressEvent.
  destruct (head (omap as_node items1)) as [f|] eqn:Eh; [|by left].
  destruct (Z.leb_spec 0 (outputPortIndexAt (scene_state sc) f pos1)) as [Hge|Hlt];
    [|by left].
  cbn [fst snd]. unfold mouseReleaseEvent. cbn [m_connectionState m_tempFromNode
                                               m_tempFromPortIndex].
  fold st.
  destruct (find_target st (Some f) pos2 items2) as [[t tp]|] eqn:Ef; [|by left].
  cbn [fst snd]. right.
  apply find_target_spec in Ef as (Ht & _ & _ & _).
  assert (Hf : ItemNode f ∈ items1).
  { apply head_Some_elem_of in Eh. apply list_elem_of_omap in Eh as ([p|c] & Hin & [= <-]).
    done. }
  exists f, t, (outputPortIndexAt st f pos1), tp.
  split; [|done].
  unfold scene_addConnection. rewrite scene_push_state. fold st.
  unfold new_AddConnectionCommand. cbn [redo].
  by destruct (createConnection f _ t _ st).
Qed.

Lemma node_connections_remove_keeps (x : ConnPtr) (st : State) (n : NodePtr) (c : ConnPtr) :
  c ∈ node_connections st n -> c <> x ->
  c ∈ node_connections (removeConnectionFromScene x st) n.
Proof.
  intros Hc Hne.
  assert (Hstep : forall (p : option NodePtr) (st0 : State),
            c ∈ node_connections st0 n ->
            c ∈ node_connections (on_node_opt p (removeConnection x) st0) n).
  { intros [p|] st0 H0; [|done]. cbn [on_node_opt].
    rewrite node_connections_on_node. case_decide as Hp; [|done].
    unfold node_connections in H0.
    destruct (heap_nodes st0 !! n) as [nd|]; [|done]. simpl in *.
    unfold removeAll. apply list_elem_of_filter. by split. }
  unfold removeConnectionFromScene. cbv zeta.
  change (node_connections (with_s_connections ?l ?s) n) with (node_connections s n).
  by apply Hstep, Hstep.
Qed.

Lemma node_connections_for_each_remove_keeps (cs : list ConnPtr) :
  forall (st : State) (n : NodePtr) (c : ConnPtr),
    c ∈ node_connections st n -> c ∉ cs ->
    c ∈ node_connections (for_each removeConnectionFromScene cs st) n.
Proof.
  induction cs as [|x cs IH]; intros st n c Hc Hn; [done|].
  apply not_elem_of_cons in Hn as [Hx Hn]. simpl.
  apply IH; [|done]. by apply node_connections_remove_keeps.
Qed.

Lemma scene_consistent_deleteSelected (selected : list Item) (sc : NodeScene) :
  scene_consistent (scene_state sc) ->
  scene_consistent (scene_state (deleteSelected selected sc)).
Proof.
  intros (Hv & Hr & Hn & Hc). rewrite deleteSelected_state. cbv zeta.
  set (st := scene_state sc) in *.
  set (nodes := omap as_node selected).
  set (conns := foldl _ (omap as_conn selected) nodes).
  assert (Hcs : forall c, c ∈ conns <->
            c ∈ omap as_conn selected \/ exists n, n ∈ nodes /\ c ∈ node_connections st n)
    by (intros c; apply collect_connections_elem).
  pose proof (conn_frame_for_each removeConnectionFromScene conns st
                conn_frame_remove) as (Hh & Ha & Hs & Hat).
  split; [|split; [|split]].
  - intros c. simpl.
    rewrite s_connections_for_each_remove, elem_of_removeAlls. intros [Hc' Hnc].
    destruct (Hv c Hc') as (conn & Hl & Hf & Ht). exists conn. rewrite Hh.
    split; [done|]. destruct (Hr c conn Hc' Hl) as [Rf Rt].
    rewrite !elem_of_removeAlls. repeat split; try done.
    + intros Hin. apply Hnc, Hcs. right. by exists (m_fromNode conn).
    + intros Hin. apply Hnc, Hcs. right. by exists (m_toNode conn).
  - intros c conn. simpl.
    rewrite s_connections_for_each_remove, elem_of_removeAlls. intros [Hc' Hnc].
    rewrite Hh. intros Hl. destruct (Hr c conn Hc' Hl) as [Rf Rt].
    change (node_connections (with_s_nodes ?l ?s)) with (node_connections s).
    split; by apply node_connections_for_each_remove_keeps.
  - intros p. simpl. rewrite elem_of_removeAlls. intros [Hp _].
    destruct (Hn p Hp) as [Hsome Hlt]. rewrite Ha. split; [|done].
    apply attrs_is_Some. rewrite Hat. by apply attrs_is_Some.
  - intros c. simpl. rewrite s_connections_for_each_remove, elem_of_removeAlls.
    intros [Hc' _]. rewrite Ha. by apply Hc.
Qed.

Lemma paste_nodes_consistent (offset : QPointF) (arr : list Json) :
  forall (M : gmap string NodePtr) (acc : list NodePtr) (st : State),
    scene_consistent st ->
    (forall k p, M !! k = Some p -> p ∈ s_nodes st) ->
    let r := foldl (paste_node offset) (M, acc, st) arr in
    scene_consistent r.2 /\ (forall k p, r.1.1 !! k = Some p -> p ∈ s_nodes r.2).
Proof.
  induction arr as [|v arr IH]; intros M acc st H HM; [done|].
  cbv zeta. rewrite foldl_step, paste_node_step. apply IH.
  - apply scene_consistent_add_node, H.
  - intros k p. simpl. rewrite elem_of_app, list_elem_of_singleton.
    destruct (decide (toString (obj_get "copyId" (toObject v)) = k)) as [<-|Hne].
    + rewrite lookup_insert_eq. intros [= <-]. by right.
    + rewrite lookup_insert_ne by done. intros Hp. left. by apply (HM k).
Qed.

Lemma paste_connection_consistent (M : gmap string NodePtr) (acc : list ConnPtr)
    (st : State) (v : Json) :
  scene_consistent st ->
  (forall k p, M !! k = Some p -> p ∈ s_nodes st) ->
  scene_consistent (paste_connection M (acc, st) v).2 /\
  s_nodes (paste_connection M (acc, st) v).2 = s_nodes st.
Proof.
  intros H HM. split; [|by destruct (paste_connection_step M acc st v) as (_ & ? & _)].
  unfold paste_connection. cbv zeta.
  destruct (M !! toString (obj_get "fromCopyId" (toObject v))) as [f|] eqn:Ef; [|done].
  destruct (M !! toString (obj_get "toCopyId" (toObject v))) as [t|] eqn:Et; [|done].
  apply HM in Ef, Et.
  pose proof (scene_consistent_connect f (toInt (obj_get "fromPort" (toObject v)) 0)
                t (toInt (obj_get "toPort" (toObject v)) 0)
                (if obj_contains "lineType" (toObject v)
                 then Some (toInt (obj_get "lineType" (toObject v)) 0) else None)
                st H Ef Et) as H1.
  cbv zeta in H1. destruct (Connection_ctor f _ t _ st) as [c st1].
  by destruct (obj_contains "lineType" (toObject v)).
Qed.

Lemma paste_connections_consistent (M : gmap string NodePtr) (arr : list Json) :
  forall (acc : list ConnPtr) (st : State),
    scene_consistent st ->
    (forall k p, M !! k = Some p -> p ∈ s_nodes st) ->
    scene_consistent (foldl (paste_connection M) (acc, st) arr).2.
Proof.
  induction arr as [|v arr IH]; intros acc st H HM; [done|].
  rewrite foldl_step.
  destruct (paste_connection_consistent M acc st v H HM) as [H1 Hn].
  destruct (paste_connection M (acc, st) v) as [acc1 st1]. simpl in H1, Hn.
  apply IH; [done|]. intros k p Hp. rewrite Hn. by apply (HM k).
Qed.

Lemma scene_consistent_paste (offset : QPointF) (clip : list (string * Json))
    (sc : NodeScene) :
  scene_consistent (scene_state sc) ->
  scene_consistent (scene_state (paste offset clip sc)).
Proof.
  intros H. destruct (decide (clip = [])) as [->|Hne]; [done|].
  destruct (paste_state offset clip sc Hne) as (M & pn & st1 & Hfold & ->).
  destruct (paste_nodes_consistent offset (toArray (obj_get "nodes" clip)) ∅ []
              (scene_state sc) H) as [H1 HM].
  { intros k p Hp. by rewrite lookup_empty in Hp. }
  rewrite Hfold in H1, HM. simpl in H1, HM.
  apply paste_connections_consistent.
  - by apply (scene_consistent_fields st1).
  - exact HM.
Qed.

Lemma grows_refl (st : State) : grows st st.
Proof. by repeat split. Qed.

Lemma grows_trans (st1 st2 st3 : State) : grows st1 st2 -> grows st2 st3 -> grows st1 st3.
Proof.
  intros (H1 & H2 & H3 & H4) (K1 & K2 & K3 & K4).
  split; [lia|]. split; [by intros p Hp; apply K2, H2|]. split; congruence.
Qed.

Lemma grows_alloc_node (n : Node) (st : State) :
  grows st (alloc_node n st).2 /\
  is_Some (heap_nodes (alloc_node n st).2 !! next_addr st) /\
  next_addr (alloc_node n st).2 = S (next_addr st).
Proof.
  simpl. split; [|by rewrite lookup_insert_eq].
  split; [simpl; lia|]. split; [|done]. intros p Hp. simpl.
  destruct (decide (next_addr st = p)) as [->|Hne].
  - by rewrite lookup_insert_eq.
  - by rewrite lookup_insert_ne.
Qed.

Lemma grows_on_node (p : NodePtr) (f : Node -> Node) (st : State) :
  grows st (on_node p f st).
Proof.
  split; [done|]. split; [|done]. intros q Hq. by apply on_node_is_Some.
Qed.

Lemma grows_ctor (f : NodePtr) (fp : Z) (t : NodePtr) (tp : Z) (st : State) :
  grows st (Connection_ctor f fp t tp st).2.
Proof.
  pose proof (Connection_ctor_effect f fp t tp st) as (_ & _ & E3 & E4 & E5 & _ & E7 & _).
  split; [lia|]. split; [|done]. intros p Hp. by apply E7.
Qed.

Lemma grows_load_internal_nodes (values : list Json) :
  forall acc, grows acc.2 (foldl load_internal_node acc values).2.
Proof.
  induction values as [|v values IH]; intros acc; [apply grows_refl|].
  rewrite foldl_step. eapply grows_trans; [|apply IH].
  destruct acc as [[l m] st]. unfold load_internal_node.
  destruct (grows_alloc_node (Node_fromJson st (toObject v)) st) as [H _].
  by destruct (alloc_node _ st).
Qed.

Lemma grows_load_internal_connections (m : gmap string NodePtr) (values : list Json) :
  forall acc, grows acc.2 (foldl (load_internal_connection m) acc values).2.
Proof.
  induction values as [|v values IH]; intros acc; [apply grows_refl|].
  rewrite foldl_step. eapply grows_trans; [|apply IH].
  destruct acc as [l st]. unfold load_internal_connection. cbv zeta.
  destruct (m !! _) as [f|]; [|apply grows_refl].
  destruct (m !! _) as [t|]; [|apply grows_refl].
  pose proof (grows_ctor f (toInt (obj_get "fromPort" (toObject v)) 0)
                t (toInt (obj_get "toPort" (toObject v)) 0) st) as H.
  by destruct (Connection_ctor f _ t _ st).
Qed.

(** One round of the node loop of [loadFlowData]: the new node is an
    object below the next free address, and the list of nodes gains it. *)
Lemma load_node_grows (nodeMap : gmap string NodePtr) (st : State) (nodeValue : Json) :
  exists node st1,
    load_node (nodeMap, st) nodeValue
    = (<[toString (obj_get "id" (toObject nodeValue)) := node]> nodeMap,
       with_s_nodes (s_nodes st ++ [node]) st1) /\
    grows st st1 /\ is_Some (heap_nodes st1 !! node) /\ (node < next_addr st1)%nat.
Proof.
  unfold load_node. destruct (toBool _ _).
  - cbv zeta.
    match goal with |- context [alloc_node ?n st] =>
      destruct (grows_alloc_node n st) as (G1 & S1 & N1);
      destruct (alloc_node n st) as [groupNode st1] eqn:E1 end.
    assert (groupNode = next_addr st) as -> by (by injection E1). simpl in G1, S1, N1.
    pose proof (grows_load_internal_nodes
                  (toArray (obj_get "internalNodes" (toObject nodeValue)))
                  ([], ∅, st1)) as G2.
    destruct (foldl load_internal_node _ _) as [[internalNodes internalNodeMap] st2].
    pose proof (grows_load_internal_connections internalNodeMap
                  (toArray (obj_get "internalConnections" (toObject nodeValue)))
                  ([], st2)) as G3.
    destruct (foldl (load_internal_connection _) _ _) as [internalConnections st3].
    simpl in G2, G3.
    eexists _, _. split.
    { f_equal. destruct G1 as (_ & _ & <- & _), G2 as (_ & _ & <- & _),
                        G3 as (_ & _ & <- & _). reflexivity. }
    assert (G : grows st1 (calculatePortMappings (next_addr st)
                             (on_node (next_addr st)
                                (setGroupContents internalNodes internalConnections []
                                   (foldl (load_original_position internalNodeMap) []
                                      (toArray (obj_get "originalPositions"
                                                  (toObject nodeValue))))) st3))).
    { eapply grows_trans; [exact G2|]. eapply grows_trans; [exact G3|].
      eapply grows_trans; [apply grows_on_node|]. apply grows_on_node. }
    split; [by eapply grows_trans|]. destruct G as (Gn & Gs & _).
    split; [by apply Gs|]. lia.
  - match goal with |- context [alloc_node ?n st] =>
      destruct (grows_alloc_node n st) as (G1 & S1 & N1);
      destruct (alloc_node n st) as [node st1] eqn:E1 end.
    assert (node = next_addr st) as -> by (by injection E1). simpl in G1, S1, N1.
    exists (next_addr st), st1. split.
    { f_equal. by destruct G1 as (_ & _ & <- & _). }
    split; [done|]. split; [done|lia].
Qed.

Lemma load_nodes_consistent (values : list Json) :
  forall (nodeMap : gmap string NodePtr) (st : State),
    s_connections st = [] ->
    (forall p, p ∈ s_nodes st -> is_Some (heap_nodes st !! p) /\ (p < next_addr st)%nat) ->
    (forall k p, nodeMap !! k = Some p -> p ∈ s_nodes st) ->
    let r := foldl load_node (nodeMap, st) values in
    scene_consistent r.2 /\ (forall k p, r.1 !! k = Some p -> p ∈ s_nodes r.2).
Proof.
  induction values as [|v values IH]; intros nodeMap st Hc Hn HM.
  - cbv zeta. simpl. split; [|done]. split; [|split; [|split]]; [| |done|].
    + intros c. rewrite Hc. by intros ?%elem_of_nil.
    + intros c conn. rewrite Hc. by intros ?%elem_of_nil.
    + intros c. rewrite Hc. by intros ?%elem_of_nil.
  - cbv zeta. rewrite foldl_step.
    destruct (load_node_grows nodeMap st v) as (node & st1 & -> & G & Hs & Hlt).
    destruct G as (G1 & G2 & G3 & G4).
    apply IH.
    + simpl. by rewrite G4.
    + intros p. simpl. rewrite elem_of_app, list_elem_of_singleton. intros [Hp| ->].
      * destruct (Hn p Hp) as [Hp1 Hp2]. split; [by apply G2|lia].
      * done.
    + intros k p. simpl. rewrite elem_of_app, list_elem_of_singleton.
      destruct (decide (toString (obj_get "id" (toObject v)) = k)) as [<-|Hne].
      * rewrite lookup_insert_eq. intros [= <-]. by right.
      * rewrite lookup_insert_ne by done. intros Hp. left. by apply (HM k).
Qed.

Lemma load_connection_consistent (nodeMap : gmap string NodePtr) (st : State)
    (connValue : Json) :
  scene_consistent st ->
  (forall k p, nodeMap !! k = Some p -> p ∈ s_nodes st) ->
  scene_consistent (load_connection nodeMap st connValue) /\
  s_nodes (load_connection nodeMap st connValue) = s_nodes st.
Proof.
  intros H HM. unfold load_connection. cbv zeta.
  destruct (nodeMap !! _) as [f|] eqn:Ef; [|done].
  destruct (nodeMap !! _) as [t|] eqn:Et in |- *; [|done].
  apply HM in Ef, Et.
  pose proof (scene_consistent_connect f (toInt (obj_get "fromPort" (toObject connValue)) 0)
                t (toInt (obj_get "toPort" (toObject connValue)) 0)
                (if obj_contains "lineType" (toObject connValue)
                 then Some (toInt (obj_get "lineType" (toObject connValue)) 0) else None)
                st H Ef Et) as H1.
  pose proof (Connection_ctor_effect f (toInt (obj_get "fromPort" (toObject connValue)) 0)
                t (toInt (obj_get "toPort" (toObject connValue)) 0) st)
    as (_ & _ & _ & E4 & _).
  cbv zeta in H1. destruct (Connection_ctor f _ t _ st) as [c st1]. simpl in E4.
  by destruct (obj_contains "lineType" (toObject connValue)).
Qed.

Lemma scene_consistent_loadFlowData (data : list (string * Json)) (st : State) :
  scene_consistent (loadFlowData data st).
Proof.
  unfold loadFlowData.
  set (st0 := with_s_connections [] (with_s_nodes [] (clear st))).
  destruct (load_nodes_consistent (toArray (obj_get "nodes" data)) ∅ st0) as [H HM].
  { done. }
  { intros p. by intros ?%elem_of_nil. }
  { intros k p Hp. by rewrite lookup_empty in Hp. }
  destruct (foldl load_node (∅, st0) _) as [nodeMap st1]. simpl in H, HM.
  generalize (toArray (obj_get "connections" data)) as values. intros values.
  revert st1 H HM. induction values as [|v values IH]; intros st1 H HM; [done|].
  rewrite foldl_step.
  destruct (load_connection_consistent nodeMap st1 v H HM) as [H1 Hn].
  apply IH; [done|]. intros k p Hp. rewrite Hn. by apply (HM k).
Qed.

Lemma edit_consistent (st st' : State) :
  edit st st' -> scene_consistent st -> scene_consistent st'.
Proof.
  intros [data st0|type position sc|items1 items2 pos1 pos2 sc Hitems|selected sc
          |offset clip sc] H.
  - apply scene_consistent_loadFlowData.
  - unfold addNode. rewrite scene_push_state. unfold new_AddNodeCommand. cbn [redo].
    pose proof (scene_consistent_createNode type position (scene_state sc) H) as H1.
    by destruct (createNode type position (scene_state sc)).
  - destruct (mouse_gesture_state items1 items2 pos1 pos2 sc)
      as [->|(f & t & fp & tp & -> & Hf & Ht)]; [done|].
    apply scene_consistent_createConnection; [done| |].
    + apply Hitems, elem_of_app. by left.
    + apply Hitems, elem_of_app. by right.
  - by apply scene_consistent_deleteSelected.
  - by apply scene_consistent_paste.
Qed.

(** X27: a session of opening flows, adding nodes, drawing connections with
    the mouse, deleting selections and pasting (any clipboard) never leaves
    the scene invalid.  From a consistent scene, such as the empty one,
    every scene the session reaches passes [validateFlow], keeps each
    connection in the lists of both its endpoints, and holds no dangling
    node. *)
Theorem editing_keeps_scene_valid (st st' : State) :
  scene_consistent st ->
  rtc edit st st' ->
  validateFlow st' = true /\ registered st' /\
  forall p, p ∈ s_nodes st' -> is_Some (heap_nodes st' !! p).
Proof.
  intros H Hsteps.
  assert (H' : scene_consistent st').
  { induction Hsteps as [|st1 st2 st3 Hstep _ IH]; [done|].
    apply IH. by apply (edit_consistent st1). }
  destruct H' as (Hv & Hr & Hn & _).
  split; [by apply validateFlow_spec|]. split; [done|].
  intros p Hp. by destruct (Hn p Hp).
Qed.

Lemma editing_keeps_scene_valid_witness :
  let sc1 := addNode "a" (mkPoint 0 0) empty_scene in
  let sc2 := addNode "b" (mkPoint 200 0) sc1 in
  let st3 := scene_state (deleteSelected [ItemNode 0] sc2) in
  scene_consistent empty_state /\
  rtc edit empty_state st3 /\
  validateFlow st3 = true /\ registered st3 /\
  forall p, p ∈ s_nodes st3 -> is_Some (heap_nodes st3 !! p).
Proof.
  intros sc1 sc2 st3.
  assert (H0 : scene_consistent empty_state).
  { split; [|split; [|split]].
    - intros c. by intros ?%elem_of_nil.
    - intros c conn. by intros ?%elem_of_nil.
    - intros p. by intros ?%elem_of_nil.
    - intros c. by intros ?%elem_of_nil. }
  assert (Hsteps : rtc edit empty_state st3).
  { eapply rtc_l; [exact (edit_addNode "a" (mkPoint 0 0) empty_scene)|].
    eapply rtc_l; [exact (edit_addNode "b" (mkPoint 200 0) sc1)|].
    eapply rtc_l; [exact (edit_delete [ItemNode 0] sc2)|].
    apply rtc_refl. }
  split; [exact H0|]. split; [exact Hsteps|].
  exact (editing_keeps_scene_valid empty_state st3 H0 Hsteps).
Defined.

